(** * cwjson: a shallow embedding of the node model and of the parser

    The C++ sources [cwjson.h] and [cwjson.cpp] are embedded function by
    function.  Objects of class [Value] live in an explicit heap; raw
    pointers are optional addresses; exceptions, undefined behaviour and
    the recursion budget of the model are outcomes of a small monad. *)

From Stdlib Require Import ZArith String Ascii Floats Uint63 Lia.
From stdpp Require Import gmap strings list.

Local Open Scope string_scope.
Local Open Scope Z_scope.

(** ** Exceptions and outcomes *)

(** [class JsonError : std::runtime_error] and its subclass [JsonNull],
    each with the message passed to its constructor. *)
Inductive exn : Type :=
| JsonError (what : string)
| JsonNull (what : string).

(** Ways in which the C++ code leaves defined behaviour. *)
Inductive undefined : Type :=
| ReadPastEnd       (* dereference beyond the terminating NUL of the text *)
| SignedOverflow    (* overflow of an [int] computation *)
| DanglingPointer.  (* access through a pointer to a destroyed object *)

Inductive outcome (A : Type) : Type :=
| Ok (x : A)
| Throw (e : exn)
| Undefined (u : undefined)
| OutOfFuel.        (* the budget of the model ran out; never of the code *)
Arguments Ok {A} x.
Arguments Throw {A} e.
Arguments Undefined {A} u.
Arguments OutOfFuel {A}.

#[global] Instance outcome_ret : MRet outcome := fun A x => Ok x.
#[global] Instance outcome_bind : MBind outcome := fun A B k m =>
  match m with
  | Ok x => k x
  | Throw e => Throw e
  | Undefined u => Undefined u
  | OutOfFuel => OutOfFuel
  end.

(** The error taxonomy of the specification, and the reading of each
    message of the code in it. *)
Inductive ErrorKind : Type :=
| UnexpectedCharacter | ExpectedDelimiter | LeadingZero | ExpectedDigit
| BadEscape | BadUnicode | MissingSurrogatePair
| LinkageError | NotFound | IndexOutOfRange | TypeMismatch.

Definition classify (e : exn) : option ErrorKind :=
  match e with
  | JsonError w =>
      if String.eqb w "unexpected character" then Some UnexpectedCharacter
      else if String.eqb w "expected ':' before object value" then Some ExpectedDelimiter
      else if String.eqb w "expected '}' or ',' after object element" then Some ExpectedDelimiter
      else if String.eqb w "expected ']' or ',' after array element" then Some ExpectedDelimiter
      else if String.eqb w "leading zeros are not allowed" then Some LeadingZero
      else if String.eqb w "expected digit after '.'" then Some ExpectedDigit
      else if String.eqb w "expected digit after 'e' or 'E'" then Some ExpectedDigit
      else if String.eqb w "bad escaped character" then Some BadEscape
      else if String.eqb w "bad unicode character" then Some BadUnicode
      else if String.eqb w "expected second unicode surrogate part" then Some MissingSurrogatePair
      else if String.eqb w "value is already linked to JSON object" then Some LinkageError
      else if String.eqb w "value is not an array" then Some TypeMismatch
      else if String.eqb w "value is not an object" then Some TypeMismatch
      else None
  | JsonNull w =>
      if String.eqb w "index out of range" then Some IndexOutOfRange
      else if String.prefix "value not found: " w then Some NotFound
      else if String.prefix "value is not a" w then Some TypeMismatch
      else None
  end.

(** ** The node model *)

(** Addresses of objects, and [Value *]: the null pointer is [None]. *)
Abbreviation addr := nat.
Abbreviation ptr := (option nat).

Inductive ValueType : Type :=
| TypeRoot | TypeObject | TypeArray | TypeString | TypeNumber | TypeBoolean | TypeNull.

(** The dynamic class of a node together with its [m_value] member. *)
Inductive Payload : Type :=
| PRoot
| PObject
| PArray
| PString (s : string)
| PNumber (d : float)
| PBoolean (b : bool)
| PNull.

(** The data members of [class Value]. *)
Record Value : Type := mkValue {
  m_parent : ptr;
  m_firstChild : ptr;
  m_lastChild : ptr;
  m_prev : ptr;
  m_next : ptr;
  m_length : Z;
  m_name : string;
  m_data : Payload
}.

Definition getType (v : Value) : ValueType :=
  match m_data v with
  | PRoot => TypeRoot
  | PObject => TypeObject
  | PArray => TypeArray
  | PString _ => TypeString
  | PNumber _ => TypeNumber
  | PBoolean _ => TypeBoolean
  | PNull => TypeNull
  end.

(** [Value()] and [Value(std::string &name)]: every link is null. *)
Definition new_Value (name : string) (d : Payload) : Value :=
  mkValue None None None None None 0 name d.

Definition set_parent (p : ptr) (v : Value) : Value :=
  mkValue p (m_firstChild v) (m_lastChild v) (m_prev v) (m_next v) (m_length v) (m_name v) (m_data v).
Definition set_firstChild (p : ptr) (v : Value) : Value :=
  mkValue (m_parent v) p (m_lastChild v) (m_prev v) (m_next v) (m_length v) (m_name v) (m_data v).
Definition set_lastChild (p : ptr) (v : Value) : Value :=
  mkValue (m_parent v) (m_firstChild v) p (m_prev v) (m_next v) (m_length v) (m_name v) (m_data v).
Definition set_prev (p : ptr) (v : Value) : Value :=
  mkValue (m_parent v) (m_firstChild v) (m_lastChild v) p (m_next v) (m_length v) (m_name v) (m_data v).
Definition set_next (p : ptr) (v : Value) : Value :=
  mkValue (m_parent v) (m_firstChild v) (m_lastChild v) (m_prev v) p (m_length v) (m_name v) (m_data v).
Definition set_length (n : Z) (v : Value) : Value :=
  mkValue (m_parent v) (m_firstChild v) (m_lastChild v) (m_prev v) (m_next v) n (m_name v) (m_data v).
Definition set_name (s : string) (v : Value) : Value :=
  mkValue (m_parent v) (m_firstChild v) (m_lastChild v) (m_prev v) (m_next v) (m_length v) s (m_data v).

(** ** The heap *)

(** Live objects by address, and the next address [new] hands out.
    Addresses are never reused, so a pointer to a destroyed object stays
    recognisable. *)
Record heap : Type := mkHeap {
  cells : gmap addr Value;
  brk : addr
}.

Definition empty_heap : heap := mkHeap ∅ 0%nat.

(** Computations on the heap.  The heap is returned with every outcome: after
    [Throw] it is the state the exception leaves behind, after [Undefined]
    the state in which the offending access was attempted. *)
Definition M (A : Type) : Type := heap → outcome A * heap.

#[global] Instance M_ret : MRet M := fun A x h => (Ok x, h).
#[global] Instance M_bind : MBind M := fun A B k m h =>
  match m h with
  | (Ok x, h') => k x h'
  | (Throw e, h') => (Throw e, h')
  | (Undefined u, h') => (Undefined u, h')
  | (OutOfFuel, h') => (OutOfFuel, h')
  end.

Definition throw {A} (e : exn) : M A := fun h => (Throw e, h).
Definition out_of_fuel {A} : M A := fun h => (OutOfFuel, h).
Definition lift {A} (o : outcome A) : M A := fun h => (o, h).

(** Read of the object at [a]. *)
Definition load (a : addr) : M Value := fun h =>
  match cells h !! a with
  | Some v => (Ok v, h)
  | None => (Undefined DanglingPointer, h)
  end.

(** Write to the members of the object at [a]. *)
Definition modify (a : addr) (f : Value → Value) : M unit := fun h =>
  match cells h !! a with
  | Some _ => (Ok tt, mkHeap (alter f a (cells h)) (brk h))
  | None => (Undefined DanglingPointer, h)
  end.

(** [new T(...)]. *)
Definition alloc (v : Value) : M addr := fun h =>
  (Ok (brk h), mkHeap (<[brk h := v]> (cells h)) (S (brk h))).

(** Release of the storage of the object at [a]. *)
Definition free (a : addr) : M unit := fun h =>
  match cells h !! a with
  | Some _ => (Ok tt, mkHeap (delete a (cells h)) (brk h))
  | None => (Undefined DanglingPointer, h)
  end.

(** Recursion budget for the walks over the heap: no walk over a well-formed
    tree is longer than twice the number of live objects. *)
Definition budget : M nat := fun h => (Ok (S (2 * size (cells h)))%nat, h).

(** ** Linking primitives of [class Value] *)

(** [void Value::insertValueInt(Value *value)] *)
Definition insertValueInt (this value : addr) : M unit :=
  t ← load this;
  match m_lastChild t with
  | None =>
      modify this (set_length 1);;
      modify this (set_lastChild (Some value));;
      modify this (set_firstChild (Some value))
  | Some last =>
      modify last (set_next (Some value));;
      modify value (set_prev (Some last));;
      modify this (set_lastChild (Some value));;
      modify this (fun v => set_length (m_length v + 1) v)
  end;;
  modify value (set_parent (Some this)).

(** [void Value::insertValueBeforeInt(Value *before, Value *value)] *)
Definition insertValueBeforeInt (this before value : addr) : M unit :=
  modify value (set_parent (Some this));;
  b ← load before;
  modify value (set_prev (m_prev b));;
  modify value (set_next (Some before));;
  modify before (set_prev (Some value));;
  v ← load value;
  match m_prev v with
  | Some p => modify p (set_next (Some value))
  | None => modify this (set_firstChild (Some value))
  end;;
  modify this (fun v => set_length (m_length v + 1) v).

(** [Value *Value::swapValueInt(Value *value)]; a null [m_parent] is
    dereferenced when the node has no sibling on one side. *)
Definition deref (p : ptr) : M addr :=
  match p with
  | Some a => mret a
  | None => fun h => (Undefined DanglingPointer, h)
  end.

Definition swapValueInt (this value : addr) : M addr :=
  t ← load this;
  modify value (set_parent (m_parent t));;
  t ← load this;
  modify value (set_next (m_next t));;
  t ← load this;
  modify value (set_prev (m_prev t));;
  t ← load this;
  match m_prev t with
  | Some p => modify p (set_next (Some value))
  | None => par ← deref (m_parent t); modify par (set_firstChild (Some value))
  end;;
  t ← load this;
  match m_next t with
  | Some n => modify n (set_prev (Some value))
  | None => par ← deref (m_parent t); modify par (set_lastChild (Some value))
  end;;
  mret this.

(** [Value *Value::removeValueInt(Value *value)] *)
Definition removeValueInt (this value : addr) : M addr :=
  v ← load value;
  match m_next v with
  | Some n => modify n (set_prev (m_prev v))
  | None => modify this (set_lastChild (m_prev v))
  end;;
  v ← load value;
  match m_prev v with
  | Some p => modify p (set_next (m_next v))
  | None => modify this (set_firstChild (m_next v))
  end;;
  modify this (fun t => set_length (m_length t - 1) t);;
  mret value.

(** [virtual Value::~Value()] followed by the release of the storage, that
    is [delete a]: the children are destroyed first, each after its [m_next]
    has been read. *)
Fixpoint delete_value (fuel : nat) (a : addr) : M unit :=
  match fuel with
  | O => out_of_fuel
  | S f =>
      v ← load a;
      delete_children f (m_firstChild v);;
      free a
  end
with delete_children (fuel : nat) (it : ptr) : M unit :=
  match it with
  | None => mret tt
  | Some c =>
      match fuel with
      | O => out_of_fuel
      | S f =>
          vc ← load c;
          let next := m_next vc in
          delete_value f c;;
          delete_children f next
      end
  end.

Definition delete_ (a : addr) : M unit :=
  n ← budget; delete_value n a.

(** ** The text under the cursor *)

(** A [const char *] into the NUL-terminated text is the suffix it points
    to; the empty suffix is the position of the terminator. *)
Definition peek (ptr : string) : ascii :=
  match ptr with
  | EmptyString => Ascii.zero
  | String c _ => c
  end.

(** The value of a [char] as a number. *)
Definition code (c : ascii) : Z := Z.of_N (N_of_ascii c).
(** Conversion of an [int] to [char]. *)
Definition char_of (z : Z) : ascii := ascii_of_N (Z.to_N (z mod 256)).

Definition dquote : ascii := ascii_of_nat 34.

(** [skip(ptr, count)].  Every call of the source that moves the cursor
    over the terminator is followed by a dereference of the cursor, which
    reads beyond the text: the model stops at the move. *)
Fixpoint skip (ptr : string) (count : nat) {struct count} : outcome string :=
  match count with
  | O => Ok ptr
  | S n =>
      match ptr with
      | EmptyString => Undefined ReadPastEnd
      | String _ rest => skip rest n
      end
  end.

(** [whitespace(ptr)] *)
Fixpoint whitespace (ptr : string) : string :=
  match ptr with
  | String c rest =>
      if (code c =? 0x20) || (code c =? 0x09) || (code c =? 0x0A) || (code c =? 0x0D)
      then whitespace rest else ptr
  | EmptyString => ptr
  end.

(** [isDigit(digit)] *)
Definition isDigit (digit : ascii) : bool :=
  (code "0" <=? code digit) && (code digit <=? code "9").

(** ** Strings and unicode escapes *)

(** [const char *Root::parse_unicode(int &value, const char *ptr)] *)
Fixpoint parse_unicode_loop (n : nat) (value : Z) (ptr : string) : outcome (Z * string) :=
  match n with
  | O => Ok (value, ptr)
  | S n' =>
      let hex := code (peek ptr) in
      value ←
        (if (code "0" <=? hex) && (hex <=? code "9")
         then Ok (Z.shiftl value 4 + (hex - code "0"))
         else if (code "a" <=? hex) && (hex <=? code "f")
         then Ok (Z.shiftl value 4 + (hex - code "a" + 10))
         else if (code "A" <=? hex) && (hex <=? code "F")
         then Ok (Z.shiftl value 4 + (hex - code "A" + 10))
         else Throw (JsonError "bad escaped character"));
      ptr ← skip ptr 1;
      parse_unicode_loop n' value ptr
  end.

Definition parse_unicode (ptr : string) : outcome (Z * string) :=
  parse_unicode_loop 4 0 ptr.

(** [value.append(start, ptr - start)]: the bytes between two cursors. *)
Definition run (start ptr : string) : string :=
  substring 0 (String.length start - String.length ptr) start.

(** [ptr != start] for two cursors into the same text. *)
Definition cursor_neq (ptr start : string) : bool :=
  negb (String.length ptr =? String.length start)%nat.

Definition flush (value start ptr : string) : string :=
  if cursor_neq ptr start then value +:+ run start ptr else value.

(** The continuation bytes [for (int i = len; i > 1; --i)]. *)
Fixpoint utf8_tail (i : nat) (unicode : Z) : string :=
  match i with
  | S (S j as i') =>
      let shift := Z.of_nat j * 6 in
      String (char_of (Z.lor 0x80 (Z.land (Z.shiftr unicode shift) 0x3f)))
             (utf8_tail i' unicode)
  | _ => EmptyString
  end.

(** The bytes appended for a code point: the leading byte by magnitude,
    then the continuation bytes. *)
Definition utf8 (unicode : Z) : string :=
  if unicode <? 0x80 then String (char_of unicode) (utf8_tail 1 unicode)
  else if unicode <? 0x800 then
    String (char_of (Z.lor 0xc0 (Z.shiftr unicode 6))) (utf8_tail 2 unicode)
  else if unicode <? 0x10000 then
    String (char_of (Z.lor 0xe0 (Z.shiftr unicode 12))) (utf8_tail 3 unicode)
  else
    String (char_of (Z.lor 0xf0 (Z.shiftr unicode 18))) (utf8_tail 4 unicode).

(** [case 'u'] of the escape switch, entered with the cursor on the [u]. *)
Definition parse_escape_u (ptr : string) : outcome (Z * string) :=
  ptr ← skip ptr 1;
  '(unicode, ptr) ← parse_unicode ptr;
  if ((0xDC00 <=? unicode) && (unicode <=? 0xDFFF)) || (unicode =? 0)
  then Throw (JsonError "bad unicode character")
  else if (0xD800 <=? unicode) && (unicode <=? 0xDBFF) then
    if negb (Ascii.eqb (peek ptr) "\")
    then Throw (JsonError "expected second unicode surrogate part")
    else
      ptr ← skip ptr 1;
      if negb (Ascii.eqb (peek ptr) "u")
      then Throw (JsonError "expected second unicode surrogate part")
      else
        ptr ← skip ptr 1;
        '(unicode2, ptr) ← parse_unicode ptr;
        Ok (0x10000 + Z.lor (Z.shiftl (Z.land unicode 0x3FF) 10) (Z.land unicode2 0x3FF), ptr)
  else Ok (unicode, ptr).

(** The [switch ( *ptr)] after a backslash: the bytes appended to [value]
    and the cursor after the escape. *)
Definition parse_escape (ptr : string) : outcome (string * string) :=
  let c := peek ptr in
  if Ascii.eqb c "b" then ptr ← skip ptr 1; Ok (String (char_of 8) EmptyString, ptr)
  else if Ascii.eqb c "f" then ptr ← skip ptr 1; Ok (String (char_of 12) EmptyString, ptr)
  else if Ascii.eqb c "n" then ptr ← skip ptr 1; Ok (String (char_of 10) EmptyString, ptr)
  else if Ascii.eqb c "r" then ptr ← skip ptr 1; Ok (String (char_of 13) EmptyString, ptr)
  else if Ascii.eqb c "t" then ptr ← skip ptr 1; Ok (String (char_of 9) EmptyString, ptr)
  else if Ascii.eqb c "u" then
    '(unicode, ptr) ← parse_escape_u ptr; Ok (utf8 unicode, ptr)
  else ptr' ← skip ptr 1; Ok (String c EmptyString, ptr').

(** The [while] loop of [parse_string], which runs up to a double quote or
    the terminator, and the code after it. *)
Fixpoint parse_string_loop (fuel : nat) (value start ptr : string)
  : outcome (string * string) :=
  if negb (Ascii.eqb (peek ptr) dquote) && negb (Ascii.eqb (peek ptr) Ascii.zero) then
    match fuel with
    | O => OutOfFuel
    | S f =>
        if negb (Ascii.eqb (peek ptr) "\") then
          ptr ← skip ptr 1; parse_string_loop f value start ptr
        else
          let value := flush value start ptr in
          ptr ← skip ptr 1;
          '(bytes, ptr) ← parse_escape ptr;
          parse_string_loop f (value +:+ bytes) ptr ptr
    end
  else
    let value := flush value start ptr in
    if Ascii.eqb (peek ptr) Ascii.zero then Ok (value, ptr)
    else ptr ← skip ptr 1; Ok (value, ptr).

(** [const char *Root::parse_string(std::string &value, const char *ptr)];
    the first character is skipped unseen. *)
Definition parse_string (ptr : string) : outcome (string * string) :=
  ptr ← skip ptr 1;
  if Ascii.eqb (peek ptr) dquote then ptr ← skip ptr 1; Ok (EmptyString, ptr)
  else parse_string_loop (String.length ptr) EmptyString ptr ptr.

(** ** Numbers *)

Definition INT_MIN : Z := -2147483648.
Definition INT_MAX : Z := 2147483647.

(** The result of an [int] computation. *)
Definition int (z : Z) : outcome Z :=
  if (INT_MIN <=? z) && (z <=? INT_MAX) then Ok z else Undefined SignedOverflow.

(** Conversion of a small [int] to [double]. *)
Definition Z2F (z : Z) : float := PrimFloat.of_uint63 (Uint63.of_Z z).

(** [while (isDigit( *ptr)) { number = number * 10.0 + ( *ptr - '0'); ... }] *)
Fixpoint digits (number : float) (ptr : string) : float * string :=
  match ptr with
  | String c rest =>
      if isDigit c
      then digits (number * 10 + Z2F (code c - code "0"))%float rest
      else (number, ptr)
  | EmptyString => (number, ptr)
  end.

(** The same loop after the point, which also counts the digits. *)
Fixpoint frac_digits (number : float) (frac : Z) (ptr : string) : float * Z * string :=
  match ptr with
  | String c rest =>
      if isDigit c
      then frac_digits (number * 10 + Z2F (code c - code "0"))%float (frac + 1) rest
      else (number, frac, ptr)
  | EmptyString => (number, frac, ptr)
  end.

(** [while (isDigit( *ptr)) { exp = exp * 10 + ( *ptr - '0'); ... }] *)
Fixpoint exp_digits (exp : Z) (ptr : string) : outcome (Z * string) :=
  match ptr with
  | String c rest =>
      if isDigit c
      then exp ← int (exp * 10 + (code c - code "0")); exp_digits exp rest
      else Ok (exp, ptr)
  | EmptyString => Ok (exp, ptr)
  end.

Definition scale_step (exp : Z) (number e10 : float) : float :=
  if exp <? 0 then (number / e10)%float else (number * e10)%float.

(** [while (e) { if (e & 1) {...} e >>= 1; e10 *= e10; }] for [e > 0], read
    off the binary digits of [e] from the lowest. *)
Fixpoint scale (e : positive) (exp : Z) (number e10 : float) : float :=
  match e with
  | xH => scale_step exp number e10
  | xO e' => scale e' exp number (e10 * e10)%float
  | xI e' => scale e' exp (scale_step exp number e10) (e10 * e10)%float
  end.

(** [const char *Root::parse_number(double &value, const char *ptr)] *)
Definition parse_number (ptr : string) : outcome (float * string) :=
  '(sign, ptr) ←
    (if Ascii.eqb (peek ptr) "-"
     then ptr ← skip ptr 1; Ok ((-1)%float, ptr)
     else Ok (1%float, ptr));
  '(number, ptr) ←
    (if Ascii.eqb (peek ptr) "0" then
       ptr ← skip ptr 1;
       if isDigit (peek ptr)
       then Throw (JsonError "leading zeros are not allowed")
       else Ok (0%float, ptr)
     else if isDigit (peek ptr) then Ok (digits 0%float ptr)
     else Ok (0%float, ptr));
  '(number, frac, ptr) ←
    (if Ascii.eqb (peek ptr) "." then
       ptr ← skip ptr 1;
       if negb (isDigit (peek ptr))
       then Throw (JsonError "expected digit after '.'")
       else Ok (frac_digits number 0 ptr)
     else Ok (number, 0, ptr));
  '(expSign, exp, ptr) ←
    (if Ascii.eqb (peek ptr) "e" || Ascii.eqb (peek ptr) "E" then
       ptr ← skip ptr 1;
       '(expSign, ptr) ←
         (if Ascii.eqb (peek ptr) "-" then ptr ← skip ptr 1; Ok (-1, ptr)
          else if Ascii.eqb (peek ptr) "+" then ptr ← skip ptr 1; Ok (1, ptr)
          else Ok (1, ptr));
       if negb (isDigit (peek ptr))
       then Throw (JsonError "expected digit after 'e' or 'E'")
       else '(exp, ptr) ← exp_digits 0 ptr; Ok (expSign, exp, ptr)
     else Ok (1, 0, ptr));
  let number := (sign * number)%float in
  exp ← int (exp * expSign - frac);
  e ← (if exp <? 0 then int (- exp) else Ok exp);
  let number :=
    match e with
    | Zpos p => scale p exp number 10%float
    | _ => number
    end in
  Ok (number, ptr).

(** A character that continues no number token: no digit, no point and no
    exponent mark. *)
Definition ends_number (c : ascii) : bool :=
  negb (isDigit c) && negb (Ascii.eqb c ".") && negb (Ascii.eqb c "e")
  && negb (Ascii.eqb c "E").

(** ** The recursive descent *)

(** [const char *Root::parse_value(Value *parent, std::string &name,
    const char *ptr)], with the two [while (1)] loops as functions of their
    own: each returns the cursor at the closing delimiter it broke on. *)
Fixpoint parse_value (fuel : nat) (parent : addr) (name : string) (ptr : string)
  : M string :=
  match fuel with
  | O => out_of_fuel
  | S f =>
      let ptr := whitespace ptr in
      let c := peek ptr in
      if Ascii.eqb c "{" then
        ptr ← lift (skip ptr 1);
        object ← alloc (new_Value name PObject);
        insertValueInt parent object;;
        let ptr := whitespace ptr in
        if Ascii.eqb (peek ptr) "}" then lift (skip ptr 1)
        else ptr ← parse_members f object ptr; lift (skip ptr 1)
      else if Ascii.eqb c "[" then
        ptr ← lift (skip ptr 1);
        array ← alloc (new_Value name PArray);
        insertValueInt parent array;;
        let ptr := whitespace ptr in
        if Ascii.eqb (peek ptr) "]" then lift (skip ptr 1)
        else ptr ← parse_elements f array ptr; lift (skip ptr 1)
      else if Ascii.eqb c dquote then
        '(string, ptr) ← lift (parse_string ptr);
        v ← alloc (new_Value name (PString string));
        insertValueInt parent v;;
        mret ptr
      else if Ascii.eqb c "t" then
        if String.prefix "true" ptr then
          v ← alloc (new_Value name (PBoolean true));
          insertValueInt parent v;;
          lift (skip ptr 4)
        else throw (JsonError "unexpected character")
      else if Ascii.eqb c "f" then
        if String.prefix "false" ptr then
          v ← alloc (new_Value name (PBoolean false));
          insertValueInt parent v;;
          lift (skip ptr 5)
        else throw (JsonError "unexpected character")
      else if Ascii.eqb c "n" then
        if String.prefix "null" ptr then
          v ← alloc (new_Value name PNull);
          insertValueInt parent v;;
          lift (skip ptr 4)
        else throw (JsonError "unexpected character")
      else if Ascii.eqb c "-" || isDigit c then
        '(number, ptr) ← lift (parse_number ptr);
        v ← alloc (new_Value name (PNumber number));
        insertValueInt parent v;;
        mret ptr
      else throw (JsonError "unexpected character")
  end
with parse_members (fuel : nat) (object : addr) (ptr : string) : M string :=
  match fuel with
  | O => out_of_fuel
  | S f =>
      let ptr := whitespace ptr in
      '(valueName, ptr) ← lift (parse_string ptr);
      let ptr := whitespace ptr in
      if negb (Ascii.eqb (peek ptr) ":")
      then throw (JsonError "expected ':' before object value")
      else
        ptr ← lift (skip ptr 1);
        ptr ← parse_value f object valueName ptr;
        let ptr := whitespace ptr in
        if Ascii.eqb (peek ptr) "," then
          ptr ← lift (skip ptr 1); parse_members f object ptr
        else if Ascii.eqb (peek ptr) "}" then mret ptr
        else throw (JsonError "expected '}' or ',' after object element")
  end
with parse_elements (fuel : nat) (array : addr) (ptr : string) : M string :=
  match fuel with
  | O => out_of_fuel
  | S f =>
      ptr ← parse_value f array EmptyString ptr;
      let ptr := whitespace ptr in
      if Ascii.eqb (peek ptr) "," then
        ptr ← lift (skip ptr 1); parse_elements f array ptr
      else if Ascii.eqb (peek ptr) "]" then mret ptr
      else throw (JsonError "expected ']' or ',' after array element")
  end.

(** ** [class Root] *)

(** [Root()] *)
Definition new_Root : M addr := alloc (new_Value EmptyString PRoot).

(** [void Root::parse(const char *json)]; [None] is the null pointer.  Only
    [m_firstChild] is cleared before the new value is linked. *)
Definition Root_parse (this : addr) (json : option string) : M unit :=
  match json with
  | None => mret tt
  | Some json =>
      t ← load this;
      match m_firstChild t with
      | Some c => delete_ c
      | None => mret tt
      end;;
      modify this (set_firstChild None);;
      parse_value (S (2 * String.length json)) this EmptyString json;;
      mret tt
  end.

(** [Value *Root::linkValue(Value *value)] *)
Definition Root_linkValue (this : addr) (value : ptr) : M ptr :=
  t ← load this;
  match m_firstChild t with
  | Some c => delete_ c
  | None => mret tt
  end;;
  modify this (set_firstChild value);;
  mret value.

(** [firstChild()] and [childCount()] of the node at [a]. *)
Definition firstChild (a : addr) : M ptr := v ← load a; mret (m_firstChild v).
Definition childCount (a : addr) : M Z := v ← load a; mret (m_length v).

(** ** [class Object] *)

(** [value->m_next || value->m_parent || value->m_prev] *)
Definition is_linked (v : Value) : bool :=
  bool_decide (m_next v ≠ None) || bool_decide (m_parent v ≠ None)
  || bool_decide (m_prev v ≠ None).

(** An expression statement that constructs an exception object and drops
    it: [JsonError("...");] without [throw]. *)
Definition discarded (e : exn) : M unit := mret tt.

(** [std::auto_ptr<Value> safe(value); ...; safe.release();]: [value] is
    destroyed when the guarded call throws. *)
Definition guarded {A} (value : ptr) (m : M A) : M A := fun h =>
  match m h with
  | (Throw e, h') =>
      match value with
      | Some a => (delete_ a;; throw e) h'
      | None => (Throw e, h')
      end
  | r => r
  end.

(** [const Value &Object::getValue(const char *name) const] *)
Fixpoint Object_getValue_loop (fuel : nat) (name : string) (it : ptr) : M addr :=
  match it with
  | None => throw (JsonNull ("value not found: " +:+ name))
  | Some i =>
      match fuel with
      | O => out_of_fuel
      | S f =>
          v ← load i;
          if String.eqb (m_name v) name then mret i
          else Object_getValue_loop f name (m_next v)
      end
  end.

Definition Object_getValue (this : addr) (name : string) : M addr :=
  t ← load this;
  n ← budget;
  Object_getValue_loop n name (m_firstChild t).

(** The [while (it)] loop of [Object::linkValue] and the two statements
    after it. *)
Fixpoint Object_linkValue_loop (fuel : nat) (this : addr) (name : string)
    (value : addr) (it : ptr) : M ptr :=
  match it with
  | None =>
      modify value (set_name name);;
      insertValueInt this value;;
      mret (Some value)
  | Some i =>
      match fuel with
      | O => out_of_fuel
      | S f =>
          v ← load i;
          if String.eqb (m_name v) name then
            modify value (set_name name);;
            old ← swapValueInt i value;
            delete_ old;;
            mret (Some value)
          else Object_linkValue_loop f this name value (m_next v)
      end
  end.

(** [Value *Object::linkValue(const char *name, Value *value)] *)
Definition Object_linkValue (this : addr) (name : string) (value : ptr) : M ptr :=
  match value with
  | None => mret None
  | Some value =>
      v ← load value;
      (if is_linked v
       then discarded (JsonError "value is already linked to JSON object")
       else mret tt);;
      t ← load this;
      n ← budget;
      Object_linkValue_loop n this name value (m_firstChild t)
  end.

(** [void Object::linkValueSafe(const char *name, Value *value)] *)
Definition Object_linkValueSafe (this : addr) (name : string) (value : ptr) : M unit :=
  guarded value (Object_linkValue this name value);;
  mret tt.

(** [setNumber], [setString], [setBoolean], [setNull], [createObject] and
    [createArray]: a new node, linked under [name]. *)
Definition Object_set (this : addr) (name : string) (d : Payload) : M addr :=
  newv ← alloc (new_Value EmptyString d);
  Object_linkValueSafe this name (Some newv);;
  mret newv.

Definition Object_setNumber (this : addr) (name : string) (value : float) : M addr :=
  Object_set this name (PNumber value).
Definition Object_setString (this : addr) (name : string) (value : string) : M addr :=
  Object_set this name (PString value).
Definition Object_setBoolean (this : addr) (name : string) (value : bool) : M addr :=
  Object_set this name (PBoolean value).
Definition Object_setNull (this : addr) (name : string) : M addr :=
  Object_set this name PNull.
Definition Object_createObject (this : addr) (name : string) : M addr :=
  Object_set this name PObject.
Definition Object_createArray (this : addr) (name : string) : M addr :=
  Object_set this name PArray.

(** [void Object::removeValue(const char *name)] *)
Fixpoint Object_removeValue_loop (fuel : nat) (this : addr) (name : string)
    (it : ptr) : M unit :=
  match it with
  | None => mret tt
  | Some i =>
      match fuel with
      | O => out_of_fuel
      | S f =>
          v ← load i;
          if String.eqb (m_name v) name then
            old ← removeValueInt this i;
            delete_ old
          else Object_removeValue_loop f this name (m_next v)
      end
  end.

Definition Object_removeValue (this : addr) (name : string) : M unit :=
  t ← load this;
  n ← budget;
  Object_removeValue_loop n this name (m_firstChild t).

(** ** [class Array] *)

(** [const Value &Array::getValue(int idx) const]: the loop tests
    [i++ >= idx] before it reads the node. *)
Fixpoint Array_getValue_loop (fuel : nat) (i idx : Z) (it : ptr) : M addr :=
  match it with
  | None => throw (JsonNull "index out of range")
  | Some a =>
      match fuel with
      | O => out_of_fuel
      | S f =>
          if idx <=? i then mret a
          else v ← load a; Array_getValue_loop f (i + 1) idx (m_next v)
      end
  end.

Definition Array_getValue (this : addr) (idx : Z) : M addr :=
  t ← load this;
  n ← budget;
  Array_getValue_loop n 0 idx (m_firstChild t).

(** The [while (it)] loop of [Array::linkValueInt] for [where != 0]. *)
Fixpoint Array_linkValueInt_loop (fuel : nat) (this value : addr)
    (position where_ i : Z) (it : ptr) : M ptr :=
  match it with
  | None => throw (JsonNull "index out of range")
  | Some a =>
      match fuel with
      | O => out_of_fuel
      | S f =>
          if position <=? i then
            if where_ =? 1 then
              insertValueBeforeInt this a value;;
              mret (Some value)
            else
              old ← swapValueInt a value;
              delete_ old;;
              mret (Some value)
          else
            v ← load a;
            Array_linkValueInt_loop f this value position where_ (i + 1) (m_next v)
      end
  end.

(** [Value *Array::linkValueInt(Value *value, int position, int where)] *)
Definition Array_linkValueInt (this : addr) (value : ptr) (position where_ : Z)
  : M ptr :=
  match value with
  | None => mret None
  | Some value =>
      v ← load value;
      (if is_linked v
       then discarded (JsonError "value is already linked to JSON object")
       else mret tt);;
      if where_ =? 0 then
        insertValueInt this value;;
        mret (Some value)
      else
        t ← load this;
        n ← budget;
        Array_linkValueInt_loop n this value position where_ 0 (m_firstChild t)
  end.

Definition Array_linkValueBack (this : addr) (value : ptr) : M ptr :=
  Array_linkValueInt this value 0 0.
Definition Array_linkValueBefore (this : addr) (value : ptr) (position : Z) : M ptr :=
  Array_linkValueInt this value position 1.
Definition Array_linkValueAt (this : addr) (value : ptr) (position : Z) : M ptr :=
  Array_linkValueInt this value position 2.

(** [Value *Array::linkValueSafe(Value *value, int position, int where)] *)
Definition Array_linkValueSafe (this : addr) (value : ptr) (position where_ : Z)
  : M ptr :=
  guarded value (Array_linkValueInt this value position where_);;
  mret value.

(** [linkValueSafe(new T(...), position, where)], the body of [pushNumber],
    [insertNumber], [setNumber] and their siblings for the other kinds: a
    new node linked at the back, before or at a position. *)
Definition Array_link_new (this : addr) (position where_ : Z) (d : Payload) : M addr :=
  newv ← alloc (new_Value EmptyString d);
  Array_linkValueSafe this (Some newv) position where_;;
  mret newv.

Definition Array_push (this : addr) (d : Payload) : M addr :=
  Array_link_new this 0 0 d.
Definition Array_insert (this : addr) (before : Z) (d : Payload) : M addr :=
  Array_link_new this before 1 d.
Definition Array_set (this : addr) (position : Z) (d : Payload) : M addr :=
  Array_link_new this position 2 d.

(** [void Array::removeValue(int position)] *)
Fixpoint Array_removeValue_loop (fuel : nat) (this : addr) (position i : Z)
    (it : ptr) : M unit :=
  match it with
  | None => throw (JsonNull "index out of range")
  | Some a =>
      match fuel with
      | O => out_of_fuel
      | S f =>
          if position <=? i then
            old ← removeValueInt this a;
            delete_ old
          else
            v ← load a;
            Array_removeValue_loop f this position (i + 1) (m_next v)
      end
  end.

Definition Array_removeValue (this : addr) (position : Z) : M unit :=
  t ← load this;
  n ← budget;
  Array_removeValue_loop n this position 0 (m_firstChild t).

(** ** Reading a tree off the heap *)

(** What a traversal by [firstChild()] and [nextSibling()] sees below a
    node: its name, its kind and value, and its children in order. *)
#[local] Set Warnings "-register-all".
Inductive Tree : Type :=
| Node (name : string) (data : Payload) (children : list Tree).
#[local] Set Warnings "register-all".

Fixpoint view (fuel : nat) (m : gmap addr Value) (a : addr) : option Tree :=
  match fuel with
  | O => None
  | S f =>
      v ← m !! a;
      kids ← view_siblings f m (m_firstChild v);
      Some (Node (m_name v) (m_data v) kids)
  end
with view_siblings (fuel : nat) (m : gmap addr Value) (it : ptr) : option (list Tree) :=
  match it with
  | None => Some []
  | Some c =>
      match fuel with
      | O => None
      | S f =>
          v ← m !! c;
          t ← view f m c;
          rest ← view_siblings f m (m_next v);
          Some (t :: rest)
      end
  end.

Definition tree_of (h : heap) (a : addr) : option Tree :=
  view (S (2 * size (cells h))) (cells h) a.

(** JSON text is written with single quotes in place of double quotes. *)
Definition txt (s : string) : string :=
  string_of_list_ascii
    (map (fun c => if Ascii.eqb c "'" then dquote else c) (list_ascii_of_string s)).

(** [Root r; r.parse(json)]: a text parsed into a new root at address [0]. *)
Definition document (json : string) : outcome unit * heap :=
  (r ← new_Root; Root_parse r (Some json)) empty_heap.

(** ** Well-formed containers *)

(** A member of the object at an address, when the object is live. *)
Definition field {A} (f : Value → A) (m : gmap addr Value) (a : addr) : option A :=
  f <$> m !! a.

Definition prev_of (cs : list addr) (i : nat) : ptr :=
  match i with
  | O => None
  | S j => cs !! j
  end.

(** The node at [o] has exactly the children [cs], in this order: the
    first and last child pointers and the count of [o] agree with [cs], and
    every child points to [o], to its predecessor and to its successor. *)
Record children (m : gmap addr Value) (o : addr) (cs : list addr) : Prop := {
  ch_first : field m_firstChild m o = Some (head cs);
  ch_last : field m_lastChild m o = Some (last cs);
  ch_length : field m_length m o = Some (Z.of_nat (length cs));
  ch_parent : ∀ i c, cs !! i = Some c → field m_parent m c = Some (Some o);
  ch_prev : ∀ i c, cs !! i = Some c → field m_prev m c = Some (prev_of cs i);
  ch_next : ∀ i c, cs !! i = Some c → field m_next m c = Some (cs !! S i);
  ch_nodup : NoDup (o :: cs)
}.

(** The shape of what hangs below a child pointer: the node it points to,
    what hangs below that node's first child, and what follows the node
    among its siblings. *)
Inductive Shape : Type :=
| Leaf
| Nd (a : addr) (below : Shape) (after : Shape).

Fixpoint addrs (t : Shape) : list addr :=
  match t with
  | Leaf => []
  | Nd a below after => a :: addrs below ++ addrs after
  end.

Fixpoint shape_at (m : gmap addr Value) (p : ptr) (t : Shape) : Prop :=
  match t with
  | Leaf => p = None
  | Nd a below after =>
      p = Some a ∧
      ∃ v, m !! a = Some v ∧
           shape_at m (m_firstChild v) below ∧ shape_at m (m_next v) after
  end.

(** The descendants of the node at [c] are the objects [addrs t], each of
    them once, and [c] is not among them. *)
Definition descendants (m : gmap addr Value) (c : addr) (t : Shape) : Prop :=
  (∃ v, m !! c = Some v ∧ shape_at m (m_firstChild v) t) ∧ NoDup (c :: addrs t).

(** What a node carries apart from its links to parent and siblings, and
    the same without its name. *)
Definition content (v : Value) : string * Payload * ptr * ptr * Z :=
  (m_name v, m_data v, m_firstChild v, m_lastChild v, m_length v).
Definition body (v : Value) : Payload * ptr * ptr * Z :=
  (m_data v, m_firstChild v, m_lastChild v, m_length v).

(** The writes of [swapValueInt], called on the child at index [i] of [cs]
    with the node [v]: three to [v], one to the predecessor or to the
    parent, one to the successor or to the parent. *)
Definition swap_map (m : gmap addr Value) (o : addr) (cs : list addr) (i : nat)
    (v : addr) : gmap addr Value :=
  let m3 := alter (set_prev (prev_of cs i)) v
              (alter (set_next (cs !! S i)) v (alter (set_parent (Some o)) v m)) in
  let m4 := match prev_of cs i with
            | Some p => alter (set_next (Some v)) p m3
            | None => alter (set_firstChild (Some v)) o m3
            end in
  match cs !! S i with
  | Some n => alter (set_prev (Some v)) n m4
  | None => alter (set_lastChild (Some v)) o m4
  end.

(** The writes of [removeValueInt], called on the child at index [i]. *)
Definition remove_map (m : gmap addr Value) (o : addr) (cs : list addr) (i : nat)
  : gmap addr Value :=
  let m1 := match cs !! S i with
            | Some n => alter (set_prev (prev_of cs i)) n m
            | None => alter (set_lastChild (prev_of cs i)) o m
            end in
  let m2 := match prev_of cs i with
            | Some p => alter (set_next (cs !! S i)) p m1
            | None => alter (set_firstChild (cs !! S i)) o m1
            end in
  alter (fun t => set_length (m_length t - 1) t) o m2.

(** The writes of [insertValueBeforeInt], called with the child [c] at index
    [i] and the node [v], and the list of children it leaves. *)
Definition before_map (m : gmap addr Value) (o : addr) (cs : list addr) (i : nat)
    (c v : addr) : gmap addr Value :=
  let m4 := alter (set_prev (Some v)) c
              (alter (set_next (Some c)) v
                 (alter (set_prev (prev_of cs i)) v (alter (set_parent (Some o)) v m))) in
  let m5 := match prev_of cs i with
            | Some p => alter (set_next (Some v)) p m4
            | None => alter (set_firstChild (Some v)) o m4
            end in
  alter (fun t => set_length (m_length t + 1) t) o m5.

Definition insert_at (i : nat) (v : addr) (cs : list addr) : list addr :=
  (take i cs ++ v :: drop i cs)%list.

(** What replacing the child [c] at index [i] of [cs] by the node [v] under
    [name] leaves behind: [v] stands at index [i] and carries the name; the
    other children keep their place, name, value and own children; [c] and
    its descendants [addrs t] are destroyed; nothing else changes. *)
Definition replaces_child (h h' : heap) (o : addr) (cs : list addr) (i : nat)
    (c : addr) (t : Shape) (v : addr) (name : string) : Prop :=
  children (cells h') o (<[i:=v]> cs) ∧
  field m_name (cells h') v = Some name ∧
  (∀ j c', j ≠ i → cs !! j = Some c' →
           field content (cells h') c' = field content (cells h) c') ∧
  (∀ x, x ∈ c :: addrs t → cells h' !! x = None) ∧
  (∀ x, x ∉ o :: v :: cs → x ∉ addrs t → cells h' !! x = cells h !! x).

(** A computation that never ends in an exception. *)
Definition no_throw {A} (m : M A) : Prop := ∀ h e h', m h ≠ (Throw e, h').

(** An operation by position on a node with [n] children throws the error
    for an index out of range at every position from [n] on, and throws
    nothing below [n]. *)
Definition out_of_range_beyond {A} (op : Z → M A) (h : heap) (n : nat) : Prop :=
  ∀ pos,
    (Z.of_nat n ≤ pos → op pos h = (Throw (JsonNull "index out of range"), h)) ∧
    (pos < Z.of_nat n → ∀ e h', op pos h ≠ (Throw e, h')).

(** An operation by position that makes a new node throws the error for an
    index out of range at every position from [n] on, after it has destroyed
    the node again, and throws nothing below [n]. *)
Definition out_of_range_discards {A} (op : Z → M A) (h : heap) (n : nat) : Prop :=
  ∀ pos,
    (Z.of_nat n ≤ pos →
     op pos h = (Throw (JsonNull "index out of range"), mkHeap (cells h) (S (brk h)))) ∧
    (pos < Z.of_nat n → ∀ e h', op pos h ≠ (Throw e, h')).

(** An operation by position that throws the error for an index out of
    range at every position. *)
Definition always_out_of_range {A} (op : Z → M A) (h : heap) : Prop :=
  ∀ pos, op pos h = (Throw (JsonNull "index out of range"), h).

(** The state after [new] of an unnamed node with the payload [d]. *)
Definition allocated (h : heap) (d : Payload) : heap :=
  snd (alloc (new_Value EmptyString d) h).

(** A node as [new] leaves it: no parent and no siblings. *)
Definition unlinked (v : Value) : Prop :=
  m_parent v = None ∧ m_prev v = None ∧ m_next v = None.

(** ** What a parse leaves alone *)

(** With respect to a mark [b]: new objects get addresses from [b] on, live
    objects lie below the next free address, and an object at or above [b]
    has its last child at or above [b]. *)
Definition above (b : addr) (h : heap) : Prop :=
  (b ≤ brk h)%nat ∧
  (∀ x, is_Some (cells h !! x) → (x < brk h)%nat) ∧
  (∀ x v l, cells h !! x = Some v → (b ≤ x)%nat → m_lastChild v = Some l → (b ≤ l)%nat).

(** From [h] to [h']: the objects below [b] are untouched, and no object is
    destroyed or changes its kind and value. *)
Definition extends (b : addr) (h h' : heap) : Prop :=
  (∀ x, (x < b)%nat → cells h' !! x = cells h !! x) ∧
  (∀ x v, cells h !! x = Some v → ∃ v', cells h' !! x = Some v' ∧ m_data v' = m_data v).

(** The computation [m], run from a state that satisfies [above b], ends
    in such a state that [extends] the first, with a result in [Q]. *)
Definition hoare (b : addr) {A} (m : M A) (Q : A → Prop) : Prop :=
  ∀ h o h', m h = (o, h') → above b h →
            above b h' ∧ extends b h h' ∧ ∀ x, o = Ok x → Q x.



(** The heap of a new root whose [parse] has cleared [m_firstChild]. *)
Definition root_heap : heap :=
  mkHeap (alter (set_firstChild None) 0%nat
            (<[0%nat := new_Value EmptyString PRoot]> ∅)) 1.

(** The root once a first child has been linked at address [1]. *)
Definition root_with_child : Value :=
  mkValue None (Some 1%nat) (Some 1%nat) None None 1 EmptyString PRoot.

(** The state after a new, empty container has been linked into the empty
    root. *)
Definition opened (d : Payload) : heap :=
  mkHeap (<[1%nat := mkValue (Some 0%nat) None None None None 0 EmptyString d]>
            (<[0%nat := root_with_child]> ∅)) 2.

(** The state of the heap at the opening of the text [[1,]] after its
    bracket, and of [{'a':1,}] after its brace. *)
Definition open_array : heap := opened PArray.
Definition open_object : heap := opened PObject.

(** ** The budget of the descent *)

(** The outcome is not the exhaustion of the budget, and a result satisfies
    [Q]. *)
Definition ends {A} (o : outcome A) (Q : A → Prop) : Prop :=
  match o with
  | Ok x => Q x
  | OutOfFuel => False
  | _ => True
  end.

(** The same of a computation on the heap, from every state. *)
Definition ends_in {A} (m : M A) (Q : A → Prop) : Prop :=
  ∀ h, ends (fst (m h)) Q.

(** A cursor that is not behind [ptr] in the text. *)
Definition not_behind (ptr : string) (q : string) : Prop :=
  (String.length q ≤ String.length ptr)%nat.

(** A text without a double quote and without a backslash. *)
Fixpoint unquoted (s : string) : bool :=
  match s with
  | EmptyString => true
  | String c rest => negb (Ascii.eqb c dquote) && negb (Ascii.eqb c "\") && unquoted rest
  end.

(** ** Example states *)

(** The document [{'a':1,'b':2}]: root [0], object [1], numbers [2] and [3]. *)
Definition doc_ab : heap := snd (document (txt "{'a':1,'b':2}")).

Definition parsed_twice : outcome unit * heap :=
  (r ← new_Root; Root_parse r (Some "1");; Root_parse r (Some "2")) empty_heap.

(** The document [[1]]: root [0], array [1], number [2]; then a new, empty
    object at address [3]. *)
Definition array_and_object : heap :=
  snd ((alloc (new_Value EmptyString PObject)) (snd (document "[1]"))).

(** The document [[[1],[2]]]: root [0], outer array [1], array [2] with the
    number [3], array [4] with the number [5]. *)
Definition two_arrays : heap := snd (document "[[1],[2]]").

(** The document [{'a':1,'b':[2]}]: root [0], object [1], number [2],
    array [3], number [4]. *)
Definition doc_nested : heap := snd (document (txt "{'a':1,'b':[2]}")).

(** The document [[1,2,3]]: root [0], array [1], numbers [2], [3], [4];
    then a new number [9] at address [5]. *)
Definition doc_123 : heap :=
  snd (alloc (new_Value EmptyString (PNumber 9%float)) (snd (document "[1,2,3]"))).

(** The writes of [insertValueInt], called on a node with the children [cs]
    and the node [v]. *)
Definition append_map (m : gmap addr Value) (o : addr) (cs : list addr) (v : addr)
  : gmap addr Value :=
  alter (set_parent (Some o)) v
    match last cs with
    | None =>
        alter (set_firstChild (Some v)) o
          (alter (set_lastChild (Some v)) o (alter (set_length 1) o m))
    | Some l =>
        alter (fun t => set_length (m_length t + 1) t) o
          (alter (set_lastChild (Some v)) o
             (alter (set_prev (Some l)) v (alter (set_next (Some v)) l m)))
    end.

(** ** Conversions and typed getters *)

(** [toBoolean()], [toNumber()], [toString()], [toArray()] and [toObject()]:
    the node itself in the class that overrides the function, the exception
    of [class Value] in every other. *)
Definition toBoolean (a : addr) : M addr :=
  v ← load a;
  match m_data v with
  | PBoolean _ => mret a
  | _ => throw (JsonNull "value is not a boolean")
  end.
Definition toNumber (a : addr) : M addr :=
  v ← load a;
  match m_data v with
  | PNumber _ => mret a
  | _ => throw (JsonNull "value is not a number")
  end.
Definition toString (a : addr) : M addr :=
  v ← load a;
  match m_data v with
  | PString _ => mret a
  | _ => throw (JsonNull "value is not a string")
  end.
Definition toArray (a : addr) : M addr :=
  v ← load a;
  match m_data v with
  | PArray => mret a
  | _ => throw (JsonNull "value is not an array")
  end.
Definition toObject (a : addr) : M addr :=
  v ← load a;
  match m_data v with
  | PObject => mret a
  | _ => throw (JsonNull "value is not an object")
  end.

(** [bool Value::isNull() const] *)
Definition isNull (a : addr) : M bool :=
  v ← load a;
  mret (match getType v with TypeNull => true | _ => false end).

(** [getObject(name)], [getArray(name)], [getString(name)], [getNumber(name)],
    [getBoolean(name)] and [isNull(name)] of [class Object]. *)
Definition Object_getObject (this : addr) (name : string) : M addr :=
  a ← Object_getValue this name; toObject a.
Definition Object_getArray (this : addr) (name : string) : M addr :=
  a ← Object_getValue this name; toArray a.
Definition Object_getString (this : addr) (name : string) : M addr :=
  a ← Object_getValue this name; toString a.
Definition Object_getNumber (this : addr) (name : string) : M addr :=
  a ← Object_getValue this name; toNumber a.
Definition Object_getBoolean (this : addr) (name : string) : M addr :=
  a ← Object_getValue this name; toBoolean a.
Definition Object_isNull (this : addr) (name : string) : M bool :=
  a ← Object_getValue this name; isNull a.

(** The same by position, of [class Array]. *)
Definition Array_getObject (this : addr) (idx : Z) : M addr :=
  a ← Array_getValue this idx; toObject a.
Definition Array_getArray (this : addr) (idx : Z) : M addr :=
  a ← Array_getValue this idx; toArray a.
Definition Array_getString (this : addr) (idx : Z) : M addr :=
  a ← Array_getValue this idx; toString a.
Definition Array_getNumber (this : addr) (idx : Z) : M addr :=
  a ← Array_getValue this idx; toNumber a.
Definition Array_getBoolean (this : addr) (idx : Z) : M addr :=
  a ← Array_getValue this idx; toBoolean a.
Definition Array_isNull (this : addr) (idx : Z) : M bool :=
  a ← Array_getValue this idx; isNull a.

(** [const Array &Root::getArray() const] and
    [const Object &Root::getObject() const] *)
Definition Root_getArray (this : addr) : M addr :=
  t ← load this;
  match m_firstChild t with
  | None => throw (JsonError "value is not an array")
  | Some c =>
      v ← load c;
      match getType v with
      | TypeArray => toArray c
      | _ => throw (JsonError "value is not an array")
      end
  end.
Definition Root_getObject (this : addr) : M addr :=
  t ← load this;
  match m_firstChild t with
  | None => throw (JsonError "value is not an object")
  | Some c =>
      v ← load c;
      match getType v with
      | TypeObject => toObject c
      | _ => throw (JsonError "value is not an object")
      end
  end.

(** The first of the nodes [cs] that is called [name], with its index. *)
Definition first_named (m : gmap addr Value) (name : string) (cs : list addr)
  : option (nat * addr) :=
  list_find (fun c => field m_name m c = Some name) cs.

(** What linking the node [v] under a [name] that no child has leaves
    behind: [v] stands behind the children [cs] and carries the name; the
    children keep their name, value and own children, and so does [v] but
    for the name; nothing else changes. *)
Definition appends_child (h h' : heap) (o : addr) (cs : list addr) (v : addr)
    (name : string) : Prop :=
  children (cells h') o (cs ++ [v]) ∧
  field m_name (cells h') v = Some name ∧
  field body (cells h') v = field body (cells h) v ∧
  (∀ c, c ∈ cs → field content (cells h') c = field content (cells h) c) ∧
  (∀ x, x ∉ o :: v :: cs → cells h' !! x = cells h !! x) ∧
  brk h' = brk h.

(** The index that the scans of [class Array] stop at for a position:
    [i++ >= position] holds at the first child for every position below
    one. *)
Definition scan_index (position : Z) : nat := Z.to_nat position.

(** ** Well-formed trees *)

(** The nodes at the top of a shape: the siblings of a chain, in order. *)
Fixpoint sibs (t : Shape) : list addr :=
  match t with
  | Leaf => []
  | Nd a _ after => a :: sibs after
  end.

(** Every node of the shape has the children that the shape gives it. *)
Fixpoint sound (m : gmap addr Value) (t : Shape) : Prop :=
  match t with
  | Leaf => True
  | Nd a below after => children m a (sibs below) ∧ sound m below ∧ sound m after
  end.

(** The node at [o] is the root of a well-formed tree whose nodes below
    [o] are those of [t]: at every level the links of parent, first and
    last child, siblings and count agree, and no node occurs twice. *)
Definition well_formed (m : gmap addr Value) (o : addr) (t : Shape) : Prop :=
  children m o (sibs t) ∧ sound m t ∧ NoDup (o :: addrs t).

(** The shape with one more sibling [a], with [s] below it, at the end of
    the chain. *)
Fixpoint snoc (t : Shape) (a : addr) (s : Shape) : Shape :=
  match t with
  | Leaf => Nd a s Leaf
  | Nd b below after => Nd b below (snoc after a s)
  end.

(** The members that the parser writes once, when it makes a node, and
    those by which a node hangs in its parent. *)
Definition fixed (v : Value) : string * Payload * ptr * ptr :=
  (m_name v, m_data v, m_parent v, m_prev v).
Definition links (v : Value) : ptr * ptr * ptr :=
  (m_parent v, m_prev v, m_next v).

(** From [h] to [h'], seen from the node at [P]: addresses are only added
    and live objects lie below the next free one; the objects below [P]
    are untouched; no object changes its name, value, parent or previous
    sibling; and [P] keeps its next sibling. *)
Definition frame (h h' : heap) (P : addr) : Prop :=
  (brk h ≤ brk h')%nat ∧
  (∀ x, is_Some (cells h' !! x) → (x < brk h')%nat) ∧
  (∀ x, (x < P)%nat → cells h' !! x = cells h !! x) ∧
  (∀ x, is_Some (cells h !! x) → field fixed (cells h') x = field fixed (cells h) x) ∧
  field m_next (cells h') P = field m_next (cells h) P.

(** The node at [P] has the well-formed subtree [t]: live objects lie
    before the next free address, and the objects made after [P] are
    exactly the nodes of [t]. *)
Definition rooted (h : heap) (P : addr) (t : Shape) : Prop :=
  well_formed (cells h) P t ∧
  (∀ x, is_Some (cells h !! x) → (x < brk h)%nat) ∧
  (∀ x, x ∈ addrs t → (P < x)%nat) ∧
  (∀ x, is_Some (cells h !! x) → (P < x)%nat → x ∈ addrs t).

(** The state after [new] of the node [v]. *)
Definition made (h : heap) (v : Value) : heap := snd (alloc v h).

(** The nodes of a shape that are not at its top. *)
Fixpoint inner (t : Shape) : list addr :=
  match t with
  | Leaf => []
  | Nd _ below after => (addrs below ++ inner after)%list
  end.

(** The kind and value that the dispatch of [parse_value] makes a node of
    for a text: decided by the first character after white space, with the
    characters of a string and the value of a number as [parse_string] and
    [parse_number] read them from there. *)
Definition announced (ptr : string) : option Payload :=
  let ptr := whitespace ptr in
  let c := peek ptr in
  if Ascii.eqb c "{" then Some PObject
  else if Ascii.eqb c "[" then Some PArray
  else if Ascii.eqb c dquote then
    match parse_string ptr with
    | Ok (string, _) => Some (PString string)
    | _ => None
    end
  else if Ascii.eqb c "t" then
    if String.prefix "true" ptr then Some (PBoolean true) else None
  else if Ascii.eqb c "f" then
    if String.prefix "false" ptr then Some (PBoolean false) else None
  else if Ascii.eqb c "n" then
    if String.prefix "null" ptr then Some PNull else None
  else if Ascii.eqb c "-" || isDigit c then
    match parse_number ptr with
    | Ok (number, _) => Some (PNumber number)
    | _ => None
    end
  else None.

(** ** Printing strings *)

(** [value.c_str()] read as a text: the bytes up to the first NUL. *)
Fixpoint c_str (s : string) : string :=
  match s with
  | EmptyString => EmptyString
  | String c rest => if Ascii.eqb c Ascii.zero then EmptyString else String c (c_str rest)
  end.

(** [hex[i]] of [const char *hex = {"0123456789abcdef"}] *)
Definition hex_digit (i : Z) : ascii :=
  match String.get (Z.to_nat i) "0123456789abcdef" with
  | Some c => c
  | None => Ascii.zero
  end.

(** The [switch ( *ptr)] of [Printer::printEscapedString]: what is written
    for a character that is not copied. *)
Definition escape_of (c : ascii) : string :=
  if Ascii.eqb c "\" then String "\" "\"
  else if Ascii.eqb c dquote then String "\" (String dquote EmptyString)
  else if Ascii.eqb c (char_of 8) then String "\" "b"
  else if Ascii.eqb c (char_of 12) then String "\" "f"
  else if Ascii.eqb c (char_of 10) then String "\" "n"
  else if Ascii.eqb c (char_of 13) then String "\" "r"
  else if Ascii.eqb c (char_of 9) then String "\" "t"
  else String "\" ("u00" +:+ String (hex_digit (Z.shiftr (code c) 4))
                             (String (hex_digit (Z.land (code c) 0x0f)) EmptyString)).

(** The [while ( *ptr)] loop of [Printer::printEscapedString] and the write
    after it: [out] is what the stream holds, [str] the start of the
    characters not yet written, [ptr] the cursor. *)
Fixpoint printEscaped_loop (out str ptr : string) : string :=
  match ptr with
  | EmptyString => flush out str ptr
  | String c rest =>
      if Ascii.eqb c Ascii.zero then flush out str ptr
      else if (31 <? code c) && negb (Ascii.eqb c dquote) && negb (Ascii.eqb c "\")
      then printEscaped_loop out str rest
      else printEscaped_loop (flush out str ptr +:+ escape_of c) rest rest
  end.

(** [void Printer::printEscapedString(const std::string &value)], on the
    stream content [out]. *)
Definition printEscapedString (out value : string) : string :=
  printEscaped_loop (out +:+ String dquote EmptyString) value value
  +:+ String dquote EmptyString.

(** A character that [printEscapedString] copies. *)
Definition copied (c : ascii) : bool :=
  (31 <? code c) && negb (Ascii.eqb c dquote) && negb (Ascii.eqb c "\").

(** The text between the quotes that [printEscapedString] writes for [s]. *)
Fixpoint escaped (s : string) : string :=
  match s with
  | EmptyString => EmptyString
  | String c rest =>
      if Ascii.eqb c Ascii.zero then EmptyString
      else if copied c then String c (escaped rest)
      else escape_of c +:+ escaped rest
  end.

(** ** [class Printer] and the traversal *)

(** The members of [class Printer]; [m_out] is what the stream holds. *)
Record Printer : Type := mkPrinter {
  m_out : string;
  m_depth : Z;
  m_format : bool;
  m_tab : string;
  m_lineBreak : string
}.

(** [m_out << s] *)
Definition put (s : string) (p : Printer) : Printer :=
  mkPrinter (m_out p +:+ s) (m_depth p) (m_format p) (m_tab p) (m_lineBreak p).

Definition set_depth (d : Z) (p : Printer) : Printer :=
  mkPrinter (m_out p) d (m_format p) (m_tab p) (m_lineBreak p).






Section formatted.
(** The text that the stream library writes for a [double] at the
    precision [std::numeric_limits<double>::digits10 + 1]. *)
Variable show_double : float → string.





(** *** The text of a tree *)


(** What [printEscapedString] appends for a string. *)
Definition quoted (s : string) : string :=
  String dquote (escaped s +:+ String dquote EmptyString).

(** The name of a member of an object with its colon. *)
Definition key (format in_object : bool) (name : string) : string :=
  if in_object then quoted name +:+ (if format then " : " else ":") else EmptyString.


Definition is_object (d : Payload) : bool :=
  match d with PObject => true | _ => false end.



End formatted.

(** *** The trees of a shape *)

(** What the nodes of a shape hold: for every sibling its name, its kind
    and value, and the same of its children. *)
Fixpoint forest (m : gmap addr Value) (t : Shape) : list Tree :=
  match t with
  | Leaf => []
  | Nd a below after =>
      match m !! a with
      | None => forest m after
      | Some v => Node (m_name v) (m_data v) (forest m below) :: forest m after
      end
  end.




(** The settings of [Root::print]. *)
Definition standard (p : Printer) : Prop :=
  m_tab p = "   " ∧ m_lineBreak p = String (char_of 10) EmptyString.


(** A shape whose text can be read back: no node is a [Root], the nodes
    that are neither objects nor arrays have no children, and the numbers
    satisfy [ok]. *)
Fixpoint printable (ok : float → Prop) (m : gmap addr Value) (t : Shape) : Prop :=
  match t with
  | Leaf => True
  | Nd a below after =>
      (∃ v, m !! a = Some v ∧
            match m_data v with
            | PRoot => False
            | PObject | PArray => True
            | PNumber x => below = Leaf ∧ ok x
            | _ => below = Leaf
            end) ∧
      printable ok m below ∧ printable ok m after
  end.


(** ** Reading a printed text *)





(** The document [{'a':[true,null,'x',1],'b':{}}]: root [0], object [1],
    array [2] with the elements [3], [4], [5] and [6], and the empty
    object [7]. *)
Definition doc_mixed : heap := snd (document (txt "{'a':[true,null,'x',1],'b':{}}")).

(** ** Copies *)

(** [Value *clone() const], dispatched on the class of the node.
    [Number], [String], [Boolean] and [Null] return a new node made from
    [m_value] alone.  [Object::clone] and [Array::clone] make a new
    container and walk the children from [m_firstChild] along [m_next]:
    each child is cloned and the clone is linked with [insertValueInt];
    [Object::clone] calls [copy->setName(it->m_name)] before that, which
    [Array::clone] does not, so the two loops are one here, with [named]
    telling them apart.  [Root::clone] makes a new root and passes the clone
    of its first child to [linkValue].  Nothing in these bodies throws, so
    the [auto_ptr] that holds the new container never destroys it. *)
Fixpoint clone (fuel : nat) (a : addr) : M addr :=
  match fuel with
  | O => out_of_fuel
  | S f =>
      v ← load a;
      match m_data v with
      | PObject =>
          copy ← alloc (new_Value EmptyString PObject);
          clone_children f true copy (m_firstChild v);;
          mret copy
      | PArray =>
          copy ← alloc (new_Value EmptyString PArray);
          clone_children f false copy (m_firstChild v);;
          mret copy
      | PRoot =>
          copy ← alloc (new_Value EmptyString PRoot);
          match m_firstChild v with
          | Some c => x ← clone f c; Root_linkValue copy (Some x);; mret copy
          | None => mret copy
          end
      | d => alloc (new_Value EmptyString d)
      end
  end
with clone_children (fuel : nat) (named : bool) (copy : addr) (it : ptr) : M unit :=
  match it with
  | None => mret tt
  | Some c =>
      match fuel with
      | O => out_of_fuel
      | S f =>
          x ← clone f c;
          (if named then vc ← load c; modify x (set_name (m_name vc)) else mret tt);;
          insertValueInt copy x;;
          vc ← load c;
          clone_children f named copy (m_next vc)
      end
  end.

(** A call of [clone] from outside, with the budget of the walks. *)
Definition Value_clone (a : addr) : M addr := n ← budget; clone n a.

(** [Value &Object::setValue(const char *name, Value &value)] *)
Definition Object_setValue (this : addr) (name : string) (value : addr) : M addr :=
  newv ← Value_clone value;
  Object_linkValueSafe this name (Some newv);;
  mret newv.

(** [pushValue], [insertValue] and [setValue] of [class Array] *)
Definition Array_link_clone (this : addr) (position where_ : Z) (value : addr) : M addr :=
  newv ← Value_clone value;
  Array_linkValueSafe this (Some newv) position where_;;
  mret newv.
Definition Array_pushValue (this : addr) (value : addr) : M addr :=
  Array_link_clone this 0 0 value.
Definition Array_insertValue (this : addr) (before : Z) (value : addr) : M addr :=
  Array_link_clone this before 1 value.
Definition Array_setValue (this : addr) (position : Z) (value : addr) : M addr :=
  Array_link_clone this position 2 value.

(** What a clone holds: the kind and value of the original and clones of
    its children; the name only where the parent is an object. *)
Fixpoint recopy (named : bool) (t : Tree) : Tree :=
  match t with
  | Node name d kids =>
      Node (if named then name else EmptyString) d (map (recopy (is_object d)) kids)
  end.

(** The state in which a subtree has been built at the next free address
    of [h0]: the subtree at [brk h0] is [s], it hangs nowhere, and what was
    there before is untouched. *)
Definition built (h0 h1 : heap) (s : Shape) : Prop :=
  rooted h1 (brk h0) s ∧
  (∀ x, (x < brk h0)%nat → cells h1 !! x = cells h0 !! x) ∧
  field links (cells h1) (brk h0) = Some (None, None, None).

(** What the loop over the children [it] of the original links into the
    copy at [P], and what [clone] makes of a node with [below] under it. *)
Definition loop_spec (t : Shape) : Prop :=
  ∀ fuel named h1 P sh it,
    (2 * length (addrs t) ≤ fuel)%nat →
    rooted h1 P sh →
    shape_at (cells h1) it t → printable (λ _, True) (cells h1) t →
    (∀ x, x ∈ addrs t → (x < P)%nat) →
    ∃ h2 sh', clone_children fuel named P it h1 = (Ok tt, h2) ∧
              rooted h2 P sh' ∧ frame h1 h2 P ∧
              forest (cells h2) sh'
              = (forest (cells h1) sh ++ map (recopy named) (forest (cells h1) t))%list.

Definition node_spec (below : Shape) : Prop :=
  ∀ fuel h a va,
    (1 + 2 * length (addrs below) ≤ fuel)%nat →
    (∀ x, is_Some (cells h !! x) → (x < brk h)%nat) →
    cells h !! a = Some va →
    shape_at (cells h) (m_firstChild va) below →
    printable (λ _, True) (cells h) (Nd a below Leaf) →
    ∃ h' s, clone fuel a h = (Ok (brk h), h') ∧ built h h' s ∧
            field fixed (cells h') (brk h) = Some (EmptyString, m_data va, None, None) ∧
            forest (cells h') s
            = map (recopy (is_object (m_data va))) (forest (cells h) below).

(** [Value &Root::setValue(Value &value)] *)
Definition Root_setValue (this : addr) (value : addr) : M addr :=
  newv ← Value_clone value;
  t ← load this;
  match m_firstChild t with
  | Some c => delete_ c
  | None => mret tt
  end;;
  modify this (set_firstChild (Some newv));;
  mret newv.

(** The nodes that go when the first child of a root with the subtree
    [old] is destroyed. *)
Definition destroyed (first : ptr) (old : Shape) : list addr :=
  match first with
  | Some c => c :: addrs old
  | None => []
  end.


(** * Properties *)

(** ** Parsing into a root that was parsed into before *)

(** C1.  [Root r; r.parse("1"); r.parse("2")]: the second call destroys the
    child at address [1] and clears [m_firstChild], but leaves [m_lastChild]
    pointing to the destroyed child and [m_length] at [1].  Linking the new
    value (address [2]) therefore takes the branch of [insertValueInt] for a
    non-empty parent and writes through the dangling pointer; the root never
    gets a first child, and the new node stays unlinked. *)
Theorem Root_parse_again_keeps_stale_lastChild :
  fst parsed_twice = Undefined DanglingPointer ∧
  cells (snd parsed_twice) !! 0%nat
    = Some (mkValue None None (Some 1%nat) None None 1 EmptyString PRoot) ∧
  cells (snd parsed_twice) !! 1%nat = None ∧
  cells (snd parsed_twice) !! 2%nat
    = Some (new_Value EmptyString (PNumber 2%float)).
Proof. vm_compute. repeat split; reflexivity. Qed.

(** ** Linking a node that is already linked *)

(** C3.  The number at address [2] is a child of the array at [1].  Linking
    it into the object at [3] by name, or once more into the array, raises
    nothing: the call returns the node, and the destination has changed (the
    object now counts one child, the array two), while the array at [1]
    still has the node as its first child.  In the document [[[1],[2]]]
    the number at [3] is a child of the array at [2]; linking it into the
    array at [4] before or at position [0] raises nothing either, and the
    array at [4] then holds it, in front of its own child or in its place. *)
Theorem linkValue_accepts_linked_node :
  (is_linked <$> cells array_and_object !! 2%nat) = Some true ∧
  fst (Object_linkValue 3%nat "x" (Some 2%nat) array_and_object) = Ok (Some 2%nat) ∧
  (let h := snd (Object_linkValue 3%nat "x" (Some 2%nat) array_and_object) in
   (m_firstChild <$> cells h !! 3%nat) = Some (Some 2%nat) ∧
   (m_length <$> cells h !! 3%nat) = Some 1 ∧
   (m_parent <$> cells h !! 2%nat) = Some (Some 3%nat) ∧
   (m_firstChild <$> cells h !! 1%nat) = Some (Some 2%nat)) ∧
  fst (Array_linkValueBack 1%nat (Some 2%nat) array_and_object) = Ok (Some 2%nat) ∧
  (let h := snd (Array_linkValueBack 1%nat (Some 2%nat) array_and_object) in
   (m_length <$> cells h !! 1%nat) = Some 2 ∧
   (m_next <$> cells h !! 2%nat) = Some (Some 2%nat)) ∧
  (is_linked <$> cells two_arrays !! 3%nat) = Some true ∧
  fst (Array_linkValueBefore 4%nat (Some 3%nat) 0 two_arrays) = Ok (Some 3%nat) ∧
  (let h := snd (Array_linkValueBefore 4%nat (Some 3%nat) 0 two_arrays) in
   tree_of h 4%nat
   = Some (Node EmptyString PArray
             [Node EmptyString (PNumber 1%float) []; Node EmptyString (PNumber 2%float) []]) ∧
   (m_firstChild <$> cells h !! 2%nat) = Some (Some 3%nat)) ∧
  fst (Array_linkValueAt 4%nat (Some 3%nat) 0 two_arrays) = Ok (Some 3%nat) ∧
  (let h := snd (Array_linkValueAt 4%nat (Some 3%nat) 0 two_arrays) in
   tree_of h 4%nat
   = Some (Node EmptyString PArray [Node EmptyString (PNumber 1%float) []]) ∧
   (m_firstChild <$> cells h !! 2%nat) = Some (Some 3%nat)).
Proof. vm_compute. repeat split; reflexivity. Qed.

(** ** Surrogate pairs *)

(** C4.  In [\uD83D\u0041] the unit after the high surrogate is not a low
    surrogate.  The string is accepted all the same: the second unit is
    combined unchecked, which gives U+1F441 as the bytes F0 9F 91 81. *)
Theorem surrogate_second_unit_unchecked :
  parse_string (txt "'\uD83D\u0041'")
  = Ok (String (char_of 0xF0) (String (char_of 0x9F)
         (String (char_of 0x91) (String (char_of 0x81) EmptyString))),
        EmptyString).
Proof. vm_compute. reflexivity. Qed.

(** The pair of the specification decodes as it says. *)
Lemma surrogate_pair_example :
  parse_string (txt "'\uD83D\uDE00'")
  = Ok (String (char_of 0xF0) (String (char_of 0x9F)
         (String (char_of 0x98) (String (char_of 0x80) EmptyString))),
        EmptyString).
Proof. vm_compute. reflexivity. Qed.

(** ** Number tokens without digits *)

(** A sign that no digit, point or exponent follows is a number token. *)
Lemma parse_number_sign_only rest :
  ends_number (peek rest) = true →
  parse_number (String "-" rest) = Ok ((-0)%float, rest).
Proof.
  intros H. unfold ends_number in H.
  apply andb_prop in H as [H HE]. apply andb_prop in H as [H He].
  apply andb_prop in H as [Hd Hp].
  apply negb_true_iff in Hd, Hp, He, HE.
  assert (Ascii.eqb (peek rest) "0" = false) as H0.
  { destruct (Ascii.eqb (peek rest) "0") eqn:E; [|done].
    apply Ascii.eqb_eq in E. rewrite E in Hd. discriminate Hd. }
  unfold parse_number. change (peek (String "-" rest)) with "-"%char.
  change (Ascii.eqb "-" "-") with true. cbv iota.
  change (skip (String "-" rest) 1) with (Ok (A := string) rest).
  cbn [mbind outcome_bind]. rewrite H0, Hd. cbn [mbind outcome_bind].
  rewrite Hp. cbn [mbind outcome_bind]. rewrite He, HE. reflexivity.
Qed.

(** C10.  The texts [-] and [-e5] are dispatched to [parse_number], which
    asks for no digit in the integral part: both parse to a document whose
    only value is the number negative zero, equal to [0] as a double.  So
    does every text that goes on after the sign with a character that
    continues no number. *)
Theorem parse_number_accepts_no_digits :
  (fst (document "-") = Ok tt ∧
   tree_of (snd (document "-")) 0%nat
     = Some (Node EmptyString PRoot [Node EmptyString (PNumber (-0)%float) []]) ∧
   fst (document "-e5") = Ok tt ∧
   tree_of (snd (document "-e5")) 0%nat
     = Some (Node EmptyString PRoot [Node EmptyString (PNumber (-0)%float) []]) ∧
   PrimFloat.eqb (-0)%float 0%float = true) ∧
  ∀ rest, ends_number (peek rest) = true →
          parse_number (String "-" rest) = Ok ((-0)%float, rest).
Proof.
  split; [vm_compute; repeat split; reflexivity|].
  exact parse_number_sign_only.
Qed.

Lemma parse_number_accepts_no_digits_witness :
  parse_number "-,2]" = Ok ((-0)%float, ",2]").
Proof. exact (proj2 parse_number_accepts_no_digits ",2]" eq_refl). Defined.

(** ** Failed parses and trailing commas on examples *)


Lemma failed_parse_partial_tree :
  fst (document "[1") = Throw (JsonError "expected ']' or ',' after array element") ∧
  tree_of (snd (document "[1")) 0%nat
    = Some (Node EmptyString PRoot
              [Node EmptyString PArray [Node EmptyString (PNumber 1%float) []]]).
Proof. vm_compute. split; reflexivity. Qed.

(** C7, refuted on [[1,]]: the comma is followed by the dispatch of the next
    element, which rejects the closing bracket as an unexpected character. *)
Lemma array_trailing_comma_not_delimiter :
  ¬ (∃ e, fst (document "[1,]") = Throw e ∧ classify e = Some ExpectedDelimiter).
Proof. intros (e & H & Hc). vm_compute in H. inversion H; subst. discriminate Hc. Qed.

(** ** Running the heap monad *)

Lemma bind_Ok {A B} (m : M A) (k : A → M B) h x h' :
  m h = (Ok x, h') → (m ≫= k) h = k x h'.
Proof. unfold mbind, M_bind. intros ->. reflexivity. Qed.

Lemma bind_Throw {A B} (m : M A) (k : A → M B) h e h' :
  m h = (Throw e, h') → (m ≫= k) h = (Throw e, h').
Proof. unfold mbind, M_bind. intros ->. reflexivity. Qed.

Lemma load_Some h a v : cells h !! a = Some v → load a h = (Ok v, h).
Proof. unfold load. intros ->. reflexivity. Qed.

Lemma modify_Some h a f :
  is_Some (cells h !! a) →
  modify a f h = (Ok tt, mkHeap (alter f a (cells h)) (brk h)).
Proof. unfold modify. intros [v ->]. reflexivity. Qed.

Lemma field_Some {A} (f : Value → A) m a x :
  field f m a = Some x ↔ ∃ v, m !! a = Some v ∧ f v = x.
Proof.
  unfold field. destruct (m !! a) as [v|]; simpl; split.
  - intros [= <-]. eauto.
  - intros (v' & [= <-] & <-). reflexivity.
  - discriminate.
  - intros (v' & [=] & _).
Qed.

Lemma field_is_Some {A} (f : Value → A) m a x :
  field f m a = Some x → is_Some (m !! a).
Proof. rewrite field_Some. intros (v & -> & _). eauto. Qed.

(** The objects of a list without repetition are at most as many as the
    live objects. *)
Lemma live_length (m : gmap addr Value) (l : list addr) :
  NoDup l → (∀ x, x ∈ l → is_Some (m !! x)) → (length l ≤ size m)%nat.
Proof.
  intros Hnd Hin.
  rewrite <- size_dom, <- (size_list_to_set (C := gset addr) l) by done.
  apply subseteq_size. intros x Hx. apply elem_of_list_to_set in Hx.
  apply elem_of_dom. auto.
Qed.

Section container_facts.
Context {m : gmap addr Value} {o : addr} {cs : list addr}.
Hypothesis Hch : children m o cs.

Lemma children_parent_live : is_Some (m !! o).
Proof. exact (field_is_Some _ _ _ _ (ch_first _ _ _ Hch)). Qed.

Lemma children_live c : c ∈ cs → is_Some (m !! c).
Proof.
  intros [i Hi]%list_elem_of_lookup.
  exact (field_is_Some _ _ _ _ (ch_next _ _ _ Hch i c Hi)).
Qed.

Lemma children_budget : (S (length cs) ≤ size m)%nat.
Proof.
  change (S (length cs)) with (length (o :: cs)).
  apply live_length; [exact (ch_nodup _ _ _ Hch)|].
  intros x [->|Hx]%elem_of_cons;
    [apply children_parent_live | by apply children_live].
Qed.

End container_facts.

(** ** Removing what is not there *)

Lemma Object_removeValue_loop_absent h o cs name :
  children (cells h) o cs →
  (∀ c, c ∈ cs → field m_name (cells h) c ≠ Some name) →
  ∀ fuel k, (length cs ≤ fuel + k)%nat →
    Object_removeValue_loop fuel o name (cs !! k) h = (Ok tt, h).
Proof.
  intros Hch Hname. induction fuel as [|f IH]; intros k Hk.
  - rewrite lookup_ge_None_2 by lia. reflexivity.
  - destruct (cs !! k) as [c|] eqn:Hc; [|reflexivity]. simpl.
    destruct (proj1 (field_Some _ _ _ _) (ch_next _ _ _ Hch k c Hc)) as (vc & Hvc & Hnext).
    rewrite (bind_Ok _ _ _ _ _ (load_Some _ _ _ Hvc)).
    assert (m_name vc ≠ name) as Hne.
    { intros Heq. apply (Hname c); [by eapply list_elem_of_lookup_2|].
      unfold field. rewrite Hvc. simpl. congruence. }
    apply String.eqb_neq in Hne. rewrite Hne, Hnext. apply IH. lia.
Qed.

Lemma Array_removeValue_loop_beyond h o cs position :
  children (cells h) o cs →
  Z.of_nat (length cs) ≤ position →
  ∀ fuel k, (length cs ≤ fuel + k)%nat →
    Array_removeValue_loop fuel o position (Z.of_nat k) (cs !! k) h
    = (Throw (JsonNull "index out of range"), h).
Proof.
  intros Hch Hpos. induction fuel as [|f IH]; intros k Hk.
  - rewrite lookup_ge_None_2 by lia. reflexivity.
  - destruct (cs !! k) as [c|] eqn:Hc; [|reflexivity]. simpl.
    apply lookup_lt_Some in Hc as Hlt.
    destruct (Z.leb_spec position (Z.of_nat k)); [lia|].
    destruct (proj1 (field_Some _ _ _ _) (ch_next _ _ _ Hch k c Hc)) as (vc & Hvc & Hnext).
    rewrite (bind_Ok _ _ _ _ _ (load_Some _ _ _ Hvc)), Hnext.
    replace (Z.of_nat k + 1) with (Z.of_nat (S k)) by lia. apply IH. lia.
Qed.

(** C9.  On an object with children [cs] none of which is called [name],
    [removeValue(name)] returns normally and leaves the heap as it was;
    on an array with children [es], [removeValue(position)] for a position
    at or beyond the number of children throws [JsonNull] with the message
    for an index out of range. *)
Theorem Object_removeValue_absent_is_noop h o cs name a es position :
  children (cells h) o cs →
  (∀ c, c ∈ cs → field m_name (cells h) c ≠ Some name) →
  children (cells h) a es →
  Z.of_nat (length es) ≤ position →
  Object_removeValue o name h = (Ok tt, h) ∧
  Array_removeValue a position h = (Throw (JsonNull "index out of range"), h) ∧
  classify (JsonNull "index out of range") = Some IndexOutOfRange.
Proof.
  intros Hch Hname Hes Hpos.
  split; [|split; [|reflexivity]].
  - destruct (proj1 (field_Some _ _ _ _) (ch_first _ _ _ Hch)) as (vo & Hvo & Hfirst).
    pose proof (children_budget Hch) as Hsize.
    unfold Object_removeValue.
    rewrite (bind_Ok _ _ _ _ _ (load_Some _ _ _ Hvo)).
    erewrite bind_Ok by reflexivity.
    rewrite Hfirst, head_lookup.
    apply Object_removeValue_loop_absent with (cs := cs); [done..|lia].
  - destruct (proj1 (field_Some _ _ _ _) (ch_first _ _ _ Hes)) as (va & Hva & Hfirst).
    pose proof (children_budget Hes) as Hsize.
    unfold Array_removeValue.
    rewrite (bind_Ok _ _ _ _ _ (load_Some _ _ _ Hva)).
    erewrite bind_Ok by reflexivity.
    rewrite Hfirst, head_lookup.
    apply (Array_removeValue_loop_beyond h a es position Hes Hpos _ 0%nat). lia.
Qed.

(** ** Writes and the members they leave alone *)

Lemma field_alter_other {A} (g : Value → A) f a (m : gmap addr Value) b :
  (∀ v, g (f v) = g v) → field g (alter f a m) b = field g m b.
Proof.
  intros H. unfold field. rewrite lookup_alter. case_decide; [subst|done].
  destruct (m !! b); simpl; [by rewrite H|done].
Qed.

Lemma field_alter_ne {A} (g : Value → A) f a (m : gmap addr Value) b :
  a ≠ b → field g (alter f a m) b = field g m b.
Proof. intros H. unfold field. by rewrite lookup_alter_ne. Qed.

Lemma field_alter_eq {A} (g : Value → A) f a (m : gmap addr Value) x :
  (∀ v, g (f v) = x) → is_Some (m !! a) → field g (alter f a m) a = Some x.
Proof.
  intros H [v Hv]. unfold field. rewrite lookup_alter_eq, Hv. simpl. by rewrite H.
Qed.

Lemma field_set_next p a (m : gmap addr Value) :
  is_Some (m !! a) → field m_next (alter (set_next p) a m) a = Some p.
Proof. by apply field_alter_eq. Qed.

Lemma field_set_prev p a (m : gmap addr Value) :
  is_Some (m !! a) → field m_prev (alter (set_prev p) a m) a = Some p.
Proof. by apply field_alter_eq. Qed.

Lemma field_set_parent p a (m : gmap addr Value) :
  is_Some (m !! a) → field m_parent (alter (set_parent p) a m) a = Some p.
Proof. by apply field_alter_eq. Qed.

Lemma field_set_firstChild p a (m : gmap addr Value) :
  is_Some (m !! a) → field m_firstChild (alter (set_firstChild p) a m) a = Some p.
Proof. by apply field_alter_eq. Qed.

Lemma field_set_lastChild p a (m : gmap addr Value) :
  is_Some (m !! a) → field m_lastChild (alter (set_lastChild p) a m) a = Some p.
Proof. by apply field_alter_eq. Qed.

Lemma NoDup_list_insert (l : list addr) i x :
  NoDup l → x ∉ l → NoDup (<[i:=x]> l).
Proof.
  intros Hnd Hx. destruct (decide (i < length l)%nat) as [Hi|Hi].
  - destruct (lookup_lt_is_Some_2 l i Hi) as [c Hc].
    rewrite insert_take_drop by done.
    rewrite <- (take_drop_middle l i c Hc) in Hnd, Hx.
    rewrite NoDup_app, NoDup_cons in *.
    destruct Hnd as (H1 & H2 & H3 & H4).
    rewrite elem_of_app, elem_of_cons in Hx.
    split; [done|]. split.
    + intros y Hy [->|Hy']%elem_of_cons; [tauto|].
      apply (H2 y Hy). by right.
    + split; [tauto|done].
  - by rewrite list_insert_ge by lia.
Qed.

Lemma prev_of_Some (cs : list addr) i p :
  prev_of cs i = Some p → ∃ j, i = S j ∧ cs !! j = Some p.
Proof. destruct i as [|j]; simpl; [done|eauto]. Qed.

Ltac fld := repeat first
  [ rewrite field_alter_other by (intros; reflexivity)
  | rewrite field_alter_ne by congruence
  | rewrite field_set_next by (rewrite ?lookup_alter_is_Some; eauto)
  | rewrite field_set_prev by (rewrite ?lookup_alter_is_Some; eauto)
  | rewrite field_set_parent by (rewrite ?lookup_alter_is_Some; eauto)
  | rewrite field_set_firstChild by (rewrite ?lookup_alter_is_Some; eauto)
  | rewrite field_set_lastChild by (rewrite ?lookup_alter_is_Some; eauto) ].

Lemma fresh_ne_parent (o : addr) (cs : list addr) v : v ∉ o :: cs → v ≠ o.
Proof. intros H ->. apply H. by left. Qed.

Lemma fresh_ne_child (o : addr) (cs : list addr) v j x :
  v ∉ o :: cs → cs !! j = Some x → x ≠ v.
Proof. intros H Hj ->. apply H. right. by eapply list_elem_of_lookup_2. Qed.

Lemma child_ne_parent (m : gmap addr Value) o cs j x :
  children m o cs → cs !! j = Some x → x ≠ o.
Proof.
  intros Hch Hj ->. pose proof (ch_nodup _ _ _ Hch) as [H _]%NoDup_cons.
  apply H. by eapply list_elem_of_lookup_2.
Qed.

Lemma children_inj (m : gmap addr Value) o cs j k x :
  children m o cs → cs !! j = Some x → cs !! k = Some x → j = k.
Proof.
  intros Hch. pose proof (ch_nodup _ _ _ Hch) as [_ H]%NoDup_cons. by apply NoDup_lookup.
Qed.

Section swap.
Context (m : gmap addr Value) (o : addr) (cs : list addr) (i : nat) (c v : addr).
Hypothesis Hch : children m o cs.
Hypothesis Hi : cs !! i = Some c.
Hypothesis Hv : is_Some (m !! v).
Hypothesis Hfresh : v ∉ o :: cs.

Lemma swap_map_live x : is_Some (swap_map m o cs i v !! x) ↔ is_Some (m !! x).
Proof.
  unfold swap_map. destruct (cs !! S i), (prev_of cs i);
    rewrite ?lookup_alter_is_Some; done.
Qed.

Local Lemma swap_fresh_o : v ≠ o.
Proof. by eapply fresh_ne_parent. Qed.

Local Lemma swap_fresh_cs j x : cs !! j = Some x → x ≠ v.
Proof. by eapply fresh_ne_child. Qed.

Local Lemma swap_inj j k x : cs !! j = Some x → cs !! k = Some x → j = k.
Proof. by eapply children_inj. Qed.

Lemma swap_next x :
  is_Some (m !! x) →
  field m_next (swap_map m o cs i v) x
  = if decide (x = v) then Some (cs !! S i)
    else if decide (prev_of cs i = Some x) then Some (Some v)
    else field m_next m x.
Proof.
  intros Hx. pose proof swap_fresh_o. unfold swap_map.
  destruct (prev_of cs i) as [p|] eqn:Hp.
  - destruct (prev_of_Some _ _ _ Hp) as (j & -> & Hj).
    pose proof (swap_fresh_cs _ _ Hj).
    destruct (cs !! S (S j)) as [n|] eqn:Hn; repeat case_decide; simplify_eq; fld; done.
  - destruct (cs !! S i) as [n|] eqn:Hn; repeat case_decide; simplify_eq; fld; done.
Qed.

Lemma swap_prev x :
  is_Some (m !! x) →
  field m_prev (swap_map m o cs i v) x
  = if decide (x = v) then Some (prev_of cs i)
    else if decide (cs !! S i = Some x) then Some (Some v)
    else field m_prev m x.
Proof.
  intros Hx. pose proof swap_fresh_o. unfold swap_map.
  destruct (cs !! S i) as [n|] eqn:Hn.
  - pose proof (swap_fresh_cs _ _ Hn).
    destruct (prev_of cs i) as [p|] eqn:Hp; repeat case_decide; simplify_eq; fld; done.
  - destruct (prev_of cs i) as [p|] eqn:Hp; repeat case_decide; simplify_eq; fld; done.
Qed.

Lemma swap_parent x :
  is_Some (m !! x) →
  field m_parent (swap_map m o cs i v) x
  = if decide (x = v) then Some (Some o) else field m_parent m x.
Proof.
  intros Hx. unfold swap_map.
  destruct (cs !! S i) as [n|] eqn:Hn, (prev_of cs i) as [p|] eqn:Hp;
    repeat case_decide; simplify_eq; fld; done.
Qed.

Lemma swap_prev_None : prev_of cs i = None → i = 0%nat.
Proof.
  destruct i as [|j]; simpl; [done|]. intros Hj.
  apply lookup_lt_Some in Hi. apply lookup_ge_None in Hj. lia.
Qed.

Lemma swap_firstChild x :
  is_Some (m !! x) →
  field m_firstChild (swap_map m o cs i v) x
  = if decide (x = o ∧ i = 0%nat) then Some (Some v) else field m_firstChild m x.
Proof.
  intros Hx. unfold swap_map.
  destruct (prev_of cs i) as [p|] eqn:Hp.
  - destruct (prev_of_Some _ _ _ Hp) as (j & -> & Hj).
    rewrite decide_False by (intros [_ [=]]).
    destruct (cs !! S (S j)); fld; done.
  - pose proof (swap_prev_None Hp) as ->.
    destruct (decide (x = o)) as [->|Hne].
    + rewrite decide_True by done. destruct (cs !! 1%nat); fld; done.
    + rewrite decide_False by tauto. destruct (cs !! 1%nat); fld; done.
Qed.

Lemma swap_lastChild x :
  is_Some (m !! x) →
  field m_lastChild (swap_map m o cs i v) x
  = if decide (x = o ∧ S i = length cs) then Some (Some v) else field m_lastChild m x.
Proof.
  intros Hx. unfold swap_map. pose proof (lookup_lt_Some _ _ _ Hi) as Hlt.
  destruct (cs !! S i) as [n|] eqn:Hn.
  - apply lookup_lt_Some in Hn as Hlt'.
    rewrite decide_False by lia.
    destruct (prev_of cs i); fld; done.
  - apply lookup_ge_None in Hn.
    destruct (decide (x = o)) as [->|Hne].
    + rewrite decide_True by (split; [done|lia]). destruct (prev_of cs i); fld; done.
    + rewrite decide_False by tauto. destruct (prev_of cs i); fld; done.
Qed.

Lemma swap_other {A} (g : Value → A) x :
  (∀ p w, g (set_parent p w) = g w) → (∀ p w, g (set_prev p w) = g w) →
  (∀ p w, g (set_next p w) = g w) → (∀ p w, g (set_firstChild p w) = g w) →
  (∀ p w, g (set_lastChild p w) = g w) →
  field g (swap_map m o cs i v) x = field g m x.
Proof.
  intros H1 H2 H3 H4 H5. unfold swap_map.
  destruct (cs !! S i), (prev_of cs i); by rewrite !field_alter_other.
Qed.

Lemma swap_map_children : children (swap_map m o cs i v) o (<[i:=v]> cs).
Proof.
  pose proof (lookup_lt_Some _ _ _ Hi) as Hlt.
  pose proof (children_parent_live Hch) as Ho.
  constructor.
  - rewrite swap_firstChild by done. case_decide as Hd.
    + destruct Hd as [_ ->]. destruct cs; [simpl in Hlt; lia|done].
    + rewrite (ch_first _ _ _ Hch). f_equal.
      destruct i as [|j]; [tauto|]. by destruct cs.
  - rewrite swap_lastChild by done. rewrite !last_lookup, length_insert.
    case_decide as Hd.
    + destruct Hd as [_ <-]. simpl. by rewrite list_lookup_insert_eq.
    + rewrite (ch_last _ _ _ Hch), last_lookup.
      rewrite list_lookup_insert_ne by (intros ->; apply Hd; split; [done|lia]). done.
  - rewrite swap_other by done. rewrite length_insert. apply (ch_length _ _ _ Hch).
  - intros j x Hj. apply list_lookup_insert_Some in Hj as [(<- & <- & _)|(Hne & Hj)].
    + rewrite swap_parent by done. by rewrite decide_True.
    + rewrite swap_parent by (apply (children_live Hch); by eapply list_elem_of_lookup_2).
      rewrite decide_False by (by eapply swap_fresh_cs). by eapply ch_parent.
  - intros j x Hj. apply list_lookup_insert_Some in Hj as [(<- & <- & _)|(Hne & Hj)].
    + rewrite swap_prev by done. rewrite decide_True by done.
      destruct i as [|k]; simpl; [done|]. by rewrite list_lookup_insert_ne by lia.
    + rewrite swap_prev by (apply (children_live Hch); by eapply list_elem_of_lookup_2).
      rewrite decide_False by (by eapply swap_fresh_cs).
      case_decide as Hd.
      * pose proof (swap_inj _ _ _ Hd Hj) as <-. simpl.
        by rewrite list_lookup_insert_eq.
      * rewrite (ch_prev _ _ _ Hch j x Hj). f_equal.
        destruct j as [|k]; simpl; [done|].
        rewrite list_lookup_insert_ne; [done|]. intros ->. congruence.
  - intros j x Hj. apply list_lookup_insert_Some in Hj as [(<- & <- & _)|(Hne & Hj)].
    + rewrite swap_next by done. rewrite decide_True by done.
      by rewrite list_lookup_insert_ne by lia.
    + rewrite swap_next by (apply (children_live Hch); by eapply list_elem_of_lookup_2).
      rewrite decide_False by (by eapply swap_fresh_cs).
      case_decide as Hd.
      * destruct (prev_of_Some _ _ _ Hd) as (k & -> & Hk).
        pose proof (swap_inj _ _ _ Hk Hj) as <-.
        by rewrite list_lookup_insert_eq.
      * rewrite (ch_next _ _ _ Hch j x Hj). f_equal.
        rewrite list_lookup_insert_ne; [done|]. intros Heq. rewrite Heq in Hd. simpl in Hd. congruence.
  - pose proof (ch_nodup _ _ _ Hch) as [Ho' Hnd]%NoDup_cons.
    apply NoDup_cons. split.
    + intros [k Hk]%list_elem_of_lookup.
      apply list_lookup_insert_Some in Hk as [(_ & Heq & _)|(_ & Hk)].
      * by apply swap_fresh_o.
      * apply Ho'. by eapply list_elem_of_lookup_2.
    + apply NoDup_list_insert; [done|]. intros Hin. apply Hfresh. by right.
Qed.

Lemma children_cell :
  ∃ vc, m !! c = Some vc ∧ m_parent vc = Some o ∧
        m_prev vc = prev_of cs i ∧ m_next vc = cs !! S i.
Proof.
  pose proof (ch_parent _ _ _ Hch i c Hi) as H1.
  pose proof (ch_prev _ _ _ Hch i c Hi) as H2.
  pose proof (ch_next _ _ _ Hch i c Hi) as H3.
  unfold field in *. destruct (m !! c) as [vc|]; simplify_eq/=. eauto.
Qed.

End swap.

Lemma bind_ret {A B} (x : A) (k : A → M B) : (mret x ≫= k) = k x.
Proof. reflexivity. Qed.

Ltac run_load H :=
  erewrite (bind_Ok (load _));
  [| apply load_Some; simpl; rewrite ?lookup_alter_ne by congruence; exact H].
Ltac run_modify :=
  erewrite (bind_Ok (modify _ _));
  [| apply modify_Some; simpl; rewrite ?lookup_alter_is_Some; eauto].

Lemma swapValueInt_run h o cs i c v :
  children (cells h) o cs → cs !! i = Some c →
  is_Some (cells h !! v) → v ∉ o :: cs →
  swapValueInt c v h = (Ok c, mkHeap (swap_map (cells h) o cs i v) (brk h)).
Proof.
  intros Hch Hi Hv Hfresh.
  destruct (children_cell _ _ _ _ _ Hch Hi) as (vc & Hvc & Hpar & Hprev & Hnext).
  pose proof (fresh_ne_child _ _ _ _ _ Hfresh Hi) as Hcv.
  pose proof (child_ne_parent _ _ _ _ _ Hch Hi) as Hco.
  pose proof (children_parent_live Hch) as Ho.
  unfold swapValueInt, swap_map.
  run_load Hvc. run_modify. run_load Hvc. run_modify. run_load Hvc. run_modify.
  run_load Hvc. rewrite Hpar, Hprev, Hnext.
  destruct (prev_of cs i) as [p|] eqn:Hp.
  - destruct (prev_of_Some _ _ _ Hp) as (j & -> & Hj).
    assert (p ≠ c) by (intros ->; pose proof (children_inj _ _ _ _ _ _ Hch Hj Hi); lia).
    pose proof (children_live Hch p (list_elem_of_lookup_2 _ _ _ Hj)).
    run_modify. run_load Hvc. rewrite Hnext.
    destruct (cs !! S (S j)) as [n|] eqn:Hn.
    + pose proof (children_live Hch n (list_elem_of_lookup_2 _ _ _ Hn)).
      run_modify. reflexivity.
    + rewrite Hpar. simpl. rewrite bind_ret. run_modify. reflexivity.
  - simpl. rewrite bind_ret. run_modify. run_load Hvc. rewrite Hnext.
    destruct (cs !! S i) as [n|] eqn:Hn.
    + pose proof (children_live Hch n (list_elem_of_lookup_2 _ _ _ Hn)).
      run_modify. reflexivity.
    + rewrite Hpar. simpl. rewrite bind_ret. run_modify. reflexivity.
Qed.

(** ** Destruction of a subtree *)

Lemma shape_frame (m m' : gmap addr Value) t :
  ∀ p, (∀ x, x ∈ addrs t → m' !! x = m !! x) → shape_at m p t → shape_at m' p t.
Proof.
  induction t as [|a k IHk s IHs]; intros p Hsame; simpl; [done|].
  intros (-> & v & Hv & Hk & Hs). split; [done|]. exists v.
  split; [rewrite Hsame; [done|simpl; by left]|].
  split; [apply IHk|apply IHs]; try done;
    intros x Hx; apply Hsame; simpl; right; apply elem_of_app; auto.
Qed.

Lemma shape_live (m : gmap addr Value) t :
  ∀ p, shape_at m p t → ∀ x, x ∈ addrs t → is_Some (m !! x).
Proof.
  induction t as [|a k IHk s IHs]; intros p; simpl.
  - intros _ x Hx. by apply elem_of_nil in Hx.
  - intros (-> & v & Hv & Hk & Hs) x [->|[Hx|Hx]%elem_of_app]%elem_of_cons; eauto.
Qed.

Lemma free_Some h a :
  is_Some (cells h !! a) → free a h = (Ok tt, mkHeap (delete a (cells h)) (brk h)).
Proof. unfold free. intros [v ->]. reflexivity. Qed.

Lemma delete_children_spec t :
  ∀ fuel p h,
    shape_at (cells h) p t → NoDup (addrs t) → (2 * length (addrs t) ≤ fuel)%nat →
    ∃ h', delete_children fuel p h = (Ok tt, h') ∧ brk h' = brk h ∧
          ∀ x, cells h' !! x = if decide (x ∈ addrs t) then None else cells h !! x.
Proof.
  induction t as [|a k IHk s IHs]; intros fuel p h Hshape Hnd Hfuel; simpl in *.
  - subst p. exists h. destruct fuel; simpl; repeat split; intros x;
      rewrite decide_False; done || apply not_elem_of_nil.
  - destruct Hshape as (-> & v & Hv & Hk & Hs).
    apply NoDup_cons in Hnd as [Ha Hnd]. apply NoDup_app in Hnd as (Hndk & Hks & Hnds).
    rewrite elem_of_app in Ha. rewrite length_app in Hfuel.
    destruct fuel as [|[|f]]; [lia..|].
    destruct (IHk f _ h Hk Hndk ltac:(lia)) as (h1 & Hrun1 & Hbrk1 & Hcells1).
    assert (cells h1 !! a = Some v) as Hv1
      by (rewrite Hcells1, decide_False; tauto).
    set (h2 := mkHeap (delete a (cells h1)) (brk h1)).
    destruct (IHs (S f) (m_next v) h2) as (h3 & Hrun3 & Hbrk3 & Hcells3); [|done|lia|].
    { apply (shape_frame (cells h)); [|done]. intros x Hx. simpl.
      rewrite lookup_delete_ne by (intros ->; tauto).
      rewrite Hcells1, decide_False; [done|]. intros Hx'. by apply (Hks x). }
    exists h3. split; [|split].
    + change (delete_children (S (S f)) (Some a) h)
        with ((vc ← load a; let next := m_next vc in
               delete_value (S f) a;; delete_children (S f) next) h).
      rewrite (bind_Ok _ _ _ _ _ (load_Some _ _ _ Hv)). cbv zeta.
      erewrite (bind_Ok (delete_value _ _)); [exact Hrun3|].
      change (delete_value (S f) a h)
        with ((v ← load a; delete_children f (m_firstChild v);; free a) h).
      rewrite (bind_Ok _ _ _ _ _ (load_Some _ _ _ Hv)).
      rewrite (bind_Ok _ _ _ _ _ Hrun1). apply free_Some. eauto.
    + rewrite Hbrk3. simpl. done.
    + intros x. rewrite Hcells3. simpl. rewrite lookup_delete, Hcells1.
      repeat case_decide; try done; exfalso; set_solver.
Qed.

Lemma delete_spec h c t :
  descendants (cells h) c t →
  ∃ h', delete_ c h = (Ok tt, h') ∧ brk h' = brk h ∧
        ∀ x, cells h' !! x = if decide (x ∈ c :: addrs t) then None else cells h !! x.
Proof.
  intros [(v & Hv & Hshape) [Hc Hnd]%NoDup_cons].
  assert (S (length (addrs t)) ≤ size (cells h))%nat as Hsize.
  { change (S (length (addrs t))) with (length (c :: addrs t)).
    apply live_length; [by apply NoDup_cons|].
    intros x [->|Hx]%elem_of_cons; [eauto|by eapply shape_live]. }
  destruct (delete_children_spec t (2 * size (cells h)) _ h Hshape Hnd ltac:(lia))
    as (h1 & Hrun1 & Hbrk1 & Hcells1).
  exists (mkHeap (delete c (cells h1)) (brk h1)). split; [|split].
  - unfold delete_. erewrite bind_Ok by reflexivity.
    change (delete_value (S (2 * size (cells h))) c h)
      with ((v ← load c; delete_children (2 * size (cells h)) (m_firstChild v);; free c) h).
    rewrite (bind_Ok _ _ _ _ _ (load_Some _ _ _ Hv)).
    rewrite (bind_Ok _ _ _ _ _ Hrun1). apply free_Some.
    rewrite Hcells1, decide_False by done. eauto.
  - done.
  - intros x. simpl. rewrite lookup_delete, Hcells1.
    repeat case_decide; try done; exfalso; set_solver.
Qed.

(** ** Replacing a child of an object in place *)

Lemma children_frame (m m' : gmap addr Value) o cs :
  (∀ x, x ∈ o :: cs → m' !! x = m !! x) → children m o cs → children m' o cs.
Proof.
  intros Hsame Hch.
  assert (∀ {A} (g : Value → A) x, x ∈ o :: cs → field g m' x = field g m x) as Hf.
  { intros A g x Hx. unfold field. by rewrite Hsame. }
  constructor.
  - rewrite Hf by (by left). apply Hch.
  - rewrite Hf by (by left). apply Hch.
  - rewrite Hf by (by left). apply Hch.
  - intros i c Hi. rewrite Hf by (right; by eapply list_elem_of_lookup_2). by eapply ch_parent.
  - intros i c Hi. rewrite Hf by (right; by eapply list_elem_of_lookup_2). by eapply ch_prev.
  - intros i c Hi. rewrite Hf by (right; by eapply list_elem_of_lookup_2). by eapply ch_next.
  - apply Hch.
Qed.

Lemma swap_map_frame (m : gmap addr Value) o cs i v x :
  x ≠ v → x ≠ o → prev_of cs i ≠ Some x → cs !! S i ≠ Some x →
  swap_map m o cs i v !! x = m !! x.
Proof.
  intros. unfold swap_map.
  destruct (cs !! S i), (prev_of cs i); rewrite !lookup_alter_ne by congruence; done.
Qed.

Lemma swap_map_content (m : gmap addr Value) o cs i v x :
  x ≠ o → field content (swap_map m o cs i v) x = field content m x.
Proof.
  intros. unfold swap_map.
  destruct (cs !! S i), (prev_of cs i);
    repeat first [rewrite field_alter_other by done | rewrite field_alter_ne by done]; done.
Qed.

Lemma swap_map_content' (m : gmap addr Value) o cs i v x :
  x ≠ o → field m_name (swap_map m o cs i v) x = field m_name m x.
Proof.
  intros. unfold swap_map.
  destruct (cs !! S i), (prev_of cs i);
    repeat first [rewrite field_alter_other by done | rewrite field_alter_ne by done]; done.
Qed.

Lemma swap_map_body (m : gmap addr Value) o cs i v x :
  x ≠ o → field body (swap_map m o cs i v) x = field body m x.
Proof.
  intros. unfold swap_map.
  destruct (cs !! S i), (prev_of cs i);
    repeat first [rewrite field_alter_other by done | rewrite field_alter_ne by done]; done.
Qed.

Lemma Object_linkValue_loop_found h o cs i c name v :
  children (cells h) o cs →
  cs !! i = Some c →
  field m_name (cells h) c = Some name →
  (∀ j c', (j < i)%nat → cs !! j = Some c' → field m_name (cells h) c' ≠ Some name) →
  ∀ fuel k, (k ≤ i)%nat → (length cs ≤ fuel + k)%nat →
    Object_linkValue_loop fuel o name v (cs !! k) h
    = (modify v (set_name name);; old ← swapValueInt c v; delete_ old;; mret (Some v)) h.
Proof.
  intros Hch Hi Hname Hfirst. pose proof (lookup_lt_Some _ _ _ Hi) as Hlt.
  induction fuel as [|f IH]; intros k Hk Hfuel; [lia|].
  destruct (lookup_lt_is_Some_2 cs k ltac:(lia)) as [c' Hc']. rewrite Hc'. simpl.
  destruct (proj1 (field_Some _ _ _ _) (ch_next _ _ _ Hch k c' Hc')) as (vc & Hvc & Hnext).
  rewrite (bind_Ok _ _ _ _ _ (load_Some _ _ _ Hvc)).
  destruct (decide (k = i)) as [->|Hne].
  - assert (c' = c) as -> by congruence.
    unfold field in Hname. rewrite Hvc in Hname. injection Hname as ->.
    by rewrite String.eqb_refl.
  - assert (m_name vc ≠ name) as Hn.
    { intros Heq. apply (Hfirst k c'); [lia|done|]. unfold field. by rewrite Hvc, <- Heq. }
    apply String.eqb_neq in Hn. rewrite Hn, Hnext. apply IH; lia.
Qed.

Lemma guarded_Ok {A} value (m : M A) h x h' :
  m h = (Ok x, h') → guarded value m h = (Ok x, h').
Proof. unfold guarded. intros ->. reflexivity. Qed.

Lemma field_content_name (m m' : gmap addr Value) x x' :
  field content m x = field content m' x' → field m_name m x = field m_name m' x'.
Proof.
  unfold field, content. destruct (m !! x), (m' !! x'); simpl; congruence.
Qed.

Lemma field_content_body (m m' : gmap addr Value) x x' :
  field content m x = field content m' x' → field body m x = field body m' x'.
Proof.
  unfold field, content, body. destruct (m !! x), (m' !! x'); simpl; congruence.
Qed.

Lemma descendants_frame (m m' : gmap addr Value) c t :
  (∀ x, x ∈ c :: addrs t → m' !! x = m !! x) → descendants m c t → descendants m' c t.
Proof.
  intros Hframe [(vc & Hvc & Hshape) Hnd]. split; [|done].
  exists vc. split; [rewrite Hframe; [done|by left]|].
  apply (shape_frame m); [|done]. intros x Hx. apply Hframe. by right.
Qed.

Lemma replace_child_run h o cs i c t v :
  children (cells h) o cs →
  cs !! i = Some c →
  descendants (cells h) c t →
  (∀ x, x ∈ addrs t → x ∉ o :: v :: cs) →
  is_Some (cells h !! v) → v ∉ o :: cs →
  ∃ h',
    (old ← swapValueInt c v; delete_ old;; mret (Some v)) h = (Ok (Some v), h') ∧
    children (cells h') o (<[i:=v]> cs) ∧
    field content (cells h') v = field content (cells h) v ∧
    (∀ j c', j ≠ i → cs !! j = Some c' →
             field content (cells h') c' = field content (cells h) c') ∧
    (∀ x, x ∈ c :: addrs t → cells h' !! x = None) ∧
    (∀ x, x ∉ o :: v :: cs → x ∉ addrs t → cells h' !! x = cells h !! x).
Proof.
  intros Hch Hi Hdesc Hdisj Hv Hfresh.
  pose proof (fresh_ne_child _ _ _ _ _ Hfresh Hi) as Hcv.
  pose proof (child_ne_parent _ _ _ _ _ Hch Hi) as Hco.
  pose proof (fresh_ne_parent _ _ _ Hfresh) as Hvo.
  set (h2 := mkHeap (swap_map (cells h) o cs i v) (brk h)).
  assert (∀ x, x ∈ c :: addrs t → cells h2 !! x = cells h !! x) as Hframe.
  { intros x Hx. simpl. apply swap_map_frame.
    - intros ->. apply elem_of_cons in Hx as [?|Hx]; [done|]. apply (Hdisj _ Hx). set_solver.
    - intros ->. apply elem_of_cons in Hx as [?|Hx]; [done|]. apply (Hdisj _ Hx). set_solver.
    - intros Hp. apply prev_of_Some in Hp as (j & -> & Hj).
      apply elem_of_cons in Hx as [->|Hx].
      + pose proof (children_inj _ _ _ _ _ _ Hch Hj Hi). lia.
      + apply (Hdisj _ Hx). do 2 right. by eapply list_elem_of_lookup_2.
    - intros Hn. apply elem_of_cons in Hx as [->|Hx].
      + pose proof (children_inj _ _ _ _ _ _ Hch Hn Hi). lia.
      + apply (Hdisj _ Hx). do 2 right. by eapply list_elem_of_lookup_2. }
  pose proof (descendants_frame _ _ _ _ Hframe Hdesc) as Hdesc2.
  destruct (delete_spec h2 c t Hdesc2) as (h3 & Hrun3 & Hbrk3 & Hcells3).
  assert (∀ {A} (g : Value → A) x, x ∉ c :: addrs t →
            field g (cells h3) x = field g (cells h2) x) as Hkeep.
  { intros A g x Hx. unfold field. by rewrite Hcells3, decide_False. }
  assert (v ∉ c :: addrs t) as Hvt.
  { intros [?|Hx']%elem_of_cons; [done|]. apply (Hdisj _ Hx'). set_solver. }
  exists h3. split; [|split; [|split; [|split; [|split]]]].
  - erewrite (bind_Ok (swapValueInt _ _)) by (by apply (swapValueInt_run h o cs i c v)).
    erewrite (bind_Ok (delete_ _)) by exact Hrun3. reflexivity.
  - apply (children_frame (cells h2)); [|by eapply swap_map_children].
    intros x Hx. rewrite Hcells3, decide_False; [done|]. intros Hx'.
    apply elem_of_cons in Hx as [->|[k Hk]%list_elem_of_lookup].
    + apply elem_of_cons in Hx' as [?|Hx']; [done|]. apply (Hdisj _ Hx'). by left.
    + apply list_lookup_insert_Some in Hk as [(_ & <- & _)|(Hne & Hk)]; [done|].
      apply elem_of_cons in Hx' as [->|Hx'].
      * by pose proof (children_inj _ _ _ _ _ _ Hch Hk Hi).
      * apply (Hdisj _ Hx'). do 2 right. by eapply list_elem_of_lookup_2.
  - rewrite Hkeep by done. by apply swap_map_content.
  - intros j c' Hne Hj.
    pose proof (child_ne_parent _ _ _ _ _ Hch Hj).
    rewrite Hkeep; [by apply swap_map_content|].
    intros [->|Hx']%elem_of_cons.
    + by pose proof (children_inj _ _ _ _ _ _ Hch Hj Hi).
    + apply (Hdisj _ Hx'). do 2 right. by eapply list_elem_of_lookup_2.
  - intros x Hx. by rewrite Hcells3, decide_True.
  - intros x Hx Ht. rewrite Hcells3, decide_False.
    + simpl. apply swap_map_frame.
      * set_solver.
      * set_solver.
      * intros (j & _ & Hj)%prev_of_Some. apply Hx. do 2 right. by eapply list_elem_of_lookup_2.
      * intros Hn. apply Hx. do 2 right. by eapply list_elem_of_lookup_2.
    + intros [->|Hx']%elem_of_cons; [|done].
      apply Hx. do 2 right. by eapply list_elem_of_lookup_2.
Qed.

Lemma Object_linkValue_replace h o cs i c t name v :
  children (cells h) o cs →
  cs !! i = Some c →
  field m_name (cells h) c = Some name →
  (∀ j c', (j < i)%nat → cs !! j = Some c' → field m_name (cells h) c' ≠ Some name) →
  descendants (cells h) c t →
  (∀ x, x ∈ addrs t → x ∉ o :: cs) →
  is_Some (cells h !! v) → v ∉ o :: cs → v ∉ addrs t →
  ∃ h',
    Object_linkValue o name (Some v) h = (Ok (Some v), h') ∧
    replaces_child h h' o cs i c t v name ∧
    field body (cells h') v = field body (cells h) v.
Proof.
  intros Hch Hi Hname Hfirst Hdesc Hdisj Hv Hfresh Hvt.
  pose proof (fresh_ne_child _ _ _ _ _ Hfresh Hi) as Hcv.
  pose proof (fresh_ne_parent _ _ _ Hfresh) as Hvo.
  destruct Hv as [vv Hvv].
  destruct (proj1 (field_Some _ _ _ _) (ch_first _ _ _ Hch)) as (vo & Hvo' & Hfst).
  pose proof (children_budget Hch) as Hsize.
  set (h1 := mkHeap (alter (set_name name) v (cells h)) (brk h)).
  assert (∀ x, x ≠ v → cells h1 !! x = cells h !! x) as Hframe1.
  { intros x Hx. simpl. by apply lookup_alter_ne. }
  assert (children (cells h1) o cs) as Hch1.
  { apply (children_frame (cells h)); [|done]. intros x Hx. apply Hframe1.
    intros ->. done. }
  assert (descendants (cells h1) c t) as Hdesc1.
  { apply (descendants_frame (cells h)); [|done]. intros x Hx. apply Hframe1.
    intros ->. apply elem_of_cons in Hx as [?|?]; done. }
  destruct (replace_child_run h1 o cs i c t v Hch1 Hi Hdesc1)
    as (h' & Hrun & Hch' & Hv' & Hothers & Hfreed & Hrest); [| |done|].
  { intros x Hx Hin. apply elem_of_cons in Hin as [Heq|[Heq|Hin]%elem_of_cons].
    - apply (Hdisj x Hx). rewrite Heq. by left.
    - by rewrite Heq in Hx.
    - apply (Hdisj x Hx). by right. }
  { simpl. rewrite lookup_alter_is_Some. eauto. }
  exists h'. split; [|split; [split; [|split; [|split; [|split]]]|]].
  - unfold Object_linkValue.
    rewrite (bind_Ok _ _ _ _ _ (load_Some _ _ _ Hvv)).
    erewrite (bind_Ok (if is_linked vv then _ else _)) by (by destruct (is_linked vv)).
    rewrite (bind_Ok _ _ _ _ _ (load_Some _ _ _ Hvo')).
    erewrite bind_Ok by reflexivity.
    rewrite Hfst, head_lookup.
    rewrite (Object_linkValue_loop_found h o cs i c name v Hch Hi Hname Hfirst _ 0%nat)
      by lia.
    erewrite (bind_Ok (modify _ _)) by (apply modify_Some; eauto).
    exact Hrun.
  - done.
  - rewrite (field_content_name _ _ _ _ Hv'). simpl.
    apply field_alter_eq; [done|eauto].
  - intros j c' Hne Hj. rewrite (Hothers j c' Hne Hj).
    unfold field. rewrite Hframe1; [done|]. by eapply fresh_ne_child.
  - done.
  - intros x Hx Ht. rewrite Hrest by done. apply Hframe1. set_solver.
  - rewrite (field_content_body _ _ _ _ Hv'). simpl. by apply field_alter_other.
Qed.

Lemma Object_set_replace h o cs i c t name d :
  children (cells h) o cs →
  cs !! i = Some c →
  field m_name (cells h) c = Some name →
  (∀ j c', (j < i)%nat → cs !! j = Some c' → field m_name (cells h) c' ≠ Some name) →
  descendants (cells h) c t →
  (∀ x, x ∈ addrs t → x ∉ o :: cs) →
  cells h !! brk h = None →
  ∃ h',
    Object_set o name d h = (Ok (brk h), h') ∧
    replaces_child h h' o cs i c t (brk h) name ∧
    field body (cells h') (brk h) = Some (d, None, None, 0).
Proof.
  intros Hch Hi Hname Hfirst Hdesc Hdisj Hnew.
  set (v := brk h) in *.
  set (h0 := mkHeap (<[v := new_Value EmptyString d]> (cells h)) (S (brk h))).
  assert (∀ x, is_Some (cells h !! x) → cells h0 !! x = cells h !! x) as Hframe0.
  { intros x Hx. simpl. apply lookup_insert_ne. intros <-. rewrite Hnew in Hx.
    by apply is_Some_None in Hx. }
  assert (∀ x, x ∈ o :: cs → is_Some (cells h !! x)) as Hlive.
  { intros x [->|Hx]%elem_of_cons; [by eapply children_parent_live|by eapply children_live]. }
  assert (∀ x, x ∈ c :: addrs t → is_Some (cells h !! x)) as Hlive'.
  { destruct Hdesc as [(vc & Hvc & Hshape) _].
    intros x [->|Hx]%elem_of_cons; [eauto|by eapply shape_live]. }
  assert (v ∉ o :: cs) as Hfresh.
  { intros Hin. apply Hlive in Hin. rewrite Hnew in Hin. by apply is_Some_None in Hin. }
  assert (v ∉ addrs t) as Hvt.
  { intros Hin. assert (is_Some (cells h !! v)) as Hs by (apply Hlive'; by right).
    rewrite Hnew in Hs. by apply is_Some_None in Hs. }
  assert (children (cells h0) o cs) as Hch0.
  { apply (children_frame (cells h)); [|done]. intros x Hx. by apply Hframe0, Hlive. }
  assert (descendants (cells h0) c t) as Hdesc0.
  { apply (descendants_frame (cells h)); [|done]. intros x Hx. by apply Hframe0, Hlive'. }
  assert (∀ {A} (g : Value → A) x, x ∈ cs → field g (cells h0) x = field g (cells h) x)
    as Hfield0.
  { intros A g x Hx. unfold field. rewrite Hframe0; [done|]. apply Hlive. by right. }
  destruct (Object_linkValue_replace h0 o cs i c t name v Hch0 Hi)
    as (h' & Hrun & (Hch' & Hnm & Hothers & Hfreed & Hrest) & Hbody); try done.
  { rewrite Hfield0; [done|]. by eapply list_elem_of_lookup_2. }
  { intros j c' Hj Hc'. rewrite Hfield0; [by eapply Hfirst|].
    by eapply list_elem_of_lookup_2. }
  { simpl. rewrite lookup_insert_eq. eauto. }
  exists h'. split; [|split; [split; [|split; [|split; [|split]]]|]]; try done.
  - unfold Object_set, Object_linkValueSafe.
    erewrite (bind_Ok (alloc _)) by reflexivity.
    erewrite (bind_Ok (guarded _ _ ≫= _)); [reflexivity|].
    erewrite (bind_Ok (guarded _ _)); [reflexivity|].
    apply guarded_Ok. exact Hrun.
  - intros j c' Hne Hj. rewrite (Hothers j c' Hne Hj).
    apply Hfield0. by eapply list_elem_of_lookup_2.
  - intros x Hx Ht. rewrite Hrest by done. simpl. apply lookup_insert_ne.
    intros <-. apply Hx. set_solver.
  - rewrite Hbody. unfold field. simpl. by rewrite lookup_insert_eq.
Qed.

(** C6.  Let the object at [o] have the children [cs], let [c], at index
    [i], be the first child called [name], let [addrs t] be the descendants
    of [c], none of them among [o] and [cs].  Linking a live node [v] that is
    none of these under [name], and setting [name] to a new value [d], both
    put the node at index [i] in place of [c]: the other children keep their
    place and content, [c] is destroyed with its descendants, and nothing
    else changes. *)
Theorem Object_set_replaces_in_place h o cs i c t name :
  children (cells h) o cs →
  cs !! i = Some c →
  field m_name (cells h) c = Some name →
  (∀ j c', (j < i)%nat → cs !! j = Some c' → field m_name (cells h) c' ≠ Some name) →
  descendants (cells h) c t →
  (∀ x, x ∈ addrs t → x ∉ o :: cs) →
  (∀ v, is_Some (cells h !! v) → v ∉ o :: cs → v ∉ addrs t →
        ∃ h', Object_linkValue o name (Some v) h = (Ok (Some v), h') ∧
              replaces_child h h' o cs i c t v name ∧
              field body (cells h') v = field body (cells h) v) ∧
  (∀ d, cells h !! brk h = None →
        ∃ h', Object_set o name d h = (Ok (brk h), h') ∧
              replaces_child h h' o cs i c t (brk h) name ∧
              field body (cells h') (brk h) = Some (d, None, None, 0)).
Proof.
  intros Hch Hi Hname Hfirst Hdesc Hdisj. split.
  - intros v Hv Hfresh Hvt. by eapply Object_linkValue_replace.
  - intros d Hnew. by eapply Object_set_replace.
Qed.

Ltac concrete_children :=
  constructor;
  [ vm_compute; reflexivity | vm_compute; reflexivity | vm_compute; reflexivity
  | intros i c Hi;
    repeat (destruct i as [|i]; [injection Hi as <-; vm_compute; reflexivity|]);
    destruct i; discriminate Hi
  | intros i c Hi;
    repeat (destruct i as [|i]; [injection Hi as <-; vm_compute; reflexivity|]);
    destruct i; discriminate Hi
  | intros i c Hi;
    repeat (destruct i as [|i]; [injection Hi as <-; vm_compute; reflexivity|]);
    destruct i; discriminate Hi
  | apply (bool_decide_unpack _); vm_compute; reflexivity ].

Lemma doc_ab_children : children (cells doc_ab) 1%nat [2%nat; 3%nat].
Proof. concrete_children. Defined.

Lemma Object_set_replaces_in_place_witness :
  children (cells doc_ab) 1%nat [2%nat; 3%nat] ∧
  (∃ h', Object_setNumber 1%nat "a" 3%float doc_ab = (Ok 4%nat, h') ∧
         replaces_child doc_ab h' 1%nat [2%nat; 3%nat] 0%nat 2%nat Leaf 4%nat "a" ∧
         field body (cells h') 4%nat = Some (PNumber 3%float, None, None, 0)) ∧
  tree_of (snd (Object_setNumber 1%nat "a" 3%float doc_ab)) 0%nat
  = Some (Node EmptyString PRoot
            [Node EmptyString PObject
               [Node "a" (PNumber 3%float) []; Node "b" (PNumber 2%float) []]]).
Proof.
  split; [exact doc_ab_children|]. split; [|vm_compute; reflexivity].
  refine (proj2 (Object_set_replaces_in_place doc_ab 1%nat [2%nat; 3%nat] 0%nat 2%nat
                   Leaf "a" doc_ab_children _ _ _ _ _) (PNumber 3%float) _).
  - reflexivity.
  - vm_compute. reflexivity.
  - intros j c' Hj. lia.
  - split; [|apply (bool_decide_unpack _); vm_compute; reflexivity].
    eexists. split; [vm_compute; reflexivity|]. reflexivity.
  - intros x Hx. by apply elem_of_nil in Hx.
  - vm_compute. reflexivity.
Defined.

(** ** Unlinking a child and linking a node before a child *)

Lemma prev_of_None (cs : list addr) i c :
  cs !! i = Some c → prev_of cs i = None → i = 0%nat.
Proof.
  destruct i as [|j]; simpl; [done|]. intros Hi Hj.
  apply lookup_lt_Some in Hi. apply lookup_ge_None in Hj. lia.
Qed.

Section remove.
Context (m : gmap addr Value) (o : addr) (cs : list addr) (i : nat) (c : addr).
Hypothesis Hch : children m o cs.
Hypothesis Hi : cs !! i = Some c.

Lemma remove_prev x :
  is_Some (m !! x) →
  field m_prev (remove_map m o cs i) x
  = if decide (cs !! S i = Some x) then Some (prev_of cs i) else field m_prev m x.
Proof.
  intros Hx. unfold remove_map.
  destruct (cs !! S i) as [n|] eqn:Hn, (prev_of cs i) as [p|] eqn:Hp;
    repeat case_decide; simplify_eq; fld; done.
Qed.

Lemma remove_next x :
  is_Some (m !! x) →
  field m_next (remove_map m o cs i) x
  = if decide (prev_of cs i = Some x) then Some (cs !! S i) else field m_next m x.
Proof.
  intros Hx. unfold remove_map.
  destruct (cs !! S i) as [n|] eqn:Hn, (prev_of cs i) as [p|] eqn:Hp;
    repeat case_decide; simplify_eq; fld; done.
Qed.

Lemma remove_parent x :
  field m_parent (remove_map m o cs i) x = field m_parent m x.
Proof.
  unfold remove_map.
  destruct (cs !! S i) as [n|] eqn:Hn, (prev_of cs i) as [p|] eqn:Hp; fld; done.
Qed.

Lemma remove_firstChild :
  field m_firstChild (remove_map m o cs i) o
  = if decide (i = 0%nat) then Some (cs !! S i) else field m_firstChild m o.
Proof.
  pose proof (children_parent_live Hch) as Ho. unfold remove_map.
  destruct (prev_of cs i) as [p|] eqn:Hp.
  - destruct (prev_of_Some _ _ _ Hp) as (j & -> & Hj).
    pose proof (child_ne_parent _ _ _ _ _ Hch Hj).
    rewrite decide_False by done. destruct (cs !! S (S j)); fld; done.
  - rewrite (prev_of_None _ _ _ Hi Hp). rewrite decide_True by done.
    destruct (cs !! 1%nat); fld; done.
Qed.

Lemma remove_lastChild :
  field m_lastChild (remove_map m o cs i) o
  = if decide (S i = length cs) then Some (prev_of cs i) else field m_lastChild m o.
Proof.
  pose proof (children_parent_live Hch) as Ho. unfold remove_map.
  pose proof (lookup_lt_Some _ _ _ Hi) as Hlt.
  destruct (cs !! S i) as [n|] eqn:Hn.
  - apply lookup_lt_Some in Hn as Hlt'.
    pose proof (child_ne_parent _ _ _ _ _ Hch Hn).
    rewrite decide_False by lia. destruct (prev_of cs i); fld; done.
  - apply lookup_ge_None in Hn. rewrite decide_True by lia.
    destruct (prev_of cs i); fld; done.
Qed.

Lemma remove_length :
  field m_length (remove_map m o cs i) o = Some (Z.of_nat (length cs) - 1).
Proof.
  unfold remove_map. unfold field at 1. rewrite lookup_alter_eq.
  pose proof (ch_length _ _ _ Hch) as Hlen.
  assert (field m_length
            match prev_of cs i with
            | Some p => alter (set_next (cs !! S i)) p
                          match cs !! S i with
                          | Some n => alter (set_prev (prev_of cs i)) n m
                          | None => alter (set_lastChild (prev_of cs i)) o m
                          end
            | None => alter (set_firstChild (cs !! S i)) o
                          match cs !! S i with
                          | Some n => alter (set_prev (prev_of cs i)) n m
                          | None => alter (set_lastChild (prev_of cs i)) o m
                          end
            end o = Some (Z.of_nat (length cs))) as H.
  { destruct (cs !! S i), (prev_of cs i); by rewrite !field_alter_other. }
  unfold field in H.
  destruct (_ !! o) as [w|]; simplify_eq/=. by rewrite H.
Qed.

Lemma remove_map_children : children (remove_map m o cs i) o (delete i cs).
Proof.
  pose proof (lookup_lt_Some _ _ _ Hi) as Hlt.
  pose proof (children_parent_live Hch) as Ho.
  assert (∀ j x, delete i cs !! j = Some x → is_Some (m !! x)) as Hlive.
  { intros j x Hj. apply (children_live Hch).
    eapply list_elem_of_delete_inv, list_elem_of_lookup_2, Hj. }
  constructor.
  - rewrite remove_firstChild. case_decide as Hd.
    + rewrite Hd. destruct cs; [done|]. simpl. by rewrite head_lookup.
    + rewrite (ch_first _ _ _ Hch), !head_lookup.
      by rewrite list_lookup_delete_lt by lia.
  - rewrite remove_lastChild, !last_lookup, length_delete by eauto.
    case_decide as Hd.
    + destruct i as [|k]; simpl.
      * destruct cs as [|? [|? ?]]; simpl in *; done || lia.
      * rewrite list_lookup_delete_lt by lia. f_equal. f_equal. lia.
    + rewrite (ch_last _ _ _ Hch), last_lookup.
      rewrite list_lookup_delete_ge by lia. f_equal. f_equal. lia.
  - rewrite remove_length, length_delete by eauto. f_equal. lia.
  - intros j x Hj. rewrite remove_parent.
    destruct (decide (j < i)%nat).
    + rewrite list_lookup_delete_lt in Hj by done. by eapply ch_parent.
    + rewrite list_lookup_delete_ge in Hj by lia. by eapply ch_parent.
  - intros j x Hj. rewrite remove_prev by eauto.
    destruct (decide (j < i)%nat) as [Hji|Hji].
    + rewrite list_lookup_delete_lt in Hj by done.
      rewrite decide_False
        by (intros Hn; pose proof (children_inj _ _ _ _ _ _ Hch Hn Hj); lia).
      rewrite (ch_prev _ _ _ Hch j x Hj). f_equal.
      destruct j as [|k]; simpl; [done|]. by rewrite list_lookup_delete_lt by lia.
    + rewrite list_lookup_delete_ge in Hj by lia.
      case_decide as Hd.
      * pose proof (children_inj _ _ _ _ _ _ Hch Hd Hj) as Heq.
        assert (j = i) as -> by lia. f_equal.
        destruct i as [|k]; simpl; [done|]. by rewrite list_lookup_delete_lt by lia.
      * rewrite (ch_prev _ _ _ Hch (S j) x Hj). simpl. f_equal.
        destruct j as [|k]; simpl.
        -- assert (i = 0%nat) as Hi0 by lia. rewrite Hi0 in Hd. done.
        -- rewrite list_lookup_delete_ge; [done|].
           destruct (decide (i = S k)) as [Heq|]; [|lia].
           rewrite Heq in Hd. done.
  - intros j x Hj. rewrite remove_next by eauto.
    destruct (decide (j < i)%nat) as [Hji|Hji].
    + rewrite list_lookup_delete_lt in Hj by done.
      case_decide as Hd.
      * destruct (prev_of_Some _ _ _ Hd) as (k & Hk & Hk').
        pose proof (children_inj _ _ _ _ _ _ Hch Hk' Hj) as <-.
        rewrite list_lookup_delete_ge by lia. by rewrite Hk.
      * rewrite (ch_next _ _ _ Hch j x Hj). f_equal.
        rewrite list_lookup_delete_lt; [done|].
        destruct (decide (S j = i)) as [Heq|]; [|lia].
        rewrite <- Heq in Hd. simpl in Hd. done.
    + rewrite list_lookup_delete_ge in Hj by lia.
      rewrite decide_False.
      * rewrite (ch_next _ _ _ Hch (S j) x Hj). f_equal.
        by rewrite list_lookup_delete_ge by lia.
      * intros (k & Hk & Hk')%prev_of_Some.
        pose proof (children_inj _ _ _ _ _ _ Hch Hk' Hj). lia.
  - pose proof (ch_nodup _ _ _ Hch) as [Ho' Hnd]%NoDup_cons.
    apply NoDup_cons. split.
    + intros Hin. apply Ho'. by eapply list_elem_of_delete_inv.
    + eapply sublist_NoDup; [done|]. apply sublist_delete.
Qed.

End remove.

Lemma insert_at_lookup_lt i v (cs : list addr) j :
  (i ≤ length cs)%nat → (j < i)%nat → insert_at i v cs !! j = cs !! j.
Proof.
  intros. unfold insert_at. rewrite lookup_app_l by (rewrite length_take; lia).
  by apply lookup_take_lt.
Qed.

Lemma insert_at_lookup_eq i v (cs : list addr) :
  (i ≤ length cs)%nat → insert_at i v cs !! i = Some v.
Proof.
  intros. unfold insert_at. rewrite lookup_app_r by (rewrite length_take; lia).
  rewrite length_take_le by done. by rewrite Nat.sub_diag.
Qed.

Lemma insert_at_lookup_gt i v (cs : list addr) j :
  (i ≤ length cs)%nat → (i ≤ j)%nat → insert_at i v cs !! S j = cs !! j.
Proof.
  intros. unfold insert_at. rewrite lookup_app_r by (rewrite length_take; lia).
  rewrite length_take_le by done.
  replace (S j - i)%nat with (S (j - i)) by lia. simpl.
  rewrite lookup_drop. f_equal. lia.
Qed.

Lemma insert_at_length i v (cs : list addr) :
  length (insert_at i v cs) = S (length cs).
Proof.
  unfold insert_at. rewrite length_app. simpl.
  rewrite <- (take_drop i cs) at 3. rewrite length_app. lia.
Qed.

Lemma insert_at_lookup_inv i v (cs : list addr) j x :
  (i ≤ length cs)%nat → insert_at i v cs !! j = Some x →
  ((j < i)%nat ∧ cs !! j = Some x) ∨ (j = i ∧ x = v) ∨
  (∃ k, j = S k ∧ (i ≤ k)%nat ∧ cs !! k = Some x).
Proof.
  intros Hi Hj. destruct (decide (j < i)%nat).
  - left. by rewrite insert_at_lookup_lt in Hj.
  - destruct (decide (j = i)) as [->|].
    + right; left. rewrite insert_at_lookup_eq in Hj by done. by injection Hj.
    + right; right. destruct j as [|k]; [lia|]. exists k.
      rewrite insert_at_lookup_gt in Hj by lia. split; [done|]. split; [lia|done].
Qed.

Section before.
Context (m : gmap addr Value) (o : addr) (cs : list addr) (i : nat) (c v : addr).
Hypothesis Hch : children m o cs.
Hypothesis Hi : cs !! i = Some c.
Hypothesis Hv : is_Some (m !! v).
Hypothesis Hfresh : v ∉ o :: cs.

Local Lemma before_facts :
  v ≠ o ∧ c ≠ v ∧ c ≠ o ∧ is_Some (m !! o) ∧ is_Some (m !! c) ∧ (i < length cs)%nat.
Proof.
  split; [by eapply fresh_ne_parent|]. split; [by eapply fresh_ne_child|].
  split; [by eapply child_ne_parent|]. split; [by eapply children_parent_live|].
  split; [|by eapply lookup_lt_Some].
  eapply children_live; [done|]. by eapply list_elem_of_lookup_2.
Qed.

Lemma before_prev x :
  is_Some (m !! x) →
  field m_prev (before_map m o cs i c v) x
  = if decide (x = v) then Some (prev_of cs i)
    else if decide (x = c) then Some (Some v)
    else field m_prev m x.
Proof.
  intros Hx. destruct before_facts as (? & ? & ? & ? & ? & ?). unfold before_map.
  destruct (prev_of cs i) as [p|] eqn:Hp; repeat case_decide; simplify_eq; fld; done.
Qed.

Lemma before_next x :
  is_Some (m !! x) →
  field m_next (before_map m o cs i c v) x
  = if decide (x = v) then Some (Some c)
    else if decide (prev_of cs i = Some x) then Some (Some v)
    else field m_next m x.
Proof.
  intros Hx. destruct before_facts as (? & ? & ? & ? & ? & ?). unfold before_map.
  destruct (prev_of cs i) as [p|] eqn:Hp.
  - destruct (prev_of_Some _ _ _ Hp) as (j & Hij & Hj).
    pose proof (fresh_ne_child _ _ _ _ _ Hfresh Hj).
    repeat case_decide; simplify_eq; fld; done.
  - repeat case_decide; simplify_eq; fld; done.
Qed.

Lemma before_parent x :
  is_Some (m !! x) →
  field m_parent (before_map m o cs i c v) x
  = if decide (x = v) then Some (Some o) else field m_parent m x.
Proof.
  intros Hx. unfold before_map.
  destruct (prev_of cs i) as [p|] eqn:Hp; repeat case_decide; simplify_eq; fld; done.
Qed.

Lemma before_firstChild :
  field m_firstChild (before_map m o cs i c v) o
  = if decide (i = 0%nat) then Some (Some v) else field m_firstChild m o.
Proof.
  destruct before_facts as (? & ? & ? & ? & ? & ?). unfold before_map.
  destruct (prev_of cs i) as [p|] eqn:Hp.
  - destruct (prev_of_Some _ _ _ Hp) as (j & Hij & Hj).
    rewrite decide_False by lia. fld. done.
  - rewrite (prev_of_None _ _ _ Hi Hp). rewrite decide_True by done. fld. done.
Qed.

Lemma before_lastChild :
  field m_lastChild (before_map m o cs i c v) o = field m_lastChild m o.
Proof. unfold before_map. destruct (prev_of cs i); fld; done. Qed.

Lemma before_length :
  field m_length (before_map m o cs i c v) o = Some (Z.of_nat (length cs) + 1).
Proof.
  unfold before_map. unfold field at 1. rewrite lookup_alter_eq.
  pose proof (ch_length _ _ _ Hch) as Hlen.
  assert (field m_length
            match prev_of cs i with
            | Some p => alter (set_next (Some v)) p
                (alter (set_prev (Some v)) c
                   (alter (set_next (Some c)) v
                      (alter (set_prev (prev_of cs i)) v (alter (set_parent (Some o)) v m))))
            | None => alter (set_firstChild (Some v)) o
                (alter (set_prev (Some v)) c
                   (alter (set_next (Some c)) v
                      (alter (set_prev (prev_of cs i)) v (alter (set_parent (Some o)) v m))))
            end o = Some (Z.of_nat (length cs))) as H.
  { destruct (prev_of cs i); by rewrite !field_alter_other. }
  unfold field in H.
  destruct (_ !! o) as [w|]; simplify_eq/=. by rewrite H.
Qed.

Lemma before_map_children : children (before_map m o cs i c v) o (insert_at i v cs).
Proof.
  destruct before_facts as (Hvo & Hcv & Hco & Ho & Hc & Hlt).
  assert (i ≤ length cs)%nat as Hle by lia.
  assert (∀ j x, cs !! j = Some x → is_Some (m !! x) ∧ x ≠ v) as Hold.
  { intros j x Hj. split; [|by eapply fresh_ne_child].
    eapply children_live; [done|]. by eapply list_elem_of_lookup_2. }
  constructor.
  - rewrite before_firstChild, !head_lookup. case_decide as Hd.
    + rewrite Hd. by rewrite insert_at_lookup_eq by lia.
    + rewrite (ch_first _ _ _ Hch), head_lookup.
      by rewrite insert_at_lookup_lt by lia.
  - rewrite before_lastChild, (ch_last _ _ _ Hch), !last_lookup, insert_at_length.
    simpl. destruct (length cs) as [|n] eqn:Hn; [lia|]. simpl.
    by rewrite insert_at_lookup_gt by lia.
  - rewrite before_length, insert_at_length. f_equal. lia.
  - intros j x Hj.
    apply (insert_at_lookup_inv _ _ _ _ _ Hle) in Hj as [[Hji Hj]|[[-> ->]|(k & -> & Hk & Hj)]].
    + destruct (Hold _ _ Hj). rewrite before_parent, decide_False by done. by eapply ch_parent.
    + by rewrite before_parent, decide_True.
    + destruct (Hold _ _ Hj). rewrite before_parent, decide_False by done. by eapply ch_parent.
  - intros j x Hj.
    apply (insert_at_lookup_inv _ _ _ _ _ Hle) in Hj as [[Hji Hj]|[[-> ->]|(k & -> & Hk & Hj)]].
    + destruct (Hold _ _ Hj). rewrite before_prev, decide_False by done.
      rewrite decide_False
        by (intros ->; pose proof (children_inj _ _ _ _ _ _ Hch Hj Hi); lia).
      rewrite (ch_prev _ _ _ Hch j x Hj). f_equal.
      destruct j as [|l]; simpl; [done|]. by rewrite insert_at_lookup_lt by lia.
    + rewrite before_prev, decide_True by done. f_equal.
      destruct i as [|l]; simpl; [done|]. by rewrite insert_at_lookup_lt by lia.
    + destruct (Hold _ _ Hj). rewrite before_prev, decide_False by done. simpl.
      case_decide as Hd.
      * subst x. pose proof (children_inj _ _ _ _ _ _ Hch Hj Hi) as Heq.
        rewrite Heq. by rewrite insert_at_lookup_eq.
      * rewrite (ch_prev _ _ _ Hch k x Hj). f_equal.
        assert (k ≠ i) by (intros Heq; rewrite Heq in Hj; congruence).
        destruct k as [|l]; [lia|]. simpl. by rewrite insert_at_lookup_gt by lia.
  - intros j x Hj.
    apply (insert_at_lookup_inv _ _ _ _ _ Hle) in Hj as [[Hji Hj]|[[-> ->]|(k & -> & Hk & Hj)]].
    + destruct (Hold _ _ Hj). rewrite before_next, decide_False by done.
      case_decide as Hd.
      * destruct (prev_of_Some _ _ _ Hd) as (l & Hl & Hl').
        pose proof (children_inj _ _ _ _ _ _ Hch Hl' Hj) as Heq.
        rewrite <- Heq, <- Hl. by rewrite insert_at_lookup_eq.
      * rewrite (ch_next _ _ _ Hch j x Hj). f_equal.
        rewrite insert_at_lookup_lt; [done|lia|].
        destruct (decide (S j = i)) as [Heq|]; [|lia].
        rewrite <- Heq in Hd. simpl in Hd. done.
    + rewrite before_next, decide_True by done. f_equal.
      by rewrite insert_at_lookup_gt by lia.
    + destruct (Hold _ _ Hj). rewrite before_next, decide_False by done.
      rewrite decide_False.
      * rewrite (ch_next _ _ _ Hch k x Hj). f_equal.
        by rewrite insert_at_lookup_gt by lia.
      * intros (l & Hl & Hl')%prev_of_Some.
        pose proof (children_inj _ _ _ _ _ _ Hch Hl' Hj). lia.
  - pose proof (ch_nodup _ _ _ Hch) as [Ho' Hnd]%NoDup_cons.
    unfold insert_at. rewrite <- (take_drop i cs) in Hnd, Ho'.
    apply NoDup_app in Hnd as (H1 & H2 & H3).
    assert (v ∉ (take i cs ++ drop i cs)%list) as Hv'.
    { rewrite take_drop. intros Hin. apply Hfresh. by right. }
    rewrite elem_of_app in Hv', Ho'.
    apply NoDup_cons. split.
    + rewrite elem_of_app, elem_of_cons. intros [?|[?|?]]; [tauto|done|tauto].
    + apply NoDup_app. split; [done|]. split.
      * intros y Hy [->|Hy']%elem_of_cons; [tauto|]. by apply (H2 y).
      * apply NoDup_cons. split; [tauto|done].
Qed.

End before.

Lemma removeValueInt_run h o cs i c :
  children (cells h) o cs → cs !! i = Some c →
  removeValueInt o c h = (Ok c, mkHeap (remove_map (cells h) o cs i) (brk h)).
Proof.
  intros Hch Hi.
  destruct (children_cell _ _ _ _ _ Hch Hi) as (vc & Hvc & Hpar & Hprev & Hnext).
  pose proof (child_ne_parent _ _ _ _ _ Hch Hi) as Hco.
  pose proof (children_parent_live Hch) as Ho.
  unfold removeValueInt, remove_map.
  run_load Hvc. rewrite Hprev, Hnext.
  destruct (cs !! S i) as [n|] eqn:Hn.
  - assert (n ≠ c) by (intros ->; pose proof (children_inj _ _ _ _ _ _ Hch Hn Hi); lia).
    pose proof (children_live Hch n (list_elem_of_lookup_2 _ _ _ Hn)).
    run_modify. run_load Hvc. rewrite Hprev, Hnext.
    destruct (prev_of cs i) as [p|] eqn:Hp.
    + destruct (prev_of_Some _ _ _ Hp) as (j & -> & Hj).
      pose proof (children_live Hch p (list_elem_of_lookup_2 _ _ _ Hj)).
      run_modify. run_modify. reflexivity.
    + run_modify. run_modify. reflexivity.
  - run_modify. run_load Hvc. rewrite Hprev, Hnext.
    destruct (prev_of cs i) as [p|] eqn:Hp.
    + destruct (prev_of_Some _ _ _ Hp) as (j & -> & Hj).
      pose proof (children_live Hch p (list_elem_of_lookup_2 _ _ _ Hj)).
      run_modify. run_modify. reflexivity.
    + run_modify. run_modify. reflexivity.
Qed.

Lemma insertValueBeforeInt_run h o cs i c v :
  children (cells h) o cs → cs !! i = Some c →
  is_Some (cells h !! v) → v ∉ o :: cs →
  insertValueBeforeInt o c v h
  = (Ok tt, mkHeap (before_map (cells h) o cs i c v) (brk h)).
Proof.
  intros Hch Hi [vv Hvv] Hfresh.
  destruct (children_cell _ _ _ _ _ Hch Hi) as (vc & Hvc & Hpar & Hprev & Hnext).
  pose proof (child_ne_parent _ _ _ _ _ Hch Hi) as Hco.
  pose proof (fresh_ne_child _ _ _ _ _ Hfresh Hi) as Hcv.
  pose proof (children_parent_live Hch) as Ho.
  unfold insertValueBeforeInt, before_map.
  run_modify. run_load Hvc. rewrite Hprev. run_modify. run_modify. run_modify.
  erewrite (bind_Ok (load _));
    [| apply load_Some; simpl; rewrite lookup_alter_ne by done;
       rewrite !lookup_alter_eq, Hvv; reflexivity].
  simpl (m_prev _).
  destruct (prev_of cs i) as [p|] eqn:Hp.
  - destruct (prev_of_Some _ _ _ Hp) as (j & -> & Hj).
    pose proof (children_live Hch p (list_elem_of_lookup_2 _ _ _ Hj)).
    run_modify. rewrite modify_Some by (simpl; rewrite ?lookup_alter_is_Some; eauto).
    reflexivity.
  - run_modify. rewrite modify_Some by (simpl; rewrite ?lookup_alter_is_Some; eauto).
    reflexivity.
Qed.

Lemma remove_map_frame (m : gmap addr Value) o cs i x :
  x ≠ o → prev_of cs i ≠ Some x → cs !! S i ≠ Some x →
  remove_map m o cs i !! x = m !! x.
Proof.
  intros. unfold remove_map.
  destruct (cs !! S i), (prev_of cs i); rewrite !lookup_alter_ne by congruence; done.
Qed.

Lemma remove_map_content (m : gmap addr Value) o cs i x :
  x ≠ o → field content (remove_map m o cs i) x = field content m x.
Proof.
  intros. unfold remove_map.
  destruct (cs !! S i), (prev_of cs i);
    repeat first [rewrite field_alter_other by done | rewrite field_alter_ne by done]; done.
Qed.

Lemma remove_child_run h o cs i c t :
  children (cells h) o cs →
  cs !! i = Some c →
  descendants (cells h) c t →
  (∀ x, x ∈ addrs t → x ∉ o :: cs) →
  ∃ h',
    (old ← removeValueInt o c; delete_ old) h = (Ok tt, h') ∧
    children (cells h') o (delete i cs) ∧
    (∀ j c', j ≠ i → cs !! j = Some c' →
             field content (cells h') c' = field content (cells h) c') ∧
    (∀ x, x ∈ c :: addrs t → cells h' !! x = None) ∧
    (∀ x, x ∉ o :: cs → x ∉ addrs t → cells h' !! x = cells h !! x).
Proof.
  intros Hch Hi Hdesc Hdisj.
  pose proof (child_ne_parent _ _ _ _ _ Hch Hi) as Hco.
  set (h2 := mkHeap (remove_map (cells h) o cs i) (brk h)).
  assert (∀ x, x ∈ c :: addrs t → cells h2 !! x = cells h !! x) as Hframe.
  { intros x Hx. simpl. apply remove_map_frame.
    - intros ->. apply elem_of_cons in Hx as [?|Hx]; [done|]. apply (Hdisj _ Hx). by left.
    - intros Hp. apply prev_of_Some in Hp as (j & -> & Hj).
      apply elem_of_cons in Hx as [->|Hx].
      + pose proof (children_inj _ _ _ _ _ _ Hch Hj Hi). lia.
      + apply (Hdisj _ Hx). right. by eapply list_elem_of_lookup_2.
    - intros Hn. apply elem_of_cons in Hx as [->|Hx].
      + pose proof (children_inj _ _ _ _ _ _ Hch Hn Hi). lia.
      + apply (Hdisj _ Hx). right. by eapply list_elem_of_lookup_2. }
  pose proof (descendants_frame _ _ _ _ Hframe Hdesc) as Hdesc2.
  destruct (delete_spec h2 c t Hdesc2) as (h3 & Hrun3 & Hbrk3 & Hcells3).
  exists h3. split; [|split; [|split; [|split]]].
  - erewrite (bind_Ok (removeValueInt _ _)) by (by apply (removeValueInt_run h o cs i c)).
    exact Hrun3.
  - apply (children_frame (cells h2)); [|by eapply remove_map_children].
    intros x Hx. rewrite Hcells3, decide_False; [done|]. intros Hx'.
    apply elem_of_cons in Hx as [->|[k Hk]%list_elem_of_lookup].
    + apply elem_of_cons in Hx' as [?|Hx']; [done|]. apply (Hdisj _ Hx'). by left.
    + apply elem_of_cons in Hx' as [->|Hx'].
      * destruct (decide (k < i)%nat).
        -- rewrite list_lookup_delete_lt in Hk by done.
           pose proof (children_inj _ _ _ _ _ _ Hch Hk Hi). lia.
        -- rewrite list_lookup_delete_ge in Hk by lia.
           pose proof (children_inj _ _ _ _ _ _ Hch Hk Hi). lia.
      * apply (Hdisj _ Hx'). right.
        eapply list_elem_of_delete_inv, list_elem_of_lookup_2, Hk.
  - intros j c' Hne Hj.
    pose proof (child_ne_parent _ _ _ _ _ Hch Hj).
    unfold field at 1. rewrite Hcells3, decide_False.
    + by apply remove_map_content.
    + intros [->|Hx']%elem_of_cons.
      * by pose proof (children_inj _ _ _ _ _ _ Hch Hj Hi).
      * apply (Hdisj _ Hx'). right. by eapply list_elem_of_lookup_2.
  - intros x Hx. by rewrite Hcells3, decide_True.
  - intros x Hx Ht. rewrite Hcells3, decide_False.
    + simpl. apply remove_map_frame.
      * set_solver.
      * intros (j & _ & Hj)%prev_of_Some. apply Hx. right. by eapply list_elem_of_lookup_2.
      * intros Hn. apply Hx. right. by eapply list_elem_of_lookup_2.
    + intros [->|Hx']%elem_of_cons; [|done].
      apply Hx. right. by eapply list_elem_of_lookup_2.
Qed.

(** ** The scans of [class Array] *)

Section scans.
Context (h : heap) (o : addr) (cs : list addr) (position : Z).
Hypothesis Hch : children (cells h) o cs.
Let K := Z.to_nat position.

Lemma Array_getValue_loop_at :
  ∀ fuel k, (k ≤ K)%nat → (length cs ≤ fuel + k)%nat →
    Array_getValue_loop fuel (Z.of_nat k) position (cs !! k) h
    = match cs !! K with
      | Some c => (Ok c, h)
      | None => (Throw (JsonNull "index out of range"), h)
      end.
Proof.
  induction fuel as [|f IH]; intros k Hk Hfuel.
  - rewrite (lookup_ge_None_2 cs k), (lookup_ge_None_2 cs K) by lia. reflexivity.
  - destruct (cs !! k) as [c|] eqn:Hc.
    + simpl. destruct (Z.leb_spec position (Z.of_nat k)).
      * assert (K = k) as -> by lia. by rewrite Hc.
      * destruct (proj1 (field_Some _ _ _ _) (ch_next _ _ _ Hch k c Hc))
          as (vc & Hvc & Hnext).
        rewrite (bind_Ok _ _ _ _ _ (load_Some _ _ _ Hvc)), Hnext.
        replace (Z.of_nat k + 1) with (Z.of_nat (S k)) by lia. apply IH; lia.
    + apply lookup_ge_None in Hc. rewrite (lookup_ge_None_2 cs K) by lia. reflexivity.
Qed.

Lemma Array_removeValue_loop_at :
  ∀ fuel k, (k ≤ K)%nat → (length cs ≤ fuel + k)%nat →
    Array_removeValue_loop fuel o position (Z.of_nat k) (cs !! k) h
    = match cs !! K with
      | Some c => (old ← removeValueInt o c; delete_ old) h
      | None => (Throw (JsonNull "index out of range"), h)
      end.
Proof.
  induction fuel as [|f IH]; intros k Hk Hfuel.
  - rewrite (lookup_ge_None_2 cs k), (lookup_ge_None_2 cs K) by lia. reflexivity.
  - destruct (cs !! k) as [c|] eqn:Hc.
    + simpl. destruct (Z.leb_spec position (Z.of_nat k)).
      * assert (K = k) as -> by lia. by rewrite Hc.
      * destruct (proj1 (field_Some _ _ _ _) (ch_next _ _ _ Hch k c Hc))
          as (vc & Hvc & Hnext).
        rewrite (bind_Ok _ _ _ _ _ (load_Some _ _ _ Hvc)), Hnext.
        replace (Z.of_nat k + 1) with (Z.of_nat (S k)) by lia. apply IH; lia.
    + apply lookup_ge_None in Hc. rewrite (lookup_ge_None_2 cs K) by lia. reflexivity.
Qed.

Lemma Array_linkValueInt_loop_at value where_ :
  ∀ fuel k, (k ≤ K)%nat → (length cs ≤ fuel + k)%nat →
    Array_linkValueInt_loop fuel o value position where_ (Z.of_nat k) (cs !! k) h
    = match cs !! K with
      | Some c =>
          (if where_ =? 1
           then insertValueBeforeInt o c value;; mret (Some value)
           else old ← swapValueInt c value; delete_ old;; mret (Some value)) h
      | None => (Throw (JsonNull "index out of range"), h)
      end.
Proof.
  induction fuel as [|f IH]; intros k Hk Hfuel.
  - rewrite (lookup_ge_None_2 cs k), (lookup_ge_None_2 cs K) by lia. reflexivity.
  - destruct (cs !! k) as [c|] eqn:Hc.
    + simpl. destruct (Z.leb_spec position (Z.of_nat k)).
      * assert (K = k) as -> by lia. rewrite Hc. by destruct (where_ =? 1).
      * destruct (proj1 (field_Some _ _ _ _) (ch_next _ _ _ Hch k c Hc))
          as (vc & Hvc & Hnext).
        rewrite (bind_Ok _ _ _ _ _ (load_Some _ _ _ Hvc)), Hnext.
        replace (Z.of_nat k + 1) with (Z.of_nat (S k)) by lia. apply IH; lia.
    + apply lookup_ge_None in Hc. rewrite (lookup_ge_None_2 cs K) by lia. reflexivity.
Qed.

Lemma Array_getValue_at :
  Array_getValue o position h
  = match cs !! K with
    | Some c => (Ok c, h)
    | None => (Throw (JsonNull "index out of range"), h)
    end.
Proof.
  destruct (proj1 (field_Some _ _ _ _) (ch_first _ _ _ Hch)) as (vo & Hvo & Hfirst).
  pose proof (children_budget Hch) as Hsize.
  unfold Array_getValue.
  rewrite (bind_Ok _ _ _ _ _ (load_Some _ _ _ Hvo)).
  erewrite bind_Ok by reflexivity.
  rewrite Hfirst, head_lookup.
  apply (Array_getValue_loop_at _ 0%nat); lia.
Qed.

Lemma Array_removeValue_at :
  Array_removeValue o position h
  = match cs !! K with
    | Some c => (old ← removeValueInt o c; delete_ old) h
    | None => (Throw (JsonNull "index out of range"), h)
    end.
Proof.
  destruct (proj1 (field_Some _ _ _ _) (ch_first _ _ _ Hch)) as (vo & Hvo & Hfirst).
  pose proof (children_budget Hch) as Hsize.
  unfold Array_removeValue.
  rewrite (bind_Ok _ _ _ _ _ (load_Some _ _ _ Hvo)).
  erewrite bind_Ok by reflexivity.
  rewrite Hfirst, head_lookup.
  apply (Array_removeValue_loop_at _ 0%nat); lia.
Qed.

Lemma Array_linkValueInt_at value where_ :
  is_Some (cells h !! value) → where_ ≠ 0 →
  Array_linkValueInt o (Some value) position where_ h
  = match cs !! K with
    | Some c =>
        (if where_ =? 1
         then insertValueBeforeInt o c value;; mret (Some value)
         else old ← swapValueInt c value; delete_ old;; mret (Some value)) h
    | None => (Throw (JsonNull "index out of range"), h)
    end.
Proof.
  intros [vv Hvv] Hw.
  destruct (proj1 (field_Some _ _ _ _) (ch_first _ _ _ Hch)) as (vo & Hvo & Hfirst).
  pose proof (children_budget Hch) as Hsize.
  unfold Array_linkValueInt.
  rewrite (bind_Ok _ _ _ _ _ (load_Some _ _ _ Hvv)).
  erewrite (bind_Ok (if is_linked vv then _ else _)) by (by destruct (is_linked vv)).
  apply Z.eqb_neq in Hw. rewrite Hw.
  rewrite (bind_Ok _ _ _ _ _ (load_Some _ _ _ Hvo)).
  erewrite bind_Ok by reflexivity.
  rewrite Hfirst, head_lookup.
  apply (Array_linkValueInt_loop_at _ _ _ 0%nat); lia.
Qed.

End scans.

(** ** Operations that raise nothing *)

Lemma no_throw_bind {A B} (m : M A) (k : A → M B) :
  no_throw m → (∀ x, no_throw (k x)) → no_throw (m ≫= k).
Proof.
  intros Hm Hk h e h'. unfold mbind, M_bind.
  destruct (m h) as [[x| | |] h1] eqn:Hmh; try done.
  - apply Hk.
  - by destruct (Hm h e0 h1).
Qed.

Lemma no_throw_ret {A} (x : A) : no_throw (mret x).
Proof. done. Qed.

Lemma no_throw_load a : no_throw (load a).
Proof. intros h e h'. unfold load. by destruct (cells h !! a). Qed.

Lemma no_throw_modify a f : no_throw (modify a f).
Proof. intros h e h'. unfold modify. by destruct (cells h !! a). Qed.

Lemma no_throw_free a : no_throw (free a).
Proof. intros h e h'. unfold free. by destruct (cells h !! a). Qed.

Lemma no_throw_deref p : no_throw (deref p).
Proof. by destruct p. Qed.

Lemma no_throw_budget : no_throw budget.
Proof. done. Qed.

Lemma no_throw_out_of_fuel {A} : no_throw (@out_of_fuel A).
Proof. done. Qed.

Ltac no_throw_tac := repeat first
  [ apply no_throw_load | apply no_throw_modify | apply no_throw_free
  | apply no_throw_ret | apply no_throw_deref | apply no_throw_budget
  | apply no_throw_out_of_fuel
  | apply no_throw_bind; [|intros ?]
  | match goal with |- no_throw (match ?x with _ => _ end) => destruct x end ].

Lemma no_throw_delete fuel :
  (∀ a, no_throw (delete_value fuel a)) ∧ (∀ p, no_throw (delete_children fuel p)).
Proof.
  induction fuel as [|f [IHv IHc]]; split.
  - intros a. apply no_throw_out_of_fuel.
  - intros [c|]; [apply no_throw_out_of_fuel|apply no_throw_ret].
  - intros a. simpl. no_throw_tac. apply IHc.
  - intros [c|]; [|apply no_throw_ret]. simpl. no_throw_tac; [apply IHv|apply IHc].
Qed.

Lemma no_throw_delete_ a : no_throw (delete_ a).
Proof. unfold delete_. no_throw_tac. apply no_throw_delete. Qed.

Lemma no_throw_removeValueInt o c : no_throw (removeValueInt o c).
Proof. unfold removeValueInt. no_throw_tac. Qed.

Lemma no_throw_swapValueInt c v : no_throw (swapValueInt c v).
Proof. unfold swapValueInt. no_throw_tac. Qed.

Lemma no_throw_insertValueBeforeInt o c v : no_throw (insertValueBeforeInt o c v).
Proof. unfold insertValueBeforeInt. no_throw_tac. Qed.

Section out_of_range.
Context (h : heap) (o : addr) (c0 : addr) (rest : list addr).
Hypothesis Hch : children (cells h) o (c0 :: rest).

Local Lemma index_cases pos :
  (Z.of_nat (length (c0 :: rest)) ≤ pos ∧ (c0 :: rest) !! Z.to_nat pos = None) ∨
  (pos < Z.of_nat (length (c0 :: rest)) ∧ ∃ c, (c0 :: rest) !! Z.to_nat pos = Some c).
Proof.
  destruct (Z.le_gt_cases (Z.of_nat (length (c0 :: rest))) pos) as [Hle|Hgt].
  - left. split; [done|]. apply lookup_ge_None. lia.
  - right. split; [lia|]. apply lookup_lt_is_Some. simpl in *. lia.
Qed.

Lemma Array_getValue_out_of_range :
  out_of_range_beyond (Array_getValue o) h (length (c0 :: rest)).
Proof.
  intros pos. rewrite (Array_getValue_at h o _ pos Hch).
  destruct (index_cases pos) as [[Hle ->]|[Hlt [c ->]]]; split; try done; lia.
Qed.

Lemma Array_removeValue_out_of_range :
  out_of_range_beyond (Array_removeValue o) h (length (c0 :: rest)).
Proof.
  intros pos. rewrite (Array_removeValue_at h o _ pos Hch).
  destruct (index_cases pos) as [[Hle ->]|[Hlt [c ->]]]; split; try done; try lia.
  intros _. apply no_throw_bind; [apply no_throw_removeValueInt|].
  intros ?. apply no_throw_delete_.
Qed.

Lemma Array_linkValueInt_out_of_range v where_ :
  is_Some (cells h !! v) → where_ ≠ 0 →
  out_of_range_beyond (fun pos => Array_linkValueInt o (Some v) pos where_) h
    (length (c0 :: rest)).
Proof.
  intros Hv Hw pos. rewrite (Array_linkValueInt_at h o _ pos Hch v where_ Hv Hw).
  destruct (index_cases pos) as [[Hle ->]|[Hlt [c ->]]]; split; try done; try lia.
  intros _. destruct (where_ =? 1).
  - apply no_throw_bind; [apply no_throw_insertValueBeforeInt|]. intros ?. apply no_throw_ret.
  - apply no_throw_bind; [apply no_throw_swapValueInt|]. intros ?.
    apply no_throw_bind; [apply no_throw_delete_|]. intros ?. apply no_throw_ret.
Qed.

End out_of_range.

(** What the operations by position do on a non-empty array at an index
    that is not positive, and where they throw. *)
Lemma Array_first_child_by_position h o c0 rest t v idx :
  children (cells h) o (c0 :: rest) →
  descendants (cells h) c0 t →
  (∀ x, x ∈ addrs t → x ∉ o :: v :: c0 :: rest) →
  is_Some (cells h !! v) → v ∉ o :: c0 :: rest →
  idx ≤ 0 →
  Array_getValue o idx h = (Ok c0, h) ∧
  (∃ h', Array_removeValue o idx h = (Ok tt, h') ∧
         children (cells h') o rest ∧
         ∀ x, x ∈ c0 :: addrs t → cells h' !! x = None) ∧
  (∃ h', Array_linkValueBefore o (Some v) idx h = (Ok (Some v), h') ∧
         children (cells h') o (v :: c0 :: rest)) ∧
  (∃ h', Array_linkValueAt o (Some v) idx h = (Ok (Some v), h') ∧
         children (cells h') o (v :: rest) ∧
         ∀ x, x ∈ c0 :: addrs t → cells h' !! x = None) ∧
  out_of_range_beyond (Array_getValue o) h (length (c0 :: rest)) ∧
  out_of_range_beyond (Array_removeValue o) h (length (c0 :: rest)) ∧
  out_of_range_beyond (Array_linkValueBefore o (Some v)) h (length (c0 :: rest)) ∧
  out_of_range_beyond (Array_linkValueAt o (Some v)) h (length (c0 :: rest)).
Proof.
  intros Hch Hdesc Hdisj Hv Hfresh Hidx.
  assert (Z.to_nat idx = 0%nat) as HK by lia.
  assert ((c0 :: rest) !! Z.to_nat idx = Some c0) as Hc0 by (by rewrite HK).
  split; [|split; [|split; [|split; [|split; [|split; [|split]]]]]].
  - by rewrite (Array_getValue_at h o _ idx Hch), Hc0.
  - rewrite (Array_removeValue_at h o _ idx Hch), Hc0.
    destruct (remove_child_run h o (c0 :: rest) 0 c0 t Hch eq_refl Hdesc)
      as (h' & Hrun & Hch' & _ & Hfreed & _).
    { intros x Hx Hin. apply (Hdisj x Hx). set_solver. }
    exists h'. split; [done|]. split; [exact Hch'|done].
  - unfold Array_linkValueBefore.
    rewrite (Array_linkValueInt_at h o _ idx Hch v 1 Hv) by lia. rewrite Hc0. simpl.
    erewrite (bind_Ok (insertValueBeforeInt _ _ _))
      by (by apply (insertValueBeforeInt_run h o (c0 :: rest) 0 c0 v)).
    eexists. split; [reflexivity|].
    by apply (before_map_children (cells h) o (c0 :: rest) 0 c0 v).
  - unfold Array_linkValueAt.
    rewrite (Array_linkValueInt_at h o _ idx Hch v 2 Hv) by lia. rewrite Hc0. simpl.
    destruct (replace_child_run h o (c0 :: rest) 0 c0 t v Hch eq_refl Hdesc Hdisj Hv Hfresh)
      as (h' & Hrun & Hch' & _ & _ & Hfreed & _).
    exists h'. split; [done|]. split; [exact Hch'|done].
  - by apply Array_getValue_out_of_range.
  - by apply Array_removeValue_out_of_range.
  - apply (Array_linkValueInt_out_of_range h o c0 rest Hch v 1 Hv). lia.
  - apply (Array_linkValueInt_out_of_range h o c0 rest Hch v 2 Hv). lia.
Qed.

(** ** New nodes *)

Section fresh.
Context (h : heap) (d : Payload).
Hypothesis Hnew : cells h !! brk h = None.

Lemma alloc_fresh x : is_Some (cells h !! x) → x ≠ brk h.
Proof. intros Hx Heq. rewrite Heq, Hnew in Hx. by apply is_Some_None in Hx. Qed.

Lemma alloc_frame x :
  is_Some (cells h !! x) → cells (allocated h d) !! x = cells h !! x.
Proof. intros Hx. simpl. apply lookup_insert_ne. intros Heq. by apply (alloc_fresh x). Qed.

Lemma alloc_live : cells (allocated h d) !! brk h = Some (new_Value EmptyString d).
Proof. simpl. by rewrite lookup_insert_eq. Qed.

Lemma alloc_children o cs :
  children (cells h) o cs → children (cells (allocated h d)) o cs.
Proof.
  intros Hch. apply (children_frame (cells h)); [|done].
  intros x [->|Hx]%elem_of_cons; apply alloc_frame;
    [by eapply children_parent_live|by eapply children_live].
Qed.

Lemma alloc_not_child o cs : children (cells h) o cs → brk h ∉ o :: cs.
Proof.
  intros Hch [Heq|Hx]%elem_of_cons.
  - apply (alloc_fresh o); [by eapply children_parent_live|done].
  - apply (alloc_fresh (brk h)); [by apply (children_live Hch)|done].
Qed.

Lemma alloc_descendants c t :
  descendants (cells h) c t → descendants (cells (allocated h d)) c t.
Proof.
  intros Hdesc. apply (descendants_frame (cells h)); [|done].
  destruct Hdesc as [(vc & Hvc & Hshape) _].
  intros x [->|Hx]%elem_of_cons; apply alloc_frame; [eauto|by eapply shape_live].
Qed.

Lemma alloc_not_descendant c t : descendants (cells h) c t → brk h ∉ c :: addrs t.
Proof.
  intros [(vc & Hvc & Hshape) _] [Heq|Hx]%elem_of_cons.
  - apply (alloc_fresh c); eauto.
  - apply (alloc_fresh (brk h)); [by eapply shape_live|done].
Qed.

(** The node is destroyed again: the heap is as before, one address used. *)
Lemma alloc_delete : delete_ (brk h) (allocated h d) = (Ok tt, mkHeap (cells h) (S (brk h))).
Proof.
  destruct (delete_spec (allocated h d) (brk h) Leaf) as ([m b] & Hrun & Hbrk & Hcells).
  { split; [|apply NoDup_singleton]. exists (new_Value EmptyString d).
    split; [apply alloc_live|reflexivity]. }
  rewrite Hrun. simpl in *. subst b. f_equal. f_equal.
  apply map_eq. intros x. rewrite Hcells. simpl. case_decide as Hx.
  - apply list_elem_of_singleton in Hx as ->. by rewrite Hnew.
  - apply lookup_insert_ne. intros <-. apply Hx. by left.
Qed.

End fresh.

(** ** Positions in an array without children *)

Lemma Array_empty_out_of_range h e v :
  children (cells h) e [] → is_Some (cells h !! v) →
  always_out_of_range (Array_getValue e) h ∧
  always_out_of_range (Array_removeValue e) h ∧
  always_out_of_range (Array_linkValueBefore e (Some v)) h ∧
  always_out_of_range (Array_linkValueAt e (Some v)) h.
Proof.
  intros Hch Hv. repeat split; intros pos.
  - by rewrite (Array_getValue_at h e [] pos Hch).
  - by rewrite (Array_removeValue_at h e [] pos Hch).
  - unfold Array_linkValueBefore.
    by rewrite (Array_linkValueInt_at h e [] pos Hch v 1 Hv).
  - unfold Array_linkValueAt.
    by rewrite (Array_linkValueInt_at h e [] pos Hch v 2 Hv).
Qed.

(** ** New nodes linked by position *)

Lemma alloc_run h d : alloc (new_Value EmptyString d) h = (Ok (brk h), allocated h d).
Proof. reflexivity. Qed.

Lemma Array_link_new_Ok h o d pos w x h' :
  Array_linkValueInt o (Some (brk h)) pos w (allocated h d) = (Ok x, h') →
  Array_link_new o pos w d h = (Ok (brk h), h').
Proof.
  intros Hrun. unfold Array_link_new, Array_linkValueSafe.
  rewrite (bind_Ok _ _ _ _ _ (alloc_run h d)).
  erewrite (bind_Ok (guarded _ _ ≫= _)); [reflexivity|].
  erewrite (bind_Ok (guarded _ _)); [reflexivity|].
  apply guarded_Ok. exact Hrun.
Qed.

Lemma Array_link_new_Throw h o d pos w e :
  cells h !! brk h = None →
  Array_linkValueInt o (Some (brk h)) pos w (allocated h d) = (Throw e, allocated h d) →
  Array_link_new o pos w d h = (Throw e, mkHeap (cells h) (S (brk h))).
Proof.
  intros Hnew Hrun. unfold Array_link_new, Array_linkValueSafe.
  rewrite (bind_Ok _ _ _ _ _ (alloc_run h d)).
  apply bind_Throw, bind_Throw. unfold guarded. rewrite Hrun.
  by rewrite (bind_Ok _ _ _ _ _ (alloc_delete h d Hnew)).
Qed.

Lemma Array_link_new_no_throw h o d pos w :
  (∀ e h', Array_linkValueInt o (Some (brk h)) pos w (allocated h d) ≠ (Throw e, h')) →
  ∀ e h', Array_link_new o pos w d h ≠ (Throw e, h').
Proof.
  intros Hrun e h'. unfold Array_link_new, Array_linkValueSafe.
  rewrite (bind_Ok _ _ _ _ _ (alloc_run h d)).
  unfold mbind, M_bind, guarded.
  destruct (Array_linkValueInt _ _ _ _ _) as [[x|e0|u|] h1] eqn:E; try done.
  exfalso. by eapply Hrun.
Qed.

Lemma Array_new_first_by_position h o c0 rest t d idx :
  children (cells h) o (c0 :: rest) →
  descendants (cells h) c0 t →
  (∀ x, x ∈ addrs t → x ∉ o :: c0 :: rest) →
  cells h !! brk h = None →
  idx ≤ 0 →
  (∃ h', Array_link_new o idx 1 d h = (Ok (brk h), h') ∧
         children (cells h') o (brk h :: c0 :: rest)) ∧
  (∃ h', Array_link_new o idx 2 d h = (Ok (brk h), h') ∧
         children (cells h') o (brk h :: rest) ∧
         ∀ x, x ∈ c0 :: addrs t → cells h' !! x = None) ∧
  out_of_range_discards (fun pos => Array_link_new o pos 1 d) h (length (c0 :: rest)) ∧
  out_of_range_discards (fun pos => Array_link_new o pos 2 d) h (length (c0 :: rest)).
Proof.
  intros Hch Hdesc Hdisj Hnew Hidx.
  pose proof (alloc_children h d Hnew _ _ Hch) as Hch0.
  pose proof (alloc_descendants h d Hnew _ _ Hdesc) as Hdesc0.
  pose proof (alloc_not_child h Hnew _ _ Hch) as Hfresh.
  pose proof (alloc_not_descendant h Hnew _ _ Hdesc) as Hvt.
  assert (is_Some (cells (allocated h d) !! brk h)) as Hv
    by (rewrite (alloc_live h d); eauto).
  destruct (Array_first_child_by_position (allocated h d) o c0 rest t (brk h) idx)
    as (_ & _ & (h1 & Hrun1 & Hch1) & (h2 & Hrun2 & Hch2 & Hfreed2) & _ & _ & Hb & Ha);
    try done.
  { intros x Hx Hin. apply elem_of_cons in Hin as [->|Hin].
    - apply (Hdisj o Hx). by left.
    - apply elem_of_cons in Hin as [->|Hin].
      + apply Hvt. by right.
      + apply (Hdisj x Hx). by right. }
  split; [|split; [|split]].
  - exists h1. split; [|done]. by eapply Array_link_new_Ok.
  - exists h2. split; [|done]. by eapply Array_link_new_Ok.
  - intros pos. destruct (Hb pos) as [Hge Hlt]. split.
    + intros Hpos. apply Array_link_new_Throw; [done|]. by apply Hge.
    + intros Hpos. apply Array_link_new_no_throw. by apply Hlt.
  - intros pos. destruct (Ha pos) as [Hge Hlt]. split.
    + intros Hpos. apply Array_link_new_Throw; [done|]. by apply Hge.
    + intros Hpos. apply Array_link_new_no_throw. by apply Hlt.
Qed.

(** C8.  Let the array at [o] have the first child [c0] and the further
    children [rest], let [addrs t] be the descendants of [c0], let [v] be a
    live node that is none of these, and let [new] hand out an unused
    address.  For every index [idx <= 0], negative ones included:
    [getValue(idx)] returns [c0]; [removeValue(idx)] unlinks and destroys
    [c0]; linking [v] before [idx], and inserting a new value before [idx],
    put the node in front of [c0]; linking [v] at [idx], and setting [idx]
    to a new value, put the node in place of [c0], which is destroyed.  Each
    of the six throws the error for an index out of range at every position
    from the number of children on, and throws nothing below it; on an array
    without children the error is thrown at every position. *)
Theorem Array_index_below_zero_is_first h o c0 rest t v d idx :
  children (cells h) o (c0 :: rest) →
  descendants (cells h) c0 t →
  (∀ x, x ∈ addrs t → x ∉ o :: v :: c0 :: rest) →
  is_Some (cells h !! v) → v ∉ o :: c0 :: rest →
  cells h !! brk h = None →
  idx ≤ 0 →
  Array_getValue o idx h = (Ok c0, h) ∧
  (∃ h', Array_removeValue o idx h = (Ok tt, h') ∧
         children (cells h') o rest ∧
         ∀ x, x ∈ c0 :: addrs t → cells h' !! x = None) ∧
  (∃ h', Array_linkValueBefore o (Some v) idx h = (Ok (Some v), h') ∧
         children (cells h') o (v :: c0 :: rest)) ∧
  (∃ h', Array_linkValueAt o (Some v) idx h = (Ok (Some v), h') ∧
         children (cells h') o (v :: rest) ∧
         ∀ x, x ∈ c0 :: addrs t → cells h' !! x = None) ∧
  (∃ h', Array_insert o idx d h = (Ok (brk h), h') ∧
         children (cells h') o (brk h :: c0 :: rest)) ∧
  (∃ h', Array_set o idx d h = (Ok (brk h), h') ∧
         children (cells h') o (brk h :: rest) ∧
         ∀ x, x ∈ c0 :: addrs t → cells h' !! x = None) ∧
  (out_of_range_beyond (Array_getValue o) h (length (c0 :: rest)) ∧
   out_of_range_beyond (Array_removeValue o) h (length (c0 :: rest)) ∧
   out_of_range_beyond (Array_linkValueBefore o (Some v)) h (length (c0 :: rest)) ∧
   out_of_range_beyond (Array_linkValueAt o (Some v)) h (length (c0 :: rest)) ∧
   out_of_range_discards (fun pos => Array_insert o pos d) h (length (c0 :: rest)) ∧
   out_of_range_discards (fun pos => Array_set o pos d) h (length (c0 :: rest))) ∧
  (∀ e, children (cells h) e [] →
        always_out_of_range (Array_getValue e) h ∧
        always_out_of_range (Array_removeValue e) h ∧
        always_out_of_range (Array_linkValueBefore e (Some v)) h ∧
        always_out_of_range (Array_linkValueAt e (Some v)) h).
Proof.
  intros Hch Hdesc Hdisj Hv Hfresh Hnew Hidx.
  destruct (Array_first_child_by_position h o c0 rest t v idx)
    as (Hget & Hrem & Hbefore & Hat & Hr1 & Hr2 & Hr3 & Hr4); try done.
  destruct (Array_new_first_by_position h o c0 rest t d idx)
    as (Hins & Hset & Hr5 & Hr6); try done.
  { intros x Hx Hin. apply (Hdisj x Hx).
    apply elem_of_cons in Hin as [->|Hin]; [by left|by do 2 right]. }
  refine (conj Hget (conj Hrem (conj Hbefore (conj Hat (conj Hins (conj Hset
            (conj _ _))))))).
  - exact (conj Hr1 (conj Hr2 (conj Hr3 (conj Hr4 (conj Hr5 Hr6))))).
  - intros e He. by apply Array_empty_out_of_range.
Qed.

(** ** The theorems on example documents *)

Lemma doc_123_children : children (cells doc_123) 1%nat [2%nat; 3%nat; 4%nat].
Proof. concrete_children. Defined.

Lemma doc_123_descendants : descendants (cells doc_123) 2%nat Leaf.
Proof.
  split; [|apply (bool_decide_unpack _); vm_compute; reflexivity].
  eexists. split; [vm_compute; reflexivity|]. reflexivity.
Defined.

Lemma doc_nested_object : children (cells doc_nested) 1%nat [2%nat; 3%nat].
Proof. concrete_children. Defined.

Lemma doc_nested_array : children (cells doc_nested) 3%nat [4%nat].
Proof. concrete_children. Defined.

Lemma Object_removeValue_absent_is_noop_witness :
  Object_removeValue 1%nat "c" doc_nested = (Ok tt, doc_nested) ∧
  Array_removeValue 3%nat 1 doc_nested
  = (Throw (JsonNull "index out of range"), doc_nested) ∧
  classify (JsonNull "index out of range") = Some IndexOutOfRange.
Proof.
  refine (Object_removeValue_absent_is_noop doc_nested 1%nat [2%nat; 3%nat] "c"
            3%nat [4%nat] 1 doc_nested_object _ doc_nested_array _).
  - intros c Hc H.
    repeat (apply elem_of_cons in Hc as [->|Hc];
            [vm_compute in H; injection H as H; discriminate H|]).
    by apply elem_of_nil in Hc.
  - simpl. lia.
Defined.

Lemma Array_index_below_zero_is_first_witness :
  Array_getValue 1%nat (-1) doc_123 = (Ok 2%nat, doc_123) ∧
  (∃ h', Array_removeValue 1%nat (-1) doc_123 = (Ok tt, h') ∧
         children (cells h') 1%nat [3%nat; 4%nat] ∧
         ∀ x, x ∈ [2%nat] → cells h' !! x = None) ∧
  (∃ h', Array_linkValueBefore 1%nat (Some 5%nat) (-1) doc_123 = (Ok (Some 5%nat), h') ∧
         children (cells h') 1%nat [5%nat; 2%nat; 3%nat; 4%nat]) ∧
  (∃ h', Array_linkValueAt 1%nat (Some 5%nat) (-1) doc_123 = (Ok (Some 5%nat), h') ∧
         children (cells h') 1%nat [5%nat; 3%nat; 4%nat] ∧
         ∀ x, x ∈ [2%nat] → cells h' !! x = None) ∧
  (∃ h', Array_insert 1%nat (-1) (PNumber 0%float) doc_123 = (Ok (brk doc_123), h') ∧
         children (cells h') 1%nat [brk doc_123; 2%nat; 3%nat; 4%nat]) ∧
  (∃ h', Array_set 1%nat (-1) PNull doc_123 = (Ok (brk doc_123), h') ∧
         children (cells h') 1%nat [brk doc_123; 3%nat; 4%nat] ∧
         ∀ x, x ∈ [2%nat] → cells h' !! x = None) ∧
  brk doc_123 = 6%nat.
Proof.
  assert (∀ x, x ∈ addrs Leaf → x ∉ [1%nat; 5%nat; 2%nat; 3%nat; 4%nat]) as Hdisj
    by (intros x Hx; by apply elem_of_nil in Hx).
  assert (is_Some (cells doc_123 !! 5%nat)) as Hv
    by (exists (new_Value EmptyString (PNumber 9%float)); vm_compute; reflexivity).
  assert (5%nat ∉ [1%nat; 2%nat; 3%nat; 4%nat]) as Hfresh
    by (apply (bool_decide_unpack _); vm_compute; reflexivity).
  assert (cells doc_123 !! brk doc_123 = None) as Hnew by (vm_compute; reflexivity).
  assert (-1 ≤ 0) as Hidx by lia.
  destruct (Array_index_below_zero_is_first doc_123 1%nat 2%nat [3%nat; 4%nat] Leaf 5%nat
              (PNumber 0%float) (-1)
              doc_123_children doc_123_descendants Hdisj Hv Hfresh Hnew Hidx)
    as (Hget & Hrem & Hbefore & Hat & Hins & _).
  destruct (Array_index_below_zero_is_first doc_123 1%nat 2%nat [3%nat; 4%nat] Leaf 5%nat
              PNull (-1)
              doc_123_children doc_123_descendants Hdisj Hv Hfresh Hnew Hidx)
    as (_ & _ & _ & _ & _ & Hset & _).
  refine (conj Hget (conj Hrem (conj Hbefore (conj Hat (conj Hins (conj Hset _)))))).
  vm_compute. reflexivity.
Defined.

(** ** Trailing commas *)

Lemma lift_Ok {A} (x : A) h : lift (Ok x) h = (Ok x, h).
Proof. reflexivity. Qed.

(** The dispatch of [parse_value] on a closing bracket or brace. *)
Lemma parse_value_closing fuel parent name ptr h :
  peek (whitespace ptr) = "]"%char ∨ peek (whitespace ptr) = "}"%char →
  parse_value (S fuel) parent name ptr h = (Throw (JsonError "unexpected character"), h).
Proof. intros [H|H]; simpl; rewrite H; reflexivity. Qed.

Lemma parse_elements_trailing_comma fuel array ptr h p1 h1 q :
  parse_value (S (S fuel)) array EmptyString ptr h = (Ok p1, h1) →
  whitespace p1 = String "," q →
  peek (whitespace q) = "]"%char →
  parse_elements (S (S (S fuel))) array ptr h
  = (Throw (JsonError "unexpected character"), h1).
Proof.
  intros Hrun Hcomma Hclose.
  change (parse_elements (S (S (S fuel))) array ptr h)
    with ((ptr ← parse_value (S (S fuel)) array EmptyString ptr;
           let ptr := whitespace ptr in
           if Ascii.eqb (peek ptr) ","
           then ptr ← lift (skip ptr 1); parse_elements (S (S fuel)) array ptr
           else if Ascii.eqb (peek ptr) "]" then mret ptr
                else throw (JsonError "expected ']' or ',' after array element")) h).
  rewrite (bind_Ok _ _ _ _ _ Hrun). cbv zeta. rewrite Hcomma.
  change (peek (String "," q)) with ","%char. rewrite Ascii.eqb_refl.
  rewrite (bind_Ok (lift _) _ h1 q h1) by reflexivity.
  change (parse_elements (S (S fuel)) array q h1)
    with ((ptr ← parse_value (S fuel) array EmptyString q;
           let ptr := whitespace ptr in
           if Ascii.eqb (peek ptr) ","
           then ptr ← lift (skip ptr 1); parse_elements (S fuel) array ptr
           else if Ascii.eqb (peek ptr) "]" then mret ptr
                else throw (JsonError "expected ']' or ',' after array element")) h1).
  apply bind_Throw. apply parse_value_closing. by left.
Qed.

Lemma parse_string_loop_unquoted ptr :
  ∀ fuel value start,
    unquoted ptr = true → (String.length ptr ≤ fuel)%nat →
    ∃ v p, parse_string_loop fuel value start ptr = Ok (v, p) ∧ peek p = Ascii.zero.
Proof.
  induction ptr as [|c rest IH]; intros fuel value start Hun Hfuel.
  - exists (flush value start EmptyString), EmptyString. by destruct fuel.
  - simpl in Hun. apply andb_prop in Hun as [Hc Hrest]. apply andb_prop in Hc as [Hq Hb].
    destruct (Ascii.eqb c Ascii.zero) eqn:Hz.
    + exists (flush value start (String c rest)), (String c rest).
      apply Ascii.eqb_eq in Hz as ->. by destruct fuel.
    + destruct fuel as [|f]; [simpl in Hfuel; lia|].
      cbn [parse_string_loop]. change (peek (String c rest)) with c.
      rewrite Hq, Hz, Hb. cbn [negb andb]. simpl in Hfuel.
      change (skip (String c rest) 1) with (Ok (A := string) rest).
      apply (IH f value start Hrest). lia.
Qed.

(** Whatever its first character, a text that goes on without a double
    quote and without a backslash is read by [parse_string] up to its end. *)
Lemma parse_string_unquoted c rest :
  unquoted rest = true →
  ∃ v p, parse_string (String c rest) = Ok (v, p) ∧ peek p = Ascii.zero.
Proof.
  intros Hun. unfold parse_string.
  change (skip (String c rest) 1) with (Ok (A := string) rest).
  change (Ok rest ≫= ?k) with (k rest). cbv beta.
  assert (Ascii.eqb (peek rest) dquote = false) as ->.
  { destruct rest as [|c' r]; [reflexivity|]. simpl in Hun.
    apply andb_prop in Hun as [Hc _]. apply andb_prop in Hc as [Hq _].
    by apply negb_true_iff in Hq. }
  by apply parse_string_loop_unquoted.
Qed.

Lemma whitespace_at_end p : peek p = Ascii.zero → peek (whitespace p) = Ascii.zero.
Proof. destruct p as [|c r]; [done|]. simpl. by intros ->. Qed.

Lemma parse_members_trailing_comma fuel object ptr h key p0 p1 h1 q q1 r :
  parse_string (whitespace ptr) = Ok (key, p0) →
  whitespace p0 = String ":" p1 →
  parse_value (S fuel) object key p1 h = (Ok q, h1) →
  whitespace q = String "," q1 →
  whitespace q1 = String "}" r →
  unquoted r = true →
  parse_members (S (S fuel)) object ptr h
  = (Throw (JsonError "expected ':' before object value"), h1).
Proof.
  intros Hkey Hcolon Hrun Hcomma Hbrace Hun.
  change (parse_members (S (S fuel)) object ptr h)
    with ((let ptr := whitespace ptr in
           '(valueName, ptr) ← lift (parse_string ptr);
           let ptr := whitespace ptr in
           if negb (Ascii.eqb (peek ptr) ":")
           then throw (JsonError "expected ':' before object value")
           else
             ptr ← lift (skip ptr 1);
             ptr ← parse_value (S fuel) object valueName ptr;
             let ptr := whitespace ptr in
             if Ascii.eqb (peek ptr) "," then
               ptr ← lift (skip ptr 1); parse_members (S fuel) object ptr
             else if Ascii.eqb (peek ptr) "}" then mret ptr
             else throw (JsonError "expected '}' or ',' after object element")) h).
  cbv zeta. rewrite Hkey. rewrite (bind_Ok (lift _) _ h (key, p0) h) by reflexivity.
  cbv beta iota zeta. rewrite Hcolon.
  change (peek (String ":" p1)) with ":"%char. rewrite Ascii.eqb_refl.
  change (negb true) with false. cbv iota.
  rewrite (bind_Ok (lift _) _ h p1 h) by reflexivity.
  rewrite (bind_Ok _ _ _ _ _ Hrun). cbv zeta. rewrite Hcomma.
  change (peek (String "," q1)) with ","%char.
  rewrite Ascii.eqb_refl.
  rewrite (bind_Ok (lift _) _ h1 q1 h1) by reflexivity.
  change (parse_members (S fuel) object q1 h1)
    with ((let ptr := whitespace q1 in
           '(valueName, ptr) ← lift (parse_string ptr);
           let ptr := whitespace ptr in
           if negb (Ascii.eqb (peek ptr) ":")
           then throw (JsonError "expected ':' before object value")
           else
             ptr ← lift (skip ptr 1);
             ptr ← parse_value fuel object valueName ptr;
             let ptr := whitespace ptr in
             if Ascii.eqb (peek ptr) "," then
               ptr ← lift (skip ptr 1); parse_members fuel object ptr
             else if Ascii.eqb (peek ptr) "}" then mret ptr
             else throw (JsonError "expected '}' or ',' after object element")) h1).
  cbv zeta. rewrite Hbrace.
  destruct (parse_string_unquoted "}" r Hun) as (v & p & Hrun' & Hend).
  rewrite Hrun'.
  rewrite (bind_Ok (lift _) _ h1 (v, p) h1) by reflexivity. cbv beta iota.
  by rewrite (whitespace_at_end p Hend).
Qed.

(** C7, as the code has it:  [{}] and [[]] parse to an object and an array
    without children.  When an element of an array has been parsed and is
    followed by a comma and then, after white space, by the closing bracket,
    the loop over the elements throws the error for an unexpected character:
    the comma sends it to the dispatch of the next value, which rejects the
    bracket.  When a member of an object has been parsed and is followed by
    a comma, a closing brace and a rest of the text without double quote
    and backslash, the loop over the members throws the error for a missing
    colon: the brace is skipped as if it opened the next key, the key runs
    to the end of the text, and the text ends where the colon is due. *)
Theorem trailing_comma_errors
    fuel array ptr h p1 h1 q fuel' object ptr' h2 key p0 p2 q' q1 r h3 :
  parse_value (S (S fuel)) array EmptyString ptr h = (Ok p1, h1) →
  whitespace p1 = String "," q →
  peek (whitespace q) = "]"%char →
  parse_string (whitespace ptr') = Ok (key, p0) →
  whitespace p0 = String ":" p2 →
  parse_value (S fuel') object key p2 h2 = (Ok q', h3) →
  whitespace q' = String "," q1 →
  whitespace q1 = String "}" r →
  unquoted r = true →
  (fst (document "{}") = Ok tt ∧
   tree_of (snd (document "{}")) 0%nat
   = Some (Node EmptyString PRoot [Node EmptyString PObject []]) ∧
   field m_length (cells (snd (document "{}"))) 1%nat = Some 0) ∧
  (fst (document "[]") = Ok tt ∧
   tree_of (snd (document "[]")) 0%nat
   = Some (Node EmptyString PRoot [Node EmptyString PArray []]) ∧
   field m_length (cells (snd (document "[]"))) 1%nat = Some 0) ∧
  parse_elements (S (S (S fuel))) array ptr h
  = (Throw (JsonError "unexpected character"), h1) ∧
  classify (JsonError "unexpected character") = Some UnexpectedCharacter ∧
  parse_members (S (S fuel')) object ptr' h2
  = (Throw (JsonError "expected ':' before object value"), h3) ∧
  classify (JsonError "expected ':' before object value") = Some ExpectedDelimiter.
Proof.
  intros Helem Hcomma Hclose Hkey Hcolon Hmember Hcomma' Hbrace Hrest.
  split; [vm_compute; repeat split; reflexivity|].
  split; [vm_compute; repeat split; reflexivity|].
  split; [by eapply parse_elements_trailing_comma|].
  split; [reflexivity|].
  split; [by eapply parse_members_trailing_comma|reflexivity].
Qed.

Lemma trailing_comma_errors_witness :
  (parse_elements 3 1%nat "1, ]" open_array
   = (Throw (JsonError "unexpected character"),
      snd (parse_value 2 1%nat EmptyString "1, ]" open_array)) ∧
   parse_members 2 1%nat (txt "'a':1, }]") open_object
   = (Throw (JsonError "expected ':' before object value"),
      snd (parse_value 1 1%nat "a" "1, }]" open_object))) ∧
  fst (document "[1,]") = Throw (JsonError "unexpected character") ∧
  fst (document (txt "{'a':1,}")) = Throw (JsonError "expected ':' before object value") ∧
  fst (document (txt "[{'a':1, }]"))
  = Throw (JsonError "expected ':' before object value").
Proof.
  split; [|split; [|split]; vm_compute; reflexivity].
  pose proof (trailing_comma_errors 0 1%nat "1, ]" open_array ", ]"
                (snd (parse_value 2 1%nat EmptyString "1, ]" open_array)) " ]"
                0 1%nat (txt "'a':1, }]") open_object "a" ":1, }]" "1, }]" ", }]"
                " }]" "]"
                (snd (parse_value 1 1%nat "a" "1, }]" open_object))) as H.
  destruct H as (_ & _ & Ha & _ & Ho & _);
    [vm_compute; reflexivity | reflexivity | reflexivity | vm_compute; reflexivity
    | reflexivity | vm_compute; reflexivity | reflexivity | reflexivity | reflexivity | ].
  split; assumption.
Defined.

(** A double quote after the brace makes the brace and the quote the
    delimiters of an empty key, and the parse goes on: the text
    [{'a':1,}':2}] is accepted, with a second member of the empty name. *)
Lemma object_trailing_comma_before_quote :
  fst (document (txt "{'a':1,}':2}")) = Ok tt ∧
  tree_of (snd (document (txt "{'a':1,}':2}"))) 0%nat
  = Some (Node EmptyString PRoot
            [Node EmptyString PObject
               [Node "a" (PNumber 1%float) []; Node EmptyString (PNumber 2%float) []]]).
Proof. vm_compute. split; reflexivity. Qed.

(** ** What a failed parse leaves in the root *)

Section hoare.
Context (b : addr).




Lemma hoare_weaken {A} (m : M A) (Q Q' : A → Prop) :
  hoare b m Q → (∀ x, Q x → Q' x) → hoare b m Q'.
Proof.
  intros Hm HQ h o h' Hrun Hab. destruct (Hm h o h' Hrun Hab) as (? & ? & ?).
  split; [assumption|]. split; [assumption|]. auto.
Qed.









End hoare.



Lemma document_unfold json :
  document json
  = (parse_value (S (2 * String.length json)) 0%nat EmptyString json;; mret tt) root_heap.
Proof. reflexivity. Qed.







(** ** Nothing is destroyed by the descent *)










(** ** The container that a failed parse has opened *)

Lemma opened_run d :
  (object ← alloc (new_Value EmptyString d); insertValueInt 0%nat object) root_heap
  = (Ok tt, opened d).
Proof. reflexivity. Qed.



Lemma opened_cells d :
  cells (opened d) !! 0%nat = Some root_with_child ∧
  field m_data (cells (opened d)) 1%nat = Some d.
Proof. split; reflexivity. Qed.




(** ** The budget of the parser *)

Lemma ends_bind {A B} (o : outcome A) (k : A → outcome B) Q R :
  ends o Q → (∀ x, Q x → ends (k x) R) → ends (o ≫= k) R.
Proof. destruct o; simpl; auto. Qed.

Lemma ends_weaken {A} (o : outcome A) (Q R : A → Prop) :
  ends o Q → (∀ x, Q x → R x) → ends o R.
Proof. destruct o; simpl; auto. Qed.

Lemma ends_in_bind {A B} (m : M A) (k : A → M B) Q R :
  ends_in m Q → (∀ x, Q x → ends_in (k x) R) → ends_in (m ≫= k) R.
Proof.
  intros Hm Hk h. specialize (Hm h). unfold mbind, M_bind.
  destruct (m h) as [[x| | |] h1]; simpl in *; try done. by apply Hk.
Qed.

Lemma ends_in_lift {A} (o : outcome A) Q : ends o Q → ends_in (lift o) Q.
Proof. intros H h. exact H. Qed.

Lemma ends_in_ret {A} (x : A) (Q : A → Prop) : Q x → ends_in (mret x) Q.
Proof. intros H h. exact H. Qed.

Lemma ends_in_throw {A} e (Q : A → Prop) : ends_in (throw e) Q.
Proof. intros h. exact I. Qed.

Lemma ends_in_load a : ends_in (load a) (fun _ => True).
Proof. intros h. unfold load. by destruct (cells h !! a). Qed.

Lemma ends_in_modify a f : ends_in (modify a f) (fun _ => True).
Proof. intros h. unfold modify. by destruct (cells h !! a). Qed.

Lemma ends_in_alloc v : ends_in (alloc v) (fun _ => True).
Proof. intros h. exact I. Qed.

Lemma ends_in_insertValueInt parent v : ends_in (insertValueInt parent v) (fun _ => True).
Proof.
  unfold insertValueInt.
  eapply ends_in_bind; [apply ends_in_load|]. intros t _.
  eapply ends_in_bind with (Q := fun _ => True); [|intros ? _; apply ends_in_modify].
  destruct (m_lastChild t);
    repeat (eapply ends_in_bind; [apply ends_in_modify|intros ? _]);
    apply ends_in_modify.
Qed.

Lemma skip_length ptr n : ends (skip ptr n) (fun q => (String.length q + n)%nat = String.length ptr).
Proof.
  revert ptr. induction n as [|n IH]; intros ptr; simpl; [lia|].
  destruct ptr as [|c rest]; simpl; [done|].
  eapply ends_weaken; [apply IH|]. simpl. intros q Hq. lia.
Qed.

Lemma skip_not_behind ptr n : ends (skip ptr n) (not_behind ptr).
Proof. eapply ends_weaken; [apply skip_length|]. unfold not_behind. intros q Hq. lia. Qed.

Lemma whitespace_length ptr : (String.length (whitespace ptr) ≤ String.length ptr)%nat.
Proof.
  induction ptr as [|c rest IH]; simpl; [lia|].
  destruct (_ || _); simpl; lia.
Qed.

Lemma peek_nonempty ptr : peek ptr ≠ Ascii.zero → (0 < String.length ptr)%nat.
Proof. destruct ptr; simpl; [done|lia]. Qed.

Ltac ends_step := repeat first
  [ match goal with
    | |- ends (Throw _) _ => exact I
    | |- ends (Undefined _) _ => exact I
    | |- ends (Ok _) _ => unfold not_behind in *; simpl in *; lia
    | |- ends (if ?c then _ else _) _ => destruct c eqn:?
    | |- ends (let _ := _ in _) _ => cbv zeta
    | |- ends (match ?x with (_, _) => _ end) _ => destruct x
    | |- ends (skip _ _ ≫= _) _ =>
        eapply ends_bind; [apply skip_length | cbv beta; intros ? ?]
    end ].

Lemma parse_unicode_loop_not_behind n :
  ∀ value ptr, ends (parse_unicode_loop n value ptr) (fun r => not_behind ptr (snd r)).
Proof.
  induction n as [|n IH]; intros value ptr; cbn [parse_unicode_loop];
    [unfold not_behind; simpl; lia|].
  cbv zeta.
  eapply ends_bind with (Q := fun _ => True);
    [repeat (match goal with |- ends (if ?c then _ else _) _ => destruct c end); exact I|].
  intros v _.
  ends_step. eapply ends_weaken; [apply IH|].
  intros [v' q] Hq. unfold not_behind in *. simpl in *. lia.
Qed.

Lemma parse_escape_u_not_behind ptr :
  ends (parse_escape_u ptr) (fun r => not_behind ptr (snd r)).
Proof.
  unfold parse_escape_u, parse_unicode. ends_step.
  eapply ends_bind; [apply parse_unicode_loop_not_behind|]. intros [unicode p1] Hp1.
  ends_step.
  eapply ends_bind; [apply parse_unicode_loop_not_behind|]. intros [unicode2 p2] Hp2.
  ends_step.
Qed.

Lemma parse_escape_not_behind ptr :
  ends (parse_escape ptr) (fun r => not_behind ptr (snd r)).
Proof.
  unfold parse_escape. ends_step.
  eapply ends_bind; [apply parse_escape_u_not_behind|]. intros [unicode p1] Hp1.
  ends_step.
Qed.

Lemma parse_string_loop_not_behind fuel :
  ∀ value start ptr,
    (String.length ptr ≤ fuel)%nat →
    ends (parse_string_loop fuel value start ptr) (fun r => not_behind ptr (snd r)).
Proof.
  induction fuel as [|f IH]; intros value start ptr Hfuel.
  - destruct ptr as [|c rest]; [|simpl in Hfuel; lia].
    simpl. unfold not_behind. simpl. lia.
  - cbn [parse_string_loop].
    destruct (negb (Ascii.eqb (peek ptr) dquote) && negb (Ascii.eqb (peek ptr) Ascii.zero))
      eqn:Hgo; [|ends_step].
    destruct (negb (Ascii.eqb (peek ptr) "\")).
    + ends_step. eapply ends_weaken; [apply IH; lia|].
      intros [v q] Hq. unfold not_behind in *. simpl in *. lia.
    + ends_step.
      eapply ends_bind; [apply parse_escape_not_behind|]. intros [bytes p1] Hp1.
      eapply ends_weaken; [apply IH; unfold not_behind in *; simpl in *; lia|].
      intros [v q] Hq. unfold not_behind in *. simpl in *. lia.
Qed.

Lemma parse_string_not_behind ptr :
  ends (parse_string ptr) (fun r => not_behind ptr (snd r)).
Proof.
  unfold parse_string. ends_step.
  eapply ends_weaken; [apply parse_string_loop_not_behind; lia|].
  intros [v q] Hq. unfold not_behind in *. simpl in *. lia.
Qed.

Lemma digits_not_behind ptr : ∀ number, not_behind ptr (snd (digits number ptr)).
Proof.
  unfold not_behind. induction ptr as [|c rest IH]; intros number; simpl; [lia|].
  destruct (isDigit c); simpl; [|lia]. specialize (IH (number * 10 + Z2F (code c - code "0"))%float). lia.
Qed.

Lemma frac_digits_not_behind ptr :
  ∀ number frac, not_behind ptr (snd (frac_digits number frac ptr)).
Proof.
  unfold not_behind. induction ptr as [|c rest IH]; intros number frac; simpl; [lia|].
  destruct (isDigit c); simpl; [|lia].
  specialize (IH (number * 10 + Z2F (code c - code "0"))%float (frac + 1)). lia.
Qed.

Lemma int_ends z : ends (int z) (fun _ => True).
Proof. unfold int. by destruct (_ && _). Qed.

Lemma exp_digits_not_behind ptr :
  ∀ exp, ends (exp_digits exp ptr) (fun r => not_behind ptr (snd r)).
Proof.
  unfold not_behind. induction ptr as [|c rest IH]; intros exp; simpl; [lia|].
  destruct (isDigit c); simpl; [|lia].
  eapply ends_bind; [apply int_ends|]. intros e _.
  eapply ends_weaken; [apply IH|]. intros [e' q]. simpl. lia.
Qed.

Lemma parse_number_not_behind ptr :
  ends (parse_number ptr) (fun r => not_behind ptr (snd r)).
Proof.
  unfold parse_number.
  eapply ends_bind with (Q := fun r => not_behind ptr (snd r)); [ends_step|].
  intros [sign p1] Hp1.
  eapply ends_bind with (Q := fun r => not_behind ptr (snd r)).
  { ends_step.
    - pose proof (digits_not_behind p1 0%float) as Hd.
      destruct (digits 0%float p1) as [x q]. ends_step. }
  intros [number p2] Hp2.
  eapply ends_bind with (Q := fun r => not_behind ptr (snd r)).
  { destruct (Ascii.eqb (peek p2) "."); [|ends_step].
    eapply ends_bind; [apply skip_length|]. intros p2' Hp2'. cbv beta.
    destruct (negb (isDigit (peek p2'))); [exact I|].
    pose proof (frac_digits_not_behind p2' number 0) as Hd.
    destruct (frac_digits number 0 p2') as [[x fr] q]. ends_step. }
  intros [[number' frac] p3] Hp3.
  eapply ends_bind with (Q := fun r => not_behind ptr (snd r)).
  { ends_step.
    all: eapply ends_bind with (Q := fun r => not_behind ptr (snd r)); [ends_step|].
    all: intros [es p4] Hp4; ends_step.
    all: eapply ends_bind; [apply exp_digits_not_behind|].
    all: intros [ex p5] Hp5; ends_step. }
  intros [[expSign exp] p4] Hp4. cbv zeta.
  eapply ends_bind; [apply int_ends|]. intros ex _.
  eapply ends_bind with (Q := fun _ => True); [destruct (ex <? 0); [apply int_ends|exact I]|].
  intros e _. exact Hp4.
Qed.

Lemma ends_weaken_in {A} (m : M A) (Q R : A → Prop) :
  ends_in m Q → (∀ x, Q x → R x) → ends_in m R.
Proof. intros Hm HQR h. eapply ends_weaken; [apply Hm|exact HQR]. Qed.

Ltac know_whitespace :=
  repeat match goal with
  | |- context [whitespace ?x] =>
      lazymatch goal with
      | _ : (String.length (whitespace x) ≤ String.length x)%nat |- _ => fail
      | _ => pose proof (whitespace_length x)
      end
  | _ : context [whitespace ?x] |- _ =>
      lazymatch goal with
      | _ : (String.length (whitespace x) ≤ String.length x)%nat |- _ => fail
      | _ => pose proof (whitespace_length x)
      end
  end.

Ltac forward := unfold not_behind in *; cbn [snd fst] in *; know_whitespace; lia.

Ltac ends_in_step := repeat first
  [ match goal with
    | |- ends_in (throw _) _ => apply ends_in_throw
    | |- ends_in (mret _) _ => apply ends_in_ret; forward
    | |- ends_in (if ?c then _ else _) _ => destruct c eqn:?
    | |- ends_in (let _ := _ in _) _ => cbv zeta
    | |- ends_in (match ?x with (_, _) => _ end) _ => destruct x
    | |- ends_in (lift (skip _ _) ≫= _) _ =>
        eapply ends_in_bind; [apply ends_in_lift, skip_length | cbv beta; intros ? ?]
    | |- ends_in (lift (skip _ _)) _ =>
        apply ends_in_lift; eapply ends_weaken; [apply skip_length | intros ? ?; forward]
    | |- ends_in (alloc _ ≫= _) _ =>
        eapply ends_in_bind; [apply ends_in_alloc | cbv beta; intros ? _]
    | |- ends_in (insertValueInt _ _ ≫= _) _ =>
        eapply ends_in_bind; [apply ends_in_insertValueInt | cbv beta; intros ? _]
    | |- ends_in (lift (parse_string _) ≫= _) _ =>
        eapply ends_in_bind;
        [apply ends_in_lift, parse_string_not_behind | cbv beta; intros [? ?] ?]
    | |- ends_in (lift (parse_number _) ≫= _) _ =>
        eapply ends_in_bind;
        [apply ends_in_lift, parse_number_not_behind | cbv beta; intros [? ?] ?]
    end ].

Lemma parse_within_budget fuel :
  (∀ parent name ptr, (2 * String.length ptr + 1 ≤ fuel)%nat →
     ends_in (parse_value fuel parent name ptr) (not_behind ptr)) ∧
  (∀ object ptr, (2 * String.length ptr + 1 ≤ fuel)%nat →
     ends_in (parse_members fuel object ptr) (not_behind ptr)) ∧
  (∀ array ptr, (2 * String.length ptr + 2 ≤ fuel)%nat →
     ends_in (parse_elements fuel array ptr) (not_behind ptr)).
Proof.
  induction fuel as [|f (IHv & IHm & IHe)]; [split; [|split]; intros; lia|].
  split; [|split].
  - intros parent name ptr Hfuel. cbn [parse_value]. ends_in_step.
    + eapply ends_in_bind; [apply IHm; forward|]. cbv beta. intros q Hq. ends_in_step.
    + eapply ends_in_bind; [apply IHe; forward|]. cbv beta. intros q Hq. ends_in_step.
  - intros object ptr Hfuel. cbn [parse_members]. ends_in_step.
    eapply ends_in_bind; [apply IHv; forward|]. cbv beta. intros q Hq. ends_in_step.
    eapply ends_weaken_in; [apply IHm; forward|]. intros q' Hq'. forward.
  - intros array ptr Hfuel. cbn [parse_elements].
    eapply ends_in_bind; [apply IHv; forward|]. cbv beta. intros q Hq. ends_in_step.
    eapply ends_weaken_in; [apply IHe; forward|]. intros q' Hq'. forward.
Qed.

(** The budget that [Root_parse] hands to the descent is never used up:
    every parse into a new root returns, throws or leaves defined
    behaviour. *)
Lemma document_within_budget json : fst (document json) ≠ OutOfFuel.
Proof.
  rewrite document_unfold.
  destruct (parse_within_budget (S (2 * String.length json))) as (Hv & _ & _).
  specialize (Hv 0%nat EmptyString json ltac:(lia) root_heap).
  unfold mbind, M_bind.
  destruct (parse_value _ _ _ _ _) as [[q| | |] h1]; simpl in *; done.
Qed.

(** ** Linking a node behind the last child *)

Section append.
Context (m : gmap addr Value) (o : addr) (cs : list addr) (v : addr).
Hypothesis Hch : children m o cs.
Hypothesis Hv : is_Some (m !! v).
Hypothesis Hfresh : v ∉ o :: cs.
Hypothesis Hprev : field m_prev m v = Some None.
Hypothesis Hnext : field m_next m v = Some None.

Local Lemma append_facts :
  v ≠ o ∧ is_Some (m !! o) ∧
  match last cs with
  | Some l => l ≠ v ∧ l ≠ o ∧ is_Some (m !! l) ∧ cs !! pred (length cs) = Some l
  | None => cs = []
  end.
Proof.
  split; [by eapply fresh_ne_parent|]. split; [by eapply children_parent_live|].
  destruct (last cs) as [l|] eqn:Hl.
  - rewrite last_lookup in Hl.
    split; [by eapply fresh_ne_child|]. split; [by eapply child_ne_parent|].
    split; [|done]. eapply children_live; [done|]. by eapply list_elem_of_lookup_2.
  - by apply last_None.
Qed.

Lemma append_parent x :
  is_Some (m !! x) →
  field m_parent (append_map m o cs v) x
  = if decide (x = v) then Some (Some o) else field m_parent m x.
Proof.
  intros Hx. destruct append_facts as (? & ? & Hl). unfold append_map.
  destruct (last cs) as [l|]; [destruct Hl as (? & ? & ? & ?)|];
    case_decide; simplify_eq; fld; done.
Qed.

Lemma append_prev x :
  is_Some (m !! x) →
  field m_prev (append_map m o cs v) x
  = if decide (x = v) then Some (last cs) else field m_prev m x.
Proof.
  intros Hx. destruct append_facts as (? & ? & Hl). unfold append_map.
  destruct (last cs) as [l|]; [destruct Hl as (? & ? & ? & ?)|];
    case_decide; simplify_eq; fld; done.
Qed.

Lemma append_next x :
  is_Some (m !! x) →
  field m_next (append_map m o cs v) x
  = if decide (last cs = Some x) then Some (Some v) else field m_next m x.
Proof.
  intros Hx. destruct append_facts as (? & ? & Hl). unfold append_map.
  destruct (last cs) as [l|]; [destruct Hl as (? & ? & ? & ?)|];
    case_decide; simplify_eq; fld; done.
Qed.

Lemma append_firstChild :
  field m_firstChild (append_map m o cs v) o
  = if decide (cs = []) then Some (Some v) else field m_firstChild m o.
Proof.
  destruct append_facts as (? & ? & Hl). unfold append_map.
  destruct (last cs) as [l|] eqn:E.
  - destruct Hl as (? & ? & ? & ?). rewrite decide_False by (by intros ->). fld. done.
  - simpl in Hl. rewrite decide_True by done. fld. done.
Qed.

Lemma append_lastChild : field m_lastChild (append_map m o cs v) o = Some (Some v).
Proof.
  destruct append_facts as (? & ? & Hl). unfold append_map.
  destruct (last cs) as [l|]; [destruct Hl as (? & ? & ? & ?)|]; fld; done.
Qed.

Lemma append_length :
  field m_length (append_map m o cs v) o = Some (Z.of_nat (length cs) + 1).
Proof.
  destruct append_facts as (? & [vo Hvo] & Hl). unfold append_map.
  pose proof (ch_length _ _ _ Hch) as Hlen. unfold field in Hlen. rewrite Hvo in Hlen.
  injection Hlen as Hlen.
  destruct (last cs) as [l|].
  - destruct Hl as (? & ? & ? & ?). rewrite field_alter_ne by done.
    unfold field. rewrite !lookup_alter_eq.
    rewrite !lookup_alter_ne by congruence. rewrite Hvo. simpl. by rewrite Hlen.
  - subst cs. rewrite field_alter_ne by done.
    rewrite !field_alter_other by (intros; reflexivity).
    unfold field. by rewrite lookup_alter_eq, Hvo.
Qed.

Lemma append_content x :
  x ≠ o → field content (append_map m o cs v) x = field content m x.
Proof.
  intros Hx. unfold append_map. destruct (last cs); fld; done.
Qed.

Lemma append_frame x :
  x ≠ o → x ≠ v → last cs ≠ Some x → append_map m o cs v !! x = m !! x.
Proof.
  intros Hxo Hxv Hxl. unfold append_map. destruct (last cs) as [l|].
  - rewrite !lookup_alter_ne; congruence.
  - rewrite !lookup_alter_ne; congruence.
Qed.

Lemma append_map_children : children (append_map m o cs v) o (cs ++ [v]).
Proof.
  destruct append_facts as (Hvo & Ho & Hl).
  assert (∀ j x, cs !! j = Some x → is_Some (m !! x) ∧ x ≠ v) as Hold.
  { intros j x Hj. split; [|by eapply fresh_ne_child].
    eapply children_live; [done|]. by eapply list_elem_of_lookup_2. }
  constructor.
  - rewrite append_firstChild. case_decide as Hd; [by rewrite Hd|].
    rewrite (ch_first _ _ _ Hch). destruct cs; [done|reflexivity].
  - by rewrite append_lastChild, last_snoc.
  - rewrite append_length, length_app. simpl. f_equal. lia.
  - intros j x Hj. apply lookup_app_Some in Hj as [Hj|[Hge Hj]].
    + destruct (Hold _ _ Hj). rewrite append_parent, decide_False by done.
      by eapply ch_parent.
    + apply list_lookup_singleton_Some in Hj as [_ <-].
      by rewrite append_parent, decide_True.
  - intros j x Hj. apply lookup_app_Some in Hj as [Hj|[Hge Hj]].
    + destruct (Hold _ _ Hj). rewrite append_prev, decide_False by done.
      rewrite (ch_prev _ _ _ Hch j x Hj). f_equal.
      destruct j as [|k]; cbn [prev_of]; [done|].
      rewrite lookup_app_l; [done|]. apply lookup_lt_Some in Hj. lia.
    + apply list_lookup_singleton_Some in Hj as [Hj <-].
      rewrite append_prev, decide_True by done. f_equal.
      assert (j = length cs) as -> by lia.
      rewrite last_lookup. destruct (length cs) as [|n] eqn:E.
      { apply length_zero_iff_nil in E. by rewrite E. }
      cbn [prev_of pred]. rewrite lookup_app_l by lia. done.
  - intros j x Hj. apply lookup_app_Some in Hj as [Hj|[Hge Hj]].
    + destruct (Hold _ _ Hj). rewrite append_next by done.
      pose proof (lookup_lt_Some _ _ _ Hj) as Hlt.
      case_decide as Hd.
      * rewrite last_lookup in Hd.
        pose proof (children_inj _ _ _ _ _ _ Hch Hd Hj) as Heq.
        f_equal. rewrite lookup_app_r by lia.
        replace (S j - length cs)%nat with 0%nat by lia. done.
      * rewrite (ch_next _ _ _ Hch j x Hj). f_equal.
        destruct (decide (S j < length cs)%nat).
        -- by rewrite lookup_app_l.
        -- exfalso. apply Hd. rewrite last_lookup.
           replace (pred (length cs)) with j by lia. done.
    + apply list_lookup_singleton_Some in Hj as [Hj <-].
      rewrite append_next by done.
      rewrite decide_False.
      * rewrite Hnext. f_equal. symmetry. apply lookup_ge_None.
        rewrite length_app. simpl. lia.
      * rewrite last_lookup. intros Hin. apply Hfresh. right.
        by eapply list_elem_of_lookup_2.
  - pose proof (ch_nodup _ _ _ Hch) as [Ho' Hnd]%NoDup_cons.
    apply NoDup_cons. split.
    + rewrite elem_of_app, list_elem_of_singleton. intros [?|?]; [done|by subst].
    + apply NoDup_app. split; [done|]. split; [|apply NoDup_singleton].
      intros y Hy ->%list_elem_of_singleton. apply Hfresh. by right.
Qed.

End append.

Lemma insertValueInt_run h o cs v :
  children (cells h) o cs → is_Some (cells h !! v) → v ∉ o :: cs →
  insertValueInt o v h = (Ok tt, mkHeap (append_map (cells h) o cs v) (brk h)).
Proof.
  intros Hch Hv Hfresh.
  destruct (proj1 (field_Some _ _ _ _) (ch_last _ _ _ Hch)) as (vo & Hvo & Hlast).
  pose proof (fresh_ne_parent _ _ _ Hfresh) as Hvo'.
  unfold insertValueInt, append_map.
  run_load Hvo. rewrite Hlast.
  destruct (last cs) as [l|] eqn:Hl.
  - rewrite last_lookup in Hl.
    pose proof (children_live Hch l (list_elem_of_lookup_2 _ _ _ Hl)).
    pose proof (fresh_ne_child _ _ _ _ _ Hfresh Hl).
    erewrite (bind_Ok (_ ≫= _));
      [|run_modify; run_modify; run_modify;
        apply modify_Some; simpl; rewrite ?lookup_alter_is_Some; eauto].
    rewrite modify_Some by (simpl; rewrite ?lookup_alter_is_Some; eauto). reflexivity.
  - erewrite (bind_Ok (_ ≫= _));
      [|run_modify; run_modify;
        apply modify_Some; simpl; rewrite ?lookup_alter_is_Some; eauto].
    rewrite modify_Some by (simpl; rewrite ?lookup_alter_is_Some; eauto). reflexivity.
Qed.

(** ** Looking a member up by name *)

Section by_name.
Context (h : heap) (o : addr) (cs : list addr) (name : string).
Hypothesis Hch : children (cells h) o cs.

Lemma child_name k c :
  cs !! k = Some c →
  ∃ vc, cells h !! c = Some vc ∧ m_next vc = cs !! S k ∧
        (field m_name (cells h) c = Some name ↔ m_name vc = name).
Proof.
  intros Hc.
  destruct (proj1 (field_Some _ _ _ _) (ch_next _ _ _ Hch k c Hc)) as (vc & Hvc & Hnext).
  exists vc. split; [done|]. split; [done|]. unfold field. rewrite Hvc. simpl.
  split; [by intros [= ->]|by intros ->].
Qed.

Lemma Object_getValue_loop_run :
  ∀ fuel k, (length cs ≤ fuel + k)%nat →
    Object_getValue_loop fuel name (cs !! k) h
    = (match first_named (cells h) name (drop k cs) with
       | Some (_, c) => Ok c
       | None => Throw (JsonNull ("value not found: " +:+ name))
       end, h).
Proof.
  induction fuel as [|f IH]; intros k Hk.
  - rewrite lookup_ge_None_2 by lia. rewrite drop_ge by lia. reflexivity.
  - destruct (cs !! k) as [c|] eqn:Hc.
    + destruct (child_name k c Hc) as (vc & Hvc & Hnext & Hname).
      rewrite (drop_S _ _ _ Hc). unfold first_named. cbn [Object_getValue_loop list_find].
      rewrite (bind_Ok _ _ _ _ _ (load_Some _ _ _ Hvc)).
      destruct (String.eqb (m_name vc) name) eqn:E.
      * apply String.eqb_eq in E. rewrite decide_True by (by apply Hname). reflexivity.
      * apply String.eqb_neq in E. rewrite decide_False by (by rewrite Hname).
        rewrite Hnext, IH by lia. unfold first_named.
        by destruct (list_find _ (drop (S k) cs)) as [[j c']|].
    + rewrite drop_ge by (by apply lookup_ge_None). destruct f; reflexivity.
Qed.

Lemma Object_getValue_run :
  Object_getValue o name h
  = (match first_named (cells h) name cs with
     | Some (_, c) => Ok c
     | None => Throw (JsonNull ("value not found: " +:+ name))
     end, h).
Proof.
  destruct (proj1 (field_Some _ _ _ _) (ch_first _ _ _ Hch)) as (vo & Hvo & Hfirst).
  pose proof (children_budget Hch) as Hsize.
  unfold Object_getValue.
  rewrite (bind_Ok _ _ _ _ _ (load_Some _ _ _ Hvo)).
  erewrite bind_Ok by reflexivity.
  rewrite Hfirst, head_lookup, Object_getValue_loop_run by lia. by rewrite drop_0.
Qed.

End by_name.

Lemma first_named_Some m name cs i c :
  first_named m name cs = Some (i, c) ↔
  cs !! i = Some c ∧ field m_name m c = Some name ∧
  ∀ j c', (j < i)%nat → cs !! j = Some c' → field m_name m c' ≠ Some name.
Proof.
  unfold first_named. rewrite list_find_Some. split.
  - intros (Hi & Hn & Hfirst). split; [done|]. split; [done|].
    intros j c' Hj Hc'. by eapply Hfirst.
  - intros (Hi & Hn & Hfirst). split; [done|]. split; [done|].
    intros j c' Hc' Hj. by eapply Hfirst.
Qed.

Lemma first_named_None m name cs :
  first_named m name cs = None ↔ ∀ c, c ∈ cs → field m_name m c ≠ Some name.
Proof. unfold first_named. rewrite list_find_None, Forall_forall. done. Qed.

(** The names decide: two heaps that give the nodes the same names find
    the same one. *)
Lemma first_named_ext m m' name cs :
  (∀ c, c ∈ cs → field m_name m' c = field m_name m c) →
  first_named m' name cs = first_named m name cs.
Proof.
  intros Hsame. unfold first_named. induction cs as [|c cs IH]; [done|]. simpl.
  rewrite Hsame by (by left). case_decide; [done|].
  rewrite IH; [done|]. intros c' Hc'. apply Hsame. by right.
Qed.

(** ** Linking under a name that no child has *)

Lemma Object_linkValue_loop_absent h o cs name v :
  children (cells h) o cs →
  (∀ c, c ∈ cs → field m_name (cells h) c ≠ Some name) →
  ∀ fuel k, (length cs ≤ fuel + k)%nat →
    Object_linkValue_loop fuel o name v (cs !! k) h
    = (modify v (set_name name);; insertValueInt o v;; mret (Some v)) h.
Proof.
  intros Hch Hname. induction fuel as [|f IH]; intros k Hk.
  - rewrite lookup_ge_None_2 by lia. reflexivity.
  - destruct (cs !! k) as [c|] eqn:Hc; [|reflexivity]. cbn [Object_linkValue_loop].
    destruct (child_name h o cs name Hch k c Hc) as (vc & Hvc & Hnext & Hn).
    rewrite (bind_Ok _ _ _ _ _ (load_Some _ _ _ Hvc)).
    assert (m_name vc ≠ name) as Hne.
    { intros Heq. apply (Hname c); [by eapply list_elem_of_lookup_2|]. by apply Hn. }
    apply String.eqb_neq in Hne. rewrite Hne, Hnext. apply IH. lia.
Qed.

Lemma field_content_of_body (m m' : gmap addr Value) x x' :
  field m_name m x = field m_name m' x' → field body m x = field body m' x' →
  field content m x = field content m' x'.
Proof.
  unfold field, content, body. destruct (m !! x), (m' !! x'); simpl; congruence.
Qed.

Lemma Object_linkValue_append h o cs name v :
  children (cells h) o cs →
  (∀ c, c ∈ cs → field m_name (cells h) c ≠ Some name) →
  is_Some (cells h !! v) → v ∉ o :: cs →
  field m_prev (cells h) v = Some None → field m_next (cells h) v = Some None →
  ∃ h', Object_linkValue o name (Some v) h = (Ok (Some v), h') ∧
        appends_child h h' o cs v name.
Proof.
  intros Hch Hname [vv Hvv] Hfresh Hprev Hnext.
  pose proof (fresh_ne_parent _ _ _ Hfresh) as Hvo.
  destruct (proj1 (field_Some _ _ _ _) (ch_first _ _ _ Hch)) as (vo & Hvo' & Hfst).
  pose proof (children_budget Hch) as Hsize.
  set (h1 := mkHeap (alter (set_name name) v (cells h)) (brk h)).
  assert (∀ x, x ≠ v → cells h1 !! x = cells h !! x) as Hframe1.
  { intros x Hx. simpl. by apply lookup_alter_ne. }
  assert (children (cells h1) o cs) as Hch1.
  { apply (children_frame (cells h)); [|done]. intros x Hx. apply Hframe1.
    intros ->. done. }
  assert (is_Some (cells h1 !! v)) as Hv1 by (simpl; rewrite lookup_alter_is_Some; eauto).
  assert (field m_prev (cells h1) v = Some None) as Hprev1
    by (simpl; by rewrite field_alter_other).
  assert (field m_next (cells h1) v = Some None) as Hnext1
    by (simpl; by rewrite field_alter_other).
  exists (mkHeap (append_map (cells h1) o cs v) (brk h)).
  split; [|split; [|split; [|split; [|split; [|split]]]]].
  - unfold Object_linkValue.
    rewrite (bind_Ok _ _ _ _ _ (load_Some _ _ _ Hvv)).
    erewrite (bind_Ok (if is_linked vv then _ else _)) by (by destruct (is_linked vv)).
    rewrite (bind_Ok _ _ _ _ _ (load_Some _ _ _ Hvo')).
    erewrite bind_Ok by reflexivity.
    rewrite Hfst, head_lookup.
    rewrite (Object_linkValue_loop_absent h o cs name v Hch Hname _ 0%nat) by lia.
    erewrite (bind_Ok (modify _ _)) by (apply modify_Some; eauto).
    erewrite (bind_Ok (insertValueInt _ _)) by (by apply (insertValueInt_run h1 o cs v)).
    reflexivity.
  - by apply append_map_children.
  - simpl. unfold append_map.
    destruct (last cs); rewrite !field_alter_other by (intros; reflexivity);
      (apply field_alter_eq; [intros; reflexivity|eauto]).
  - simpl. unfold append_map.
    destruct (last cs) as [l|] eqn:Hl.
    + rewrite last_lookup in Hl. pose proof (fresh_ne_child _ _ _ _ _ Hfresh Hl).
      fld. done.
    + fld. done.
  - intros c Hc. cbn [cells].
    assert (c ≠ o) as Hco.
    { apply list_elem_of_lookup in Hc as [k Hk]. by eapply child_ne_parent. }
    rewrite (append_content (cells h1) o cs v c Hco).
    unfold field. rewrite Hframe1; [done|]. intros ->. apply Hfresh. by right.
  - intros x Hx. cbn [cells]. rewrite append_frame.
    + apply Hframe1. set_solver.
    + set_solver.
    + set_solver.
    + rewrite last_lookup. intros Hin. apply Hx. do 2 right.
      by eapply list_elem_of_lookup_2.
  - done.
Qed.

Lemma Object_set_run h o name d x h' :
  Object_linkValue o name (Some (brk h)) (allocated h d) = (Ok x, h') →
  Object_set o name d h = (Ok (brk h), h').
Proof.
  intros Hrun. unfold Object_set, Object_linkValueSafe.
  rewrite (bind_Ok _ _ _ _ _ (alloc_run h d)).
  erewrite (bind_Ok (guarded _ _ ≫= _)); [reflexivity|].
  erewrite (bind_Ok (guarded _ _)); [reflexivity|].
  apply guarded_Ok. exact Hrun.
Qed.

Lemma Object_set_append h o cs name d :
  children (cells h) o cs →
  (∀ c, c ∈ cs → field m_name (cells h) c ≠ Some name) →
  cells h !! brk h = None →
  ∃ h', Object_set o name d h = (Ok (brk h), h') ∧
        children (cells h') o (cs ++ [brk h]) ∧
        field content (cells h') (brk h) = Some (name, d, None, None, 0) ∧
        (∀ c, c ∈ cs → field content (cells h') c = field content (cells h) c) ∧
        (∀ x, x ∉ o :: brk h :: cs → cells h' !! x = cells h !! x).
Proof.
  intros Hch Hname Hnew.
  assert (∀ {A} (g : Value → A) c, c ∈ cs →
            field g (cells (allocated h d)) c = field g (cells h) c) as Hfield.
  { intros A g c Hc. unfold field. rewrite (alloc_frame h d Hnew); [done|].
    by eapply children_live. }
  destruct (Object_linkValue_append (allocated h d) o cs name (brk h))
    as (h' & Hrun & Hch' & Hn & Hb & Hc & Hrest & _).
  - by apply alloc_children.
  - intros c Hc. rewrite Hfield by done. by apply Hname.
  - rewrite (alloc_live h d). eauto.
  - by eapply alloc_not_child.
  - unfold field. by rewrite (alloc_live h d).
  - unfold field. by rewrite (alloc_live h d).
  - exists h'. split; [by eapply Object_set_run|]. split; [done|]. split; [|split].
    + unfold field in Hb at 2. rewrite (alloc_live h d) in Hb. simpl in Hb.
      unfold field, content, body in *.
      destruct (cells h' !! brk h) as [w|]; simplify_eq/=. congruence.
    + intros c Hc'. rewrite Hc by done. by apply Hfield.
    + intros x Hx. rewrite Hrest by done. simpl. apply lookup_insert_ne.
      intros <-. apply Hx. set_solver.
Qed.

(** ** Setting a member and getting it back *)

Lemma Object_set_then_get h o cs name d :
  children (cells h) o cs →
  (∀ i c, first_named (cells h) name cs = Some (i, c) →
          ∃ t, descendants (cells h) c t ∧ ∀ x, x ∈ addrs t → x ∉ o :: cs) →
  cells h !! brk h = None →
  ∃ h', Object_set o name d h = (Ok (brk h), h') ∧
        Object_getValue o name h' = (Ok (brk h), h') ∧
        field m_data (cells h') (brk h) = Some d.
Proof.
  intros Hch Hsub Hnew.
  destruct (first_named (cells h) name cs) as [[i c]|] eqn:Hfind.
  - destruct (Hsub i c eq_refl) as (t & Hdesc & Hdisj).
    apply first_named_Some in Hfind as (Hi & Hn & Hfirst).
    destruct (Object_set_replace h o cs i c t name d Hch Hi Hn Hfirst Hdesc Hdisj Hnew)
      as (h' & Hrun & (Hch' & Hnm & Hothers & _ & _) & Hbody).
    exists h'. split; [done|]. split.
    + rewrite (Object_getValue_run h' o _ name Hch').
      assert (first_named (cells h') name (<[i:=brk h]> cs) = Some (i, brk h)) as ->; [|done].
      apply first_named_Some. pose proof (lookup_lt_Some _ _ _ Hi).
      split; [by rewrite list_lookup_insert_eq|]. split; [done|].
      intros j c' Hj Hc'. rewrite list_lookup_insert_ne in Hc' by lia.
      rewrite (field_content_name _ _ _ _ (Hothers j c' ltac:(lia) Hc')).
      by eapply Hfirst.
    + unfold field, body in *. destruct (cells h' !! brk h); simplify_eq/=. done.
  - clear Hsub. rewrite first_named_None in Hfind.
    destruct (Object_set_append h o cs name d Hch Hfind Hnew)
      as (h' & Hrun & Hch' & Hcont & Hothers & _).
    exists h'. split; [done|]. split.
    + rewrite (Object_getValue_run h' o _ name Hch').
      assert (first_named (cells h') name (cs ++ [brk h]) = Some (length cs, brk h))
        as ->; [|done].
      apply first_named_Some.
      split; [by rewrite lookup_app_r, Nat.sub_diag by lia|]. split.
      * unfold field, content in *. destruct (cells h' !! brk h); simplify_eq/=. done.
      * intros j c' Hj Hc'. rewrite lookup_app_l in Hc' by lia.
        pose proof (list_elem_of_lookup_2 _ _ _ Hc') as Hin.
        rewrite (field_content_name _ _ _ _ (Hothers c' Hin)). by apply Hfind.
    + unfold field, content in *. destruct (cells h' !! brk h); simplify_eq/=. done.
Qed.

(** ** Removing a member that is there *)

Lemma Object_removeValue_loop_found h o cs i c name :
  children (cells h) o cs →
  first_named (cells h) name cs = Some (i, c) →
  ∀ fuel k, (k ≤ i)%nat → (length cs ≤ fuel + k)%nat →
    Object_removeValue_loop fuel o name (cs !! k) h
    = (old ← removeValueInt o c; delete_ old) h.
Proof.
  intros Hch (Hi & Hname & Hfirst)%first_named_Some.
  pose proof (lookup_lt_Some _ _ _ Hi) as Hlt.
  induction fuel as [|f IH]; intros k Hk Hfuel; [lia|].
  destruct (lookup_lt_is_Some_2 cs k ltac:(lia)) as [c' Hc']. rewrite Hc'.
  cbn [Object_removeValue_loop].
  destruct (child_name h o cs name Hch k c' Hc') as (vc & Hvc & Hnext & Hn).
  rewrite (bind_Ok _ _ _ _ _ (load_Some _ _ _ Hvc)).
  destruct (decide (k = i)) as [->|Hne].
  - assert (c' = c) as -> by congruence.
    apply Hn in Hname. rewrite Hname. by rewrite String.eqb_refl.
  - assert (m_name vc ≠ name) as Hn'.
    { intros Heq. apply (Hfirst k c'); [lia|done|]. by apply Hn. }
    apply String.eqb_neq in Hn'. rewrite Hn', Hnext. apply IH; lia.
Qed.

Lemma Object_removeValue_found h o cs i c t name :
  children (cells h) o cs →
  first_named (cells h) name cs = Some (i, c) →
  descendants (cells h) c t →
  (∀ x, x ∈ addrs t → x ∉ o :: cs) →
  ∃ h', Object_removeValue o name h = (Ok tt, h') ∧
        children (cells h') o (delete i cs) ∧
        (∀ j c', j ≠ i → cs !! j = Some c' →
                 field content (cells h') c' = field content (cells h) c') ∧
        (∀ x, x ∈ c :: addrs t → cells h' !! x = None) ∧
        (∀ x, x ∉ o :: cs → x ∉ addrs t → cells h' !! x = cells h !! x).
Proof.
  intros Hch Hfind Hdesc Hdisj.
  pose proof Hfind as (Hi & _)%first_named_Some.
  destruct (remove_child_run h o cs i c t Hch Hi Hdesc Hdisj) as (h' & Hrun & Hrest).
  exists h'. split; [|exact Hrest].
  destruct (proj1 (field_Some _ _ _ _) (ch_first _ _ _ Hch)) as (vo & Hvo & Hfirst).
  pose proof (children_budget Hch) as Hsize.
  unfold Object_removeValue.
  rewrite (bind_Ok _ _ _ _ _ (load_Some _ _ _ Hvo)).
  erewrite bind_Ok by reflexivity.
  rewrite Hfirst, head_lookup.
  rewrite (Object_removeValue_loop_found h o cs i c name Hch Hfind _ 0%nat) by lia.
  exact Hrun.
Qed.

Lemma delete_lookup_inv {A} (l : list A) i k x :
  delete i l !! k = Some x → ∃ j, j ≠ i ∧ l !! j = Some x ∧ (j < i → k = j)%nat.
Proof.
  intros Hk. destruct (decide (k < i)%nat).
  - rewrite list_lookup_delete_lt in Hk by done. exists k. split; [lia|]. split; [done|lia].
  - rewrite list_lookup_delete_ge in Hk by lia. exists (S k). split; [lia|].
    split; [done|lia].
Qed.

Lemma Object_remove_then_get h o cs i c t name :
  children (cells h) o cs →
  first_named (cells h) name cs = Some (i, c) →
  (∀ j c', j ≠ i → cs !! j = Some c' → field m_name (cells h) c' ≠ Some name) →
  descendants (cells h) c t →
  (∀ x, x ∈ addrs t → x ∉ o :: cs) →
  ∃ h', Object_removeValue o name h = (Ok tt, h') ∧
        Object_getValue o name h'
        = (Throw (JsonNull ("value not found: " +:+ name)), h').
Proof.
  intros Hch Hfind Huniq Hdesc Hdisj.
  destruct (Object_removeValue_found h o cs i c t name Hch Hfind Hdesc Hdisj)
    as (h' & Hrun & Hch' & Hothers & _).
  exists h'. split; [done|].
  rewrite (Object_getValue_run h' o _ name Hch').
  assert (first_named (cells h') name (delete i cs) = None) as ->; [|done].
  apply first_named_None. intros c' [k Hk]%list_elem_of_lookup.
  apply delete_lookup_inv in Hk as (j & Hne & Hj & _).
  rewrite (field_content_name _ _ _ _ (Hothers j c' Hne Hj)). by eapply Huniq.
Qed.

(** ** Typed getters *)

Section typed.
Context (h : heap) (o : addr) (cs : list addr) (name : string).
Hypothesis Hch : children (cells h) o cs.

Lemma typed_absent {B} (conv : addr → M B) :
  first_named (cells h) name cs = None →
  (a ← Object_getValue o name; conv a) h
  = (Throw (JsonNull ("value not found: " +:+ name)), h).
Proof.
  intros Hfind. apply bind_Throw. by rewrite (Object_getValue_run h o cs name Hch), Hfind.
Qed.

Lemma typed_found {B} (conv : addr → M B) i c :
  first_named (cells h) name cs = Some (i, c) →
  (a ← Object_getValue o name; conv a) h = conv c h.
Proof.
  intros Hfind. apply bind_Ok. by rewrite (Object_getValue_run h o cs name Hch), Hfind.
Qed.

End typed.

Lemma conversions_run h a v :
  cells h !! a = Some v →
  toObject a h = (match m_data v with
                  | PObject => Ok a
                  | _ => Throw (JsonNull "value is not an object")
                  end, h) ∧
  toArray a h = (match m_data v with
                 | PArray => Ok a
                 | _ => Throw (JsonNull "value is not an array")
                 end, h) ∧
  toString a h = (match m_data v with
                  | PString _ => Ok a
                  | _ => Throw (JsonNull "value is not a string")
                  end, h) ∧
  toNumber a h = (match m_data v with
                  | PNumber _ => Ok a
                  | _ => Throw (JsonNull "value is not a number")
                  end, h) ∧
  toBoolean a h = (match m_data v with
                   | PBoolean _ => Ok a
                   | _ => Throw (JsonNull "value is not a boolean")
                   end, h).
Proof.
  intros Hv. unfold toObject, toArray, toString, toNumber, toBoolean.
  rewrite !(bind_Ok _ _ _ _ _ (load_Some _ _ _ Hv)). by destruct (m_data v).
Qed.

(** ** Positions in an array *)

Lemma before_map_content (m : gmap addr Value) o cs i c v x :
  x ≠ o → field content (before_map m o cs i c v) x = field content m x.
Proof.
  intros. unfold before_map.
  destruct (prev_of cs i);
    repeat first [rewrite field_alter_other by done | rewrite field_alter_ne by done]; done.
Qed.

Lemma before_map_frame (m : gmap addr Value) o cs i c v x :
  x ≠ o → x ≠ v → x ≠ c → prev_of cs i ≠ Some x →
  before_map m o cs i c v !! x = m !! x.
Proof.
  intros. unfold before_map.
  destruct (prev_of cs i); rewrite !lookup_alter_ne by congruence; done.
Qed.

Section positions.
Context (h : heap) (o : addr) (cs : list addr).
Hypothesis Hch : children (cells h) o cs.

(** Linking before a position. *)
Lemma Array_linkValueBefore_run v idx c :
  cs !! scan_index idx = Some c →
  is_Some (cells h !! v) → v ∉ o :: cs →
  ∃ h', Array_linkValueBefore o (Some v) idx h = (Ok (Some v), h') ∧
        children (cells h') o (insert_at (scan_index idx) v cs) ∧
        (∀ x, x ∈ v :: cs → field content (cells h') x = field content (cells h) x) ∧
        (∀ x, x ∉ o :: v :: cs → cells h' !! x = cells h !! x) ∧
        brk h' = brk h.
Proof.
  intros Hc Hv Hfresh. unfold scan_index in *.
  exists (mkHeap (before_map (cells h) o cs (Z.to_nat idx) c v) (brk h)).
  split; [|split; [|split; [|split]]].
  - unfold Array_linkValueBefore.
    rewrite (Array_linkValueInt_at h o _ idx Hch v 1 Hv) by lia. rewrite Hc.
    change (1 =? 1) with true. cbv iota.
    erewrite (bind_Ok (insertValueBeforeInt _ _ _))
      by (by apply (insertValueBeforeInt_run h o cs (Z.to_nat idx) c v)).
    reflexivity.
  - by apply before_map_children.
  - intros x Hx. cbn [cells]. apply before_map_content.
    intros ->. apply elem_of_cons in Hx as [->|Hx].
    + apply Hfresh. by left.
    + apply list_elem_of_lookup in Hx as [k Hk]. by eapply child_ne_parent.
  - intros x Hx. cbn [cells]. apply before_map_frame.
    + set_solver.
    + set_solver.
    + intros ->. apply Hx. do 2 right. by eapply list_elem_of_lookup_2.
    + intros (j & _ & Hj)%prev_of_Some. apply Hx. do 2 right.
      by eapply list_elem_of_lookup_2.
  - done.
Qed.

(** Linking at a position. *)
Lemma Array_linkValueAt_run v idx c t :
  cs !! scan_index idx = Some c →
  descendants (cells h) c t →
  (∀ x, x ∈ addrs t → x ∉ o :: v :: cs) →
  is_Some (cells h !! v) → v ∉ o :: cs →
  ∃ h', Array_linkValueAt o (Some v) idx h = (Ok (Some v), h') ∧
        children (cells h') o (<[scan_index idx := v]> cs) ∧
        field content (cells h') v = field content (cells h) v ∧
        (∀ j c', j ≠ scan_index idx → cs !! j = Some c' →
                 field content (cells h') c' = field content (cells h) c') ∧
        (∀ x, x ∈ c :: addrs t → cells h' !! x = None) ∧
        (∀ x, x ∉ o :: v :: cs → x ∉ addrs t → cells h' !! x = cells h !! x).
Proof.
  intros Hc Hdesc Hdisj Hv Hfresh. unfold scan_index in *.
  destruct (replace_child_run h o cs (Z.to_nat idx) c t v Hch Hc Hdesc Hdisj Hv Hfresh)
    as (h' & Hrun & Hrest).
  exists h'. split; [|exact Hrest].
  unfold Array_linkValueAt.
  rewrite (Array_linkValueInt_at h o _ idx Hch v 2 Hv) by lia. by rewrite Hc.
Qed.

(** Removing at a position. *)
Lemma Array_removeValue_run idx c t :
  cs !! scan_index idx = Some c →
  descendants (cells h) c t →
  (∀ x, x ∈ addrs t → x ∉ o :: cs) →
  ∃ h', Array_removeValue o idx h = (Ok tt, h') ∧
        children (cells h') o (delete (scan_index idx) cs) ∧
        (∀ j c', j ≠ scan_index idx → cs !! j = Some c' →
                 field content (cells h') c' = field content (cells h) c') ∧
        (∀ x, x ∈ c :: addrs t → cells h' !! x = None) ∧
        (∀ x, x ∉ o :: cs → x ∉ addrs t → cells h' !! x = cells h !! x).
Proof.
  intros Hc Hdesc Hdisj. unfold scan_index in *.
  destruct (remove_child_run h o cs (Z.to_nat idx) c t Hch Hc Hdesc Hdisj)
    as (h' & Hrun & Hrest).
  exists h'. split; [|exact Hrest].
  by rewrite (Array_removeValue_at h o _ idx Hch), Hc.
Qed.

(** Linking behind the last child. *)
Lemma Array_linkValueBack_run v :
  is_Some (cells h !! v) → v ∉ o :: cs →
  field m_prev (cells h) v = Some None → field m_next (cells h) v = Some None →
  ∃ h', Array_linkValueBack o (Some v) h = (Ok (Some v), h') ∧
        children (cells h') o (cs ++ [v]) ∧
        (∀ x, x ∈ v :: cs → field content (cells h') x = field content (cells h) x) ∧
        (∀ x, x ∉ o :: v :: cs → cells h' !! x = cells h !! x) ∧
        brk h' = brk h.
Proof.
  intros [vv Hvv] Hfresh Hprev Hnext.
  exists (mkHeap (append_map (cells h) o cs v) (brk h)).
  split; [|split; [|split; [|split]]].
  - unfold Array_linkValueBack, Array_linkValueInt.
    rewrite (bind_Ok _ _ _ _ _ (load_Some _ _ _ Hvv)).
    erewrite (bind_Ok (if is_linked vv then _ else _)) by (by destruct (is_linked vv)).
    change (0 =? 0) with true. cbv iota.
    erewrite (bind_Ok (insertValueInt _ _)) by (by apply (insertValueInt_run h o cs v)).
    reflexivity.
  - by apply append_map_children.
  - intros x Hx. cbn [cells]. apply append_content.
    intros ->. apply elem_of_cons in Hx as [->|Hx].
    + apply Hfresh. by left.
    + apply list_elem_of_lookup in Hx as [k Hk]. by eapply child_ne_parent.
  - intros x Hx. cbn [cells]. apply append_frame.
    + set_solver.
    + set_solver.
    + rewrite last_lookup. intros Hin. apply Hx. do 2 right.
      by eapply list_elem_of_lookup_2.
  - done.
Qed.

End positions.

(** ** New values by position *)

Section new_by_position.
Context (h : heap) (o : addr) (cs : list addr) (d : Payload).
Hypothesis Hch : children (cells h) o cs.
Hypothesis Hnew : cells h !! brk h = None.

Local Lemma new_content (h' : heap) :
  field content (cells h') (brk h) = field content (cells (allocated h d)) (brk h) →
  field content (cells h') (brk h) = Some (EmptyString, d, None, None, 0).
Proof. intros ->. unfold field. by rewrite (alloc_live h d). Qed.

Local Lemma old_field {A} (g : Value → A) c :
  c ∈ cs → field g (cells (allocated h d)) c = field g (cells h) c.
Proof.
  intros Hc. unfold field. rewrite (alloc_frame h d Hnew); [done|].
  by eapply children_live.
Qed.

Local Lemma old_frame x :
  x ∉ o :: brk h :: cs → cells (allocated h d) !! x = cells h !! x.
Proof. intros Hx. simpl. apply lookup_insert_ne. intros <-. apply Hx. set_solver. Qed.

Lemma Array_insert_run idx c :
  cs !! scan_index idx = Some c →
  ∃ h', Array_insert o idx d h = (Ok (brk h), h') ∧
        children (cells h') o (insert_at (scan_index idx) (brk h) cs) ∧
        field content (cells h') (brk h) = Some (EmptyString, d, None, None, 0) ∧
        (∀ x, x ∈ cs → field content (cells h') x = field content (cells h) x) ∧
        (∀ x, x ∉ o :: brk h :: cs → cells h' !! x = cells h !! x).
Proof.
  intros Hc.
  destruct (Array_linkValueBefore_run (allocated h d) o cs
              (alloc_children h d Hnew _ _ Hch) (brk h) idx c Hc)
    as (h' & Hrun & Hch' & Hcont & Hframe & _).
  { rewrite (alloc_live h d). eauto. }
  { by eapply alloc_not_child. }
  exists h'. split; [by eapply Array_link_new_Ok|]. split; [done|].
  split; [apply new_content, Hcont; by left|]. split.
  - intros x Hx. rewrite Hcont by (by right). by apply old_field.
  - intros x Hx. rewrite Hframe by done. by apply old_frame.
Qed.

Lemma Array_set_run idx c t :
  cs !! scan_index idx = Some c →
  descendants (cells h) c t →
  (∀ x, x ∈ addrs t → x ∉ o :: cs) →
  ∃ h', Array_set o idx d h = (Ok (brk h), h') ∧
        children (cells h') o (<[scan_index idx := brk h]> cs) ∧
        field content (cells h') (brk h) = Some (EmptyString, d, None, None, 0) ∧
        (∀ j c', j ≠ scan_index idx → cs !! j = Some c' →
                 field content (cells h') c' = field content (cells h) c') ∧
        (∀ x, x ∈ c :: addrs t → cells h' !! x = None) ∧
        (∀ x, x ∉ o :: brk h :: cs → x ∉ addrs t → cells h' !! x = cells h !! x).
Proof.
  intros Hc Hdesc Hdisj.
  pose proof (alloc_not_descendant h Hnew _ _ Hdesc) as Hvt.
  destruct (Array_linkValueAt_run (allocated h d) o cs
              (alloc_children h d Hnew _ _ Hch) (brk h) idx c t Hc
              (alloc_descendants h d Hnew _ _ Hdesc))
    as (h' & Hrun & Hch' & Hcont & Hothers & Hfreed & Hframe).
  { intros x Hx Hin. apply elem_of_cons in Hin as [->|Hin].
    - apply (Hdisj o Hx). by left.
    - apply elem_of_cons in Hin as [->|Hin].
      + apply Hvt. by right.
      + apply (Hdisj x Hx). by right. }
  { rewrite (alloc_live h d). eauto. }
  { by eapply alloc_not_child. }
  exists h'. split; [by eapply Array_link_new_Ok|]. split; [done|].
  split; [by apply new_content|]. split; [|split; [done|]].
  - intros j c' Hne Hj. rewrite (Hothers j c' Hne Hj).
    apply old_field. by eapply list_elem_of_lookup_2.
  - intros x Hx Ht. rewrite Hframe by done. by apply old_frame.
Qed.

Lemma Array_push_run :
  ∃ h', Array_push o d h = (Ok (brk h), h') ∧
        children (cells h') o (cs ++ [brk h]) ∧
        field content (cells h') (brk h) = Some (EmptyString, d, None, None, 0) ∧
        (∀ x, x ∈ cs → field content (cells h') x = field content (cells h) x) ∧
        (∀ x, x ∉ o :: brk h :: cs → cells h' !! x = cells h !! x).
Proof.
  destruct (Array_linkValueBack_run (allocated h d) o cs
              (alloc_children h d Hnew _ _ Hch) (brk h))
    as (h' & Hrun & Hch' & Hcont & Hframe & _).
  { rewrite (alloc_live h d). eauto. }
  { by eapply alloc_not_child. }
  { unfold field. by rewrite (alloc_live h d). }
  { unfold field. by rewrite (alloc_live h d). }
  exists h'. split; [by eapply Array_link_new_Ok|]. split; [done|].
  split; [apply new_content, Hcont; by left|]. split.
  - intros x Hx. rewrite Hcont by (by right). by apply old_field.
  - intros x Hx. rewrite Hframe by done. by apply old_frame.
Qed.

End new_by_position.

(** ** Shapes *)

Lemma sibs_snoc t a s : sibs (snoc t a s) = (sibs t ++ [a])%list.
Proof. induction t as [|b below _ after IH]; simpl; [done|by rewrite IH]. Qed.

Lemma addrs_snoc t a s x :
  x ∈ addrs (snoc t a s) ↔ x ∈ addrs t ∨ x = a ∨ x ∈ addrs s.
Proof.
  induction t as [|b below _ after IH]; simpl.
  - rewrite app_nil_r. set_solver.
  - rewrite !elem_of_cons, !elem_of_app, IH. tauto.
Qed.

Lemma NoDup_addrs_snoc t a s :
  NoDup (addrs t) → NoDup (a :: addrs s) →
  (∀ x, x ∈ addrs t → x ∉ a :: addrs s) →
  NoDup (addrs (snoc t a s)).
Proof.
  induction t as [|b below _ after IH]; simpl; intros Ht Hs Hdisj.
  - by rewrite app_nil_r.
  - apply NoDup_cons in Ht as [Hb Ht]. apply NoDup_app in Ht as (H1 & H2 & H3).
    rewrite elem_of_app in Hb.
    apply NoDup_cons. split.
    + rewrite elem_of_app, addrs_snoc. intros [?|[?|[Heq|?]]]; [tauto..| |].
      * apply (Hdisj b); [by left|rewrite Heq; by left].
      * apply (Hdisj b); [by left|by right].
    + apply NoDup_app. split; [done|]. split.
      * intros x Hx. rewrite addrs_snoc. intros [?|[Heq|?]].
        -- by apply (H2 x).
        -- apply (Hdisj x); [right; apply elem_of_app; by left|rewrite Heq; by left].
        -- apply (Hdisj x); [right; apply elem_of_app; by left|by right].
      * apply IH; [done..|]. intros x Hx. apply Hdisj. right. apply elem_of_app. by right.
Qed.

Lemma sound_snoc m t a s :
  sound m (snoc t a s) ↔ sound m t ∧ children m a (sibs s) ∧ sound m s.
Proof.
  induction t as [|b below _ after IH]; simpl; [tauto|]. rewrite IH. tauto.
Qed.

Lemma sibs_addrs t x : x ∈ sibs t → x ∈ addrs t.
Proof.
  induction t as [|b below _ after IH]; simpl; [done|].
  rewrite !elem_of_cons, elem_of_app. intros [?|?]; [by left|]. right. right. by apply IH.
Qed.

Lemma sound_agree m m' t :
  (∀ x, x ∈ addrs t → m' !! x = m !! x) → sound m t → sound m' t.
Proof.
  induction t as [|a below IHb after IHa]; simpl; [done|].
  intros Hsame (Hch & Hb & Ha). split; [|split].
  - apply (children_frame m); [|done].
    intros x [->|Hx]%elem_of_cons; apply Hsame; [by left|].
    right. apply elem_of_app. left. by apply sibs_addrs.
  - apply IHb; [|done]. intros x Hx. apply Hsame. right. apply elem_of_app. by left.
  - apply IHa; [|done]. intros x Hx. apply Hsame. right. apply elem_of_app. by right.
Qed.

Lemma sound_live m t x : sound m t → x ∈ addrs t → is_Some (m !! x).
Proof.
  induction t as [|a below IHb after IHa]; simpl; [by intros _ ?%elem_of_nil|].
  intros (Hch & Hb & Ha). rewrite elem_of_cons, elem_of_app.
  intros [->|[?|?]]; [by eapply children_parent_live|by apply IHb|by apply IHa].
Qed.

(** A node is its parent's concern by its links only, and its children's
    by the rest. *)
Lemma children_ext (m m' : gmap addr Value) o cs :
  field body m' o = field body m o →
  (∀ c, c ∈ cs → field links m' c = field links m c) →
  children m o cs → children m' o cs.
Proof.
  intros Ho Hcs Hch.
  assert (∀ {A} (g : Payload * ptr * ptr * Z → A), field (g ∘ body) m' o = field (g ∘ body) m o)
    as Hb.
  { intros A g. unfold field in *.
    destruct (m' !! o) as [v'|], (m !! o) as [v|];
      cbn [fmap option_fmap option_map] in *; try done.
    unfold compose. congruence. }
  assert (∀ {A} (g : ptr * ptr * ptr → A) c, c ∈ cs →
            field (g ∘ links) m' c = field (g ∘ links) m c) as Hl.
  { intros A g c Hc. specialize (Hcs c Hc). unfold field in *.
    destruct (m' !! c) as [v'|], (m !! c) as [v|];
      cbn [fmap option_fmap option_map] in *; try done.
    unfold compose. congruence. }
  constructor.
  - rewrite <- (ch_first _ _ _ Hch). exact (Hb _ (fun b => b.1.1.2)).
  - rewrite <- (ch_last _ _ _ Hch). exact (Hb _ (fun b => b.1.2)).
  - rewrite <- (ch_length _ _ _ Hch). exact (Hb _ (fun b => b.2)).
  - intros i c Hi. rewrite <- (ch_parent _ _ _ Hch i c Hi).
    exact (Hl _ (fun l => l.1.1) c (list_elem_of_lookup_2 _ _ _ Hi)).
  - intros i c Hi. rewrite <- (ch_prev _ _ _ Hch i c Hi).
    exact (Hl _ (fun l => l.1.2) c (list_elem_of_lookup_2 _ _ _ Hi)).
  - intros i c Hi. rewrite <- (ch_next _ _ _ Hch i c Hi).
    exact (Hl _ (fun l => l.2) c (list_elem_of_lookup_2 _ _ _ Hi)).
  - apply Hch.
Qed.

Lemma inner_addrs t x : x ∈ inner t → x ∈ addrs t.
Proof.
  induction t as [|a below IHb after IHa]; simpl; [done|].
  rewrite elem_of_cons, !elem_of_app. intros [?|?]; [tauto|]. right. right. by apply IHa.
Qed.

Lemma sibs_not_inner t x : NoDup (addrs t) → x ∈ sibs t → x ∉ inner t.
Proof.
  induction t as [|a below IHb after IHa]; simpl; [by intros _ ?%elem_of_nil|].
  intros [Ha Hnd]%NoDup_cons. apply NoDup_app in Hnd as (H1 & H2 & H3).
  rewrite elem_of_app in Ha. rewrite elem_of_cons, elem_of_app.
  intros [->|Hx] [Hin|Hin].
  - tauto.
  - apply Ha. right. by apply inner_addrs.
  - apply (H2 x Hin). by apply sibs_addrs.
  - by apply IHa.
Qed.

Lemma sound_ext m m' t :
  (∀ x, x ∈ addrs t → field body m' x = field body m x) →
  (∀ x, x ∈ inner t → field links m' x = field links m x) →
  sound m t → sound m' t.
Proof.
  induction t as [|a below IHb after IHa]; simpl; [done|].
  intros Hbody Hlinks (Hch & Hb & Ha). split; [|split].
  - apply (children_ext m); [apply Hbody; by left| |done].
    intros c Hc. apply Hlinks. apply elem_of_app. left. by apply sibs_addrs.
  - apply IHb; [| |done].
    + intros x Hx. apply Hbody. right. apply elem_of_app. by left.
    + intros x Hx. apply Hlinks. apply elem_of_app. left. by apply inner_addrs.
  - apply IHa; [| |done].
    + intros x Hx. apply Hbody. right. apply elem_of_app. by right.
    + intros x Hx. apply Hlinks. apply elem_of_app. by right.
Qed.

Lemma append_fixed (m : gmap addr Value) o cs v x :
  x ≠ v → field fixed (append_map m o cs v) x = field fixed m x.
Proof.
  intros Hne. unfold append_map.
  destruct (last cs);
    repeat first [ rewrite field_alter_other by (intros; reflexivity)
                 | rewrite field_alter_ne by congruence ]; done.
Qed.

Lemma append_live (m : gmap addr Value) o cs v x :
  is_Some (append_map m o cs v !! x) ↔ is_Some (m !! x).
Proof. unfold append_map. destruct (last cs); by rewrite !lookup_alter_is_Some. Qed.

Lemma rooted_live h P t x : rooted h P t → x ∈ P :: addrs t → is_Some (cells h !! x).
Proof.
  intros ((Hch & Hs & _) & _ & _ & _) [->|Hx]%elem_of_cons;
    [by eapply children_parent_live|by eapply sound_live].
Qed.

Lemma link_new h P t name d :
  rooted h P t →
  ∃ h1, insertValueInt P (brk h) (made h (new_Value name d)) = (Ok tt, h1) ∧
        brk h1 = S (brk h) ∧
        rooted h1 P (snoc t (brk h) Leaf) ∧ frame h h1 P ∧
        cells h1 !! brk h
        = Some (mkValue (Some P) None None (last (sibs t)) None 0 name d).
Proof.
  intros Hr. pose proof Hr as ((Hch & Hs & Hnd) & Hlive & Hlow & Hall).
  set (v := brk h). set (m0 := cells (made h (new_Value name d))).
  assert (cells h !! v = None) as Hnew.
  { destruct (cells h !! v) eqn:E; [|done]. pose proof (Hlive v ltac:(eauto)). lia. }
  assert (∀ x, x ≠ v → m0 !! x = cells h !! x) as Hm0
    by (intros x Hx; subst m0; simpl; by apply lookup_insert_ne).
  assert (m0 !! v = Some (new_Value name d)) as Hv0
    by (subst m0; simpl; by rewrite lookup_insert_eq).
  assert (∀ x, x ∈ P :: addrs t → x ≠ v) as Hold.
  { intros x Hx <-. apply (rooted_live h P t x Hr) in Hx. rewrite Hnew in Hx.
    by apply is_Some_None in Hx. }
  assert (v ∉ P :: sibs t) as Hfresh.
  { intros [Hx|Hx]%elem_of_cons; [by apply (Hold P); [left|]|].
    apply (Hold v); [right; by apply sibs_addrs|done]. }
  assert (children m0 P (sibs t)) as Hch0.
  { apply (children_frame (cells h)); [|done].
    intros x Hx. apply Hm0. apply Hold.
    apply elem_of_cons in Hx as [->|Hx]; [by left|right; by apply sibs_addrs]. }
  assert (is_Some (m0 !! v)) as Hv0' by eauto.
  assert (field m_prev m0 v = Some None) as Hp0 by (unfold field; by rewrite Hv0).
  assert (field m_next m0 v = Some None) as Hn0 by (unfold field; by rewrite Hv0).
  assert (P ≠ v) as HPv by (apply Hold; by left).
  assert (P < v)%nat as HPlt.
  { apply Hlive. by eapply children_parent_live. }
  exists (mkHeap (append_map m0 P (sibs t) v) (S (brk h))).
  split; [|split; [done|split; [|split]]].
  - by apply (insertValueInt_run (made h (new_Value name d)) P (sibs t) v).
  - split; [split; [|split]|split; [|split]].
    + cbn [cells]. rewrite sibs_snoc. by apply append_map_children.
    + cbn [cells]. apply sound_snoc. split; [|split; [|done]].
      * apply (sound_ext (cells h)); [| |done].
        -- intros x Hx. assert (x ≠ v) by (apply Hold; by right).
           assert (x ≠ P).
           { intros ->. apply NoDup_cons in Hnd as [Hnd _]. done. }
           transitivity (field body m0 x); [|unfold field; by rewrite Hm0].
           apply field_content_body, append_content. done.
        -- intros x Hx. apply inner_addrs in Hx as Hx'.
           unfold field. rewrite append_frame; [rewrite Hm0; [done|]|..].
           ++ apply Hold. by right.
           ++ intros ->. apply NoDup_cons in Hnd as [Hnd _]. done.
           ++ apply Hold. by right.
           ++ rewrite last_lookup. intros Hl%list_elem_of_lookup_2.
              apply NoDup_cons in Hnd as [_ Hnd]. by apply (sibs_not_inner t x Hnd).
      * assert (field body (append_map m0 P (sibs t) v) v = Some (d, None, None, 0)) as Hb.
        { unfold append_map. destruct (last (sibs t)) as [l|] eqn:Hl.
          - rewrite last_lookup in Hl. pose proof (fresh_ne_child _ _ _ _ _ Hfresh Hl).
            fld. unfold field. by rewrite Hv0.
          - fld. unfold field. by rewrite Hv0. }
        apply field_Some in Hb as (w & Hw & Hbw). unfold body in Hbw.
        constructor; try (by intros i c Hi); try apply NoDup_singleton;
          unfold field; rewrite Hw; simpl;
          injection Hbw; intros; by f_equal.
    + cbn [cells]. apply NoDup_cons. split.
      * rewrite addrs_snoc. simpl. intros [Hx|[Hx|Hx]].
        -- apply NoDup_cons in Hnd as [Hnd _]. done.
        -- done.
        -- by apply elem_of_nil in Hx.
      * apply NoDup_cons in Hnd as [_ Hnd].
        apply NoDup_addrs_snoc; [done|apply NoDup_singleton|].
        intros x Hx ->%list_elem_of_singleton. by apply (Hold v); [right|].
    + cbn [cells brk]. intros x [w Hx].
      destruct (decide (x = v)) as [->|Hne]; [subst v; lia|].
      assert (is_Some (cells h !! x)) as Hx'.
      { rewrite <- Hm0 by done. apply (append_live m0 P (sibs t) v). eauto. }
      specialize (Hlive x Hx'). lia.
    + intros x. rewrite addrs_snoc. simpl. intros [Hx|[->|Hx]].
      * by apply Hlow.
      * done.
      * by apply elem_of_nil in Hx.
    + cbn [cells]. intros x Hx Hlt. apply addrs_snoc.
      destruct (decide (x = v)) as [->|Hne]; [right; by left|]. left.
      apply Hall; [|done]. rewrite <- Hm0 by done. by apply (append_live m0 P (sibs t) v).
  - split; [simpl; lia|]. split; [|split; [|split]].
    + cbn [cells brk]. intros x Hx. apply append_live in Hx.
      destruct (decide (x = v)) as [->|Hne]; [subst v; lia|].
      rewrite Hm0 in Hx by done. specialize (Hlive x Hx). lia.
    + intros x Hx. cbn [cells]. rewrite append_frame; [rewrite Hm0; [done|]|..].
      * subst v. lia.
      * lia.
      * subst v. lia.
      * rewrite last_lookup. intros Hl%list_elem_of_lookup_2%sibs_addrs.
        specialize (Hlow x Hl). lia.
    + intros x Hx. cbn [cells].
      assert (x ≠ v) as Hne.
      { intros ->. rewrite Hnew in Hx. by apply is_Some_None in Hx. }
      rewrite append_fixed by done. unfold field. by rewrite Hm0.
    + cbn [cells]. rewrite (append_next m0 P (sibs t) v Hch0 Hfresh P).
      * rewrite decide_False; [unfold field; by rewrite Hm0|].
        rewrite last_lookup. intros Hl%list_elem_of_lookup_2.
        apply NoDup_cons in Hnd as [Hnd _]. apply Hnd. by apply sibs_addrs.
      * rewrite Hm0 by done. by eapply children_parent_live.
  - cbn [cells].
    assert (field fixed (append_map m0 P (sibs t) v) v = Some (name, d, Some P, last (sibs t)))
      as Hf.
    { pose proof (append_parent m0 P (sibs t) v Hch0 Hfresh v Hv0') as Hp.
      pose proof (append_prev m0 P (sibs t) v Hch0 Hfresh Hp0 v Hv0') as Hq.
      rewrite decide_True in Hp, Hq by done.
      assert (field m_name (append_map m0 P (sibs t) v) v = Some name) as Hn'.
      { unfold append_map. destruct (last (sibs t));
          rewrite !field_alter_other by (intros; reflexivity); unfold field; by rewrite Hv0. }
      assert (field m_data (append_map m0 P (sibs t) v) v = Some d) as Hd'.
      { unfold append_map. destruct (last (sibs t));
          rewrite !field_alter_other by (intros; reflexivity); unfold field; by rewrite Hv0. }
      unfold field, fixed in *.
      destruct (append_map m0 P (sibs t) v !! v); simplify_eq/=. congruence. }
    assert (field body (append_map m0 P (sibs t) v) v = Some (d, None, None, 0)) as Hb.
    { unfold append_map. destruct (last (sibs t)) as [l|] eqn:Hl.
      - rewrite last_lookup in Hl. pose proof (fresh_ne_child _ _ _ _ _ Hfresh Hl).
        fld. unfold field. by rewrite Hv0.
      - fld. unfold field. by rewrite Hv0. }
    assert (field m_next (append_map m0 P (sibs t) v) v = Some None) as Hnx.
    { rewrite (append_next m0 P (sibs t) v Hch0 Hfresh v Hv0').
      rewrite decide_False; [done|].
      rewrite last_lookup. intros Hl%list_elem_of_lookup_2. apply Hfresh. by right. }
    unfold field, fixed, body in *.
    destruct (append_map m0 P (sibs t) v !! v) as [[]|]; simplify_eq/=. done.
Qed.

Lemma bind_Ok_inv {A B} (m : M A) (k : A → M B) h r h' :
  (m ≫= k) h = (Ok r, h') → ∃ x h1, m h = (Ok x, h1) ∧ k x h1 = (Ok r, h').
Proof.
  unfold mbind, M_bind. destruct (m h) as [[x| | |] h1]; intros H; simplify_eq; eauto.
Qed.

Lemma lift_Ok_inv {A} (o : outcome A) h r h' : lift o h = (Ok r, h') → o = Ok r ∧ h' = h.
Proof. by intros [= -> ->]. Qed.

Lemma frame_live h h' P x : frame h h' P → is_Some (cells h !! x) → is_Some (cells h' !! x).
Proof.
  intros (_ & _ & _ & Hfix & _) Hx. specialize (Hfix x Hx). unfold field in Hfix.
  destruct Hx as [w Hw]. rewrite Hw in Hfix. by destruct (cells h' !! x).
Qed.

Lemma frame_refl h P : (∀ x, is_Some (cells h !! x) → (x < brk h)%nat) → frame h h P.
Proof. intros Hl. by split; [|split; [|split; [|split]]]. Qed.

Lemma frame_trans h h1 h2 P Q :
  (P ≤ Q)%nat → frame h h1 P → frame h1 h2 Q → frame h h2 P.
Proof.
  intros HPQ H1 H2. pose proof (fun x => frame_live _ _ _ x H1) as Hl.
  destruct H1 as (Hb1 & Hl1 & Hlow1 & Hfix1 & Hn1), H2 as (Hb2 & Hl2 & Hlow2 & Hfix2 & Hn2).
  split; [lia|]. split; [done|]. split; [|split].
  - intros x Hx. rewrite Hlow2 by lia. by apply Hlow1.
  - intros x Hx. rewrite Hfix2 by (by apply Hl). by apply Hfix1.
  - destruct (decide (P = Q)) as [->|Hne]; [by rewrite Hn2|].
    unfold field in *. rewrite Hlow2 by lia. done.
Qed.

Lemma links_of_fixed (m m' : gmap addr Value) x :
  field fixed m' x = field fixed m x → field m_next m' x = field m_next m x →
  field links m' x = field links m x.
Proof.
  unfold field, fixed, links. destruct (m' !! x), (m !! x); simpl; congruence.
Qed.

(** The node made last is filled with the tree that was parsed below it. *)
Lemma nest h h1 h2 P t s :
  rooted h P t → rooted h1 P (snoc t (brk h) Leaf) → rooted h2 (brk h) s →
  frame h1 h2 (brk h) → rooted h2 P (snoc t (brk h) s).
Proof.
  intros Hr Hr1 Hr2 Hf. set (v := brk h) in *.
  pose proof Hr as ((Hch & Hs & Hnd) & Hlive & Hlow & Hall).
  pose proof Hr1 as ((Hch1 & Hs1 & Hnd1) & Hlive1 & Hlow1 & Hall1).
  pose proof Hr2 as ((Hch2 & Hs2 & Hnd2) & Hlive2 & Hlow2 & Hall2).
  pose proof Hf as (Hb & _ & Hsame & Hfix & Hnext).
  assert (∀ x, x ∈ P :: addrs t → (x < v)%nat) as Hold.
  { intros x Hx. apply Hlive. by eapply rooted_live. }
  assert (P < v)%nat as HPv by (apply Hold; by left).
  split; [split; [|split]|split; [|split]].
  - rewrite sibs_snoc. rewrite sibs_snoc in Hch1.
    apply (children_ext (cells h1)); [|  |exact Hch1].
    + unfold field. by rewrite Hsame.
    + intros c [Hc| ->%list_elem_of_singleton]%elem_of_app.
      * unfold field. rewrite Hsame; [done|]. apply Hold. right. by apply sibs_addrs.
      * apply links_of_fixed; [|done]. apply Hfix. apply (rooted_live h1 P _ v Hr1). right. apply addrs_snoc. right. by left.
  - apply sound_snoc. apply sound_snoc in Hs1 as (Hs1 & _ & _).
    split; [|by split]. apply (sound_agree (cells h1)); [|done].
    intros x Hx. apply Hsame. apply Hold. by right.
  - apply NoDup_cons. split.
    + rewrite addrs_snoc. intros [Hx|[Hx|Hx]].
      * apply NoDup_cons in Hnd as [Hnd _]. done.
      * lia.
      * specialize (Hlow2 P Hx). lia.
    + apply NoDup_cons in Hnd as [_ Hnd]. apply NoDup_addrs_snoc; [done..|].
      intros x Hx [->|Hx']%elem_of_cons.
      * specialize (Hold v ltac:(by right)). lia.
      * specialize (Hold x ltac:(by right)). specialize (Hlow2 x Hx'). lia.
  - done.
  - intros x. rewrite addrs_snoc. intros [Hx|[->|Hx]].
    + by apply Hlow.
    + done.
    + specialize (Hlow2 x Hx). lia.
  - intros x Hx Hlt. apply addrs_snoc.
    destruct (lt_eq_lt_dec x v) as [[Hxv| ->]|Hxv].
    + left. rewrite Hsame in Hx by done. specialize (Hall1 x Hx Hlt).
      apply addrs_snoc in Hall1 as [?|[->|Hn]]; [done|lia|by apply elem_of_nil in Hn].
    + right. by left.
    + right. right. by apply Hall2.
Qed.

(** A node that was just made and linked has no children. *)
Lemma rooted_new h1 v w :
  (∀ x, is_Some (cells h1 !! x) → (x < brk h1)%nat) → brk h1 = S v →
  cells h1 !! v = Some w → m_firstChild w = None → m_lastChild w = None → m_length w = 0 →
  rooted h1 v Leaf.
Proof.
  intros Hlive Hb Hw H1 H2 H3. split; [split; [|split]|split; [|split]].
  - constructor; try (by intros i c Hi); try apply NoDup_singleton;
      unfold field; rewrite Hw; simpl; by f_equal.
  - done.
  - apply NoDup_singleton.
  - done.
  - by intros x Hx%elem_of_nil.
  - intros x Hx Hlt. specialize (Hlive x Hx). lia.
Qed.

Lemma link_new_bind {B} h P t name d (k : addr → M B) :
  rooted h P t →
  ∃ h1, (x ← alloc (new_Value name d); insertValueInt P x;; k x) h = k (brk h) h1 ∧
        rooted h1 P (snoc t (brk h) Leaf) ∧ frame h h1 P ∧ rooted h1 (brk h) Leaf ∧
        field fixed (cells h1) (brk h) = Some (name, d, Some P, last (sibs t)).
Proof.
  intros Hr. destruct (link_new h P t name d Hr) as (h1 & Hrun & Hb & Hr1 & Hf & Hv).
  exists h1. split; [|split; [done|split; [done|split]]].
  - unfold mbind at 1, M_bind at 1. unfold alloc at 1. fold (made h (new_Value name d)).
    unfold made in Hrun. simpl in Hrun. by rewrite (bind_Ok _ _ _ _ _ Hrun).
  - eapply rooted_new; [apply Hr1|done|exact Hv|done..].
  - unfold field. by rewrite Hv.
Qed.

Lemma link_new_inv {B} h P t name d (k : addr → M B) r h' :
  rooted h P t →
  (x ← alloc (new_Value name d); insertValueInt P x;; k x) h = (Ok r, h') →
  ∃ h1, k (brk h) h1 = (Ok r, h') ∧
        rooted h1 P (snoc t (brk h) Leaf) ∧ frame h h1 P ∧ rooted h1 (brk h) Leaf ∧
        field fixed (cells h1) (brk h) = Some (name, d, Some P, last (sibs t)).
Proof.
  intros Hr Hrun. destruct (link_new_bind h P t name d k Hr) as (h1 & Heq & ?).
  exists h1. by rewrite <- Heq.
Qed.

Lemma rooted_parent_below h P t : rooted h P t → (P < brk h)%nat.
Proof.
  intros Hr. pose proof Hr as (_ & Hlive & _). apply Hlive.
  eapply rooted_live; [done|by left].
Qed.

Ltac ok_inv H :=
  repeat match type of H with
  | (let _ := _ in _) _ = _ => cbv zeta in H
  | (if ?c then _ else _) _ = _ => destruct c eqn:?
  | throw _ _ = (Ok _, _) => discriminate H
  | out_of_fuel _ = (Ok _, _) => discriminate H
  | (lift ?o ≫= _) _ = (Ok _, _) =>
      let x := fresh "x" in let h1 := fresh "h" in
      let Hl := fresh "Hl" in
      apply bind_Ok_inv in H as (x & h1 & Hl & H);
      apply lift_Ok_inv in Hl as [Hl ->];
      lazymatch type of x with (_ * _)%type => destruct x | _ => idtac end
  end.

Lemma parse_rooted fuel :
  (∀ P name ptr h t p h', rooted h P t → parse_value fuel P name ptr h = (Ok p, h') →
      ∃ s, rooted h' P (snoc t (brk h) s) ∧ frame h h' P) ∧
  (∀ O ptr h t p h', rooted h O t → parse_members fuel O ptr h = (Ok p, h') →
      ∃ t', rooted h' O t' ∧ frame h h' O) ∧
  (∀ A ptr h t p h', rooted h A t → parse_elements fuel A ptr h = (Ok p, h') →
      ∃ t', rooted h' A t' ∧ frame h h' A).
Proof.
  induction fuel as [|f (IHv & IHm & IHe)].
  - split; [|split]; intros; discriminate.
  - split; [|split].
    + intros P name ptr h t p h' Hr Hrun. cbn [parse_value] in Hrun.
      pose proof (rooted_parent_below _ _ _ Hr) as HP.
      ok_inv Hrun.
      all: pose proof (link_new_inv _ _ _ _ _ _ _ _ Hr Hrun) as (h1 & Hk & Hr1 & Hf & Hr0 & _);
        clear Hrun; cbv beta in Hk; ok_inv Hk.
      all: try (apply lift_Ok_inv in Hk as [_ ->]; exists Leaf; by split).
      all: try (injection Hk as _ <-; exists Leaf; by split).
      all: apply bind_Ok_inv in Hk as (q & h2 & Hloop & Hk);
        apply lift_Ok_inv in Hk as [_ ->];
        first [ destruct (IHm _ _ _ _ _ _ Hr0 Hloop) as (s2 & Hr2 & Hf2)
              | destruct (IHe _ _ _ _ _ _ Hr0 Hloop) as (s2 & Hr2 & Hf2) ];
        exists s2; (split; [by eapply nest|]); eapply frame_trans; [|done..]; lia.
    + intros O ptr h t p h' Hr Hrun. cbn [parse_members] in Hrun. ok_inv Hrun.
      all: apply bind_Ok_inv in Hrun as (q & h1 & Hval & Hrun);
        destruct (IHv _ _ _ _ _ _ _ Hr Hval) as (s1 & Hr1 & Hf1); ok_inv Hrun.
      * destruct (IHm _ _ _ _ _ _ Hr1 Hrun) as (t' & Hr2 & Hf2).
        exists t'. split; [done|]. by eapply frame_trans.
      * injection Hrun as _ <-. eauto.
    + intros A ptr h t p h' Hr Hrun. cbn [parse_elements] in Hrun.
      apply bind_Ok_inv in Hrun as (q & h1 & Hval & Hrun);
        destruct (IHv _ _ _ _ _ _ _ Hr Hval) as (s1 & Hr1 & Hf1); ok_inv Hrun.
      * destruct (IHe _ _ _ _ _ _ Hr1 Hrun) as (t' & Hr2 & Hf2).
        exists t'. split; [done|]. by eapply frame_trans.
      * injection Hrun as _ <-. eauto.
Qed.

Lemma root_heap_rooted : rooted root_heap 0%nat Leaf.
Proof.
  assert (∀ x, is_Some (cells root_heap !! x) → (x < brk root_heap)%nat) as Hlive.
  { intros x Hx. unfold root_heap in *. cbn [cells brk] in *.
    apply lookup_alter_is_Some in Hx.
    destruct (decide (x = 0%nat)) as [->|Hne]; [lia|].
    rewrite lookup_insert_ne, lookup_empty in Hx by done. by apply is_Some_None in Hx. }
  by eapply rooted_new.
Qed.

Lemma document_rooted json h :
  document json = (Ok tt, h) → ∃ s, rooted h 0%nat (Nd 1%nat s Leaf).
Proof.
  rewrite document_unfold. intros Hrun.
  apply bind_Ok_inv in Hrun as (p & h1 & Hrun & [= <-]).
  destruct (proj1 (parse_rooted _) _ _ _ _ _ _ _ root_heap_rooted Hrun)
    as (s & Hr & _).
  by exists s.
Qed.

(** In a sound shape the pointers to the first child and to the next
    sibling lead through the nodes of the shape. *)
Lemma sound_shape_at m t p :
  p = head (sibs t) →
  (∀ i c, sibs t !! i = Some c → field m_next m c = Some (sibs t !! S i)) →
  sound m t → shape_at m p t.
Proof.
  revert p. induction t as [|a below IHb after IHa]; intros p Hp Hnext Hs.
  - done.
  - destruct Hs as (Hch & Hb & Ha). simpl in Hp. split; [done|].
    destruct (proj1 (field_Some _ _ _ _) (ch_first _ _ _ Hch)) as (v & Hv & Hfirst).
    exists v. split; [done|]. split.
    + apply IHb; [done| |done]. intros i c Hi. by apply (ch_next _ _ _ Hch).
    + apply IHa; [| |done].
      * specialize (Hnext 0%nat a eq_refl). unfold field in Hnext. rewrite Hv in Hnext.
        simpl in Hnext. injection Hnext as ->. by rewrite head_lookup.
      * intros i c Hi. exact (Hnext (S i) c Hi).
Qed.

Lemma well_formed_descendants m o t : well_formed m o t → descendants m o t.
Proof.
  intros (Hch & Hs & Hnd). split; [|done].
  destruct (proj1 (field_Some _ _ _ _) (ch_first _ _ _ Hch)) as (v & Hv & Hfirst).
  exists v. split; [done|]. apply sound_shape_at; [done| |done].
  intros i c Hi. by apply (ch_next _ _ _ Hch).
Qed.

(** X1. A text that parses into a new root leaves a well-formed tree: the
    root has exactly one child, at every level the links of parent, first
    and last child, previous and next sibling and the child count agree,
    the pointers to first children and next siblings lead through the
    nodes of the tree, each once, and the live objects are exactly the root
    and these nodes. *)
Theorem parse_builds_well_formed_tree json h :
  document json = (Ok tt, h) →
  ∃ s, well_formed (cells h) 0%nat (Nd 1%nat s Leaf) ∧
       descendants (cells h) 0%nat (Nd 1%nat s Leaf) ∧
       ∀ x, is_Some (cells h !! x) ↔ x ∈ 0%nat :: addrs (Nd 1%nat s Leaf).
Proof.
  intros Hrun. destruct (document_rooted json h Hrun) as (s & Hr).
  exists s. split; [apply Hr|]. split; [apply well_formed_descendants, Hr|].
  intros x. split.
  - intros Hx. destruct (decide (x = 0%nat)) as [->|Hne]; [by left|right].
    destruct Hr as (_ & _ & _ & Hall). apply Hall; [done|lia].
  - by apply (rooted_live h 0%nat).
Qed.

Lemma parse_builds_well_formed_tree_witness :
  ∃ s, well_formed (cells two_arrays) 0%nat (Nd 1%nat s Leaf) ∧
       descendants (cells two_arrays) 0%nat (Nd 1%nat s Leaf) ∧
       ∀ x, is_Some (cells two_arrays !! x) ↔ x ∈ 0%nat :: addrs (Nd 1%nat s Leaf).
Proof.
  apply (parse_builds_well_formed_tree "[[1],[2]]"). vm_compute. reflexivity.
Defined.

(** ** Reading an object by name *)

(** X2. [Object::getValue(name)] on a well-formed object returns the first
    child that carries the name, whatever follows it, and throws
    [JsonNull("value not found: " + name)] when no child carries it; the
    tree is left as it was. *)
Theorem Object_getValue_first_of_name h o cs name :
  children (cells h) o cs →
  (∀ i c, cs !! i = Some c → field m_name (cells h) c = Some name →
          (∀ j c', (j < i)%nat → cs !! j = Some c' →
                   field m_name (cells h) c' ≠ Some name) →
          Object_getValue o name h = (Ok c, h)) ∧
  ((∀ c, c ∈ cs → field m_name (cells h) c ≠ Some name) →
   Object_getValue o name h = (Throw (JsonNull ("value not found: " +:+ name)), h)).
Proof.
  intros Hch. rewrite (Object_getValue_run h o cs name Hch). split.
  - intros i c Hi Hn Hfirst. by rewrite (proj2 (first_named_Some _ _ _ i c)).
  - intros Habs. by rewrite (proj2 (first_named_None _ _ _)).
Qed.

Ltac other_names :=
  let c := fresh "c" in let Hc := fresh "Hc" in let H := fresh "H" in
  intros c Hc H;
  repeat (apply elem_of_cons in Hc as [->|Hc];
          [vm_compute in H; injection H as H; discriminate H|]);
  by apply elem_of_nil in Hc.

Lemma Object_getValue_first_of_name_witness :
  Object_getValue 1%nat "b" doc_ab = (Ok 3%nat, doc_ab) ∧
  Object_getValue 1%nat "z" doc_ab = (Throw (JsonNull "value not found: z"), doc_ab).
Proof.
  split.
  - refine (proj1 (Object_getValue_first_of_name doc_ab 1%nat [2%nat; 3%nat] "b"
                     doc_ab_children) 1%nat 3%nat _ _ _).
    + reflexivity.
    + vm_compute. reflexivity.
    + intros j c' Hj Hc' Hn. destruct j as [|j]; [|lia].
      injection Hc' as <-. vm_compute in Hn. injection Hn as Hn. discriminate Hn.
  - refine (proj2 (Object_getValue_first_of_name doc_ab 1%nat [2%nat; 3%nat] "z"
                     doc_ab_children) _).
    other_names.
Defined.

(** X3. The typed getters of [class Object] look the name up like
    [getValue] and then check the kind of what they found: each returns the
    first child of that name when it has the kind asked for, and throws
    [JsonNull("value is not a ...")] when it has another kind; [isNull(name)]
    tells whether that child is a Null; all of them throw the error of
    [getValue] when no child carries the name.  The tree is left as it
    was. *)
Theorem Object_typed_getters h o cs name :
  children (cells h) o cs →
  (∀ i c v, cs !! i = Some c → cells h !! c = Some v → m_name v = name →
     (∀ j c', (j < i)%nat → cs !! j = Some c' →
              field m_name (cells h) c' ≠ Some name) →
     Object_getObject o name h
     = (match m_data v with
        | PObject => Ok c | _ => Throw (JsonNull "value is not an object") end, h) ∧
     Object_getArray o name h
     = (match m_data v with
        | PArray => Ok c | _ => Throw (JsonNull "value is not an array") end, h) ∧
     Object_getString o name h
     = (match m_data v with
        | PString _ => Ok c | _ => Throw (JsonNull "value is not a string") end, h) ∧
     Object_getNumber o name h
     = (match m_data v with
        | PNumber _ => Ok c | _ => Throw (JsonNull "value is not a number") end, h) ∧
     Object_getBoolean o name h
     = (match m_data v with
        | PBoolean _ => Ok c | _ => Throw (JsonNull "value is not a boolean") end, h) ∧
     Object_isNull o name h
     = (Ok (match m_data v with PNull => true | _ => false end), h)) ∧
  ((∀ c, c ∈ cs → field m_name (cells h) c ≠ Some name) →
   let e := JsonNull ("value not found: " +:+ name) in
   Object_getObject o name h = (Throw e, h) ∧
   Object_getArray o name h = (Throw e, h) ∧
   Object_getString o name h = (Throw e, h) ∧
   Object_getNumber o name h = (Throw e, h) ∧
   Object_getBoolean o name h = (Throw e, h) ∧
   Object_isNull o name h = (Throw e, h)).
Proof.
  intros Hch. split.
  - intros i c v Hi Hv Hn Hfirst.
    assert (first_named (cells h) name cs = Some (i, c)) as Hfind.
    { apply first_named_Some. split; [done|]. split; [|done].
      unfold field. rewrite Hv. simpl. by rewrite Hn. }
    destruct (conversions_run h c v Hv) as (H1 & H2 & H3 & H4 & H5).
    unfold Object_getObject, Object_getArray, Object_getString, Object_getNumber,
      Object_getBoolean, Object_isNull.
    rewrite !(typed_found h o cs name Hch _ i c Hfind).
    rewrite H1, H2, H3, H4, H5. repeat (split; [done|]).
    unfold isNull. rewrite (bind_Ok _ _ _ _ _ (load_Some _ _ _ Hv)).
    unfold getType. by destruct (m_data v).
  - intros Habs e. apply first_named_None in Habs.
    unfold Object_getObject, Object_getArray, Object_getString, Object_getNumber,
      Object_getBoolean, Object_isNull.
    by rewrite !(typed_absent h o cs name Hch _ Habs).
Qed.

Lemma Object_typed_getters_witness :
  Object_getNumber 1%nat "b" doc_nested
  = (Throw (JsonNull "value is not a number"), doc_nested) ∧
  Object_getArray 1%nat "b" doc_nested = (Ok 3%nat, doc_nested) ∧
  Object_isNull 1%nat "b" doc_nested = (Ok false, doc_nested) ∧
  Object_getString 1%nat "z" doc_nested
  = (Throw (JsonNull "value not found: z"), doc_nested).
Proof.
  assert (cells doc_nested !! 3%nat
          = Some (mkValue (Some 1%nat) (Some 4%nat) (Some 4%nat) (Some 2%nat) None 1
                    "b" PArray)) as Hv by (vm_compute; reflexivity).
  destruct (proj1 (Object_typed_getters doc_nested 1%nat [2%nat; 3%nat] "b"
                     doc_nested_object) 1%nat 3%nat _ eq_refl Hv eq_refl)
    as (_ & Harr & _ & Hnum & _ & Hnull).
  { intros j c' Hj Hc' Hn. destruct j as [|j]; [|lia].
    injection Hc' as <-. vm_compute in Hn. injection Hn as Hn. discriminate Hn. }
  destruct (proj2 (Object_typed_getters doc_nested 1%nat [2%nat; 3%nat] "z"
                     doc_nested_object)) as (_ & _ & Hstr & _).
  { other_names. }
  exact (conj Hnum (conj Harr (conj Hnull Hstr))).
Defined.

(** ** Writing an object by name *)

(** X4. Linking a node under a name that no child of the object carries,
    and setting such a name to a new value, put the node behind the last
    child: the children are the old ones, in their order, followed by the
    node, which carries the name; the old children keep name, value and own
    children, and nothing outside the object and its children changes. *)
Theorem Object_set_absent_name_appends h o cs name :
  children (cells h) o cs →
  (∀ c, c ∈ cs → field m_name (cells h) c ≠ Some name) →
  (∀ v, is_Some (cells h !! v) → v ∉ o :: cs →
        field m_prev (cells h) v = Some None → field m_next (cells h) v = Some None →
        ∃ h', Object_linkValue o name (Some v) h = (Ok (Some v), h') ∧
              appends_child h h' o cs v name) ∧
  (∀ d, cells h !! brk h = None →
        ∃ h', Object_set o name d h = (Ok (brk h), h') ∧
              children (cells h') o (cs ++ [brk h]) ∧
              field content (cells h') (brk h) = Some (name, d, None, None, 0) ∧
              (∀ c, c ∈ cs → field content (cells h') c = field content (cells h) c) ∧
              (∀ x, x ∉ o :: brk h :: cs → cells h' !! x = cells h !! x)).
Proof.
  intros Hch Habs. split.
  - intros v Hv Hfresh Hp Hn. by apply Object_linkValue_append.
  - intros d Hnew. by apply Object_set_append.
Qed.

Lemma Object_set_absent_name_appends_witness :
  ∃ h', Object_setNumber 1%nat "c" 3%float doc_ab = (Ok (brk doc_ab), h') ∧
        children (cells h') 1%nat ([2%nat; 3%nat] ++ [brk doc_ab]) ∧
        field content (cells h') (brk doc_ab) = Some ("c", PNumber 3%float, None, None, 0) ∧
        (∀ c, c ∈ [2%nat; 3%nat] →
              field content (cells h') c = field content (cells doc_ab) c) ∧
        (∀ x, x ∉ [1%nat; brk doc_ab; 2%nat; 3%nat] → cells h' !! x = cells doc_ab !! x).
Proof.
  assert (∀ c, c ∈ [2%nat; 3%nat] → field m_name (cells doc_ab) c ≠ Some "c") as Habs
    by other_names.
  assert (cells doc_ab !! brk doc_ab = None) as Hnew by (vm_compute; reflexivity).
  exact (proj2 (Object_set_absent_name_appends doc_ab 1%nat [2%nat; 3%nat] "c"
                  doc_ab_children Habs) (PNumber 3%float) Hnew).
Defined.

(** X5. A value that was set under a name is the one that [getValue]
    returns for that name afterwards, whether the name was new (the value
    is appended) or carried by children already (the value replaces the
    first of them): [set] returns the new node, [getValue] finds that node,
    and it holds the value that was set. *)
Theorem Object_get_after_set h o cs name d :
  children (cells h) o cs →
  (∀ i c, first_named (cells h) name cs = Some (i, c) →
          ∃ t, descendants (cells h) c t ∧ ∀ x, x ∈ addrs t → x ∉ o :: cs) →
  cells h !! brk h = None →
  ∃ h', Object_set o name d h = (Ok (brk h), h') ∧
        Object_getValue o name h' = (Ok (brk h), h') ∧
        field m_name (cells h') (brk h) = Some name ∧
        field m_data (cells h') (brk h) = Some d.
Proof.
  intros Hch Hsub Hnew.
  destruct (Object_set_then_get h o cs name d Hch Hsub Hnew) as (h' & Hset & Hget & Hd).
  exists h'. split; [done|]. split; [done|]. split; [|done].
  assert (∃ cs', children (cells h') o cs' ∧ brk h ∈ cs') as (cs' & Hch' & Hin).
  { destruct (first_named (cells h) name cs) as [[i c]|] eqn:Hfind.
    - destruct (Hsub i c eq_refl) as (t & Hdesc & Hdisj).
      pose proof Hfind as (Hi & Hn & Hfirst)%first_named_Some.
      destruct (Object_set_replace h o cs i c t name d Hch Hi Hn Hfirst Hdesc Hdisj Hnew)
        as (h2 & Hset2 & (Hch2 & _) & _).
      rewrite Hset in Hset2. injection Hset2 as <-.
      exists (<[i:=brk h]> cs). split; [done|].
      apply list_elem_of_lookup. exists i. apply list_lookup_insert_eq.
      by eapply lookup_lt_Some.
    - pose proof (proj1 (first_named_None _ _ _) Hfind) as Habs.
      destruct (Object_set_append h o cs name d Hch Habs Hnew)
        as (h2 & Hset2 & Hch2 & _).
      rewrite Hset in Hset2. injection Hset2 as <-.
      exists (cs ++ [brk h])%list. split; [done|]. set_solver. }
  rewrite (Object_getValue_run h' o cs' name Hch') in Hget.
  destruct (first_named (cells h') name cs') as [[k c']|] eqn:Hfind; [|done].
  injection Hget as ->. by apply first_named_Some in Hfind as (_ & Hn & _).
Qed.

Lemma doc_ab_descendants : descendants (cells doc_ab) 2%nat Leaf.
Proof.
  split; [|apply (bool_decide_unpack _); vm_compute; reflexivity].
  eexists. split; [vm_compute; reflexivity|]. reflexivity.
Defined.

Lemma Object_get_after_set_witness :
  ∃ h', Object_setNull 1%nat "a" doc_ab = (Ok (brk doc_ab), h') ∧
        Object_getValue 1%nat "a" h' = (Ok (brk doc_ab), h') ∧
        field m_name (cells h') (brk doc_ab) = Some "a" ∧
        field m_data (cells h') (brk doc_ab) = Some PNull.
Proof.
  assert (first_named (cells doc_ab) "a" [2%nat; 3%nat] = Some (0%nat, 2%nat)) as Hfind
    by (vm_compute; reflexivity).
  assert (cells doc_ab !! brk doc_ab = None) as Hnew by (vm_compute; reflexivity).
  refine (Object_get_after_set doc_ab 1%nat [2%nat; 3%nat] "a" PNull
            doc_ab_children _ Hnew).
  intros i c Hic. rewrite Hfind in Hic. injection Hic as <- <-.
  exists Leaf. split; [exact doc_ab_descendants|].
  intros x Hx. destruct (proj1 (elem_of_nil x) Hx).
Defined.

(** X6. [Object::removeValue(name)] with a name that children carry unlinks
    and destroys the first child of that name with everything below it: the
    remaining children keep their order, name, value and own children, the
    count goes down by one, and nothing outside the object, its children
    and the destroyed subtree changes. *)
Theorem Object_removeValue_removes_first_of_name h o cs i c t name :
  children (cells h) o cs →
  cs !! i = Some c → field m_name (cells h) c = Some name →
  (∀ j c', (j < i)%nat → cs !! j = Some c' → field m_name (cells h) c' ≠ Some name) →
  descendants (cells h) c t →
  (∀ x, x ∈ addrs t → x ∉ o :: cs) →
  ∃ h', Object_removeValue o name h = (Ok tt, h') ∧
        children (cells h') o (delete i cs) ∧
        field m_length (cells h') o = Some (Z.of_nat (length cs) - 1) ∧
        (∀ j c', j ≠ i → cs !! j = Some c' →
                 field content (cells h') c' = field content (cells h) c') ∧
        (∀ x, x ∈ c :: addrs t → cells h' !! x = None) ∧
        (∀ x, x ∉ o :: cs → x ∉ addrs t → cells h' !! x = cells h !! x).
Proof.
  intros Hch Hi Hn Hfirst Hdesc Hdisj.
  assert (first_named (cells h) name cs = Some (i, c)) as Hfind
    by (by apply first_named_Some).
  destruct (Object_removeValue_found h o cs i c t name Hch Hfind Hdesc Hdisj)
    as (h' & Hrun & Hch' & Hrest).
  exists h'. split; [done|]. split; [done|]. split; [|done].
  rewrite (ch_length _ _ _ Hch'). f_equal.
  rewrite length_delete by (by eexists). apply lookup_lt_Some in Hi. lia.
Qed.

Lemma Object_removeValue_removes_first_of_name_witness :
  ∃ h', Object_removeValue 1%nat "a" doc_ab = (Ok tt, h') ∧
        children (cells h') 1%nat [3%nat] ∧
        field m_length (cells h') 1%nat = Some 1 ∧
        (∀ j c', j ≠ 0%nat → [2%nat; 3%nat] !! j = Some c' →
                 field content (cells h') c' = field content (cells doc_ab) c') ∧
        (∀ x, x ∈ [2%nat] → cells h' !! x = None) ∧
        (∀ x, x ∉ [1%nat; 2%nat; 3%nat] → x ∉ [] → cells h' !! x = cells doc_ab !! x).
Proof.
  assert (field m_name (cells doc_ab) 2%nat = Some "a") as Hn by (vm_compute; reflexivity).
  refine (Object_removeValue_removes_first_of_name doc_ab 1%nat [2%nat; 3%nat] 0%nat
            2%nat Leaf "a" doc_ab_children eq_refl Hn _ doc_ab_descendants _).
  - intros j c' Hj. lia.
  - intros x Hx. destruct (proj1 (elem_of_nil x) Hx).
Defined.

(** X7. After [removeValue(name)] on an object in which exactly one child
    carries the name, [getValue(name)] throws the error for a name that is
    not found. *)
Theorem Object_get_after_remove h o cs i c t name :
  children (cells h) o cs →
  cs !! i = Some c → field m_name (cells h) c = Some name →
  (∀ j c', j ≠ i → cs !! j = Some c' → field m_name (cells h) c' ≠ Some name) →
  descendants (cells h) c t →
  (∀ x, x ∈ addrs t → x ∉ o :: cs) →
  ∃ h', Object_removeValue o name h = (Ok tt, h') ∧
        Object_getValue o name h'
        = (Throw (JsonNull ("value not found: " +:+ name)), h').
Proof.
  intros Hch Hi Hn Huniq Hdesc Hdisj.
  apply (Object_remove_then_get h o cs i c t name); try done.
  apply first_named_Some. split; [done|]. split; [done|].
  intros j c' Hj. apply Huniq. lia.
Qed.

Lemma Object_get_after_remove_witness :
  ∃ h', Object_removeValue 1%nat "a" doc_ab = (Ok tt, h') ∧
        Object_getValue 1%nat "a" h' = (Throw (JsonNull "value not found: a"), h').
Proof.
  assert (field m_name (cells doc_ab) 2%nat = Some "a") as Hn by (vm_compute; reflexivity).
  refine (Object_get_after_remove doc_ab 1%nat [2%nat; 3%nat] 0%nat
            2%nat Leaf "a" doc_ab_children eq_refl Hn _ doc_ab_descendants _).
  - intros j c' Hj Hc' H. destruct j as [|[|j]]; [by destruct Hj| |discriminate Hc'].
    injection Hc' as <-. vm_compute in H. injection H as H. discriminate H.
  - intros x Hx. destruct (proj1 (elem_of_nil x) Hx).
Defined.

(** ** Reading and writing an array by position *)

(** X8. [Array::getValue(idx)] on a well-formed array returns the child
    that the scan stops at, which is the child number [idx] counted from
    [0] (the first child for a negative [idx]); the typed getters by
    position return that child when it has the kind asked for and throw
    [JsonNull("value is not a ...")] when it has another kind; all of them
    throw [JsonNull("index out of range")] when the array has no more than
    [idx] children.  The tree is left as it was. *)
Theorem Array_getValue_by_position h o cs idx :
  children (cells h) o cs →
  (∀ c v, cs !! scan_index idx = Some c → cells h !! c = Some v →
     Array_getValue o idx h = (Ok c, h) ∧
     Array_getObject o idx h
     = (match m_data v with
        | PObject => Ok c | _ => Throw (JsonNull "value is not an object") end, h) ∧
     Array_getArray o idx h
     = (match m_data v with
        | PArray => Ok c | _ => Throw (JsonNull "value is not an array") end, h) ∧
     Array_getString o idx h
     = (match m_data v with
        | PString _ => Ok c | _ => Throw (JsonNull "value is not a string") end, h) ∧
     Array_getNumber o idx h
     = (match m_data v with
        | PNumber _ => Ok c | _ => Throw (JsonNull "value is not a number") end, h) ∧
     Array_getBoolean o idx h
     = (match m_data v with
        | PBoolean _ => Ok c | _ => Throw (JsonNull "value is not a boolean") end, h) ∧
     Array_isNull o idx h
     = (Ok (match m_data v with PNull => true | _ => false end), h)) ∧
  ((length cs ≤ scan_index idx)%nat →
   let e := JsonNull "index out of range" in
   Array_getValue o idx h = (Throw e, h) ∧
   Array_getObject o idx h = (Throw e, h) ∧
   Array_getArray o idx h = (Throw e, h) ∧
   Array_getString o idx h = (Throw e, h) ∧
   Array_getNumber o idx h = (Throw e, h) ∧
   Array_getBoolean o idx h = (Throw e, h) ∧
   Array_isNull o idx h = (Throw e, h)).
Proof.
  intros Hch. pose proof (Array_getValue_at h o cs idx Hch) as Hget.
  unfold scan_index. split.
  - intros c v Hc Hv. cbv zeta in Hget. rewrite Hc in Hget.
    destruct (conversions_run h c v Hv) as (H1 & H2 & H3 & H4 & H5).
    unfold Array_getObject, Array_getArray, Array_getString, Array_getNumber,
      Array_getBoolean, Array_isNull.
    rewrite !(bind_Ok _ _ _ _ _ Hget), H1, H2, H3, H4, H5.
    repeat (split; [done|]).
    unfold isNull. rewrite (bind_Ok _ _ _ _ _ (load_Some _ _ _ Hv)).
    unfold getType. by destruct (m_data v).
  - intros Hlen. cbv zeta in *. rewrite (lookup_ge_None_2 cs _ Hlen) in Hget.
    unfold Array_getObject, Array_getArray, Array_getString, Array_getNumber,
      Array_getBoolean, Array_isNull.
    by rewrite !(bind_Throw _ _ _ _ _ Hget).
Qed.

Lemma Array_getValue_by_position_witness :
  Array_getValue 1%nat 2 doc_123 = (Ok 4%nat, doc_123) ∧
  Array_getNumber 1%nat 2 doc_123 = (Ok 4%nat, doc_123) ∧
  Array_getString 1%nat 2 doc_123 = (Throw (JsonNull "value is not a string"), doc_123) ∧
  Array_getValue 1%nat 3 doc_123 = (Throw (JsonNull "index out of range"), doc_123).
Proof.
  assert (cells doc_123 !! 4%nat
          = Some (mkValue (Some 1%nat) None None (Some 3%nat) None 0 EmptyString
                    (PNumber 3%float))) as Hv by (vm_compute; reflexivity).
  destruct (proj1 (Array_getValue_by_position doc_123 1%nat [2%nat; 3%nat; 4%nat] 2
                     doc_123_children) 4%nat _ eq_refl Hv)
    as (Hget & _ & _ & Hstr & Hnum & _).
  destruct (proj2 (Array_getValue_by_position doc_123 1%nat [2%nat; 3%nat; 4%nat] 3
                     doc_123_children)) as (Hout & _).
  { vm_compute. lia. }
  exact (conj Hget (conj Hnum (conj Hstr Hout))).
Defined.

(** X9. [Array::removeValue(idx)] on an array with more than [idx]
    children unlinks and destroys the child at that position with
    everything below it: the other children keep their order, name, value
    and own children, the count goes down by one, and nothing outside the
    array, its children and the destroyed subtree changes. *)
Theorem Array_removeValue_by_position h o cs idx c t :
  children (cells h) o cs →
  cs !! scan_index idx = Some c →
  descendants (cells h) c t →
  (∀ x, x ∈ addrs t → x ∉ o :: cs) →
  ∃ h', Array_removeValue o idx h = (Ok tt, h') ∧
        children (cells h') o (delete (scan_index idx) cs) ∧
        field m_length (cells h') o = Some (Z.of_nat (length cs) - 1) ∧
        (∀ j c', j ≠ scan_index idx → cs !! j = Some c' →
                 field content (cells h') c' = field content (cells h) c') ∧
        (∀ x, x ∈ c :: addrs t → cells h' !! x = None) ∧
        (∀ x, x ∉ o :: cs → x ∉ addrs t → cells h' !! x = cells h !! x).
Proof.
  intros Hch Hc Hdesc Hdisj.
  destruct (Array_removeValue_run h o cs Hch idx c t Hc Hdesc Hdisj)
    as (h' & Hrun & Hch' & Hrest).
  exists h'. split; [done|]. split; [done|]. split; [|done].
  rewrite (ch_length _ _ _ Hch'). f_equal.
  rewrite length_delete by (by eexists). apply lookup_lt_Some in Hc. lia.
Qed.

Lemma doc_123_second : descendants (cells doc_123) 3%nat Leaf.
Proof.
  split; [|apply (bool_decide_unpack _); vm_compute; reflexivity].
  eexists. split; [vm_compute; reflexivity|]. reflexivity.
Defined.

Lemma Array_removeValue_by_position_witness :
  ∃ h', Array_removeValue 1%nat 1 doc_123 = (Ok tt, h') ∧
        children (cells h') 1%nat (delete (scan_index 1) [2%nat; 3%nat; 4%nat]) ∧
        field m_length (cells h') 1%nat = Some (Z.of_nat (length [2%nat; 3%nat; 4%nat]) - 1) ∧
        (∀ j c', j ≠ scan_index 1 → [2%nat; 3%nat; 4%nat] !! j = Some c' →
                 field content (cells h') c' = field content (cells doc_123) c') ∧
        (∀ x, x ∈ [3%nat] → cells h' !! x = None) ∧
        (∀ x, x ∉ [1%nat; 2%nat; 3%nat; 4%nat] → x ∉ [] →
              cells h' !! x = cells doc_123 !! x).
Proof.
  refine (Array_removeValue_by_position doc_123 1%nat [2%nat; 3%nat; 4%nat] 1 3%nat Leaf
            doc_123_children eq_refl doc_123_second _).
  intros x Hx. destruct (proj1 (elem_of_nil x) Hx).
Defined.

(** X10. Inserting a new value before position [idx] of an array with more
    than [idx] children puts the new node in front of the child at that
    position: the children before it keep their place, the others move up
    by one, all keep name, value and own children, and [getValue(idx)]
    returns the new node afterwards.  Linking a node that hangs nowhere
    before [idx] places that node in the same way. *)
Theorem Array_insert_by_position h o cs idx c :
  children (cells h) o cs →
  cs !! scan_index idx = Some c →
  (∀ d, cells h !! brk h = None →
     ∃ h', Array_insert o idx d h = (Ok (brk h), h') ∧
           children (cells h') o (insert_at (scan_index idx) (brk h) cs) ∧
           field content (cells h') (brk h) = Some (EmptyString, d, None, None, 0) ∧
           (∀ x, x ∈ cs → field content (cells h') x = field content (cells h) x) ∧
           (∀ x, x ∉ o :: brk h :: cs → cells h' !! x = cells h !! x) ∧
           Array_getValue o idx h' = (Ok (brk h), h')) ∧
  (∀ v, is_Some (cells h !! v) → v ∉ o :: cs →
     ∃ h', Array_linkValueBefore o (Some v) idx h = (Ok (Some v), h') ∧
           children (cells h') o (insert_at (scan_index idx) v cs) ∧
           (∀ x, x ∈ v :: cs → field content (cells h') x = field content (cells h) x) ∧
           (∀ x, x ∉ o :: v :: cs → cells h' !! x = cells h !! x) ∧
           Array_getValue o idx h' = (Ok v, h')).
Proof.
  intros Hch Hc. pose proof (lookup_lt_Some _ _ _ Hc) as Hlt. split.
  - intros d Hnew.
    destruct (Array_insert_run h o cs d Hch Hnew idx c Hc)
      as (h' & Hrun & Hch' & Hnewc & Hold & Hframe).
    exists h'. repeat (split; [done|]).
    rewrite (Array_getValue_at h' o _ idx Hch'). cbv zeta.
    fold (scan_index idx). by rewrite insert_at_lookup_eq by lia.
  - intros v Hv Hfresh.
    destruct (Array_linkValueBefore_run h o cs Hch v idx c Hc Hv Hfresh)
      as (h' & Hrun & Hch' & Hold & Hframe & _).
    exists h'. repeat (split; [done|]).
    rewrite (Array_getValue_at h' o _ idx Hch'). cbv zeta.
    fold (scan_index idx). by rewrite insert_at_lookup_eq by lia.
Qed.

Lemma Array_insert_by_position_witness :
  ∃ h', Array_insert 1%nat 1 PNull doc_123 = (Ok (brk doc_123), h') ∧
        children (cells h') 1%nat
          (insert_at (scan_index 1) (brk doc_123) [2%nat; 3%nat; 4%nat]) ∧
        field content (cells h') (brk doc_123) = Some (EmptyString, PNull, None, None, 0) ∧
        (∀ x, x ∈ [2%nat; 3%nat; 4%nat] →
              field content (cells h') x = field content (cells doc_123) x) ∧
        (∀ x, x ∉ [1%nat; brk doc_123; 2%nat; 3%nat; 4%nat] →
              cells h' !! x = cells doc_123 !! x) ∧
        Array_getValue 1%nat 1 h' = (Ok (brk doc_123), h').
Proof.
  assert (cells doc_123 !! brk doc_123 = None) as Hnew by (vm_compute; reflexivity).
  exact (proj1 (Array_insert_by_position doc_123 1%nat [2%nat; 3%nat; 4%nat] 1 3%nat
                  doc_123_children eq_refl) PNull Hnew).
Defined.

(** X11. Setting position [idx] of an array with more than [idx] children
    to a new value puts the new node in the place of the child at that
    position, which is destroyed with everything below it: the other
    children keep their place, name, value and own children, the count
    stays, and [getValue(idx)] returns the new node afterwards. *)
Theorem Array_set_by_position h o cs idx c t d :
  children (cells h) o cs →
  cs !! scan_index idx = Some c →
  descendants (cells h) c t →
  (∀ x, x ∈ addrs t → x ∉ o :: cs) →
  cells h !! brk h = None →
  ∃ h', Array_set o idx d h = (Ok (brk h), h') ∧
        children (cells h') o (<[scan_index idx := brk h]> cs) ∧
        field m_length (cells h') o = Some (Z.of_nat (length cs)) ∧
        field content (cells h') (brk h) = Some (EmptyString, d, None, None, 0) ∧
        (∀ j c', j ≠ scan_index idx → cs !! j = Some c' →
                 field content (cells h') c' = field content (cells h) c') ∧
        (∀ x, x ∈ c :: addrs t → cells h' !! x = None) ∧
        Array_getValue o idx h' = (Ok (brk h), h').
Proof.
  intros Hch Hc Hdesc Hdisj Hnew. pose proof (lookup_lt_Some _ _ _ Hc) as Hlt.
  destruct (Array_set_run h o cs d Hch Hnew idx c t Hc Hdesc Hdisj)
    as (h' & Hrun & Hch' & Hnewc & Hold & Hgone & _).
  exists h'. split; [done|]. split; [done|]. split.
  { rewrite (ch_length _ _ _ Hch'). by rewrite length_insert. }
  repeat (split; [done|]).
  rewrite (Array_getValue_at h' o _ idx Hch'). cbv zeta.
  fold (scan_index idx). by rewrite list_lookup_insert_eq.
Qed.

Lemma Array_set_by_position_witness :
  ∃ h', Array_set 1%nat 1 PNull doc_123 = (Ok (brk doc_123), h') ∧
        children (cells h') 1%nat (<[scan_index 1 := brk doc_123]> [2%nat; 3%nat; 4%nat]) ∧
        field m_length (cells h') 1%nat = Some (Z.of_nat (length [2%nat; 3%nat; 4%nat])) ∧
        field content (cells h') (brk doc_123) = Some (EmptyString, PNull, None, None, 0) ∧
        (∀ j c', j ≠ scan_index 1 → [2%nat; 3%nat; 4%nat] !! j = Some c' →
                 field content (cells h') c' = field content (cells doc_123) c') ∧
        (∀ x, x ∈ [3%nat] → cells h' !! x = None) ∧
        Array_getValue 1%nat 1 h' = (Ok (brk doc_123), h').
Proof.
  assert (cells doc_123 !! brk doc_123 = None) as Hnew by (vm_compute; reflexivity).
  refine (Array_set_by_position doc_123 1%nat [2%nat; 3%nat; 4%nat] 1 3%nat Leaf PNull
            doc_123_children eq_refl doc_123_second _ Hnew).
  intros x Hx. destruct (proj1 (elem_of_nil x) Hx).
Defined.

(** X12. Pushing a new value puts it behind the last child of the array:
    the old children keep their place, name, value and own children, the
    count goes up by one, and [getValue] at the old count returns the new
    node afterwards. *)
Theorem Array_push_appends h o cs d :
  children (cells h) o cs →
  cells h !! brk h = None →
  ∃ h', Array_push o d h = (Ok (brk h), h') ∧
        children (cells h') o (cs ++ [brk h]) ∧
        field m_length (cells h') o = Some (Z.of_nat (length cs) + 1) ∧
        field content (cells h') (brk h) = Some (EmptyString, d, None, None, 0) ∧
        (∀ x, x ∈ cs → field content (cells h') x = field content (cells h) x) ∧
        (∀ x, x ∉ o :: brk h :: cs → cells h' !! x = cells h !! x) ∧
        Array_getValue o (Z.of_nat (length cs)) h' = (Ok (brk h), h').
Proof.
  intros Hch Hnew.
  destruct (Array_push_run h o cs d Hch Hnew) as (h' & Hrun & Hch' & Hnewc & Hold & Hframe).
  exists h'. split; [done|]. split; [done|]. split.
  { rewrite (ch_length _ _ _ Hch'), length_app. simpl. f_equal. lia. }
  repeat (split; [done|]).
  rewrite (Array_getValue_at h' o _ _ Hch'). cbv zeta.
  rewrite Nat2Z.id, lookup_app_r, Nat.sub_diag by lia. done.
Qed.

Lemma Array_push_appends_witness :
  ∃ h', Array_push 1%nat PNull doc_123 = (Ok (brk doc_123), h') ∧
        children (cells h') 1%nat ([2%nat; 3%nat; 4%nat] ++ [brk doc_123]) ∧
        field m_length (cells h') 1%nat = Some (Z.of_nat (length [2%nat; 3%nat; 4%nat]) + 1) ∧
        field content (cells h') (brk doc_123) = Some (EmptyString, PNull, None, None, 0) ∧
        (∀ x, x ∈ [2%nat; 3%nat; 4%nat] →
              field content (cells h') x = field content (cells doc_123) x) ∧
        (∀ x, x ∉ [1%nat; brk doc_123; 2%nat; 3%nat; 4%nat] →
              cells h' !! x = cells doc_123 !! x) ∧
        Array_getValue 1%nat (Z.of_nat (length [2%nat; 3%nat; 4%nat])) h'
        = (Ok (brk doc_123), h').
Proof.
  assert (cells doc_123 !! brk doc_123 = None) as Hnew by (vm_compute; reflexivity).
  exact (Array_push_appends doc_123 1%nat [2%nat; 3%nat; 4%nat] PNull
           doc_123_children Hnew).
Defined.

(** ** The root after a parse *)

(** The node that a returning [parse_value] has linked first is the one
    that the text announces, under the name that was passed. *)
Lemma parse_value_announced fuel P name ptr h t p h' :
  rooted h P t → parse_value fuel P name ptr h = (Ok p, h') →
  ∃ d, announced ptr = Some d ∧
       field fixed (cells h') (brk h) = Some (name, d, Some P, last (sibs t)).
Proof.
  intros Hr Hrun. destruct fuel as [|f]; [discriminate|].
  cbn [parse_value] in Hrun. unfold announced. cbv zeta.
  ok_inv Hrun.
  all: repeat match goal with
              | H : _ = true |- _ => rewrite H
              | H : _ = false |- _ => rewrite H
              | H : parse_string _ = Ok _ |- _ => rewrite H
              | H : parse_number _ = Ok _ |- _ => rewrite H
              end.
  all: pose proof (link_new_inv _ _ _ _ _ _ _ _ Hr Hrun) as (h1 & Hk & Hr1 & Hf & Hr0 & Hv);
    clear Hrun; cbv beta in Hk; ok_inv Hk.
  all: try (apply lift_Ok_inv in Hk as [_ ->]; eexists; by split).
  all: try (injection Hk as _ <-; eexists; by split).
  all: apply bind_Ok_inv in Hk as (q & h2 & Hloop & Hk);
    apply lift_Ok_inv in Hk as [_ ->];
    first [ destruct (proj1 (proj2 (parse_rooted f)) _ _ _ _ _ _ Hr0 Hloop) as (s2 & _ & Hf2)
          | destruct (proj2 (proj2 (parse_rooted f)) _ _ _ _ _ _ Hr0 Hloop) as (s2 & _ & Hf2) ];
    eexists; (split; [reflexivity|]);
    destruct Hf2 as (_ & _ & _ & Hfix & _); rewrite Hfix; [done|];
    eapply rooted_live; [exact Hr0|by left].
Qed.

(** Which texts announce an array, and which an object. *)
Lemma announced_container ptr d :
  announced ptr = Some d →
  (Ascii.eqb (peek (whitespace ptr)) "[" = true ↔ d = PArray) ∧
  (Ascii.eqb (peek (whitespace ptr)) "{" = true ↔ d = PObject).
Proof.
  unfold announced. cbv zeta.
  destruct (Ascii.eqb (peek (whitespace ptr)) "{") eqn:Ho.
  { apply Ascii.eqb_eq in Ho. rewrite Ho. intros [= <-]. by split. }
  destruct (Ascii.eqb (peek (whitespace ptr)) "[") eqn:Ha.
  { intros [= <-]. by split. }
  intros Hd. assert (d ≠ PArray ∧ d ≠ PObject) as [H1 H2].
  { repeat match type of Hd with
           | (if ?c then _ else _) = _ => destruct c
           | match ?o with _ => _ end = _ => destruct o as [[? ?]| | |]
           end; try discriminate; injection Hd as <-; by split. }
  split; split; intros H; done.
Qed.

(** X13. After a text has parsed into a new root, the root's first child
    is the value that the text announces: the node at address [1], with the
    root as its parent and no name, of the kind that the first character
    after white space decides, and with the characters or the number that
    [parse_string] or [parse_number] read there.  So [getArray()] returns it
    exactly when the text starts, after white space, with an opening square
    bracket, and [getObject()] exactly when it starts with an opening brace;
    otherwise they throw [JsonError("value is not an array")], respectively
    [... an object], as they do on a root that holds nothing.  The tree is
    left as it was. *)
Theorem Root_getters_after_parse json h :
  document json = (Ok tt, h) →
  ∃ v, cells h !! 1%nat = Some v ∧ m_parent v = Some 0%nat ∧
       m_name v = EmptyString ∧
       announced json = Some (m_data v) ∧
       firstChild 0%nat h = (Ok (Some 1%nat), h) ∧
       Root_getArray 0%nat h
       = (if Ascii.eqb (peek (whitespace json)) "["
          then Ok 1%nat else Throw (JsonError "value is not an array"), h) ∧
       Root_getObject 0%nat h
       = (if Ascii.eqb (peek (whitespace json)) "{"
          then Ok 1%nat else Throw (JsonError "value is not an object"), h) ∧
       fst ((r ← new_Root; Root_getArray r) empty_heap)
       = Throw (JsonError "value is not an array") ∧
       fst ((r ← new_Root; Root_getObject r) empty_heap)
       = Throw (JsonError "value is not an object").
Proof.
  intros Hrun. destruct (document_rooted json h Hrun) as (s & (Hch & _) & _).
  destruct (proj1 (field_Some _ _ _ _) (ch_first _ _ _ Hch)) as (r & Hr & Hfirst).
  rewrite document_unfold in Hrun.
  apply bind_Ok_inv in Hrun as (p & h1 & Hval & [= <-]).
  destruct (parse_value_announced _ _ _ _ _ _ _ _ root_heap_rooted Hval)
    as (d & Hd & Hfix).
  change (brk root_heap) with 1%nat in Hfix.
  apply field_Some in Hfix as (v & Hv & Hfv). unfold fixed in Hfv.
  injection Hfv as Hname Hdata Hparent _.
  destruct (announced_container json d Hd) as [Harr Hobj].
  simpl in Hfirst. exists v. rewrite Hdata.
  split; [done|]. split; [done|]. split; [done|]. split; [done|].
  unfold firstChild, Root_getArray, Root_getObject.
  rewrite !(bind_Ok _ _ _ _ _ (load_Some _ _ _ Hr)), Hfirst.
  rewrite !(bind_Ok _ _ _ _ _ (load_Some _ _ _ Hv)).
  split; [done|]. unfold getType, toArray, toObject.
  split; [|split; [|done]].
  - destruct (Ascii.eqb (peek (whitespace json)) "[") eqn:Hc.
    + rewrite Hdata, (proj1 Harr eq_refl).
      by rewrite (bind_Ok _ _ _ _ _ (load_Some _ _ _ Hv)), Hdata, (proj1 Harr eq_refl).
    + rewrite Hdata. destruct d; try done. discriminate (proj2 Harr eq_refl).
  - destruct (Ascii.eqb (peek (whitespace json)) "{") eqn:Hc.
    + rewrite Hdata, (proj1 Hobj eq_refl).
      by rewrite (bind_Ok _ _ _ _ _ (load_Some _ _ _ Hv)), Hdata, (proj1 Hobj eq_refl).
    + rewrite Hdata. destruct d; try done. discriminate (proj2 Hobj eq_refl).
Qed.

Lemma Root_getters_after_parse_witness :
  ∃ v, cells two_arrays !! 1%nat = Some v ∧ m_parent v = Some 0%nat ∧
       m_name v = EmptyString ∧
       announced "[[1],[2]]" = Some (m_data v) ∧
       firstChild 0%nat two_arrays = (Ok (Some 1%nat), two_arrays) ∧
       Root_getArray 0%nat two_arrays
       = (if Ascii.eqb (peek (whitespace "[[1],[2]]")) "["
          then Ok 1%nat else Throw (JsonError "value is not an array"), two_arrays) ∧
       Root_getObject 0%nat two_arrays
       = (if Ascii.eqb (peek (whitespace "[[1],[2]]")) "{"
          then Ok 1%nat else Throw (JsonError "value is not an object"), two_arrays) ∧
       fst ((r ← new_Root; Root_getArray r) empty_heap)
       = Throw (JsonError "value is not an array") ∧
       fst ((r ← new_Root; Root_getObject r) empty_heap)
       = Throw (JsonError "value is not an object").
Proof.
  apply (Root_getters_after_parse "[[1],[2]]"). vm_compute. reflexivity.
Defined.

(** ** The end of the descent *)

(** X14. The descent through a text ends: with a budget of twice the
    length of the text plus one, which is what [Root::parse] is given, the
    parse of a value returns, throws or leaves defined behaviour, and a
    cursor it returns is not behind the one it started from; so no parse
    into a new root exhausts its budget. *)
Theorem parse_ends_within_budget fuel parent name ptr h :
  (2 * String.length ptr + 1 ≤ fuel)%nat →
  ends (fst (parse_value fuel parent name ptr h)) (not_behind ptr) ∧
  fst (document ptr) ≠ OutOfFuel.
Proof.
  intros Hfuel. split; [|apply document_within_budget].
  by apply (proj1 (parse_within_budget fuel)).
Qed.

Lemma parse_ends_within_budget_witness :
  ends (fst (parse_value 19 0%nat EmptyString "[[1],[2]]" root_heap))
    (not_behind "[[1],[2]]") ∧
  fst (document "[[1],[2]]") ≠ OutOfFuel.
Proof. apply parse_ends_within_budget. vm_compute. lia. Defined.

(** ** Strings at the end of the text *)

Lemma app_cons_s x (a b : string) : String x a +:+ b = String x (a +:+ b).
Proof. reflexivity. Qed.

Lemma app_nil_s (b : string) : EmptyString +:+ b = b.
Proof. reflexivity. Qed.

Lemma app_String (a : string) c b : a +:+ String c b = (a +:+ String c EmptyString) +:+ b.
Proof.
  induction a as [|x a IH]; [done|]. rewrite !app_cons_s. by rewrite IH.
Qed.

Lemma app_assoc_s (a b c : string) : (a +:+ b) +:+ c = a +:+ (b +:+ c).
Proof. induction a as [|x a IH]; [done|]. rewrite !app_cons_s. by rewrite IH. Qed.

Lemma app_empty_r (a : string) : a +:+ EmptyString = a.
Proof. induction a as [|x a IH]; [done|]. rewrite app_cons_s. by rewrite IH. Qed.

Lemma length_app_s (a b : string) :
  String.length (a +:+ b) = (String.length a + String.length b)%nat.
Proof. induction a as [|x a IH]; [done|]. rewrite app_cons_s. simpl. by rewrite IH. Qed.

Lemma substring_app_l (a b : string) : substring 0 (String.length a) (a +:+ b) = a.
Proof.
  induction a as [|x a IH]; [by destruct b|]. rewrite app_cons_s. simpl. by rewrite IH.
Qed.

(** The bytes between the start of the pending run and the cursor. *)
Lemma flush_pending (value pending ptr : string) :
  flush value (pending +:+ ptr) ptr = value +:+ pending.
Proof.
  unfold flush, cursor_neq, run. rewrite length_app_s.
  destruct pending as [|c p].
  - rewrite app_nil_s. simpl. rewrite Nat.eqb_refl. simpl. by rewrite app_empty_r.
  - replace (String.length ptr =? String.length (String c p) + String.length ptr)%nat
      with false by (symmetry; apply Nat.eqb_neq; simpl; lia).
    cbn [negb]. f_equal.
    replace (String.length (String c p) + String.length ptr - String.length ptr)%nat
      with (String.length (String c p)) by lia.
    apply substring_app_l.
Qed.

Lemma unquoted_head c s :
  unquoted (String c s) = true →
  Ascii.eqb c dquote = false ∧ Ascii.eqb c "\" = false ∧ unquoted s = true.
Proof.
  simpl. intros [[Hq Hb]%andb_prop Hs]%andb_prop.
  by rewrite (proj1 (negb_true_iff _) Hq), (proj1 (negb_true_iff _) Hb).
Qed.

Lemma c_str_head c s :
  c_str (String c s) = String c s → Ascii.eqb c Ascii.zero = false ∧ c_str s = s.
Proof. simpl. destruct (Ascii.eqb c Ascii.zero); [done|]. by intros [= ->]. Qed.

(** The loop over characters that are copied, up to what follows them. *)
Lemma parse_string_loop_copy s :
  ∀ fuel value pending tail,
    unquoted s = true → c_str s = s → (String.length s ≤ fuel)%nat →
    parse_string_loop (fuel + String.length tail) value (pending +:+ s +:+ tail) (s +:+ tail)
    = parse_string_loop (fuel - String.length s + String.length tail) value
        ((pending +:+ s) +:+ tail) tail.
Proof.
  induction s as [|c s IH]; intros fuel value pending tail Hun Hc Hfuel.
  - rewrite !app_nil_s, app_empty_r. simpl. by rewrite Nat.sub_0_r.
  - apply unquoted_head in Hun as (Hq & Hb & Hun). apply c_str_head in Hc as (Hz & Hc).
    destruct fuel as [|f]; [simpl in Hfuel; lia|].
    change (S f + String.length tail)%nat with (S (f + String.length tail)).
    rewrite (app_cons_s c s tail).
    cbn [parse_string_loop]. change (peek (String c (s +:+ tail))) with c.
    rewrite Hq, Hz, Hb. cbn [negb andb].
    change (skip (String c (s +:+ tail)) 1) with (Ok (A := string) (s +:+ tail)).
    change (Ok (s +:+ tail) ≫= ?k) with (k (s +:+ tail)). cbv beta.
    rewrite (app_String pending c (s +:+ tail)).
    rewrite (IH f value (pending +:+ String c EmptyString) tail Hun Hc) by (simpl in Hfuel; lia).
    rewrite (app_String pending c s). reflexivity.
Qed.

Lemma parse_string_loop_end value start :
  ∀ fuel, parse_string_loop fuel value start EmptyString
          = Ok (flush value start EmptyString, EmptyString).
Proof. by intros [|f]. Qed.

Lemma unquoted_peek s : unquoted s = true → Ascii.eqb (peek s) dquote = false.
Proof. destruct s as [|c s]; [done|]. by intros (Hq & _)%unquoted_head. Qed.

(** The dispatch of [parse_value] on a double quote. *)
Lemma parse_value_string fuel parent name ptr h s q :
  peek (whitespace ptr) = dquote →
  parse_string (whitespace ptr) = Ok (s, q) →
  parse_value (S fuel) parent name ptr h
  = (v ← alloc (new_Value name (PString s)); insertValueInt parent v;; mret q) h.
Proof.
  intros Hpeek Hparse. cbn [parse_value]. cbv zeta. rewrite Hpeek, Hparse.
  reflexivity.
Qed.

(** X15. [parse_string] at the end of the text.  Its first character is
    skipped unseen; when the characters after it hold no double quote, no
    backslash and no NUL, they are returned as the string although no
    closing quote follows, with the cursor on the terminator, so that the
    text of an opening quote and such characters parses into a String;
    when a single backslash follows them, or when the cursor is on the
    terminator already, the cursor is moved beyond the terminator. *)
Theorem parse_string_at_end_of_text c s :
  unquoted s = true → c_str s = s →
  parse_string (String c s) = Ok (s, EmptyString) ∧
  document (String dquote s) = (Ok tt, opened (PString s)) ∧
  parse_string (String c (s +:+ "\")) = Undefined ReadPastEnd ∧
  parse_string EmptyString = Undefined ReadPastEnd.
Proof.
  intros Hun Hc.
  assert (∀ c, parse_string (String c s) = Ok (s, EmptyString)) as Hs.
  { intros c'. unfold parse_string.
    change (skip (String c' s) 1) with (Ok (A := string) s).
    change (Ok s ≫= ?k) with (k s). cbv beta. rewrite (unquoted_peek s Hun).
    pose proof (parse_string_loop_copy s (String.length s) EmptyString EmptyString
                  EmptyString Hun Hc ltac:(lia)) as Hloop.
    rewrite !app_nil_s, !app_empty_r in Hloop. simpl in Hloop.
    rewrite Nat.add_0_r in Hloop. rewrite Hloop, parse_string_loop_end.
    pose proof (flush_pending EmptyString s EmptyString) as Hf.
    rewrite app_empty_r, app_nil_s in Hf. by rewrite Hf. }
  split; [apply Hs|]. split; [|split; [|reflexivity]].
  - rewrite document_unfold.
    erewrite bind_Ok; [reflexivity|].
    rewrite (parse_value_string _ 0%nat EmptyString (String dquote s) root_heap s
               EmptyString); [reflexivity|reflexivity|].
    change (whitespace (String dquote s)) with (String dquote s). apply Hs.
  - unfold parse_string.
    change (skip (String c (s +:+ "\")) 1) with (Ok (A := string) (s +:+ "\")).
    change (Ok (s +:+ "\") ≫= ?k) with (k (s +:+ "\")). cbv beta.
    assert (Ascii.eqb (peek (s +:+ "\")) dquote = false) as ->.
    { destruct s as [|c' s']; [reflexivity|]. by apply unquoted_head in Hun as (Hq & _). }
    pose proof (parse_string_loop_copy s (String.length s) EmptyString EmptyString
                  "\" Hun Hc ltac:(lia)) as Hloop.
    rewrite !app_nil_s in Hloop. rewrite length_app_s, Hloop.
    rewrite Nat.sub_diag. simpl.
    pose proof (flush_pending EmptyString s "\") as Hf. rewrite app_nil_s in Hf.
    reflexivity.
Qed.

Lemma parse_string_at_end_of_text_witness :
  parse_string (String "x" "abc") = Ok ("abc", EmptyString) ∧
  document (String dquote "abc") = (Ok tt, opened (PString "abc")) ∧
  parse_string (String "x" ("abc" +:+ "\")) = Undefined ReadPastEnd ∧
  parse_string EmptyString = Undefined ReadPastEnd.
Proof. apply parse_string_at_end_of_text; reflexivity. Defined.

(** ** Escaping and reading back *)

Lemma printEscaped_loop_run ptr :
  ∀ out pending,
    printEscaped_loop out (pending +:+ ptr) ptr = out +:+ pending +:+ escaped ptr.
Proof.
  induction ptr as [|c rest IH]; intros out pending.
  - cbn [printEscaped_loop escaped]. by rewrite flush_pending, app_empty_r.
  - cbn [printEscaped_loop escaped]. fold (copied c).
    destruct (Ascii.eqb c Ascii.zero); [by rewrite flush_pending, app_empty_r|].
    destruct (copied c).
    + rewrite (app_String pending c rest), IH.
      by rewrite (app_String pending c (escaped rest)).
    + rewrite flush_pending. rewrite (IH _ EmptyString).
      by rewrite app_nil_s, !app_assoc_s.
Qed.

(** What [printEscapedString] writes for a character that it does not
    copy is read back by the escape switch of [parse_string] as that
    character. *)
Lemma parse_escape_of c tail :
  Ascii.eqb c Ascii.zero = false → copied c = false →
  ∃ e, escape_of c = String "\" e ∧
       parse_escape (e +:+ tail) = Ok (String c EmptyString, tail).
Proof.
  intros Hz Hcop.
  destruct c as [[] [] [] [] [] [] [] []];
    first [ discriminate Hz
          | (vm_compute in Hcop; discriminate Hcop)
          | (eexists; split; [vm_compute; reflexivity|vm_compute; reflexivity]) ].
Qed.

Lemma copied_head c : copied c = true →
  Ascii.eqb c dquote = false ∧ Ascii.eqb c "\" = false.
Proof.
  unfold copied. intros [[_ Hq]%andb_prop Hb]%andb_prop.
  by rewrite (proj1 (negb_true_iff _) Hq), (proj1 (negb_true_iff _) Hb).
Qed.

Lemma parse_string_loop_escaped s rest :
  ∀ fuel value pending,
    (String.length (escaped s) ≤ fuel)%nat →
    parse_string_loop fuel value (pending +:+ escaped s +:+ String dquote rest)
      (escaped s +:+ String dquote rest)
    = Ok (value +:+ pending +:+ c_str s, rest).
Proof.
  assert (∀ fuel value pending,
            parse_string_loop fuel value (pending +:+ String dquote rest)
              (String dquote rest) = Ok (value +:+ pending, rest)) as Hend.
  { intros fuel value pending.
    destruct fuel; cbn [parse_string_loop]; change (peek (String dquote rest)) with dquote;
      rewrite Ascii.eqb_refl; cbn [negb andb]; by rewrite flush_pending. }
  induction s as [|c s IH]; intros fuel value pending Hfuel.
  - cbn [escaped c_str]. rewrite app_nil_s, app_empty_r. apply Hend.
  - cbn [escaped c_str] in *. destruct (Ascii.eqb c Ascii.zero) eqn:Hz.
    { rewrite app_nil_s, app_empty_r. apply Hend. }
    destruct (copied c) eqn:Hcop.
    + destruct (copied_head c Hcop) as [Hq Hb].
      destruct fuel as [|f]; [simpl in Hfuel; lia|].
      rewrite (app_cons_s c (escaped s)).
      cbn [parse_string_loop]. change (peek (String c ?t)) with c.
      rewrite Hq, Hz, Hb. cbn [negb andb].
      change (skip (String c ?t) 1) with (Ok (A := string) t).
      change (Ok ?t ≫= ?k) with (k t). cbv beta.
      rewrite (app_String pending c).
      rewrite (IH f value (pending +:+ String c EmptyString)) by (simpl in Hfuel; lia).
      by rewrite (app_String pending c (c_str s)).
    + destruct (parse_escape_of c (escaped s +:+ String dquote rest) Hz Hcop)
        as (e & He & Hesc).
      rewrite He in *. rewrite !app_cons_s in *.
      destruct fuel as [|f]; [simpl in Hfuel; lia|].
      cbn [parse_string_loop]. change (peek (String "\" ?t)) with "\"%char.
      cbn [Ascii.eqb Bool.eqb negb andb].
      rewrite flush_pending.
      change (skip (String "\" ?t) 1) with (Ok (A := string) t).
      change (Ok ?t ≫= ?k) with (k t). cbv beta.
      rewrite app_assoc_s, Hesc.
      change (Ok (?b, ?t) ≫= ?k) with (k (b, t)). cbv beta iota.
      rewrite (IH f _ EmptyString).
      * by rewrite app_nil_s, !app_assoc_s.
      * simpl in Hfuel. rewrite length_app_s in Hfuel. lia.
Qed.

Lemma escaped_peek s rest :
  c_str s ≠ EmptyString →
  Ascii.eqb (peek (escaped s +:+ String dquote rest)) dquote = false.
Proof.
  destruct s as [|c s]; [done|]. cbn [escaped c_str].
  destruct (Ascii.eqb c Ascii.zero) eqn:Hz; [done|]. intros _.
  destruct (copied c) eqn:Hcop.
  - rewrite app_cons_s. by destruct (copied_head c Hcop).
  - destruct (parse_escape_of c EmptyString Hz Hcop) as (e & -> & _).
    by rewrite app_cons_s.
Qed.

Lemma escaped_empty s : c_str s = EmptyString → escaped s = EmptyString.
Proof.
  destruct s as [|c s]; [done|]. cbn [escaped c_str].
  by destruct (Ascii.eqb c Ascii.zero).
Qed.

Lemma parse_string_quoted s rest :
  parse_string (String dquote (escaped s +:+ String dquote EmptyString) +:+ rest)
  = Ok (c_str s, rest).
Proof.
  rewrite app_cons_s, app_assoc_s, app_cons_s, app_nil_s.
  unfold parse_string.
  change (skip (String dquote ?t) 1) with (Ok (A := string) t).
  change (Ok ?t ≫= ?k) with (k t). cbv beta.
  destruct (decide (c_str s = EmptyString)) as [He|Hne].
  - rewrite He, (escaped_empty s He), app_nil_s.
    change (peek (String dquote rest)) with dquote. by rewrite Ascii.eqb_refl.
  - rewrite (escaped_peek s rest Hne).
    pose proof (parse_string_loop_escaped s rest
                  (String.length (escaped s +:+ String dquote rest))
                  EmptyString EmptyString) as Hloop.
    rewrite !app_nil_s in Hloop. apply Hloop. rewrite length_app_s. lia.
Qed.

Lemma printEscapedString_run out s :
  printEscapedString out s
  = out +:+ String dquote (escaped s +:+ String dquote EmptyString).
Proof.
  unfold printEscapedString.
  pose proof (printEscaped_loop_run s (out +:+ String dquote EmptyString) EmptyString)
    as Hrun.
  rewrite !app_nil_s in Hrun. rewrite Hrun, !app_assoc_s. reflexivity.
Qed.

(** X16. What [Printer::printEscapedString] writes for a string is read
    back by [parse_string] as that string: for every string [s], stream
    content [out] and text [rest] that follows, the printer appends a text
    to the stream that [parse_string] reads as the characters of [s] (up to
    its first NUL, where the printer stops), with the cursor on [rest]. *)
Theorem printed_string_reads_back out s rest :
  ∃ text, printEscapedString out s = out +:+ text ∧
          parse_string (text +:+ rest) = Ok (c_str s, rest).
Proof.
  exists (String dquote (escaped s +:+ String dquote EmptyString)).
  split; [apply printEscapedString_run|apply parse_string_quoted].
Qed.

(** ** What the printer writes *)





Lemma set_depth_put d s p : set_depth d (put s p) = put s (set_depth d p).
Proof. reflexivity. Qed.

Lemma set_depth_twice d d' p : set_depth d (set_depth d' p) = set_depth d p.
Proof. reflexivity. Qed.

Lemma set_depth_same p : set_depth (m_depth p) p = p.
Proof. by destruct p. Qed.

Lemma standard_put s p : standard (put s p) ↔ standard p.
Proof. done. Qed.

Lemma standard_set_depth d p : standard (set_depth d p) ↔ standard p.
Proof. done. Qed.




Section printing.
Context (show_double : float → string).

Section node.
Context (h : heap) (a : addr) (v : Value) (parent : addr) (vo : Value) (p : Printer).
Hypothesis Hv : cells h !! a = Some v.
Hypothesis Hparent : m_parent v = Some parent.
Hypothesis Hvo : cells h !! parent = Some vo.
Hypothesis Hstd : standard p.





End node.
End printing.













Section traversal.
Context (show_double : float → string) (ok : float → Prop).



End traversal.

(** ** White space *)








(** ** The trees of a shape *)

Lemma forest_snoc m t a s :
  forest m (snoc t a s) = (forest m t ++ forest m (Nd a s Leaf))%list.
Proof.
  induction t as [|b below _ after IH]; [done|]. cbn [snoc forest].
  destruct (m !! b); by rewrite IH.
Qed.

Lemma forest_fixed (m m' : gmap addr Value) t :
  (∀ x, x ∈ addrs t → field fixed m' x = field fixed m x) → forest m' t = forest m t.
Proof.
  induction t as [|a below IHb after IHa]; [done|]. intros Hsame. cbn [forest].
  rewrite IHb, IHa.
  - specialize (Hsame a ltac:(by left)). unfold field, fixed in Hsame.
    destruct (m' !! a) as [v'|], (m !! a) as [v|];
      cbn [fmap option_fmap option_map] in Hsame; [|done..].
    injection Hsame as Hn Hd _ _. by rewrite Hn, Hd.
  - intros x Hx. apply Hsame. right. apply elem_of_app. by right.
  - intros x Hx. apply Hsame. right. apply elem_of_app. by left.
Qed.


(** ** New leaves *)


(** ** The dispatch of [parse_value] *)









(** ** The loops over members and elements *)






Section reading.
Context (show_double : float → string) (m : gmap addr Value) (format : bool).

Lemma string_app_cons c (a : string) : String c EmptyString +:+ a = String c a.
Proof. reflexivity. Qed.










End reading.

(** ** Printing and reading back *)

Section round_trip.
Context (show_double : float → string).




End round_trip.






(** ** Linking a subtree *)

Lemma link_built h0 h1 P sh s :
  rooted h0 P sh → built h0 h1 s →
  ∃ h2, insertValueInt P (brk h0) h1 = (Ok tt, h2) ∧ brk h2 = brk h1 ∧
        rooted h2 P (snoc sh (brk h0) s) ∧
        (∀ x, (x < P)%nat → cells h2 !! x = cells h1 !! x) ∧
        (∀ x, x ≠ brk h0 → field fixed (cells h2) x = field fixed (cells h1) x) ∧
        field content (cells h2) (brk h0) = field content (cells h1) (brk h0) ∧
        field m_next (cells h2) P = field m_next (cells h1) P.
Proof.
  intros Hr (Hr1 & Hsame & Hlinks).
  pose proof Hr as ((Hch & Hs & Hnd) & Hlive & Hlow & Hall).
  pose proof Hr1 as ((Hch1 & Hs1 & Hnd1) & Hlive1 & Hlow1 & Hall1).
  set (v := brk h0) in *. set (m1 := cells h1).
  assert (∀ x, x ∈ P :: addrs sh → (x < v)%nat) as Hold.
  { intros x Hx. apply Hlive. by eapply rooted_live. }
  assert (P < v)%nat as HPv by (apply Hold; by left).
  assert (children m1 P (sibs sh)) as Hch0.
  { apply (children_frame (cells h0)); [|done].
    intros x Hx. apply Hsame. apply Hold.
    apply elem_of_cons in Hx as [->|Hx]; [by left|right; by apply sibs_addrs]. }
  assert (is_Some (m1 !! v)) as Hv by (by eapply children_parent_live).
  assert (v ∉ P :: sibs sh) as Hfresh.
  { intros [Hx|Hx]%elem_of_cons; [lia|].
    specialize (Hold v ltac:(right; by apply sibs_addrs)). lia. }
  assert (field m_prev m1 v = Some None ∧ field m_next m1 v = Some None) as [Hp0 Hn0].
  { revert Hlinks. unfold field, links. fold m1. destruct (m1 !! v) as [w|]; [|done].
    cbn. intros [= _ Hp Hn]. by rewrite Hp, Hn. }
  assert (∀ x, last (sibs sh) = Some x → (P < x)%nat ∧ (x < v)%nat) as Hlast.
  { intros x. rewrite last_lookup. intros Hl%list_elem_of_lookup_2%sibs_addrs.
    split; [by apply Hlow|apply Hold; by right]. }
  exists (mkHeap (append_map m1 P (sibs sh) v) (brk h1)).
  split; [by apply insertValueInt_run|]. split; [done|]. split; [|split; [|split; [|split]]].
  - split; [split; [|split]|split; [|split]]; cbn [cells brk].
    + rewrite sibs_snoc. by apply append_map_children.
    + apply sound_snoc. split; [|split].
      * apply (sound_ext (cells h0)); [| |done].
        -- intros x Hx. specialize (Hold x ltac:(by right)).
           assert (x ≠ P) by (intros ->; apply NoDup_cons in Hnd as [Hnd _]; done).
           transitivity (field body m1 x); [|unfold field; subst m1; by rewrite Hsame].
           apply field_content_body, append_content. done.
        -- intros x Hx. apply inner_addrs in Hx as Hx'.
           specialize (Hold x ltac:(by right)).
           unfold field. rewrite append_frame; [subst m1; by rewrite Hsame|..].
           ++ intros ->. apply NoDup_cons in Hnd as [Hnd _]. done.
           ++ lia.
           ++ rewrite last_lookup. intros Hl%list_elem_of_lookup_2.
              apply NoDup_cons in Hnd as [_ Hnd]. by apply (sibs_not_inner sh x Hnd).
      * apply (children_ext m1); [| |done].
        -- apply field_content_body, append_content. lia.
        -- intros c Hc. specialize (Hlow1 c (sibs_addrs _ _ Hc)).
           unfold field. rewrite append_frame; [done|lia..|].
           intros Hl. apply Hlast in Hl. lia.
      * apply (sound_agree m1); [|done]. intros x Hx. specialize (Hlow1 x Hx).
        apply append_frame; [lia..|]. intros Hl. apply Hlast in Hl. lia.
    + apply NoDup_cons. split.
      * rewrite addrs_snoc. intros [Hx|[Hx|Hx]].
        -- apply NoDup_cons in Hnd as [Hnd _]. done.
        -- lia.
        -- specialize (Hlow1 P Hx). lia.
      * apply NoDup_cons in Hnd as [_ Hnd]. apply NoDup_addrs_snoc; [done..|].
        intros x Hx [->|Hx']%elem_of_cons.
        -- specialize (Hold v ltac:(by right)). lia.
        -- specialize (Hold x ltac:(by right)). specialize (Hlow1 x Hx'). lia.
    + intros x Hx. apply append_live in Hx. by apply Hlive1.
    + intros x. rewrite addrs_snoc. intros [Hx|[->|Hx]].
      * by apply Hlow.
      * done.
      * specialize (Hlow1 x Hx). lia.
    + intros x Hx Hlt. apply append_live in Hx. apply addrs_snoc.
      destruct (lt_eq_lt_dec x v) as [[Hxv| ->]|Hxv].
      * left. apply Hall; [|done]. subst m1. by rewrite <- Hsame.
      * right. by left.
      * right. right. by apply Hall1.
  - intros x Hx. cbn [cells]. apply append_frame; [lia..|].
    intros Hl. apply Hlast in Hl. lia.
  - intros x Hx. cbn [cells]. by apply append_fixed.
  - cbn [cells]. apply append_content. lia.
  - cbn [cells]. rewrite (append_next m1 P (sibs sh) v Hch0 Hfresh P).
    + rewrite decide_False; [done|]. intros Hl. apply Hlast in Hl. lia.
    + by eapply children_parent_live.
Qed.

(** ** Naming a node *)

Lemma rename_children (m : gmap addr Value) a n o cs :
  children m o cs → children (alter (set_name n) a m) o cs.
Proof.
  intros Hch. apply (children_ext m); [| |done].
  - by apply field_alter_other.
  - intros c _. by apply field_alter_other.
Qed.

Lemma rename_sound (m : gmap addr Value) a n t :
  sound m t → sound (alter (set_name n) a m) t.
Proof.
  intros Hs. apply (sound_ext m); [| |done]; intros x _; by apply field_alter_other.
Qed.

Lemma rename_built h0 h1 s n :
  built h0 h1 s →
  built h0 (mkHeap (alter (set_name n) (brk h0) (cells h1)) (brk h1)) s.
Proof.
  intros (((Hch & Hs & Hnd) & Hlive & Hlow & Hall) & Hsame & Hlinks).
  split; [split; [split; [|split]|split; [|split]]|split]; cbn [cells brk].
  - by apply rename_children.
  - by apply rename_sound.
  - done.
  - intros x Hx. apply lookup_alter_is_Some in Hx. by apply Hlive.
  - done.
  - intros x Hx. apply lookup_alter_is_Some in Hx. by apply Hall.
  - intros x Hx. rewrite lookup_alter_ne by lia. by apply Hsame.
  - rewrite field_alter_other by done. done.
Qed.

(** ** The copy of a tree *)

Lemma printable_frame ok (m m' : gmap addr Value) t :
  (∀ x, x ∈ addrs t → m' !! x = m !! x) → printable ok m t → printable ok m' t.
Proof.
  induction t as [|a below IHb after IHa]; [done|]. intros Hsame (Hv & Hb & Ha).
  cbn [printable]. split; [|split].
  - rewrite Hsame by (by left). done.
  - apply IHb; [|done]. intros x Hx. apply Hsame. cbn [addrs]. set_solver.
  - apply IHa; [|done]. intros x Hx. apply Hsame. cbn [addrs]. set_solver.
Qed.

Lemma forest_same (m m' : gmap addr Value) t :
  (∀ x, x ∈ addrs t → m' !! x = m !! x) → forest m' t = forest m t.
Proof.
  intros Hsame. apply forest_fixed. intros x Hx. unfold field. by rewrite Hsame.
Qed.

Lemma clone_S f a :
  clone (S f) a
  = (v ← load a;
     match m_data v with
     | PObject =>
         copy ← alloc (new_Value EmptyString PObject);
         clone_children f true copy (m_firstChild v);;
         mret copy
     | PArray =>
         copy ← alloc (new_Value EmptyString PArray);
         clone_children f false copy (m_firstChild v);;
         mret copy
     | PRoot =>
         copy ← alloc (new_Value EmptyString PRoot);
         match m_firstChild v with
         | Some c => x ← clone f c; Root_linkValue copy (Some x);; mret copy
         | None => mret copy
         end
     | d => alloc (new_Value EmptyString d)
     end).
Proof. reflexivity. Qed.

Lemma clone_children_S f named copy c :
  clone_children (S f) named copy (Some c)
  = (x ← clone f c;
     (if named then vc ← load c; modify x (set_name (m_name vc)) else mret tt);;
     insertValueInt copy x;;
     vc ← load c;
     clone_children f named copy (m_next vc)).
Proof. reflexivity. Qed.

Lemma clone_children_None fuel named copy : clone_children fuel named copy None = mret tt.
Proof. by destruct fuel. Qed.

(** The state after [new] of a node without children is that of a built
    leaf. *)
Lemma built_new h d :
  (∀ x, is_Some (cells h !! x) → (x < brk h)%nat) →
  built h (made h (new_Value EmptyString d)) Leaf ∧
  field fixed (cells (made h (new_Value EmptyString d))) (brk h)
  = Some (EmptyString, d, None, None).
Proof.
  intros Hlive. set (h1 := made h (new_Value EmptyString d)).
  assert (cells h1 !! brk h = Some (new_Value EmptyString d)) as Hv
    by (subst h1; cbn; by rewrite lookup_insert_eq).
  assert (∀ x, x ≠ brk h → cells h1 !! x = cells h !! x) as Hother
    by (intros x Hx; subst h1; cbn; by rewrite lookup_insert_ne).
  split; [split; [|split]|].
  - apply (rooted_new h1 (brk h) (new_Value EmptyString d)); try done.
    intros x Hx. subst h1. cbn [made alloc snd brk].
    destruct (decide (x = brk h)) as [->|Hne]; [lia|].
    rewrite Hother in Hx by done. specialize (Hlive x Hx). lia.
  - intros x Hx. apply Hother. lia.
  - unfold field. by rewrite Hv.
  - unfold field. by rewrite Hv.
Qed.

Lemma clone_node below : loop_spec below → node_spec below.
Proof.
  intros IH fuel h a va Hfuel Hlive Ha Hshape ((w & Hw & Hkind) & Hpr & _).
  rewrite Ha in Hw. injection Hw as <-.
  destruct fuel as [|f]; [lia|]. rewrite clone_S.
  rewrite (bind_Ok _ _ _ _ _ (load_Some _ _ _ Ha)).
  assert (∀ x, x ∈ addrs below → (x < brk h)%nat) as Hold.
  { intros x Hx. apply Hlive. by eapply shape_live. }
  assert (∀ d named,
            m_data va = d → named = is_object d →
            ∃ h' s, (copy ← alloc (new_Value EmptyString d);
                     clone_children f named copy (m_firstChild va);; mret copy) h
                    = (Ok (brk h), h') ∧ built h h' s ∧
                    field fixed (cells h') (brk h) = Some (EmptyString, d, None, None) ∧
                    forest (cells h') s = map (recopy named) (forest (cells h) below))
    as Hcontainer.
  { intros d named Hd Hnamed.
    destruct (built_new h d Hlive) as ((Hr1 & Hsame1 & Hl1) & Hf1).
    set (h1 := made h (new_Value EmptyString d)) in *.
    destruct (IH f named h1 (brk h) Leaf (m_firstChild va)) as (h2 & sh' & Hrun & Hr2 & Hfr & Hforest).
    - lia.
    - done.
    - apply (shape_frame (cells h)); [|done]. intros x Hx. apply Hsame1. by apply Hold.
    - apply (printable_frame _ (cells h)); [|done]. intros x Hx. apply Hsame1. by apply Hold.
    - done.
    - exists h2, sh'.
      assert (is_Some (cells h1 !! brk h)) as Hlive1 by (eapply rooted_live; [done|by left]).
      destruct Hfr as (Hb & Hl2 & Hlow & Hfix & Hnext).
      split; [|split; [split; [|split]|split]].
      + change ((copy ← alloc (new_Value EmptyString d);
                 clone_children f named copy (m_firstChild va);; mret copy) h)
          with ((clone_children f named (brk h) (m_firstChild va);; mret (brk h)) h1).
        by rewrite (bind_Ok _ _ _ _ _ Hrun).
      + done.
      + intros x Hx. rewrite Hlow by done. by apply Hsame1.
      + rewrite <- Hl1. apply links_of_fixed; [by apply Hfix|done].
      + rewrite Hfix by done. done.
      + rewrite Hforest. cbn [forest app]. f_equal. apply forest_same.
        intros x Hx. apply Hsame1. by apply Hold. }
  assert (below = Leaf →
          ∃ h' s, alloc (new_Value EmptyString (m_data va)) h = (Ok (brk h), h') ∧
                  built h h' s ∧
                  field fixed (cells h') (brk h) = Some (EmptyString, m_data va, None, None) ∧
                  forest (cells h') s
                  = map (recopy (is_object (m_data va))) (forest (cells h) below))
    as Hleaf.
  { intros ->. destruct (built_new h (m_data va) Hlive) as (Hb1 & Hf1).
    exists (made h (new_Value EmptyString (m_data va))), Leaf. done. }
  destruct (m_data va) as [| | | | | |] eqn:Hd; try (by apply Hleaf);
    try (by apply Hleaf, Hkind); try done; by apply Hcontainer.
Qed.

Lemma clone_children_spec t : loop_spec t.
Proof.
  induction t as [|c b IHb after IHa];
    intros fuel named h1 P sh it Hfuel Hr Hshape Hpr Hbelow.
  - cbn in Hshape. subst it. rewrite clone_children_None.
    exists h1, sh. split; [done|]. split; [done|]. split.
    + apply frame_refl. by destruct Hr as (_ & Hl & _).
    + cbn [forest map]. by rewrite app_nil_r.
  - destruct Hshape as (-> & vc & Hc & Hsb & Hsa).
    pose proof Hpr as (Hkind & Hpb & Hpa).
    pose proof Hr as (_ & Hlive & _ & _).
    assert (is_Some (cells h1 !! P)) as HP by (eapply rooted_live; [done|by left]).
    assert (P < brk h1)%nat as HPb by (by apply Hlive).
    cbn [addrs length] in Hfuel. rewrite length_app in Hfuel.
    destruct fuel as [|f]; [lia|]. rewrite clone_children_S.
    destruct (clone_node b IHb f h1 c vc) as (h2 & s & Hclone & Hbuilt & Hfix2 & Hforest2);
      [lia|done|done|done|by split; [|split]|].
    rewrite (bind_Ok _ _ _ _ _ Hclone).
    set (v := brk h1) in *.
    assert (c < P)%nat as HcP by (apply Hbelow; by left).
    (* the name *)
    set (h2' := if named then mkHeap (alter (set_name (m_name vc)) v (cells h2)) (brk h2)
                else h2).
    assert ((if named then vc ← load c; modify v (set_name (m_name vc)) else mret tt) h2
            = (Ok tt, h2')) as Hname.
    { subst h2'. destruct named; [|done].
      destruct Hbuilt as (Hr2 & Hsame2 & _).
      rewrite (bind_Ok _ _ _ _ _ (load_Some h2 c vc ltac:(rewrite Hsame2 by lia; done))).
      apply modify_Some. eapply rooted_live; [done|by left]. }
    assert (built h1 h2' s) as Hbuilt'.
    { subst h2'. destruct named; [by apply rename_built|done]. }
    assert (field fixed (cells h2') v
            = Some (if named then m_name vc else EmptyString, m_data vc, None, None)) as Hfix2'.
    { subst h2'. destruct named; [|done]. cbn [cells].
      apply field_Some in Hfix2 as (w & Hw & Hfw). unfold field.
      rewrite lookup_alter_eq, Hw. cbn. unfold fixed in *. cbn. congruence. }
    assert (∀ x, x ≠ v → cells h2' !! x = cells h2 !! x) as Hsame2'.
    { intros x Hx. subst h2'. destruct named; [|done]. cbn [cells].
      by rewrite lookup_alter_ne. }
    rewrite (bind_Ok _ _ _ _ _ Hname).
    destruct (link_built h1 h2' P sh s Hr Hbuilt')
      as (h3 & Hlink & Hb3 & Hr3 & Hlow3 & Hfix3 & Hcont3 & Hnext3).
    fold v in Hlink, Hr3, Hfix3, Hcont3.
    rewrite (bind_Ok _ _ _ _ _ Hlink).
    destruct Hbuilt' as (Hr2 & Hsame2 & Hl2).
    assert (∀ x, (x < P)%nat → cells h3 !! x = cells h1 !! x) as Hold3.
    { intros x Hx. rewrite Hlow3 by done. apply Hsame2. lia. }
    rewrite (bind_Ok _ _ _ _ _ (load_Some h3 c vc ltac:(rewrite Hold3 by done; done))).
    assert (frame h1 h3 P) as Hfr13.
    { split; [|split; [|split; [|split]]].
      - rewrite Hb3. pose proof (rooted_live _ _ _ v Hr2 ltac:(by left)) as Hv2.
        destruct Hr2 as (_ & Hlive2 & _). specialize (Hlive2 v Hv2). subst v. lia.
      - by destruct Hr3 as (_ & Hl & _).
      - done.
      - intros x Hx. specialize (Hlive x Hx). rewrite Hfix3 by (subst v; lia).
        unfold field. rewrite Hsame2 by done. done.
      - rewrite Hnext3. unfold field. rewrite Hsame2 by done. done. }
    destruct (IHa f named h3 P (snoc sh v s) (m_next vc))
      as (h4 & sh' & Hrest & Hr4 & Hfr34 & Hforest4).
    + lia.
    + done.
    + apply (shape_frame (cells h1)); [|done]. intros x Hx. apply Hold3, Hbelow.
      cbn [addrs]. set_solver.
    + apply (printable_frame _ (cells h1)); [|done]. intros x Hx. apply Hold3, Hbelow.
      cbn [addrs]. set_solver.
    + intros x Hx. apply Hbelow. cbn [addrs]. set_solver.
    + exists h4, sh'. split; [done|]. split; [done|]. split.
      * by apply (frame_trans h1 h3 h4 P P).
      * rewrite Hforest4, forest_snoc.
        rewrite (forest_same (cells h1) (cells h3) after)
          by (intros x Hx; apply Hold3, Hbelow; cbn [addrs]; set_solver).
        rewrite (forest_fixed (cells h1) (cells h3) sh).
        2:{ intros x Hx. destruct Hfr13 as (_ & _ & _ & Hfix & _). apply Hfix.
            eapply rooted_live; [done|by right]. }
        rewrite <- app_assoc. f_equal.
        cbn [forest]. rewrite Hc.
        apply field_Some in Hfix2' as (w & Hw & Hfw).
        assert (∃ w3, cells h3 !! v = Some w3 ∧ content w3 = content w) as (w3 & Hw3 & Hcw).
        { revert Hcont3. unfold field. rewrite Hw.
          destruct (cells h3 !! v) as [w3|]; [|done]. cbn. intros Hcw. exists w3. split; [done|congruence]. }
        rewrite Hw3. unfold content in Hcw. unfold fixed in Hfw.
        injection Hcw as Hn3 Hd3 _ _ _. injection Hfw as Hn2 Hd2 _ _.
        cbn [map recopy app]. rewrite Hn3, Hd3, Hn2, Hd2. f_equal. f_equal.
        rewrite <- Hforest2.
        transitivity (forest (cells h2') s).
        -- apply forest_fixed. intros x Hx. apply Hfix3.
           destruct Hr2 as (_ & _ & Hlow2 & _). specialize (Hlow2 x Hx). lia.
        -- apply forest_same. intros x Hx. apply Hsame2'.
           destruct Hr2 as (_ & _ & Hlow2 & _). specialize (Hlow2 x Hx). lia.
Qed.

Lemma well_formed_shape m a below va :
  well_formed m a below → m !! a = Some va → shape_at m (m_firstChild va) below.
Proof.
  intros Hwf Ha. destruct (well_formed_descendants _ _ _ Hwf) as ((v & Hv & Hshape) & _).
  rewrite Ha in Hv. by injection Hv as <-.
Qed.

Lemma Value_clone_run h a below va :
  (∀ x, is_Some (cells h !! x) → (x < brk h)%nat) →
  well_formed (cells h) a below → cells h !! a = Some va →
  printable (λ _, True) (cells h) (Nd a below Leaf) →
  ∃ h' s, Value_clone a h = (Ok (brk h), h') ∧ built h h' s ∧
          field fixed (cells h') (brk h) = Some (EmptyString, m_data va, None, None) ∧
          forest (cells h') s
          = map (recopy (is_object (m_data va))) (forest (cells h) below).
Proof.
  intros Hlive Hwf Ha Hpr.
  assert (S (length (addrs below)) ≤ size (cells h))%nat as Hsize.
  { change (S (length (addrs below))) with (length (a :: addrs below)).
    destruct Hwf as (Hch & Hs & Hnd). apply live_length; [done|].
    intros x [->|Hx]%elem_of_cons; [eauto|by eapply sound_live]. }
  unfold Value_clone. erewrite bind_Ok by reflexivity.
  apply (clone_node below (clone_children_spec below) _ h a va);
    [lia|done|done|by eapply well_formed_shape|done].
Qed.

Lemma built_well_formed h h' s : built h h' s → well_formed (cells h') (brk h) s.
Proof. by intros ((Hwf & _) & _). Qed.

Lemma built_forest h h' s va name :
  built h h' s →
  field fixed (cells h') (brk h) = Some (name, m_data va, None, None) →
  ∀ kids, forest (cells h') s = kids →
          forest (cells h') (Nd (brk h) s Leaf) = [Node name (m_data va) kids].
Proof.
  intros _ Hfix kids <-. cbn [forest]. apply field_Some in Hfix as (w & -> & Hw).
  unfold fixed in Hw. injection Hw as -> -> _ _. done.
Qed.

(** X18. [clone] of a value makes a deep copy: a new tree of new nodes
    with the kinds, values and order of the original at every level, and,
    inside objects, the names; the copy itself has no name and hangs
    nowhere.  The original and every other node stay as they were, and the
    only new nodes are those of the copy. *)
Theorem clone_makes_deep_copy h a below :
  (∀ x, is_Some (cells h !! x) → (x < brk h)%nat) →
  well_formed (cells h) a below →
  printable (λ _, True) (cells h) (Nd a below Leaf) →
  ∃ h' s, Value_clone a h = (Ok (brk h), h') ∧
          well_formed (cells h') (brk h) s ∧
          forest (cells h') (Nd (brk h) s Leaf)
          = map (recopy false) (forest (cells h) (Nd a below Leaf)) ∧
          field links (cells h') (brk h) = Some (None, None, None) ∧
          (∀ x, (x < brk h)%nat → cells h' !! x = cells h !! x) ∧
          (∀ x, is_Some (cells h' !! x) → (brk h ≤ x)%nat → x ∈ brk h :: addrs s).
Proof.
  intros Hlive Hwf Hpr.
  destruct (children_parent_live (proj1 Hwf)) as [va Ha].
  destruct (Value_clone_run h a below va Hlive Hwf Ha Hpr)
    as (h' & s & Hrun & Hbuilt & Hfix & Hforest).
  exists h', s. split; [done|]. split; [by eapply built_well_formed|]. split; [|split; [|split]].
  - rewrite (built_forest h h' s va EmptyString Hbuilt Hfix _ Hforest).
    cbn [forest]. rewrite Ha. done.
  - by destruct Hbuilt as (_ & _ & Hl).
  - by destruct Hbuilt as (_ & Hsame & _).
  - intros x Hx Hle. destruct Hbuilt as ((_ & _ & _ & Hall) & _).
    destruct (decide (x = brk h)) as [->|Hne]; [by left|]. right. apply Hall; [done|lia].
Qed.

(** ** Storing a copy *)

Lemma kept_copy h h1 h2 s name d :
  built h h1 s → field fixed (cells h1) (brk h) = Some (EmptyString, d, None, None) →
  field content (cells h2) (brk h)
  = (λ w, (name, m_data w, m_firstChild w, m_lastChild w, m_length w)) <$> cells h1 !! brk h →
  (∀ x, x ∈ addrs s → cells h2 !! x = cells h1 !! x) →
  well_formed (cells h2) (brk h) s ∧
  (∀ kids, forest (cells h1) s = kids →
           forest (cells h2) (Nd (brk h) s Leaf) = [Node name d kids]).
Proof.
  intros (Hr & Hsame & Hl) Hfix Hcont Hnew.
  pose proof Hr as ((Hchv & Hs & Hnd) & Hlive1 & Hlow & Hall).
  apply field_Some in Hfix as (w & Hw & Hfw). rewrite Hw in Hcont. cbn in Hcont.
  apply field_Some in Hcont as (w2 & Hw2 & Hcw).
  unfold content in Hcw. injection Hcw as Hn Hd Hfc Hlc Hlen.
  unfold fixed in Hfw. injection Hfw as _ Hdw _ _.
  split; [split; [|split]|].
  - constructor.
    + rewrite <- (ch_first _ _ _ Hchv). unfold field. rewrite Hw2, Hw. cbn. by f_equal.
    + rewrite <- (ch_last _ _ _ Hchv). unfold field. rewrite Hw2, Hw. cbn. by f_equal.
    + rewrite <- (ch_length _ _ _ Hchv). unfold field. rewrite Hw2, Hw. cbn. by f_equal.
    + intros i c Hi. rewrite <- (ch_parent _ _ _ Hchv i c Hi). unfold field.
      rewrite Hnew; [done|]. apply sibs_addrs. by eapply list_elem_of_lookup_2.
    + intros i c Hi. rewrite <- (ch_prev _ _ _ Hchv i c Hi). unfold field.
      rewrite Hnew; [done|]. apply sibs_addrs. by eapply list_elem_of_lookup_2.
    + intros i c Hi. rewrite <- (ch_next _ _ _ Hchv i c Hi). unfold field.
      rewrite Hnew; [done|]. apply sibs_addrs. by eapply list_elem_of_lookup_2.
    + exact (ch_nodup _ _ _ Hchv).
  - by apply (sound_agree (cells h1)).
  - done.
  - intros kids <-. cbn [forest]. rewrite Hw2, Hn, Hd, Hdw.
    by rewrite (forest_same (cells h1) (cells h2) s Hnew).
Qed.

Lemma stored_copy h h1 h2 o cs s name d :
  (∀ x, is_Some (cells h !! x) → (x < brk h)%nat) →
  children (cells h) o cs →
  built h h1 s → field fixed (cells h1) (brk h) = Some (EmptyString, d, None, None) →
  field content (cells h2) (brk h)
  = (λ w, (name, m_data w, m_firstChild w, m_lastChild w, m_length w)) <$> cells h1 !! brk h →
  (∀ x, x ∉ o :: brk h :: cs → cells h2 !! x = cells h1 !! x) →
  well_formed (cells h2) (brk h) s ∧
  (∀ kids, forest (cells h1) s = kids →
           forest (cells h2) (Nd (brk h) s Leaf) = [Node name d kids]) ∧
  (∀ x, (x < brk h)%nat → x ∉ o :: cs → cells h2 !! x = cells h !! x).
Proof.
  intros Hlive Hch Hbuilt Hfix Hcont Hrest.
  pose proof Hbuilt as ((_ & _ & Hlow & _) & Hsame & _).
  assert (∀ x, x ∈ o :: cs → (x < brk h)%nat) as Hold.
  { intros x [->|Hx]%elem_of_cons; apply Hlive;
      [by eapply children_parent_live|by eapply children_live]. }
  assert (∀ x, x ∈ addrs s → cells h2 !! x = cells h1 !! x) as Hnew.
  { intros x Hx. apply Hrest. specialize (Hlow x Hx).
    intros [->|[->|Hin]%elem_of_cons]%elem_of_cons.
    - specialize (Hold o ltac:(by left)). lia.
    - lia.
    - specialize (Hold x ltac:(by right)). lia. }
  destruct (kept_copy h h1 h2 s name d Hbuilt Hfix Hcont Hnew) as (Hwf & Hforest).
  split; [done|]. split; [done|].
  intros x Hx Hin. rewrite Hrest; [by apply Hsame|].
  intros [->|[->|Hin']%elem_of_cons]%elem_of_cons; [apply Hin; by left|lia|].
  apply Hin. by right.
Qed.

(** The copy in the state after [clone], seen from a container [o] of the
    state before. *)
Lemma copy_to_link h h1 o cs s d :
  (∀ x, is_Some (cells h !! x) → (x < brk h)%nat) →
  children (cells h) o cs →
  built h h1 s → field fixed (cells h1) (brk h) = Some (EmptyString, d, None, None) →
  children (cells h1) o cs ∧
  (∀ {A} (g : Value → A) c, c ∈ o :: cs → field g (cells h1) c = field g (cells h) c) ∧
  is_Some (cells h1 !! brk h) ∧ (brk h ∉ o :: cs) ∧
  field m_prev (cells h1) (brk h) = Some None ∧
  field m_next (cells h1) (brk h) = Some None ∧
  field m_name (cells h1) (brk h) = Some EmptyString.
Proof.
  intros Hlive Hch (Hr & Hsame & Hl) Hfix.
  assert (∀ x, x ∈ o :: cs → (x < brk h)%nat) as Hold.
  { intros x [->|Hx]%elem_of_cons; apply Hlive;
      [by eapply children_parent_live|by eapply children_live]. }
  split; [|split; [|split; [|split; [|split; [|split]]]]].
  - apply (children_frame (cells h)); [|done]. intros x Hx. by apply Hsame, Hold.
  - intros A g c Hc. unfold field. by rewrite Hsame by (by apply Hold).
  - eapply rooted_live; [done|by left].
  - intros Hin. specialize (Hold _ Hin). lia.
  - revert Hl. unfold field, links. destruct (cells h1 !! brk h) as [w|]; [|done].
    cbn. intros [= _ Hp Hn]. by rewrite Hp.
  - revert Hl. unfold field, links. destruct (cells h1 !! brk h) as [w|]; [|done].
    cbn. intros [= _ Hp Hn]. by rewrite Hn.
  - revert Hfix. unfold field, fixed. destruct (cells h1 !! brk h) as [w|]; [|done].
    cbn. intros [= Hn _ _ _]. by rewrite Hn.
Qed.

Lemma named_content (m1 m2 : gmap addr Value) v name :
  field m_name m2 v = Some name → field body m2 v = field body m1 v →
  is_Some (m1 !! v) →
  field content m2 v
  = (λ w, (name, m_data w, m_firstChild w, m_lastChild w, m_length w)) <$> m1 !! v.
Proof.
  unfold field, body, content. intros Hn Hb [w Hw]. rewrite Hw in *.
  destruct (m2 !! v) as [w2|]; [|done]. cbn in *.
  injection Hn as Hn. injection Hb as Hd Hf Hl Hc. by rewrite Hn, Hd, Hf, Hl, Hc.
Qed.

Lemma Object_setValue_run h o cs name a below va :
  (∀ x, is_Some (cells h !! x) → (x < brk h)%nat) →
  children (cells h) o cs →
  (∀ c, c ∈ cs → field m_name (cells h) c ≠ Some name) →
  well_formed (cells h) a below → cells h !! a = Some va →
  printable (λ _, True) (cells h) (Nd a below Leaf) →
  ∃ h' s, Object_setValue o name a h = (Ok (brk h), h') ∧
          children (cells h') o (cs ++ [brk h]) ∧
          well_formed (cells h') (brk h) s ∧
          forest (cells h') (Nd (brk h) s Leaf)
          = [recopy true (Node name (m_data va) (forest (cells h) below))] ∧
          (∀ c, c ∈ cs → field content (cells h') c = field content (cells h) c) ∧
          (∀ x, (x < brk h)%nat → x ∉ o :: cs → cells h' !! x = cells h !! x).
Proof.
  intros Hlive Hch Habs Hwf Ha Hpr.
  destruct (Value_clone_run h a below va Hlive Hwf Ha Hpr)
    as (h1 & s & Hclone & Hbuilt & Hfix & Hforest).
  destruct (copy_to_link h h1 o cs s _ Hlive Hch Hbuilt Hfix)
    as (Hch1 & Hsame & Hv & Hfresh & Hp & Hn & _).
  destruct (Object_linkValue_append h1 o cs name (brk h) Hch1) as (h2 & Hlink & Happ);
    [|done..|].
  { intros c Hc. rewrite Hsame by (by right). by apply Habs. }
  destruct Happ as (Hch2 & Hname & Hbody & Hcont & Hrest & _).
  destruct (stored_copy h h1 h2 o cs s name _ Hlive Hch Hbuilt Hfix
              (named_content _ _ _ _ Hname Hbody Hv) Hrest) as (Hwf2 & Hf2 & Hold2).
  exists h2, s. split; [|split; [done|split; [done|split; [|split; [|done]]]]].
  - unfold Object_setValue, Object_linkValueSafe.
    rewrite (bind_Ok _ _ _ _ _ Hclone).
    erewrite (bind_Ok (guarded _ _ ≫= _)); [reflexivity|].
    erewrite (bind_Ok (guarded _ _)); [reflexivity|].
    apply guarded_Ok. exact Hlink.
  - rewrite (Hf2 _ Hforest). done.
  - intros c Hc. rewrite Hcont by done. apply Hsame. by right.
Qed.

Lemma Array_link_clone_run h o cs a below va pos w cs' h1 s h2 :
  (∀ x, is_Some (cells h !! x) → (x < brk h)%nat) →
  children (cells h) o cs →
  Value_clone a h = (Ok (brk h), h1) → built h h1 s →
  field fixed (cells h1) (brk h) = Some (EmptyString, m_data va, None, None) →
  forest (cells h1) s = map (recopy (is_object (m_data va))) (forest (cells h) below) →
  Array_linkValueInt o (Some (brk h)) pos w h1 = (Ok (Some (brk h)), h2) →
  children (cells h2) o cs' →
  (∀ x, x ∈ brk h :: cs → field content (cells h2) x = field content (cells h1) x) →
  (∀ x, x ∉ o :: brk h :: cs → cells h2 !! x = cells h1 !! x) →
  Array_link_clone o pos w a h = (Ok (brk h), h2) ∧
  children (cells h2) o cs' ∧
  well_formed (cells h2) (brk h) s ∧
  forest (cells h2) (Nd (brk h) s Leaf)
  = [recopy false (Node EmptyString (m_data va) (forest (cells h) below))] ∧
  (∀ c, c ∈ cs → field content (cells h2) c = field content (cells h) c) ∧
  (∀ x, (x < brk h)%nat → x ∉ o :: cs → cells h2 !! x = cells h !! x).
Proof.
  intros Hlive Hch Hclone Hbuilt Hfix Hforest Hlink Hch2 Hcont Hrest.
  destruct (copy_to_link h h1 o cs s _ Hlive Hch Hbuilt Hfix)
    as (Hch1 & Hsame & Hv & Hfresh & Hp & Hn & Hname).
  assert (field content (cells h2) (brk h)
          = (λ w, (EmptyString, m_data w, m_firstChild w, m_lastChild w, m_length w))
              <$> cells h1 !! brk h) as Hcv.
  { rewrite (Hcont (brk h)) by (by left). revert Hname. unfold field, content.
    destruct (cells h1 !! brk h) as [w1|]; [|done]. cbn. intros [= ->]. done. }
  destruct (stored_copy h h1 h2 o cs s EmptyString _ Hlive Hch Hbuilt Hfix Hcv Hrest)
    as (Hwf2 & Hf2 & Hold2).
  split; [|split; [done|split; [done|split; [|split; [|done]]]]].
  - unfold Array_link_clone, Array_linkValueSafe.
    rewrite (bind_Ok _ _ _ _ _ Hclone).
    erewrite (bind_Ok (guarded _ _ ≫= _)); [reflexivity|].
    erewrite (bind_Ok (guarded _ _)); [reflexivity|].
    apply guarded_Ok. exact Hlink.
  - rewrite (Hf2 _ Hforest). done.
  - intros c Hc. rewrite Hcont by (by right). apply Hsame. by right.
Qed.

Lemma Array_pushValue_run h o cs a below va :
  (∀ x, is_Some (cells h !! x) → (x < brk h)%nat) →
  children (cells h) o cs →
  well_formed (cells h) a below → cells h !! a = Some va →
  printable (λ _, True) (cells h) (Nd a below Leaf) →
  ∃ h' s, Array_pushValue o a h = (Ok (brk h), h') ∧
          children (cells h') o (cs ++ [brk h]) ∧
          well_formed (cells h') (brk h) s ∧
          forest (cells h') (Nd (brk h) s Leaf)
          = [recopy false (Node EmptyString (m_data va) (forest (cells h) below))] ∧
          (∀ c, c ∈ cs → field content (cells h') c = field content (cells h) c) ∧
          (∀ x, (x < brk h)%nat → x ∉ o :: cs → cells h' !! x = cells h !! x).
Proof.
  intros Hlive Hch Hwf Ha Hpr.
  destruct (Value_clone_run h a below va Hlive Hwf Ha Hpr)
    as (h1 & s & Hclone & Hbuilt & Hfix & Hforest).
  destruct (copy_to_link h h1 o cs s _ Hlive Hch Hbuilt Hfix)
    as (Hch1 & Hsame & Hv & Hfresh & Hp & Hn & _).
  destruct (Array_linkValueBack_run h1 o cs Hch1 (brk h) Hv Hfresh Hp Hn)
    as (h2 & Hlink & Hch2 & Hcont & Hrest & _).
  exists h2, s.
  exact (Array_link_clone_run h o cs a below va 0 0 _ h1 s h2 Hlive Hch Hclone Hbuilt
           Hfix Hforest Hlink Hch2 Hcont Hrest).
Qed.

Lemma Array_insertValue_run h o cs a below va idx c :
  (∀ x, is_Some (cells h !! x) → (x < brk h)%nat) →
  children (cells h) o cs → cs !! scan_index idx = Some c →
  well_formed (cells h) a below → cells h !! a = Some va →
  printable (λ _, True) (cells h) (Nd a below Leaf) →
  ∃ h' s, Array_insertValue o idx a h = (Ok (brk h), h') ∧
          children (cells h') o (insert_at (scan_index idx) (brk h) cs) ∧
          well_formed (cells h') (brk h) s ∧
          forest (cells h') (Nd (brk h) s Leaf)
          = [recopy false (Node EmptyString (m_data va) (forest (cells h) below))] ∧
          (∀ c, c ∈ cs → field content (cells h') c = field content (cells h) c) ∧
          (∀ x, (x < brk h)%nat → x ∉ o :: cs → cells h' !! x = cells h !! x).
Proof.
  intros Hlive Hch Hc Hwf Ha Hpr.
  destruct (Value_clone_run h a below va Hlive Hwf Ha Hpr)
    as (h1 & s & Hclone & Hbuilt & Hfix & Hforest).
  destruct (copy_to_link h h1 o cs s _ Hlive Hch Hbuilt Hfix)
    as (Hch1 & Hsame & Hv & Hfresh & Hp & Hn & _).
  destruct (Array_linkValueBefore_run h1 o cs Hch1 (brk h) idx c Hc Hv Hfresh)
    as (h2 & Hlink & Hch2 & Hcont & Hrest & _).
  exists h2, s.
  exact (Array_link_clone_run h o cs a below va idx 1 _ h1 s h2 Hlive Hch Hclone Hbuilt
           Hfix Hforest Hlink Hch2 Hcont Hrest).
Qed.

(** ** The document of the examples *)

Lemma doc_mixed_live x : is_Some (cells doc_mixed !! x) → (x < brk doc_mixed)%nat.
Proof.
  destruct (document_rooted (txt "{'a':[true,null,'x',1],'b':{}}") doc_mixed)
    as (s & _ & Hlive & _); [vm_compute; reflexivity|].
  exact (Hlive x).
Qed.

Lemma doc_mixed_object :
  well_formed (cells doc_mixed) 1%nat
    (Nd 2%nat (Nd 3%nat Leaf (Nd 4%nat Leaf (Nd 5%nat Leaf (Nd 6%nat Leaf Leaf))))
       (Nd 7%nat Leaf Leaf)).
Proof.
  split; [|split].
  - cbn [sibs]. concrete_children.
  - cbn [sound sibs].
    repeat match goal with
           | |- children _ _ _ => concrete_children
           | |- True => exact I
           | |- _ ∧ _ => split
           end.
  - apply (bool_decide_unpack _). vm_compute. reflexivity.
Qed.

Lemma doc_mixed_array :
  well_formed (cells doc_mixed) 2%nat
    (Nd 3%nat Leaf (Nd 4%nat Leaf (Nd 5%nat Leaf (Nd 6%nat Leaf Leaf)))).
Proof.
  split; [|split].
  - cbn [sibs]. concrete_children.
  - cbn [sound sibs].
    repeat match goal with
           | |- children _ _ _ => concrete_children
           | |- True => exact I
           | |- _ ∧ _ => split
           end.
  - apply (bool_decide_unpack _). vm_compute. reflexivity.
Qed.

Lemma doc_mixed_empty : well_formed (cells doc_mixed) 7%nat Leaf.
Proof.
  split; [|split].
  - cbn [sibs]. concrete_children.
  - exact I.
  - apply (bool_decide_unpack _). vm_compute. reflexivity.
Qed.

Ltac concrete_kinds :=
  cbn [printable];
  repeat match goal with
         | |- True => exact I
         | |- Leaf = Leaf ∧ _ => split; [reflexivity|exact I]
         | |- _ ∧ _ => split
         | |- ∃ v, _ !! _ = Some v ∧ _ =>
             eexists; split; [vm_compute; reflexivity|cbn [m_data]]
         | |- Leaf = Leaf => reflexivity
         end.

Lemma clone_makes_deep_copy_witness :
  ∃ h' s, Value_clone 1%nat doc_mixed = (Ok (brk doc_mixed), h') ∧
          well_formed (cells h') (brk doc_mixed) s ∧
          forest (cells h') (Nd (brk doc_mixed) s Leaf)
          = map (recopy false)
              (forest (cells doc_mixed)
                 (Nd 1%nat
                    (Nd 2%nat
                       (Nd 3%nat Leaf (Nd 4%nat Leaf (Nd 5%nat Leaf (Nd 6%nat Leaf Leaf))))
                       (Nd 7%nat Leaf Leaf)) Leaf)) ∧
          field links (cells h') (brk doc_mixed) = Some (None, None, None) ∧
          (∀ x, (x < brk doc_mixed)%nat → cells h' !! x = cells doc_mixed !! x) ∧
          (∀ x, is_Some (cells h' !! x) → (brk doc_mixed ≤ x)%nat →
                x ∈ brk doc_mixed :: addrs s).
Proof.
  apply (clone_makes_deep_copy doc_mixed 1%nat _ doc_mixed_live doc_mixed_object).
  concrete_kinds.
Defined.

(** X19. [Object::setValue(name, value)] with a name that no child of the
    object carries stores a deep copy of the value, not the value: the copy
    stands behind the old children under the name, it is what [getValue]
    returns for the name afterwards, and it holds at every level what the
    value holds.  The old children keep name, value and own children, and no
    node outside the object and its children changes, so the value stays
    where it was. *)
Theorem Object_setValue_stores_a_copy h o cs name a below d :
  (∀ x, is_Some (cells h !! x) → (x < brk h)%nat) →
  children (cells h) o cs →
  (∀ c, c ∈ cs → field m_name (cells h) c ≠ Some name) →
  well_formed (cells h) a below → field m_data (cells h) a = Some d →
  printable (λ _, True) (cells h) (Nd a below Leaf) →
  ∃ h' s, Object_setValue o name a h = (Ok (brk h), h') ∧
          children (cells h') o (cs ++ [brk h]) ∧
          Object_getValue o name h' = (Ok (brk h), h') ∧
          well_formed (cells h') (brk h) s ∧
          forest (cells h') (Nd (brk h) s Leaf)
          = [recopy true (Node name d (forest (cells h) below))] ∧
          (∀ c, c ∈ cs → field content (cells h') c = field content (cells h) c) ∧
          (∀ x, (x < brk h)%nat → x ∉ o :: cs → cells h' !! x = cells h !! x).
Proof.
  intros Hlive Hch Habs Hwf Hd Hpr.
  apply field_Some in Hd as (va & Ha & <-).
  destruct (Object_setValue_run h o cs name a below va Hlive Hch Habs Hwf Ha Hpr)
    as (h' & s & Hrun & Hch' & Hwf' & Hforest & Hcont & Hrest).
  exists h', s. split; [done|]. split; [done|]. split; [|done].
  rewrite (Object_getValue_run h' o _ name Hch').
  assert (first_named (cells h') name (cs ++ [brk h]) = Some (length cs, brk h)) as ->; [|done].
  apply first_named_Some. split; [|split].
  - by rewrite lookup_app_r, Nat.sub_diag by lia.
  - cbn [forest] in Hforest. unfold field.
    destruct (cells h' !! brk h) as [w|]; [|done]. cbn. by injection Hforest as ->.
  - intros j c' Hj Hc'. rewrite lookup_app_l in Hc' by done.
    apply list_elem_of_lookup_2 in Hc'.
    rewrite (field_content_name _ _ _ _ (Hcont c' Hc')). by apply Habs.
Qed.

Lemma Object_setValue_stores_a_copy_witness :
  ∃ h' s, Object_setValue 1%nat "c" 2%nat doc_mixed = (Ok (brk doc_mixed), h') ∧
          children (cells h') 1%nat ([2%nat; 7%nat] ++ [brk doc_mixed]) ∧
          Object_getValue 1%nat "c" h' = (Ok (brk doc_mixed), h') ∧
          well_formed (cells h') (brk doc_mixed) s ∧
          forest (cells h') (Nd (brk doc_mixed) s Leaf)
          = [recopy true
               (Node "c" PArray
                  (forest (cells doc_mixed)
                     (Nd 3%nat Leaf (Nd 4%nat Leaf (Nd 5%nat Leaf (Nd 6%nat Leaf Leaf))))))] ∧
          (∀ c, c ∈ [2%nat; 7%nat] →
                field content (cells h') c = field content (cells doc_mixed) c) ∧
          (∀ x, (x < brk doc_mixed)%nat → x ∉ [1%nat; 2%nat; 7%nat] →
                cells h' !! x = cells doc_mixed !! x).
Proof.
  assert (children (cells doc_mixed) 1%nat [2%nat; 7%nat]) as Hch
    by exact (proj1 doc_mixed_object).
  assert (∀ c, c ∈ [2%nat; 7%nat] → field m_name (cells doc_mixed) c ≠ Some "c") as Habs
    by other_names.
  assert (field m_data (cells doc_mixed) 2%nat = Some PArray) as Hd
    by (vm_compute; reflexivity).
  apply (Object_setValue_stores_a_copy doc_mixed 1%nat [2%nat; 7%nat] "c" 2%nat _ PArray
           doc_mixed_live Hch Habs doc_mixed_array Hd).
  concrete_kinds.
Defined.

(** X20. [Array::pushValue(value)] and [Array::insertValue(before, value)]
    store a deep copy of the value, not the value: the copy stands behind
    the old children, respectively before the child that the scan stops at
    for the position, it has no name, and it holds at every level what the
    value holds.  The old children keep name, value and own children, and no
    node outside the array and its children changes. *)
Theorem Array_pushValue_and_insertValue_store_copies h o cs a below d :
  (∀ x, is_Some (cells h !! x) → (x < brk h)%nat) →
  children (cells h) o cs →
  well_formed (cells h) a below → field m_data (cells h) a = Some d →
  printable (λ _, True) (cells h) (Nd a below Leaf) →
  (∃ h' s, Array_pushValue o a h = (Ok (brk h), h') ∧
           children (cells h') o (cs ++ [brk h]) ∧
           well_formed (cells h') (brk h) s ∧
           forest (cells h') (Nd (brk h) s Leaf)
           = [recopy false (Node EmptyString d (forest (cells h) below))] ∧
           (∀ c, c ∈ cs → field content (cells h') c = field content (cells h) c) ∧
           (∀ x, (x < brk h)%nat → x ∉ o :: cs → cells h' !! x = cells h !! x)) ∧
  (∀ before c, cs !! scan_index before = Some c →
     ∃ h' s, Array_insertValue o before a h = (Ok (brk h), h') ∧
             children (cells h') o (insert_at (scan_index before) (brk h) cs) ∧
             well_formed (cells h') (brk h) s ∧
             forest (cells h') (Nd (brk h) s Leaf)
             = [recopy false (Node EmptyString d (forest (cells h) below))] ∧
             (∀ c, c ∈ cs → field content (cells h') c = field content (cells h) c) ∧
             (∀ x, (x < brk h)%nat → x ∉ o :: cs → cells h' !! x = cells h !! x)).
Proof.
  intros Hlive Hch Hwf Hd Hpr. apply field_Some in Hd as (va & Ha & <-). split.
  - by eapply Array_pushValue_run.
  - intros before c Hc. by eapply Array_insertValue_run.
Qed.

Lemma Array_pushValue_and_insertValue_store_copies_witness :
  (∃ h' s, Array_pushValue 2%nat 7%nat doc_mixed = (Ok (brk doc_mixed), h') ∧
           children (cells h') 2%nat ([3%nat; 4%nat; 5%nat; 6%nat] ++ [brk doc_mixed]) ∧
           well_formed (cells h') (brk doc_mixed) s ∧
           forest (cells h') (Nd (brk doc_mixed) s Leaf)
           = [recopy false (Node EmptyString PObject (forest (cells doc_mixed) Leaf))] ∧
           (∀ c, c ∈ [3%nat; 4%nat; 5%nat; 6%nat] →
                 field content (cells h') c = field content (cells doc_mixed) c) ∧
           (∀ x, (x < brk doc_mixed)%nat → x ∉ [2%nat; 3%nat; 4%nat; 5%nat; 6%nat] →
                 cells h' !! x = cells doc_mixed !! x)) ∧
  (∃ h' s, Array_insertValue 2%nat 1 7%nat doc_mixed = (Ok (brk doc_mixed), h') ∧
           children (cells h') 2%nat
             (insert_at (scan_index 1) (brk doc_mixed) [3%nat; 4%nat; 5%nat; 6%nat]) ∧
           well_formed (cells h') (brk doc_mixed) s ∧
           forest (cells h') (Nd (brk doc_mixed) s Leaf)
           = [recopy false (Node EmptyString PObject (forest (cells doc_mixed) Leaf))] ∧
           (∀ c, c ∈ [3%nat; 4%nat; 5%nat; 6%nat] →
                 field content (cells h') c = field content (cells doc_mixed) c) ∧
           (∀ x, (x < brk doc_mixed)%nat → x ∉ [2%nat; 3%nat; 4%nat; 5%nat; 6%nat] →
                 cells h' !! x = cells doc_mixed !! x)).
Proof.
  assert (children (cells doc_mixed) 2%nat [3%nat; 4%nat; 5%nat; 6%nat]) as Hch
    by exact (proj1 doc_mixed_array).
  assert (field m_data (cells doc_mixed) 7%nat = Some PObject) as Hd
    by (vm_compute; reflexivity).
  assert (printable (λ _, True) (cells doc_mixed) (Nd 7%nat Leaf Leaf)) as Hpr
    by concrete_kinds.
  destruct (Array_pushValue_and_insertValue_store_copies doc_mixed 2%nat
              [3%nat; 4%nat; 5%nat; 6%nat] 7%nat Leaf PObject
              doc_mixed_live Hch doc_mixed_empty Hd Hpr) as [Hpush Hinsert].
  split; [exact Hpush|exact (Hinsert 1 4%nat eq_refl)].
Defined.

(** ** Copies at the root *)

Lemma well_formed_agree (m m' : gmap addr Value) o t :
  (∀ x, x ∈ o :: addrs t → m' !! x = m !! x) → well_formed m o t → well_formed m' o t.
Proof.
  intros Hsame (Hch & Hs & Hnd). split; [|split; [|done]].
  - apply (children_frame m); [|done]. intros x [->|Hx]%elem_of_cons; apply Hsame;
      [by left|right; by apply sibs_addrs].
  - apply (sound_agree m); [|done]. intros x Hx. apply Hsame. by right.
Qed.

Lemma destroy_first h r vr old :
  cells h !! r = Some vr →
  match m_firstChild vr with
  | Some c => descendants (cells h) c old ∧ r ∉ c :: addrs old
  | None => True
  end →
  ∃ h', (match m_firstChild vr with Some c => delete_ c | None => mret tt end) h
        = (Ok tt, h') ∧ brk h' = brk h ∧
        ∀ x, cells h' !! x
             = if decide (x ∈ destroyed (m_firstChild vr) old) then None else cells h !! x.
Proof.
  intros Hr Hold. destruct (m_firstChild vr) as [c|]; cbn [destroyed].
  - destruct Hold as [Hdesc _]. by apply delete_spec.
  - exists h. split; [done|]. split; [done|]. intros x. rewrite decide_False; [done|].
    apply not_elem_of_nil.
Qed.

Lemma destroyed_live h r vr old x :
  cells h !! r = Some vr →
  match m_firstChild vr with
  | Some c => descendants (cells h) c old ∧ r ∉ c :: addrs old
  | None => True
  end →
  x ∈ destroyed (m_firstChild vr) old → is_Some (cells h !! x) ∧ x ≠ r.
Proof.
  intros Hr Hold Hx. destruct (m_firstChild vr) as [c|]; cbn [destroyed] in Hx.
  - destruct Hold as [[(vc & Hvc & Hshape) _] Hnot]. split; [|by intros ->].
    apply elem_of_cons in Hx as [->|Hx]; [eauto|by eapply shape_live].
  - by apply elem_of_nil in Hx.
Qed.

(** X21. [Root::setValue(value)] destroys what the root holds and stores
    a deep copy of the value as the root's first child, also when the value
    is part of what is destroyed.  Of the root only [m_firstChild] changes:
    [m_lastChild] and [m_length] stay, and the copy gets no parent.  No
    other node changes. *)
Theorem Root_setValue_stores_a_copy h r vr old a below :
  (∀ x, is_Some (cells h !! x) → (x < brk h)%nat) →
  cells h !! r = Some vr →
  match m_firstChild vr with
  | Some c => descendants (cells h) c old ∧ r ∉ c :: addrs old
  | None => True
  end →
  well_formed (cells h) a below →
  printable (λ _, True) (cells h) (Nd a below Leaf) →
  ∃ h' s, Root_setValue r a h = (Ok (brk h), h') ∧
          cells h' !! r = Some (set_firstChild (Some (brk h)) vr) ∧
          (∀ x, x ∈ destroyed (m_firstChild vr) old → cells h' !! x = None) ∧
          well_formed (cells h') (brk h) s ∧
          forest (cells h') (Nd (brk h) s Leaf)
          = map (recopy false) (forest (cells h) (Nd a below Leaf)) ∧
          field links (cells h') (brk h) = Some (None, None, None) ∧
          (∀ x, (x < brk h)%nat → x ≠ r → x ∉ destroyed (m_firstChild vr) old →
                cells h' !! x = cells h !! x).
Proof.
  intros Hlive Hr Hold Hwf Hpr.
  destruct (children_parent_live (proj1 Hwf)) as [va Ha].
  destruct (Value_clone_run h a below va Hlive Hwf Ha Hpr)
    as (h1 & s & Hclone & Hbuilt & Hfix & Hforest).
  pose proof Hbuilt as (Hr1 & Hsame & Hlinks).
  assert (r < brk h)%nat as Hrlt by (apply Hlive; eauto).
  assert (cells h1 !! r = Some vr) as Hr' by (by rewrite Hsame).
  assert (∀ x, x ∈ destroyed (m_firstChild vr) old → (x < brk h)%nat ∧ x ≠ r) as Hgone.
  { intros x Hx. destruct (destroyed_live h r vr old x Hr Hold Hx) as [Hx' Hne].
    split; [by apply Hlive|done]. }
  assert (match m_firstChild vr with
          | Some c => descendants (cells h1) c old ∧ r ∉ c :: addrs old
          | None => True
          end) as Hold1.
  { destruct (m_firstChild vr) as [c|]; [|done]. destruct Hold as [Hdesc Hnot].
    split; [|done]. apply (descendants_frame (cells h)); [|done].
    intros x Hx. apply Hsame. by apply (Hgone x). }
  destruct (destroy_first h1 r vr old Hr' Hold1) as (h2 & Hdel & Hb2 & Hcells2).
  assert (cells h2 !! r = Some vr) as Hr2.
  { rewrite Hcells2, decide_False; [done|]. intros Hx. by destruct (Hgone r Hx). }
  set (h3 := mkHeap (alter (set_firstChild (Some (brk h))) r (cells h2)) (brk h2)).
  assert (∀ x, x ∈ brk h :: addrs s → cells h3 !! x = cells h1 !! x) as Hcopy.
  { intros x Hx.
    assert (brk h ≤ x)%nat as Hle.
    { apply elem_of_cons in Hx as [->|Hx]; [done|].
      destruct Hr1 as (_ & _ & Hlow & _). specialize (Hlow x Hx). lia. }
    subst h3. cbn [cells]. rewrite lookup_alter_ne by lia.
    rewrite Hcells2, decide_False; [done|]. intros Hg. destruct (Hgone x Hg). lia. }
  exists h3, s. split; [|split; [|split; [|split; [|split; [|split]]]]].
  - unfold Root_setValue. rewrite (bind_Ok _ _ _ _ _ Hclone).
    rewrite (bind_Ok _ _ _ _ _ (load_Some _ _ _ Hr')).
    rewrite (bind_Ok _ _ _ _ _ Hdel).
    erewrite (bind_Ok (modify _ _)) by (apply modify_Some; eauto).
    reflexivity.
  - subst h3. cbn [cells]. by rewrite lookup_alter_eq, Hr2.
  - intros x Hx. destruct (Hgone x Hx) as [_ Hne]. subst h3. cbn [cells].
    rewrite lookup_alter_ne by done. by rewrite Hcells2, decide_True.
  - apply (well_formed_agree (cells h1)); [done|]. by eapply built_well_formed.
  - rewrite (forest_same (cells h1) (cells h3) (Nd (brk h) s Leaf))
      by (intros x Hx; apply Hcopy; cbn [addrs] in Hx; by rewrite app_nil_r in Hx).
    rewrite (built_forest h h1 s va EmptyString Hbuilt Hfix _ Hforest).
    cbn [forest]. rewrite Ha. done.
  - unfold field. rewrite Hcopy by (by left). done.
  - intros x Hx Hne Hnot. subst h3. cbn [cells]. rewrite lookup_alter_ne by done.
    rewrite Hcells2, decide_False by done. by apply Hsame.
Qed.

Lemma Root_setValue_stores_a_copy_witness :
  ∃ h' s, Root_setValue 0%nat 2%nat doc_mixed = (Ok (brk doc_mixed), h') ∧
          cells h' !! 0%nat = Some (set_firstChild (Some (brk doc_mixed)) root_with_child) ∧
          (∀ x, x ∈ destroyed (m_firstChild root_with_child)
                      (Nd 2%nat
                         (Nd 3%nat Leaf (Nd 4%nat Leaf (Nd 5%nat Leaf (Nd 6%nat Leaf Leaf))))
                         (Nd 7%nat Leaf Leaf)) →
                cells h' !! x = None) ∧
          well_formed (cells h') (brk doc_mixed) s ∧
          forest (cells h') (Nd (brk doc_mixed) s Leaf)
          = map (recopy false)
              (forest (cells doc_mixed)
                 (Nd 2%nat
                    (Nd 3%nat Leaf (Nd 4%nat Leaf (Nd 5%nat Leaf (Nd 6%nat Leaf Leaf))))
                    Leaf)) ∧
          field links (cells h') (brk doc_mixed) = Some (None, None, None) ∧
          (∀ x, (x < brk doc_mixed)%nat → x ≠ 0%nat →
                x ∉ destroyed (m_firstChild root_with_child)
                      (Nd 2%nat
                         (Nd 3%nat Leaf (Nd 4%nat Leaf (Nd 5%nat Leaf (Nd 6%nat Leaf Leaf))))
                         (Nd 7%nat Leaf Leaf)) →
                cells h' !! x = cells doc_mixed !! x).
Proof.
  assert (cells doc_mixed !! 0%nat = Some root_with_child) as Hroot
    by (vm_compute; reflexivity).
  assert (printable (λ _, True) (cells doc_mixed)
            (Nd 2%nat (Nd 3%nat Leaf (Nd 4%nat Leaf (Nd 5%nat Leaf (Nd 6%nat Leaf Leaf))))
               Leaf)) as Hpr by concrete_kinds.
  refine (Root_setValue_stores_a_copy doc_mixed 0%nat root_with_child _ 2%nat _
            doc_mixed_live Hroot _ doc_mixed_array Hpr).
  split; [exact (well_formed_descendants _ _ _ doc_mixed_object)|].
  apply (bool_decide_unpack _). vm_compute. reflexivity.
Defined.

(** X22. [Root::clone] makes a new root and gives it a deep copy of what
    the original holds as its first child, through [Root::linkValue]: the
    new root has no last child and the count 0, and the copy has no parent.
    The original stays as it was. *)
Theorem Root_clone_copies_first_child h r vr c below :
  (∀ x, is_Some (cells h !! x) → (x < brk h)%nat) →
  cells h !! r = Some vr → m_data vr = PRoot → m_firstChild vr = Some c →
  well_formed (cells h) c below →
  printable (λ _, True) (cells h) (Nd c below Leaf) →
  ∃ h' s, Value_clone r h = (Ok (brk h), h') ∧
          cells h' !! brk h
          = Some (mkValue None (Some (S (brk h))) None None None 0 EmptyString PRoot) ∧
          well_formed (cells h') (S (brk h)) s ∧
          forest (cells h') (Nd (S (brk h)) s Leaf)
          = map (recopy false) (forest (cells h) (Nd c below Leaf)) ∧
          field links (cells h') (S (brk h)) = Some (None, None, None) ∧
          (∀ x, (x < brk h)%nat → cells h' !! x = cells h !! x).
Proof.
  intros Hlive Hr Hroot Hfirst Hwf Hpr.
  destruct (children_parent_live (proj1 Hwf)) as [vc Hc].
  assert (S (length (addrs below)) ≤ size (cells h))%nat as Hsize.
  { change (S (length (addrs below))) with (length (c :: addrs below)).
    destruct Hwf as (Hch & Hs & Hnd). apply live_length; [done|].
    intros x [->|Hx]%elem_of_cons; [eauto|by eapply sound_live]. }
  destruct (built_new h PRoot Hlive) as ((Hr1 & Hsame1 & _) & _).
  set (h1 := made h (new_Value EmptyString PRoot)) in *.
  assert (∀ x, x ∈ c :: addrs below → (x < brk h)%nat) as Hold.
  { intros x Hx. apply Hlive. destruct Hwf as (Hch & Hs & _).
    apply elem_of_cons in Hx as [->|Hx]; [eauto|by eapply sound_live]. }
  assert (cells h1 !! brk h = Some (new_Value EmptyString PRoot)) as Hnew
    by (subst h1; cbn; by rewrite lookup_insert_eq).
  destruct (clone_node below (clone_children_spec below) (2 * size (cells h))%nat h1 c vc)
    as (h2 & s & Hclone & Hbuilt & Hfix & Hforest).
  - lia.
  - by destruct Hr1 as (_ & Hl & _).
  - rewrite Hsame1; [done|]. apply Hold. by left.
  - apply (shape_frame (cells h)).
    + intros x Hx. apply Hsame1, Hold. by right.
    + by eapply well_formed_shape.
  - apply (printable_frame _ (cells h)); [|done].
    intros x Hx. apply Hsame1, Hold. cbn [addrs] in Hx. rewrite app_nil_r in Hx. done.
  - assert (brk h1 = S (brk h)) as Hb1 by done.
    pose proof (built_well_formed _ _ _ Hbuilt) as Hwf2.
    pose proof (built_forest h1 h2 s vc EmptyString Hbuilt Hfix _ Hforest) as Hcopied.
    pose proof Hbuilt as (Hr2 & Hsame2 & Hlinks2).
    rewrite Hb1 in Hclone, Hwf2, Hcopied, Hlinks2.
    assert (cells h2 !! brk h = Some (new_Value EmptyString PRoot)) as Hnew2
      by (rewrite Hsame2 by lia; done).
    set (h3 := mkHeap (alter (set_firstChild (Some (S (brk h)))) (brk h) (cells h2)) (brk h2)).
    assert (∀ x, x ≠ brk h → cells h3 !! x = cells h2 !! x) as Hsame3
      by (intros x Hx; subst h3; cbn [cells]; by rewrite lookup_alter_ne).
    assert (∀ x, x ∈ S (brk h) :: addrs s → cells h3 !! x = cells h2 !! x) as Hcopy.
    { intros x Hx. apply Hsame3. apply elem_of_cons in Hx as [->|Hx]; [lia|].
      destruct Hr2 as (_ & _ & Hlow & _). specialize (Hlow x Hx). lia. }
    exists h3, s. split; [|split; [|split; [|split; [|split]]]].
    + unfold Value_clone. erewrite bind_Ok by reflexivity. rewrite clone_S.
      rewrite (bind_Ok _ _ _ _ _ (load_Some _ _ _ Hr)), Hroot, Hfirst.
      change ((copy ← alloc (new_Value EmptyString PRoot);
               x ← clone (2 * size (cells h))%nat c;
               Root_linkValue copy (Some x);; mret copy) h)
        with ((x ← clone (2 * size (cells h))%nat c;
               Root_linkValue (brk h) (Some x);; mret (brk h)) h1).
      rewrite (bind_Ok _ _ _ _ _ Hclone).
      assert (Root_linkValue (brk h) (Some (S (brk h))) h2 = (Ok (Some (S (brk h))), h3))
        as Hlink.
      { unfold Root_linkValue. rewrite (bind_Ok _ _ _ _ _ (load_Some _ _ _ Hnew2)).
        cbn [m_firstChild new_Value]. erewrite bind_Ok by reflexivity.
        erewrite (bind_Ok (modify _ _)) by (apply modify_Some; eauto). reflexivity. }
      by rewrite (bind_Ok _ _ _ _ _ Hlink).
    + subst h3. cbn [cells]. by rewrite lookup_alter_eq, Hnew2.
    + by apply (well_formed_agree (cells h2)).
    + rewrite (forest_same (cells h2) (cells h3) (Nd (S (brk h)) s Leaf))
        by (intros x Hx; apply Hcopy; cbn [addrs] in Hx; by rewrite app_nil_r in Hx).
      rewrite Hcopied. cbn [forest]. rewrite Hc. cbn [map recopy].
      rewrite (forest_same (cells h) (cells h1) below); [done|].
      intros x Hx. apply Hsame1, Hold. by right.
    + unfold field. rewrite Hcopy by (by left). done.
    + intros x Hx. rewrite Hsame3 by lia. rewrite Hsame2 by lia. by apply Hsame1.
Qed.

Lemma Root_clone_copies_first_child_witness :
  ∃ h' s, Value_clone 0%nat doc_mixed = (Ok (brk doc_mixed), h') ∧
          cells h' !! brk doc_mixed
          = Some (mkValue None (Some (S (brk doc_mixed))) None None None 0 EmptyString PRoot) ∧
          well_formed (cells h') (S (brk doc_mixed)) s ∧
          forest (cells h') (Nd (S (brk doc_mixed)) s Leaf)
          = map (recopy false)
              (forest (cells doc_mixed)
                 (Nd 1%nat
                    (Nd 2%nat
                       (Nd 3%nat Leaf (Nd 4%nat Leaf (Nd 5%nat Leaf (Nd 6%nat Leaf Leaf))))
                       (Nd 7%nat Leaf Leaf)) Leaf)) ∧
          field links (cells h') (S (brk doc_mixed)) = Some (None, None, None) ∧
          (∀ x, (x < brk doc_mixed)%nat → cells h' !! x = cells doc_mixed !! x).
Proof.
  assert (cells doc_mixed !! 0%nat = Some root_with_child) as Hroot
    by (vm_compute; reflexivity).
  assert (printable (λ _, True) (cells doc_mixed)
            (Nd 1%nat
               (Nd 2%nat (Nd 3%nat Leaf (Nd 4%nat Leaf (Nd 5%nat Leaf (Nd 6%nat Leaf Leaf))))
                  (Nd 7%nat Leaf Leaf)) Leaf)) as Hpr by concrete_kinds.
  exact (Root_clone_copies_first_child doc_mixed 0%nat root_with_child 1%nat _
           doc_mixed_live Hroot eq_refl eq_refl doc_mixed_object Hpr).
Defined.

(** ** A copy in the place of a child *)

(** The child to go and what hangs below it, in the state after [clone],
    seen from the copy. *)
Lemma copy_to_replace h h1 o cs s c t i :
  (∀ x, is_Some (cells h !! x) → (x < brk h)%nat) →
  children (cells h) o cs → cs !! i = Some c →
  descendants (cells h) c t →
  built h h1 s →
  descendants (cells h1) c t ∧ brk h ∉ addrs t ∧
  (∀ x, x ∈ addrs s → x ∉ o :: brk h :: cs ∧ x ∉ addrs t).
Proof.
  intros Hlive Hch Hi Hdesc ((_ & _ & Hlow & _) & Hsame & _).
  assert (∀ x, x ∈ c :: addrs t → (x < brk h)%nat) as Hgone.
  { intros x Hx. apply Hlive. destruct Hdesc as [(vc & Hvc & Hshape) _].
    apply elem_of_cons in Hx as [->|Hx]; [eauto|by eapply shape_live]. }
  assert (∀ x, x ∈ o :: cs → (x < brk h)%nat) as Hold.
  { intros x [->|Hx]%elem_of_cons; apply Hlive;
      [by eapply children_parent_live|by eapply children_live]. }
  split; [|split].
  - apply (descendants_frame (cells h)); [|done]. intros x Hx. by apply Hsame, Hgone.
  - intros Hx. specialize (Hgone (brk h) ltac:(by right)). lia.
  - intros x Hx. specialize (Hlow x Hx). split.
    + intros [->|[->|Hin]%elem_of_cons]%elem_of_cons.
      * specialize (Hold o ltac:(by left)). lia.
      * lia.
      * specialize (Hold x ltac:(by right)). lia.
    + intros Hin. specialize (Hgone x ltac:(by right)). lia.
Qed.

(** X23. [Object::setValue(name, value)] with a name that children of the
    object carry puts a deep copy of the value in the place of the first
    child of that name and destroys that child with everything below it.
    The copy is made first, so the value may be that child or a part of
    it.  The other children keep place, name, value and own children, and
    no node outside the object, its children and the destroyed subtree
    changes. *)
Theorem Object_setValue_replaces_by_a_copy h o cs i c t name a below d :
  (∀ x, is_Some (cells h !! x) → (x < brk h)%nat) →
  children (cells h) o cs →
  cs !! i = Some c → field m_name (cells h) c = Some name →
  (∀ j c', (j < i)%nat → cs !! j = Some c' → field m_name (cells h) c' ≠ Some name) →
  descendants (cells h) c t →
  (∀ x, x ∈ addrs t → x ∉ o :: cs) →
  well_formed (cells h) a below → field m_data (cells h) a = Some d →
  printable (λ _, True) (cells h) (Nd a below Leaf) →
  ∃ h' s, Object_setValue o name a h = (Ok (brk h), h') ∧
          children (cells h') o (<[i := brk h]> cs) ∧
          (∀ x, x ∈ c :: addrs t → cells h' !! x = None) ∧
          well_formed (cells h') (brk h) s ∧
          forest (cells h') (Nd (brk h) s Leaf)
          = [recopy true (Node name d (forest (cells h) below))] ∧
          (∀ j c', j ≠ i → cs !! j = Some c' →
                   field content (cells h') c' = field content (cells h) c') ∧
          (∀ x, (x < brk h)%nat → x ∉ o :: cs → x ∉ addrs t →
                cells h' !! x = cells h !! x).
Proof.
  intros Hlive Hch Hi Hname Hfirst Hdesc Hdisj Hwf Hd Hpr.
  apply field_Some in Hd as (va & Ha & <-).
  destruct (Value_clone_run h a below va Hlive Hwf Ha Hpr)
    as (h1 & s & Hclone & Hbuilt & Hfix & Hforest).
  destruct (copy_to_link h h1 o cs s _ Hlive Hch Hbuilt Hfix)
    as (Hch1 & Hsame & Hv & Hfresh & _).
  destruct (copy_to_replace h h1 o cs s c t i Hlive Hch Hi Hdesc Hbuilt)
    as (Hdesc1 & Hvt & Hnew).
  pose proof (list_elem_of_lookup_2 _ _ _ Hi) as Hc.
  destruct (Object_linkValue_replace h1 o cs i c t name (brk h) Hch1 Hi)
    as (h2 & Hlink & (Hch2 & Hname2 & Hothers & Hgone & Hrest) & Hbody); [| |done..|].
  { rewrite Hsame by (by right). done. }
  { intros j c' Hj Hc'. rewrite Hsame by (right; by eapply list_elem_of_lookup_2).
    by eapply Hfirst. }
  destruct (kept_copy h h1 h2 s name _ Hbuilt Hfix (named_content _ _ _ _ Hname2 Hbody Hv))
    as (Hwf2 & Hf2).
  { intros x Hx. destruct (Hnew x Hx). by apply Hrest. }
  exists h2, s. split; [|split; [done|split; [done|split; [done|split; [|split]]]]].
  - unfold Object_setValue, Object_linkValueSafe.
    rewrite (bind_Ok _ _ _ _ _ Hclone).
    erewrite (bind_Ok (guarded _ _ ≫= _)); [reflexivity|].
    erewrite (bind_Ok (guarded _ _)); [reflexivity|].
    apply guarded_Ok. exact Hlink.
  - rewrite (Hf2 _ Hforest). done.
  - intros j c' Hne Hj. rewrite (Hothers j c' Hne Hj). apply Hsame. right.
    by eapply list_elem_of_lookup_2.
  - intros x Hx Hin Hnt. rewrite Hrest; [|set_solver by lia|done].
    destruct Hbuilt as (_ & Hs & _). by apply Hs.
Qed.

Lemma Object_setValue_replaces_by_a_copy_witness :
  ∃ h' s, Object_setValue 1%nat "a" 5%nat doc_mixed = (Ok (brk doc_mixed), h') ∧
          children (cells h') 1%nat (<[0%nat := brk doc_mixed]> [2%nat; 7%nat]) ∧
          (∀ x, x ∈ 2%nat
                  :: addrs (Nd 3%nat Leaf (Nd 4%nat Leaf (Nd 5%nat Leaf (Nd 6%nat Leaf Leaf)))) →
                cells h' !! x = None) ∧
          well_formed (cells h') (brk doc_mixed) s ∧
          forest (cells h') (Nd (brk doc_mixed) s Leaf)
          = [recopy true (Node "a" (PString "x") (forest (cells doc_mixed) Leaf))] ∧
          (∀ j c', j ≠ 0%nat → [2%nat; 7%nat] !! j = Some c' →
                   field content (cells h') c' = field content (cells doc_mixed) c') ∧
          (∀ x, (x < brk doc_mixed)%nat → x ∉ [1%nat; 2%nat; 7%nat] →
                x ∉ addrs (Nd 3%nat Leaf (Nd 4%nat Leaf (Nd 5%nat Leaf (Nd 6%nat Leaf Leaf)))) →
                cells h' !! x = cells doc_mixed !! x).
Proof.
  assert (children (cells doc_mixed) 1%nat [2%nat; 7%nat]) as Hch
    by exact (proj1 doc_mixed_object).
  assert (field m_name (cells doc_mixed) 2%nat = Some "a") as Hname
    by (vm_compute; reflexivity).
  assert (field m_data (cells doc_mixed) 5%nat = Some (PString "x")) as Hd
    by (vm_compute; reflexivity).
  assert (well_formed (cells doc_mixed) 5%nat Leaf) as Hwf.
  { split; [|split].
    - cbn [sibs]. concrete_children.
    - exact I.
    - apply (bool_decide_unpack _). vm_compute. reflexivity. }
  assert (printable (λ _, True) (cells doc_mixed) (Nd 5%nat Leaf Leaf)) as Hpr
    by concrete_kinds.
  refine (Object_setValue_replaces_by_a_copy doc_mixed 1%nat [2%nat; 7%nat] 0%nat 2%nat
            _ "a" 5%nat Leaf (PString "x") doc_mixed_live Hch eq_refl Hname _
            (well_formed_descendants _ _ _ doc_mixed_array) _ Hwf Hd Hpr).
  - intros j c' Hj. inversion Hj.
  - intros x Hx. apply (bool_decide_unpack _).
    cbn [addrs app] in Hx.
    repeat (apply elem_of_cons in Hx as [->|Hx]; [vm_compute; reflexivity|]).
    destruct (proj1 (elem_of_nil x) Hx).
Defined.

(** X24. [Array::setValue(position, value)] puts a deep copy of the value
    in the place of the child that the scan stops at for the position and
    destroys that child with everything below it.  The copy is made first,
    so the value may be that child, a part of it, or the array itself.  The
    other children keep place, name, value and own children, and no node
    outside the array, its children and the destroyed subtree changes. *)
Theorem Array_setValue_replaces_by_a_copy h o cs idx c t a below d :
  (∀ x, is_Some (cells h !! x) → (x < brk h)%nat) →
  children (cells h) o cs →
  cs !! scan_index idx = Some c →
  descendants (cells h) c t →
  (∀ x, x ∈ addrs t → x ∉ o :: cs) →
  well_formed (cells h) a below → field m_data (cells h) a = Some d →
  printable (λ _, True) (cells h) (Nd a below Leaf) →
  ∃ h' s, Array_setValue o idx a h = (Ok (brk h), h') ∧
          children (cells h') o (<[scan_index idx := brk h]> cs) ∧
          (∀ x, x ∈ c :: addrs t → cells h' !! x = None) ∧
          well_formed (cells h') (brk h) s ∧
          forest (cells h') (Nd (brk h) s Leaf)
          = [recopy false (Node EmptyString d (forest (cells h) below))] ∧
          (∀ j c', j ≠ scan_index idx → cs !! j = Some c' →
                   field content (cells h') c' = field content (cells h) c') ∧
          (∀ x, (x < brk h)%nat → x ∉ o :: cs → x ∉ addrs t →
                cells h' !! x = cells h !! x).
Proof.
  intros Hlive Hch Hi Hdesc Hdisj Hwf Hd Hpr.
  apply field_Some in Hd as (va & Ha & <-).
  destruct (Value_clone_run h a below va Hlive Hwf Ha Hpr)
    as (h1 & s & Hclone & Hbuilt & Hfix & Hforest).
  destruct (copy_to_link h h1 o cs s _ Hlive Hch Hbuilt Hfix)
    as (Hch1 & Hsame & Hv & Hfresh & _ & _ & Hname1).
  destruct (copy_to_replace h h1 o cs s c t _ Hlive Hch Hi Hdesc Hbuilt)
    as (Hdesc1 & Hvt & Hnew).
  destruct (Array_linkValueAt_run h1 o cs Hch1 (brk h) idx c t Hi Hdesc1)
    as (h2 & Hlink & Hch2 & Hcont & Hothers & Hgone & Hrest); [|done..|].
  { intros x Hx [->|[->|Hin]%elem_of_cons]%elem_of_cons.
    - apply (Hdisj o Hx). by left.
    - done.
    - apply (Hdisj x Hx). by right. }
  assert (field content (cells h2) (brk h)
          = (λ w, (EmptyString, m_data w, m_firstChild w, m_lastChild w, m_length w))
              <$> cells h1 !! brk h) as Hcv.
  { rewrite Hcont. revert Hname1. unfold field, content.
    destruct (cells h1 !! brk h) as [w1|]; [|done]. cbn. intros [= ->]. done. }
  destruct (kept_copy h h1 h2 s EmptyString _ Hbuilt Hfix Hcv) as (Hwf2 & Hf2).
  { intros x Hx. destruct (Hnew x Hx). by apply Hrest. }
  exists h2, s. split; [|split; [done|split; [done|split; [done|split; [|split]]]]].
  - unfold Array_setValue, Array_link_clone, Array_linkValueSafe.
    rewrite (bind_Ok _ _ _ _ _ Hclone).
    erewrite (bind_Ok (guarded _ _ ≫= _)); [reflexivity|].
    erewrite (bind_Ok (guarded _ _)); [reflexivity|].
    apply guarded_Ok. exact Hlink.
  - rewrite (Hf2 _ Hforest). done.
  - intros j c' Hne Hj. rewrite (Hothers j c' Hne Hj). apply Hsame. right.
    by eapply list_elem_of_lookup_2.
  - intros x Hx Hin Hnt. rewrite Hrest; [|set_solver by lia|done].
    destruct Hbuilt as (_ & Hs & _). by apply Hs.
Qed.

Lemma Array_setValue_replaces_by_a_copy_witness :
  ∃ h' s, Array_setValue 2%nat 0 2%nat doc_mixed = (Ok (brk doc_mixed), h') ∧
          children (cells h') 2%nat
            (<[scan_index 0 := brk doc_mixed]> [3%nat; 4%nat; 5%nat; 6%nat]) ∧
          (∀ x, x ∈ 3%nat :: addrs Leaf → cells h' !! x = None) ∧
          well_formed (cells h') (brk doc_mixed) s ∧
          forest (cells h') (Nd (brk doc_mixed) s Leaf)
          = [recopy false
               (Node EmptyString PArray
                  (forest (cells doc_mixed)
                     (Nd 3%nat Leaf (Nd 4%nat Leaf (Nd 5%nat Leaf (Nd 6%nat Leaf Leaf))))))] ∧
          (∀ j c', j ≠ scan_index 0 → [3%nat; 4%nat; 5%nat; 6%nat] !! j = Some c' →
                   field content (cells h') c' = field content (cells doc_mixed) c') ∧
          (∀ x, (x < brk doc_mixed)%nat → x ∉ [2%nat; 3%nat; 4%nat; 5%nat; 6%nat] →
                x ∉ addrs Leaf → cells h' !! x = cells doc_mixed !! x).
Proof.
  assert (children (cells doc_mixed) 2%nat [3%nat; 4%nat; 5%nat; 6%nat]) as Hch
    by exact (proj1 doc_mixed_array).
  assert (field m_data (cells doc_mixed) 2%nat = Some PArray) as Hd
    by (vm_compute; reflexivity).
  assert (descendants (cells doc_mixed) 3%nat Leaf) as Hdesc.
  { split; [|apply (bool_decide_unpack _); vm_compute; reflexivity].
    eexists. split; [vm_compute; reflexivity|]. reflexivity. }
  assert (printable (λ _, True) (cells doc_mixed)
            (Nd 2%nat (Nd 3%nat Leaf (Nd 4%nat Leaf (Nd 5%nat Leaf (Nd 6%nat Leaf Leaf))))
               Leaf)) as Hpr by concrete_kinds.
  refine (Array_setValue_replaces_by_a_copy doc_mixed 2%nat [3%nat; 4%nat; 5%nat; 6%nat]
            0 3%nat Leaf 2%nat _ PArray doc_mixed_live Hch eq_refl Hdesc _
            doc_mixed_array Hd Hpr).
  intros x Hx. destruct (proj1 (elem_of_nil x) Hx).
Defined.

(** ** Numbers through print and parse *)


Section compact.
Context (show_double : float → string).


End compact.

